(** * Template compiler front-end: naming phase, block validation, scheduling

    A shallow embedding of

    - the IR naming phase ([phaseNaming], [addNamesToView], [getVariableName],
      [normalizeStylePropName], [stripImportant]),
    - the block-grammar rules for [for], [switch] and [defer] blocks and the
      time-value normalisation they use,
    - the humanizer of the template tests ([R3AstHumanizer],
      [expectFromR3Nodes]),
    - the callback scheduler returned by [getCallbackScheduler],

    together with the properties established about them. *)

From stdpp Require Import gmap strings list fin_maps.
From Stdlib Require Import Ascii String DecimalString DecimalNat.


(** ** Strings as the template literals produce them *)

Module Text.

(** [`${n}`] for a non-negative integer [n]: its decimal numeral. *)
Definition showNat (n : nat) : string :=
  NilEmpty.string_of_uint (Nat.to_uint n).

(** [`${x}`] for a [string|null] value. *)
Definition showNullable (x : option string) : string :=
  match x with
  | Some s => s
  | None => "null"
  end.

(** The decimal digits, and the lists of characters made of them. *)
Definition isDigit (c : ascii) : bool :=
  let n := nat_of_ascii c in (48 <=? n) && (n <=? 57).

Definition allDigits (l : list ascii) : Prop := Forall (fun c => isDigit c = true) l.

(** [s.replace(a, b)] with a one-character string pattern: only the first
    occurrence is replaced. *)
Fixpoint replaceFirst (a b : ascii) (s : string) : string :=
  match s with
  | EmptyString => EmptyString
  | String c s' =>
      if Ascii.eqb c a then String b s' else String c (replaceFirst a b s')
  end.

(** [s.startsWith(p)] *)
Definition startsWith (p s : string) : bool := String.prefix p s.

(** [s.indexOf(p)], [None] standing for [-1]. *)
Definition indexOf (p s : string) : option nat := String.index 0 p s.

(** [s.substring(0, n)] for [n] within the string. *)
Definition substringTo (n : nat) (s : string) : string := String.substring 0 n s.

(** Whether [p] occurs somewhere in [s]. *)
Definition occursIn (p s : string) : Prop :=
  exists a b, s = a +:+ p +:+ b.

End Text.

(** ** The IR data model used by the naming phase *)

Module Naming.
Import Text.

(** [ir.XrefId], a number. *)
Definition XrefId := nat.

(** Identity of an [ir.SemanticVariable] object.  Several [Variable]
    operations may point at the same object. *)
Definition VarRef := nat.

(** [ir.Namespace]; the naming phase only hands it to [prefixWithNamespace]. *)
Inductive Namespace := HTML | SVG | Math.

(** [ir.CompatibilityMode], an enum whose first member is [Normal]; only
    [TemplateDefinitionBuilder] is truthy. *)
Inductive CompatibilityMode := Normal | TemplateDefinitionBuilder.

(** [c === ir.CompatibilityMode.TemplateDefinitionBuilder], which is also
    the truth value of [c]. *)
Definition isTemplateDefinitionBuilder (c : CompatibilityMode) : bool :=
  match c with
  | TemplateDefinitionBuilder => true
  | Normal => false
  end.

(** [ir.SemanticVariableKind], with the identifier of an [Identifier]
    variable carried by its kind. *)
Inductive SemanticVariableKind :=
| Context
| Identifier (identifier : string)
| SavedView.

(** [ir.SemanticVariable]: [name] is [null] until the variable is named. *)
Record SemanticVariable := mkSemanticVariable {
  variable_kind : SemanticVariableKind;
  variable_name : option string
}.

(** The expressions [ir.visitExpressionsInOp] hands to its visitor.  The
    naming phase looks only at [ir.ReadVariableExpr]. *)
Inductive Expr :=
| ReadVariableExpr (xref : XrefId) (name : option string)
| OtherExpr.

(** The kinds of operation the naming phase switches on, each with the fields
    it reads or writes. *)
Inductive OpKind :=
| Property (name : string) (isAnimationTrigger : bool)
| HostProperty (name : string) (isAnimationTrigger : bool)
| Listener (name : string) (handlerFnName : option string) (slot : option nat)
    (tag : option string) (isAnimationListener : bool)
    (animationPhase : option string)
| VariableOp (xref : XrefId) (variable : VarRef)
| Template (xref : XrefId) (slot : option nat) (tag : option string)
    (namespace : Namespace)
| StyleProp (name : string)
| ClassProp (name : string)
| OtherOp.

(** An operation: its kind-specific fields and the expressions
    [ir.visitExpressionsInOp] visits in it, in visiting order. *)
Record Op := mkOp {
  kind : OpKind;
  exprs : list Expr
}.

(** The two classes of compilation unit. *)
Inductive UnitKind := ViewCompilationUnit | HostBindingCompilationUnit.

(** [unit instanceof HostBindingCompilationUnit] *)
Definition isHostBinding (k : UnitKind) : bool :=
  match k with
  | HostBindingCompilationUnit => true
  | ViewCompilationUnit => false
  end.

(** A compilation unit: [ops] is the sequence [unit.ops()] yields. *)
Record CompilationUnit := mkUnit {
  unitKind : UnitKind;
  fnName : option string;
  ops : list Op
}.

(** A compilation job.  Units are objects shared by reference, keyed here by
    their xref; [views] is the table [job.views] and also holds the root. *)
Record CompilationJob := mkJob {
  componentName : string;
  fnSuffix : string;
  compatibility : CompatibilityMode;
  root : XrefId;
  views : gmap XrefId CompilationUnit;
  variables : gmap VarRef SemanticVariable
}.

(** The mutable objects the phase writes to, with the counter object
    [state = {index}] created by [phaseNaming]. *)
Record Heap := mkHeap {
  h_views : gmap XrefId CompilationUnit;
  h_variables : gmap VarRef SemanticVariable;
  h_index : nat
}.

(** What the phase can throw.  These are plain [Error]s (or the [TypeError]
    of dereferencing a missing view), all raised by the phase itself.
    [UndefinedVariable] is for a [VarRef] that points at no object, which no
    program can build. *)
Inductive NamingError :=
| ExpectedSlotListener
| MustBeCompilingComponent
| ExpectedSlotTemplate
| VariableNotYetNamed (xref : XrefId)
| UndefinedView
| UndefinedVariable.

(** Result of running a piece of the phase: a value, an exception, or no
    result within the given recursion depth. *)
Inductive Outcome (A : Type) :=
| Done (a : A)
| Throw (e : NamingError)
| Diverge.
Arguments Done {A} a.
Arguments Throw {A} e.
Arguments Diverge {A}.

(** Computations over the heap.  The heap is returned in every case: the
    writes made before an exception stay. *)
Definition M (A : Type) : Type := Heap -> Outcome A * Heap.

(** Return, sequencing, [throw], and running out of depth. *)
Definition ret {A} (a : A) : M A := fun h => (Done a, h).

Definition bind {A B} (m : M A) (k : A -> M B) : M B := fun h =>
  match m h with
  | (Done a, h') => k a h'
  | (Throw e, h') => (Throw e, h')
  | (Diverge, h') => (Diverge, h')
  end.

Definition throw {A} (e : NamingError) : M A := fun h => (Throw e, h).

Definition diverge {A} : M A := fun h => (Diverge, h).

Declare Scope naming_scope.
Delimit Scope naming_scope with naming.
Notation "x <- m ;; k" := (bind m (fun x => k))
  (at level 100, m at next level, right associativity) : naming_scope.
Notation "m ;;; k" := (bind m (fun _ => k))
  (at level 100, right associativity) : naming_scope.
Local Open Scope naming_scope.

(** A [for] loop over a list, threading an accumulator. *)
Fixpoint foldM {A B} (f : B -> A -> M B) (l : list A) (b : B) : M B :=
  match l with
  | [] => ret b
  | a :: l' => b' <- f b a ;; foldM f l' b'
  end.

(** Reading the unit [u]; a unit that is not there is [undefined]. *)
Definition getUnit (u : XrefId) : M CompilationUnit := fun h =>
  match h_views h !! u with
  | Some cu => (Done cu, h)
  | None => (Throw UndefinedView, h)
  end.

(** [unit.fnName = n] *)
Definition setFnName (u : XrefId) (n : string) : M unit := fun h =>
  (Done tt,
   mkHeap (alter (fun cu => mkUnit (unitKind cu) (Some n) (ops cu)) u (h_views h))
          (h_variables h) (h_index h)).

(** Writes to the fields of the operation at position [i] of unit [u],
    which make it [o]. *)
Definition setOp (u : XrefId) (i : nat) (o : Op) : M unit := fun h =>
  (Done tt,
   mkHeap (alter (fun cu => mkUnit (unitKind cu) (fnName cu) (<[i:=o]> (ops cu)))
                 u (h_views h))
          (h_variables h) (h_index h)).

(** The same for the kind-specific fields only. *)
Definition setKind (u : XrefId) (i : nat) (o : Op) (k : OpKind) : M unit :=
  setOp u i (mkOp k (exprs o)).

(** The name [getVariableName] builds for a variable of kind [k] when the
    counter stands at [n]. *)
Definition variableNameFor (k : SemanticVariableKind) (n : nat) : string :=
  match k with
  | Context => "ctx_r" +:+ showNat n
  | Identifier identifier => identifier +:+ "_" +:+ showNat n
  | SavedView => "_r" +:+ showNat n
  end.

(** [getVariableName(variable, state)] *)
Definition getVariableName (v : VarRef) : M string := fun h =>
  match h_variables h !! v with
  | None => (Throw UndefinedVariable, h)
  | Some sv =>
      match variable_name sv with
      | Some n => (Done n, h)
      | None =>
          let n := variableNameFor (variable_kind sv) (h_index h) in
          (Done n,
           mkHeap (h_views h)
                  (<[v := mkSemanticVariable (variable_kind sv) (Some n)]> (h_variables h))
                  (S (h_index h)))
      end
  end.

(** Strips [!important] out of the given style or class name. *)
Definition stripImportant (name : string) : string :=
  match indexOf "!important" name with
  | Some importantIndex => substringTo importantIndex name
  | None => name
  end.

(** The visitor of the second loop run over the expressions of one
    operation.  The expressions before a failing read keep their new names. *)
Fixpoint resolveExprs (varNames : gmap XrefId string) (es : list Expr)
  : list Expr * option NamingError :=
  match es with
  | [] => ([], None)
  | ReadVariableExpr x None :: es' =>
      match varNames !! x with
      | None => (ReadVariableExpr x None :: es', Some (VariableNotYetNamed x))
      | Some n =>
          let '(r, err) := resolveExprs varNames es' in
          (ReadVariableExpr x (Some n) :: r, err)
      end
  | e :: es' =>
      let '(r, err) := resolveExprs varNames es' in (e :: r, err)
  end.

Section phase.
(** Helpers imported from other files of the compiler. *)
Variable sanitizeIdentifier : string -> string.
Variable hyphenate : string -> string.
Variable prefixWithNamespace : option string -> Namespace -> string.

(** [unit.job.fnSuffix] and [unit.job.compatibility]: every unit of a job
    points back at that job. *)
Variable jobFnSuffix : string.
Variable jobCompatibility : CompatibilityMode.

(** Normalizes a style prop name by hyphenating it (unless its a CSS
    variable). *)
Definition normalizeStylePropName (name : string) : string :=
  if startsWith "--" name then name else hyphenate name.

(** [op.tag ? op.tag.replace('-', '_') : 'host']; the empty string is
    falsy. *)
Definition safeTagNameOf (tag : option string) : string :=
  match tag with
  | None => "host"
  | Some EmptyString => "host"
  | Some t => replaceFirst "-" "_" t
  end.

(** The [Listener] case outside the legacy host-binding branch, for an
    operation whose [handlerFnName] is [null] and whose slot is [slot]. *)
Definition listenerNames (unitFnName : option string) (name : string)
    (slot : nat) (tag : option string) (isAnimationListener : bool)
    (animationPhase : option string) : string * string :=
  let safeTagName := safeTagNameOf tag in
  if isAnimationListener then
    (sanitizeIdentifier
       (showNullable unitFnName +:+ "_" +:+ safeTagName +:+ "_animation_" +:+ name
          +:+ "_" +:+ showNullable animationPhase +:+ "_" +:+ showNat slot
          +:+ "_listener"),
     "@" +:+ name +:+ "." +:+ showNullable animationPhase)
  else
    (sanitizeIdentifier
       (showNullable unitFnName +:+ "_" +:+ safeTagName +:+ "_" +:+ name +:+ "_"
          +:+ showNat slot +:+ "_listener"),
     name).

(** One iteration of the first loop of [addNamesToView]: the [switch] on
    the kind of the operation at position [i] of unit [u].  [recur] is
    [addNamesToView] itself, for child views. *)
Definition nameOp (recur : XrefId -> string -> bool -> M unit)
    (u : XrefId) (baseName : string) (compatibility : bool)
    (varNames : gmap XrefId string) (i : nat) : M (gmap XrefId string) :=
  cu <- getUnit u ;;
  match ops cu !! i with
  | None => ret varNames
  | Some op =>
      match kind op with
      | Property name isAnimationTrigger =>
          if isAnimationTrigger then
            setKind u i op (Property ("@" +:+ name) isAnimationTrigger) ;;;
            ret varNames
          else ret varNames
      | HostProperty name isAnimationTrigger =>
          if isAnimationTrigger then
            setKind u i op (HostProperty ("@" +:+ name) isAnimationTrigger) ;;;
            ret varNames
          else ret varNames
      | Listener name handlerFnName slot tag isAnimationListener animationPhase =>
          if isTemplateDefinitionBuilder jobCompatibility
             && isHostBinding (unitKind cu) then
            setKind u i op
              (Listener name
                 (Some (sanitizeIdentifier
                          (baseName +:+ "_" +:+ name +:+ "_HostBindingHandler")))
                 slot tag isAnimationListener animationPhase) ;;;
            ret varNames
          else
            match handlerFnName with
            | Some _ => ret varNames
            | None =>
                match slot with
                | None => throw ExpectedSlotListener
                | Some s =>
                    let '(handler, name') :=
                      listenerNames (fnName cu) name s tag isAnimationListener
                        animationPhase in
                    setKind u i op
                      (Listener name' (Some handler) slot tag isAnimationListener
                         animationPhase) ;;;
                    ret varNames
                end
            end
      | VariableOp xref variable =>
          n <- getVariableName variable ;;
          ret (<[xref := n]> varNames)
      | Template xref slot tag namespace =>
          match unitKind cu with
          | HostBindingCompilationUnit => throw MustBeCompilingComponent
          | ViewCompilationUnit =>
              match slot with
              | None => throw ExpectedSlotTemplate
              | Some s =>
                  recur xref
                    (baseName +:+ "_" +:+ prefixWithNamespace tag namespace +:+ "_"
                       +:+ showNat s)
                    compatibility ;;;
                  ret varNames
              end
          end
      | StyleProp name =>
          let name1 := normalizeStylePropName name in
          setKind u i op
            (StyleProp (if compatibility then stripImportant name1 else name1)) ;;;
          ret varNames
      | ClassProp name =>
          if compatibility then
            setKind u i op (ClassProp (stripImportant name)) ;;; ret varNames
          else ret varNames
      | OtherOp => ret varNames
      end
  end.

(** One iteration of the second loop: [ir.visitExpressionsInOp] on the
    operation at position [i] of unit [u]. *)
Definition resolveOp (u : XrefId) (varNames : gmap XrefId string)
    (_ : unit) (i : nat) : M unit :=
  cu <- getUnit u ;;
  match ops cu !! i with
  | None => ret tt
  | Some op =>
      let '(es, err) := resolveExprs varNames (exprs op) in
      setOp u i (mkOp (kind op) es) ;;;
      match err with
      | Some e => throw e
      | None => ret tt
      end
  end.

(** The first loop of [addNamesToView] over the [n] operations of [u]. *)
Definition nameOps (recur : XrefId -> string -> bool -> M unit)
    (u : XrefId) (baseName : string) (compatibility : bool) (n : nat)
  : M (gmap XrefId string) :=
  foldM (nameOp recur u baseName compatibility) (seq 0 n) ∅.

(** The second loop of [addNamesToView]. *)
Definition resolveOps (u : XrefId) (varNames : gmap XrefId string) (n : nat)
  : M unit :=
  foldM (resolveOp u varNames) (seq 0 n) tt.

(** The first statement of [addNamesToView]. *)
Definition assignFnName (u : XrefId) (baseName : string) (cu : CompilationUnit)
  : M unit :=
  match fnName cu with
  | None => setFnName u (sanitizeIdentifier (baseName +:+ "_" +:+ jobFnSuffix))
  | Some _ => ret tt
  end.

(** [addNamesToView] up to the end of its first loop; the result is the
    table [varNames]. *)
Definition nameUnit (recur : XrefId -> string -> bool -> M unit)
    (u : XrefId) (baseName : string) (compatibility : bool)
    (cu : CompilationUnit) : M (gmap XrefId string) :=
  assignFnName u baseName cu ;;;
  nameOps recur u baseName compatibility (List.length (ops cu)).

(** [addNamesToView], with [depth] bounding the nesting of child views
    that is followed. *)
Fixpoint addNamesToView (depth : nat) (u : XrefId) (baseName : string)
    (compatibility : bool) : M unit :=
  match depth with
  | 0 => diverge
  | S depth' =>
      cu <- getUnit u ;;
      varNames <- nameUnit (addNamesToView depth') u baseName compatibility cu ;;
      resolveOps u varNames (List.length (ops cu))
  end.

End phase.

(** [phaseNaming]: the job after the phase, with what the phase returned. *)
Definition phaseNaming (sanitizeIdentifier hyphenate : string -> string)
    (prefixWithNamespace : option string -> Namespace -> string)
    (depth : nat) (cpl : CompilationJob) : Outcome unit * CompilationJob :=
  let '(r, h) :=
    addNamesToView sanitizeIdentifier hyphenate prefixWithNamespace
      (fnSuffix cpl) (compatibility cpl) depth (root cpl) (componentName cpl)
      (isTemplateDefinitionBuilder (compatibility cpl))
      (mkHeap (views cpl) (variables cpl) 0) in
  (r, mkJob (componentName cpl) (fnSuffix cpl) (compatibility cpl) (root cpl)
        (h_views h) (h_variables h)).

End Naming.

(** ** Stand-ins for the imported helpers

    The theorems about the naming phase hold for any helper functions; closed
    examples need some, and these follow what the helpers are for. *)

Module Helpers.
Import Text Naming.

(** Letters, word characters and lower-casing, for ASCII. *)
Definition isLower (c : ascii) : bool :=
  let n := nat_of_ascii c in (97 <=? n) && (n <=? 122).

Definition isUpper (c : ascii) : bool :=
  let n := nat_of_ascii c in (65 <=? n) && (n <=? 90).

Definition isWordChar (c : ascii) : bool :=
  (isLower c || isUpper c || isDigit c || Ascii.eqb c "_")%bool.

Definition toLower (c : ascii) : ascii :=
  if isUpper c then ascii_of_nat (nat_of_ascii c + 32) else c.

(** Modelled from the spec: [sanitizeIdentifier] is imported from
    [parse_util], which is not among the sources; a name is "sanitized into a
    valid identifier", here by turning every non-word character into an
    underscore. *)
Fixpoint sanitizeIdentifier (name : string) : string :=
  match name with
  | EmptyString => EmptyString
  | String c s => String (if isWordChar c then c else "_"%char) (sanitizeIdentifier s)
  end.

(** [hyphenate] from a position on; [afterLower] tells whether the
    character before is a lower-case letter. *)
Fixpoint hyphenateFrom (afterLower : bool) (value : string) : string :=
  match value with
  | EmptyString => EmptyString
  | String c s =>
      if (afterLower && isUpper c)%bool
      then String "-" (String (toLower c) (hyphenateFrom false s))
      else String (toLower c) (hyphenateFrom (isLower c) s)
  end.

(** Modelled from the spec: [hyphenate] is imported from the style parser,
    which is not among the sources; names are "normalized to hyphen-case":
    a hyphen goes between a lower-case letter and the upper-case letter that
    follows it, and the result is lower-cased. *)
Definition hyphenate (value : string) : string := hyphenateFrom false value.

(** Modelled from the spec: [prefixWithNamespace] is imported from the
    conversion helpers, which are not among the sources; it gives the
    "namespaced tag name" of a child view. *)
Definition prefixWithNamespace (tag : option string) (namespace : Namespace) : string :=
  match namespace with
  | HTML => showNullable tag
  | SVG => ":svg:" +:+ showNullable tag
  | Math => ":math:" +:+ showNullable tag
  end.

(** The naming phase with these helpers. *)
Definition phaseNaming : nat -> CompilationJob -> Outcome unit * CompilationJob :=
  Naming.phaseNaming sanitizeIdentifier hyphenate prefixWithNamespace.

End Helpers.

(** ** What a run of the naming phase may change *)

Module NamingSpec.
Import Text Naming.

(** The heap after the operation at position [i] of unit [u] is replaced. *)
Definition replaceOp (u : XrefId) (i : nat) (o : Op) (h : Heap) : Heap :=
  (setOp u i o h).2.

(** The heap after the operations of unit [u] are replaced. *)
Definition replaceOps (u : XrefId) (os : list Op) (h : Heap) : Heap :=
  mkHeap (alter (fun cu => mkUnit (unitKind cu) (fnName cu) os) u (h_views h))
         (h_variables h) (h_index h).

(** A read takes the name its xref has in the table, unless it has one. *)
Definition resolveRead (varNames : gmap XrefId string) (e : Expr) : Expr :=
  match e with
  | ReadVariableExpr x None => ReadVariableExpr x (varNames !! x)
  | _ => e
  end.

(** The same for all the expressions of an operation. *)
Definition resolveReads (varNames : gmap XrefId string) (o : Op) : Op :=
  mkOp (kind o) (resolveRead varNames <$> exprs o).

(** The xrefs of the reads without a name, in visiting order. *)
Definition unnamedReads (es : list Expr) : list XrefId :=
  omap (fun e => match e with
                 | ReadVariableExpr x None => Some x
                 | _ => None
                 end) es.

(** The first read without a name whose xref the table does not have. *)
Definition firstUnresolved (varNames : gmap XrefId string) (os : list Op)
  : option XrefId :=
  head (filter (fun x => varNames !! x = None) (unnamedReads (os ≫= exprs))).

(** Every unit has a function name, every listener a handler name and every
    variable a name. *)
Definition listenerNamed (o : Op) : bool :=
  match kind o with
  | Listener _ None _ _ _ _ => false
  | _ => true
  end.

Definition unitNamed (cu : CompilationUnit) : bool :=
  bool_decide (is_Some (fnName cu)) && forallb listenerNamed (ops cu).

Definition namesPopulated (cpl : CompilationJob) : bool :=
  forallb (fun p => unitNamed p.2) (map_to_list (views cpl))
  && forallb (fun p => bool_decide (is_Some (variable_name p.2)))
       (map_to_list (variables cpl)).

(** The name and the handler name of an operation that has them. *)
Definition nameFields (o : Op) : option string * option string :=
  match kind o with
  | Property n _ | HostProperty n _ | StyleProp n | ClassProp n => (Some n, None)
  | Listener n hf _ _ _ _ => (Some n, hf)
  | _ => (None, None)
  end.

Definition unitNameFields (cu : CompilationUnit)
  : option string * list (option string * option string) :=
  (fnName cu, nameFields <$> ops cu).

(** No name field of a unit, or of a [Property], [HostProperty], [Listener],
    [StyleProp] or [ClassProp] operation, differs between the two jobs. *)
Definition namesUnchanged (cpl cpl' : CompilationJob) : Prop :=
  forall u, (unitNameFields <$> views cpl' !! u) = (unitNameFields <$> views cpl !! u).

(** [namedDuring cpl cpl' v k n]: the variable [v], of kind [k], has no name
    in the job [cpl] and the name [n] in [cpl']. *)
Definition namedDuring (cpl cpl' : CompilationJob) (v : VarRef)
    (k : SemanticVariableKind) (n : string) : Prop :=
  exists sv sv',
    variables cpl !! v = Some sv /\ variable_name sv = None /\
    variable_kind sv = k /\
    variables cpl' !! v = Some sv' /\ variable_name sv' = Some n.

(** [childView vs a b]: in the table [vs], some [Template] operation of unit
    [a] points at unit [b]. *)
Definition childView (vs : gmap XrefId CompilationUnit) (a b : XrefId) : Prop :=
  exists cu j o s tg ns,
    vs !! a = Some cu /\ ops cu !! j = Some o /\ kind o = Template b s tg ns.

(** The units [addNamesToView] gets to from [a]. *)
Definition reachable (vs : gmap XrefId CompilationUnit) : XrefId -> XrefId -> Prop :=
  rtc (childView vs).

(** [unitVariablesNamed h u]: the variable of every [Variable] operation of
    unit [u] has a name. *)
Definition unitVariablesNamed (h : Heap) (u : XrefId) : Prop :=
  forall cu j o x v,
    h_views h !! u = Some cu -> ops cu !! j = Some o -> kind o = VariableOp x v ->
    exists sv n, h_variables h !! v = Some sv /\ variable_name sv = Some n.

(** [tableJustified u vn h]: every entry of the table [vn] is the xref of a
    [Variable] operation of unit [u], with the name of its variable. *)
Definition tableJustified (u : XrefId) (vn : gmap XrefId string) (h : Heap) : Prop :=
  forall x n, vn !! x = Some n ->
    exists cu j o v sv,
      h_views h !! u = Some cu /\ ops cu !! j = Some o /\ kind o = VariableOp x v /\
      h_variables h !! v = Some sv /\ variable_name sv = Some n.

(** [tableCovers u i vn h]: the table [vn] has the xref of every [Variable]
    operation among the first [i] operations of unit [u]. *)
Definition tableCovers (u : XrefId) (i : nat) (vn : gmap XrefId string) (h : Heap)
  : Prop :=
  forall cu j o x v,
    j < i -> h_views h !! u = Some cu -> ops cu !! j = Some o ->
    kind o = VariableOp x v -> is_Some (vn !! x).

(** [nestingWithin vs d u]: below unit [u], views are nested less than [d]
    deep; in particular no view is nested in itself. *)
Fixpoint nestingWithin (vs : gmap XrefId CompilationUnit) (d : nat) (u : XrefId)
  : Prop :=
  match d with
  | 0 => False
  | S d' => forall b, childView vs u b -> nestingWithin vs d' b
  end.

Section keeps.
Variable hyphenate : string -> string.
Variable jobCompatibility : CompatibilityMode.
Variable compatibility : bool.

(** [unit.job.compatibility && unit instanceof HostBindingCompilationUnit] *)
Definition legacyHostBinding (cu : CompilationUnit) : bool :=
  isTemplateDefinitionBuilder jobCompatibility && isHostBinding (unitKind cu).

(** A read keeps its xref, and its name once it has one. *)
Definition exprKeeps (e e' : Expr) : Prop :=
  match e with
  | ReadVariableExpr x (Some n) => e' = e
  | ReadVariableExpr x None => exists n', e' = ReadVariableExpr x n'
  | OtherExpr => e' = OtherExpr
  end.

(** What stays of an operation: its kind and every field but the names; a
    [Property] or [HostProperty] name unless it is an animation trigger; a
    listener's handler name and binding name once the handler name is set,
    outside the legacy host-binding case; a style or class name that is
    already normalized. *)
Definition kindKeeps (legacyHost : bool) (k k' : OpKind) : Prop :=
  match k with
  | Property n t =>
      exists n', k' = Property n' t /\ (t = false -> n' = n)
  | HostProperty n t =>
      exists n', k' = HostProperty n' t /\ (t = false -> n' = n)
  | Listener n hf s tg a ph =>
      exists n' hf', k' = Listener n' hf' s tg a ph /\
        (legacyHost = true -> n' = n) /\
        (legacyHost = false -> forall f, hf = Some f -> hf' = Some f /\ n' = n)
  | StyleProp n =>
      exists n', k' = StyleProp n' /\
        (normalizeStylePropName hyphenate n = n ->
         (compatibility = true -> stripImportant n = n) -> n' = n)
  | ClassProp n =>
      exists n', k' = ClassProp n' /\
        ((compatibility = true -> stripImportant n = n) -> n' = n)
  | _ => k' = k
  end.

(** What a pass over a job whose names are all set leaves of an operation. *)
Definition keptBySecondPass (legacyHost : bool) (k k' : OpKind) : Prop :=
  match k with
  | Property n t => if t then exists n', k' = Property n' t else k' = k
  | HostProperty n t => if t then exists n', k' = HostProperty n' t else k' = k
  | Listener n hf s tg a ph =>
      if legacyHost then exists hf', k' = Listener n hf' s tg a ph else k' = k
  | StyleProp n =>
      exists n', k' = StyleProp n' /\
        (normalizeStylePropName hyphenate n = n ->
         (compatibility = true -> stripImportant n = n) -> n' = n)
  | ClassProp n =>
      exists n', k' = ClassProp n' /\
        ((compatibility = true -> stripImportant n = n) -> n' = n)
  | _ => k' = k
  end.

Definition unitKeptBySecondPass (cu cu' : CompilationUnit) : Prop :=
  unitKind cu' = unitKind cu /\ fnName cu' = fnName cu /\
  Forall2 (fun o o' =>
             keptBySecondPass
               (isTemplateDefinitionBuilder jobCompatibility
                && isHostBinding (unitKind cu))
               (kind o) (kind o'))
    (ops cu) (ops cu').

Definition opKeeps (legacyHost : bool) (o o' : Op) : Prop :=
  kindKeeps legacyHost (kind o) (kind o') /\ Forall2 exprKeeps (exprs o) (exprs o').

Definition unitKeeps (cu cu' : CompilationUnit) : Prop :=
  unitKind cu' = unitKind cu /\
  (forall n, fnName cu = Some n -> fnName cu' = Some n) /\
  Forall2 (opKeeps (legacyHostBinding cu)) (ops cu) (ops cu').

(** A variable keeps its kind, and its name once it has one; a name it gets
    while the counter goes from [i] to [i'] is built from a counter value in
    between. *)
Definition variableKeeps (i i' : nat) (sv sv' : SemanticVariable) : Prop :=
  variable_kind sv' = variable_kind sv /\
  match variable_name sv with
  | Some n => variable_name sv' = Some n
  | None =>
      forall n, variable_name sv' = Some n ->
        exists N, i <= N < i' /\ n = variableNameFor (variable_kind sv) N
  end.

(** [namedBetween h h' v n]: the variable [v] has no name in [h] and the
    name [n] in [h']. *)
Definition namedBetween (h h' : Heap) (v : VarRef) (n : string) : Prop :=
  exists sv sv',
    h_variables h !! v = Some sv /\ variable_name sv = None /\
    h_variables h' !! v = Some sv' /\ variable_name sv' = Some n.

(** How the heap at some point of the phase relates to the heap at a later
    point. *)
Record evolves (h h' : Heap) : Prop := mkEvolves {
  evolves_index : h_index h <= h_index h';
  evolves_views :
    forall u, option_Forall2 unitKeeps (h_views h !! u) (h_views h' !! u);
  evolves_variables :
    forall v, option_Forall2 (variableKeeps (h_index h) (h_index h'))
                (h_variables h !! v) (h_variables h' !! v);
  evolves_fresh :
    forall v1 v2 n1 n2, v1 <> v2 ->
      namedBetween h h' v1 n1 -> namedBetween h h' v2 n2 -> n1 <> n2
}.

End keeps.

End NamingSpec.

(** ** Concrete jobs and heaps *)

Module Examples.
Import Text Naming.

(** A unit with listeners, a style and a class property. *)
Definition listenerHeap : Heap :=
  mkHeap
    {[ 7 := mkUnit ViewCompilationUnit (Some "App_Template")
              [ mkOp (Listener "click" None (Some 3) (Some "my-button") false None) [];
                mkOp (Listener "fade" None (Some 4) None true (Some "done")) [];
                mkOp (Listener "blur" None None (Some "input") false None) [];
                mkOp (StyleProp "backgroundColor!important") [];
                mkOp (ClassProp "active!important") [] ] ]}
    ∅ 0.

(** A component whose root view holds an animation-trigger property. *)
Definition animatedJob : CompilationJob :=
  mkJob "App" "Template" Normal 0
    {[ 0 := mkUnit ViewCompilationUnit None
              [ mkOp (VariableOp 10 0) [];
                mkOp (Property "fade" true) [ReadVariableExpr 10 None] ] ]}
    {[ 0 := mkSemanticVariable Context None ]}.

(** [animatedJob] after one run of the naming phase. *)
Definition animatedJobNamed : CompilationJob :=
  mkJob "App" "Template" Normal 0
    {[ 0 := mkUnit ViewCompilationUnit (Some "App_Template")
              [ mkOp (VariableOp 10 0) [];
                mkOp (Property "@fade" true) [ReadVariableExpr 10 (Some "ctx_r0")] ] ]}
    {[ 0 := mkSemanticVariable Context (Some "ctx_r0") ]}.

(** A root view with two nested views, each declaring a context variable of
    its own, and an identifier variable in the root. *)
Definition nestedJob : CompilationJob :=
  mkJob "App" "Template" Normal 0
    (<[ 0 := mkUnit ViewCompilationUnit None
               [ mkOp (Template 1 (Some 0) (Some "div") HTML) [];
                 mkOp (Template 2 (Some 1) (Some "span") HTML) [];
                 mkOp (VariableOp 30 2) [];
                 mkOp OtherOp [ReadVariableExpr 30 None] ] ]>
     (<[ 1 := mkUnit ViewCompilationUnit None
                [ mkOp (VariableOp 10 0) [];
                  mkOp OtherOp [ReadVariableExpr 10 None; OtherExpr] ] ]>
      {[ 2 := mkUnit ViewCompilationUnit None
                [ mkOp (VariableOp 20 1) [];
                  mkOp OtherOp [ReadVariableExpr 20 None] ] ]}))
    (<[ 0 := mkSemanticVariable Context None ]>
     (<[ 1 := mkSemanticVariable Context None ]>
      {[ 2 := mkSemanticVariable (Identifier "item") None ]})).

(** A host-binding unit in compatibility mode whose listener has a handler
    name already. *)
Definition legacyHostJob : CompilationJob :=
  mkJob "App" "HostBindings" TemplateDefinitionBuilder 0
    {[ 0 := mkUnit HostBindingCompilationUnit (Some "App_HostBindings")
              [ mkOp (Listener "click" (Some "onClick") None None false None) [] ] ]}
    ∅.

(** A named view whose style property is still in camel case. *)
Definition camelCaseStyleJob : CompilationJob :=
  mkJob "App" "Template" Normal 0
    {[ 0 := mkUnit ViewCompilationUnit (Some "App_Template")
              [ mkOp (StyleProp "backgroundColor") [] ] ]}
    ∅.

(** A view that reads a variable declared in its parent only. *)
Definition danglingReadJob : CompilationJob :=
  mkJob "App" "Template" Normal 0
    {[ 0 := mkUnit ViewCompilationUnit None
              [ mkOp (VariableOp 10 0) [];
                mkOp OtherOp [ReadVariableExpr 10 None; ReadVariableExpr 11 None] ] ]}
    {[ 0 := mkSemanticVariable Context None ]}.

End Examples.

(** ** Heaps around the first loop *)

Module TableExamples.
Import Text Naming Examples.

(** The heap [phaseNaming] starts from on [danglingReadJob]. *)
Definition danglingHeap : Heap :=
  mkHeap (views danglingReadJob) (variables danglingReadJob) 0.

(** [danglingHeap] after the first loop on the root. *)
Definition danglingHeapNamed : Heap :=
  mkHeap
    {[ 0 := mkUnit ViewCompilationUnit (Some "App_Template")
              [ mkOp (VariableOp 10 0) [];
                mkOp OtherOp [ReadVariableExpr 10 None; ReadVariableExpr 11 None] ] ]}
    {[ 0 := mkSemanticVariable Context (Some "ctx_r0") ]} 1.

(** A root that reads the variable it declares. *)
Definition resolvableHeap : Heap :=
  mkHeap
    {[ 0 := mkUnit ViewCompilationUnit None
              [ mkOp (VariableOp 10 0) [];
                mkOp OtherOp [ReadVariableExpr 10 None; OtherExpr;
                              ReadVariableExpr 12 (Some "kept")] ] ]}
    {[ 0 := mkSemanticVariable (Identifier "item") None ]} 4.

(** [resolvableHeap] after the first loop on the root. *)
Definition resolvableHeapNamed : Heap :=
  mkHeap
    {[ 0 := mkUnit ViewCompilationUnit (Some "App_Template")
              [ mkOp (VariableOp 10 0) [];
                mkOp OtherOp [ReadVariableExpr 10 None; OtherExpr;
                              ReadVariableExpr 12 (Some "kept")] ] ]}
    {[ 0 := mkSemanticVariable (Identifier "item") (Some "item_4") ]} 5.

(** [resolvableHeap] after [addNamesToView] on the root. *)
Definition resolvableHeapResolved : Heap :=
  mkHeap
    {[ 0 := mkUnit ViewCompilationUnit (Some "App_Template")
              [ mkOp (VariableOp 10 0) [];
                mkOp OtherOp [ReadVariableExpr 10 (Some "item_4"); OtherExpr;
                              ReadVariableExpr 12 (Some "kept")] ] ]}
    {[ 0 := mkSemanticVariable (Identifier "item") (Some "item_4") ]} 5.

End TableExamples.

(** ** Block parameters: words, lists and time values *)

Module Lexing.
Import Text.

(** Modelled from the spec: the tokenizer is not among the sources.  White
    space between the words of a block parameter: space, tab, line feed and
    carriage return. *)
Definition isSpace (c : ascii) : bool :=
  let n := nat_of_ascii c in (n =? 32) || (n =? 9) || (n =? 10) || (n =? 13).

(** Modelled from the spec: the tokenizer is not among the sources.  The
    characters of an identifier: letters, digits, [_] and [$]. *)
Definition isIdentifierChar (c : ascii) : bool :=
  let n := nat_of_ascii c in
  ((97 <=? n) && (n <=? 122)) || ((65 <=? n) && (n <=? 90)) || isDigit c
  || (n =? 95) || (n =? 36).

(** [s] without the white space it starts with. *)
Fixpoint dropSpaces (s : string) : string :=
  match s with
  | String c s' => if isSpace c then dropSpaces s' else s
  | EmptyString => EmptyString
  end.

(** [s.trim()] *)
Definition trim (s : string) : string :=
  String.rev (dropSpaces (String.rev (dropSpaces s))).

(** [s.slice(n)] *)
Fixpoint dropChars (n : nat) (s : string) : string :=
  match n, s with
  | S n', String _ s' => dropChars n' s'
  | _, _ => s
  end.

(** Modelled from the spec: the parameter parsers are not among the sources.
    The text after the keyword [kw] and the white space that has to follow
    it, as in [track <expression>] or [on <trigger-list>]. *)
Definition keywordRest (kw s : string) : option string :=
  if String.prefix kw s then
    match dropChars (String.length kw) s with
    | String c r => if isSpace c then Some (dropSpaces r) else None
    | EmptyString => None
    end
  else None.

(** Modelled from the spec: the parameter parsers are not among the sources.
    The pieces of [s] between the separators [sep] outside parentheses, for
    "comma-separated trigger calls" and the bindings of a [let]. *)
Fixpoint splitTop (sep : ascii) (depth : nat) (s : string) : list string :=
  match s with
  | EmptyString => [EmptyString]
  | String c s' =>
      if Ascii.eqb c sep && (depth =? 0) then EmptyString :: splitTop sep depth s'
      else
        let depth' :=
          if Ascii.eqb c "(" then S depth
          else if Ascii.eqb c ")" then pred depth else depth in
        match splitTop sep depth' s' with
        | w :: ws => String c w :: ws
        | [] => [String c EmptyString]
        end
  end.

(** The longest run of characters satisfying [p] at the start of [s], and
    what follows it. *)
Fixpoint span (p : ascii -> bool) (s : string) : string * string :=
  match s with
  | String c s' =>
      if p c then let '(a, b) := span p s' in (String c a, b) else (EmptyString, s)
  | EmptyString => (EmptyString, EmptyString)
  end.

(** Whether the parentheses of [s] match, [depth] of them being open. *)
Fixpoint balanced (depth : nat) (s : string) : bool :=
  match s with
  | EmptyString => depth =? 0
  | String c s' =>
      if Ascii.eqb c "(" then balanced (S depth) s'
      else if Ascii.eqb c ")" then
        match depth with
        | 0 => false
        | S d => balanced d s'
        end
      else balanced depth s'
  end.

(** The value of a decimal digit. *)
Definition digitValue (c : ascii) : nat := nat_of_ascii c - 48.

(** The number a run of decimal digits stands for, after [acc]. *)
Fixpoint numeralFrom (acc : nat) (digits : string) : nat :=
  match digits with
  | EmptyString => acc
  | String c s => numeralFrom (10 * acc + digitValue c) s
  end.

(** The number a run of decimal digits stands for. *)
Definition numeral (digits : string) : nat := numeralFrom 0 digits.

(** Modelled from the spec: the time-value parser of the block grammar is not
    among the sources.  "Numeric time parameters ([timer(100ms)],
    [timer(10s)]) are normalized to integer milliseconds; a trailing
    unmatched numeral with no unit defaults to milliseconds; unparsable
    numerals" give no value. *)
Definition parseDeferredTime (value : string) : option nat :=
  let '(digits, units) := span isDigit value in
  if String.eqb digits "" then None
  else if String.eqb units "" || String.eqb units "ms" then Some (numeral digits)
  else if String.eqb units "s" then Some (numeral digits * 1000)
  else None.

End Lexing.

(** ** The block grammar *)

Module Blocks.
Import Text Lexing.

(** Modelled from the spec: the AST classes are not among the sources.  The
    kinds of trigger of a deferred block; [when] is a kind of its own. *)
Inductive TriggerKind :=
| WhenKind | IdleKind | ImmediateKind | TimerKind | HoverKind | InteractionKind
| ViewportKind.

Global Instance TriggerKind_eq_dec : EqDecision TriggerKind.
Proof. solve_decision. Defined.

(** Modelled from the spec: the parser is not among the sources.  The
    messages of the user-facing template errors, as the test suite quotes
    them, one constructor per message; a parameter is the text or name the
    message quotes. *)
Inductive ParseError :=
| ForLoopNoExpression
| ForLoopBadExpression
| ForLoopMissingTrack
| ForLoopDuplicateTrack
| UnrecognizedLoopParameter (text : string)
| InvalidLetParameter
| UnknownLetVariable (name : string)
| DuplicateLetVariable (name : string)
| ForLoopDuplicateEmpty
| EmptyBlockWithParameters
| UnrecognizedLoopBlock (name : string)
| SwitchParameterCount
| CaseParameterCount
| SwitchDuplicateDefault
| DefaultBlockWithParameters
| SwitchUnexpectedBlock
| UnrecognizedTrigger (text : string)
| UnrecognizedTriggerType (name : string)
| TriggerSyntax (text : string)
| TriggerCannotHaveParameters (name : string)
| TriggerExactlyOneParameter (name : string)
| TriggerZeroOrOneParameters (name : string)
| TriggerTimeValue (name : string)
| DuplicateTrigger (kind : TriggerKind)
| ParameterTimeValue (name : string)
| DuplicateBlockParameter (block name : string)
| UnrecognizedBlockParameter (block text : string)
| ErrorBlockWithParameters
| DuplicateDeferSection (name : string)
| UnrecognizedDeferBlock (name : string)
| ExpressionSyntax (message : string).

Global Instance ParseError_eq_dec : EqDecision ParseError.
Proof. solve_decision. Defined.

(** Modelled from the spec: the AST classes are not among the sources.
    [TimerDeferredTrigger] carries its delay in milliseconds; hover,
    interaction and viewport triggers carry an optional reference name. *)
Inductive Trigger (Ast : Type) :=
| BoundDeferredTrigger (value : Ast)
| IdleDeferredTrigger
| ImmediateDeferredTrigger
| TimerDeferredTrigger (delay : nat)
| HoverDeferredTrigger (reference : option string)
| InteractionDeferredTrigger (reference : option string)
| ViewportDeferredTrigger (reference : option string).
Arguments BoundDeferredTrigger {Ast} value.
Arguments IdleDeferredTrigger {Ast}.
Arguments ImmediateDeferredTrigger {Ast}.
Arguments TimerDeferredTrigger {Ast} delay.
Arguments HoverDeferredTrigger {Ast} reference.
Arguments InteractionDeferredTrigger {Ast} reference.
Arguments ViewportDeferredTrigger {Ast} reference.

(** Modelled from the spec: the tokenizer is not among the sources.  A
    tokenized block: its name, its parameters (the texts between the
    semicolons) and its children, already turned into nodes. *)
Record Block (Node : Type) := mkBlock {
  blockName : string;
  parameters : list string;
  children : list Node
}.
Arguments mkBlock {Node} blockName parameters children.
Arguments blockName {Node} b.
Arguments parameters {Node} b.
Arguments children {Node} b.

(** Modelled from the spec: the tokenizer is not among the sources.  A
    primary block with the secondary blocks that follow it. *)
Record BlockGroup (Node : Type) := mkBlockGroup {
  primary : Block Node;
  secondary : list (Block Node)
}.
Arguments mkBlockGroup {Node} primary secondary.
Arguments primary {Node} b.
Arguments secondary {Node} b.

(** Modelled from the spec: the AST classes are not among the sources.  A
    loop: its item, the expression it iterates over, its track expression,
    its context variables (name and value), its children and its
    [{:empty}] section. *)
Record ForLoopBlock (Ast Node : Type) := mkForLoopBlock {
  loop_item : string;
  loop_expression : Ast;
  loop_trackBy : Ast;
  loop_contextVariables : list (string * string);
  loop_children : list Node;
  loop_empty : option (list Node)
}.
Arguments mkForLoopBlock {Ast Node} _ _ _ _ _ _.

(** Modelled from the spec: the AST classes are not among the sources.  A
    case of a switch block; no expression stands for [default]. *)
Record SwitchBlockCase (Ast Node : Type) := mkSwitchBlockCase {
  case_expression : option Ast;
  case_children : list Node
}.
Arguments mkSwitchBlockCase {Ast Node} _ _.
Arguments case_expression {Ast Node} _.
Arguments case_children {Ast Node} _.

(** Modelled from the spec: the AST classes are not among the sources.  A
    switch block: its expression and its cases, in order. *)
Record SwitchBlock (Ast Node : Type) := mkSwitchBlock {
  switch_expression : Ast;
  switch_cases : list (SwitchBlockCase Ast Node)
}.
Arguments mkSwitchBlock {Ast Node} _ _.
Arguments switch_expression {Ast Node} _.
Arguments switch_cases {Ast Node} _.

(** Modelled from the spec: the AST classes are not among the sources.  The
    triggers of one set, by kind, in the order they were added. *)
Definition TriggerSet (Ast : Type) : Type := list (TriggerKind * Trigger Ast).

(** Modelled from the spec: the AST classes are not among the sources.  A
    deferred block: its children, its eager and prefetch triggers, and its
    placeholder, loading and error sections with their times in
    milliseconds. *)
Record DeferredBlock (Ast Node : Type) := mkDeferredBlock {
  defer_children : list Node;
  defer_triggers : TriggerSet Ast;
  defer_prefetchTriggers : TriggerSet Ast;
  defer_placeholder : option (option nat * list Node);
  defer_loading : option (option nat * option nat * list Node);
  defer_error : option (list Node)
}.
Arguments mkDeferredBlock {Ast Node} _ _ _ _ _ _.
Arguments defer_triggers {Ast Node} _.
Arguments defer_prefetchTriggers {Ast Node} _.
Arguments defer_placeholder {Ast Node} _.
Arguments defer_loading {Ast Node} _.

(** The kinds of the triggers of a set, in order. *)
Definition triggerKinds {Ast} (s : TriggerSet Ast) : list TriggerKind := s.*1.

(** The word a kind of trigger is written with. *)
Definition kindName (k : TriggerKind) : string :=
  match k with
  | WhenKind => "when"
  | IdleKind => "idle"
  | ImmediateKind => "immediate"
  | TimerKind => "timer"
  | HoverKind => "hover"
  | InteractionKind => "interaction"
  | ViewportKind => "viewport"
  end.

(** Modelled from the spec: the loop parser is not among the sources.  The
    variables a [let] parameter of a loop may bind. *)
Definition allowedLoopVariables : list string :=
  ["$index"; "$first"; "$last"; "$even"; "$odd"; "$count"].

End Blocks.

Module BlockParser.
Import Text Lexing Blocks.

Section grammar.
(** Expression ASTs and child nodes. *)
Variable Ast : Type.
Variable Node : Type.

(** The Expression Service on a block parameter, once redundant surrounding
    parentheses are stripped: an expression AST, or the message of a syntax
    error, passed on as it is. *)
Variable parseBinding : string -> Ast + string.

(** The pattern [<identifier> of <expression>] on the first parameter of a
    loop: the identifier and the text of the expression. *)
Variable matchForExpression : string -> option (string * string).

(** Modelled from the spec: the loop parser is not among the sources.  What
    the parameters of a loop have given so far. *)
Record LoopParameters := mkLoopParameters {
  lp_hasTrack : bool;
  lp_trackBy : option Ast;
  lp_context : list (string * string);
  lp_errors : list ParseError
}.

(** One more error among those of a loop. *)
Definition loopError (acc : LoopParameters) (e : ParseError) : LoopParameters :=
  mkLoopParameters (lp_hasTrack acc) (lp_trackBy acc) (lp_context acc)
    (lp_errors acc ++ [e]).

(** Modelled from the spec: the loop parser is not among the sources.  One
    [name = variable] binding of a [let] parameter: the variable "must be
    one of a fixed enumerated set", and "duplicate right-hand bindings (even
    across multiple [let] clauses) are errors". *)
Definition letBinding (acc : LoopParameters) (binding : string) : LoopParameters :=
  match splitTop "=" 0 binding with
  | [name; variable] =>
      let name := trim name in
      let variable := trim variable in
      if String.eqb name "" || String.eqb variable "" then
        loopError acc InvalidLetParameter
      else if negb (bool_decide (variable ∈ allowedLoopVariables)) then
        loopError acc (UnknownLetVariable variable)
      else if bool_decide (variable ∈ (lp_context acc).*2) then
        loopError acc (DuplicateLetVariable variable)
      else
        mkLoopParameters (lp_hasTrack acc) (lp_trackBy acc)
          (lp_context acc ++ [(name, variable)]) (lp_errors acc)
  | _ => loopError acc InvalidLetParameter
  end.

(** Modelled from the spec: the loop-parameter parser is not among the
    sources.  A parameter after the first is [track <expression>] (one at
    most), [let a = $index, b = $first, ...] or an error. *)
Definition loopParameter (acc : LoopParameters) (param : string) : LoopParameters :=
  match keywordRest "track" param with
  | Some expression =>
      if lp_hasTrack acc then loopError acc ForLoopDuplicateTrack
      else
        match parseBinding expression with
        | inl ast =>
            mkLoopParameters true (Some ast) (lp_context acc) (lp_errors acc)
        | inr message =>
            mkLoopParameters true None (lp_context acc)
              (lp_errors acc ++ [ExpressionSyntax message])
        end
  | None =>
      match keywordRest "let" param with
      | Some bindings => foldl letBinding acc (splitTop "," 0 bindings)
      | None => loopError acc (UnrecognizedLoopParameter param)
      end
  end.

(** Modelled from the spec: the loop parser is not among the sources.  The
    [{:empty}] section of a loop, one at most and without parameters. *)
Definition loopSection (acc : option (list Node) * list ParseError) (b : Block Node)
  : option (list Node) * list ParseError :=
  let '(empty, errors) := acc in
  if String.eqb (blockName b) "empty" then
    match empty with
    | Some _ => (empty, errors ++ [ForLoopDuplicateEmpty])
    | None =>
        match parameters b with
        | [] => (Some (children b), errors)
        | _ => (empty, errors ++ [EmptyBlockWithParameters])
        end
    end
  else (empty, errors ++ [UnrecognizedLoopBlock (blockName b)]).

(** Modelled from the spec: the loop parser is not among the sources.  The
    first parameter of a loop, which must match [<identifier> of
    <expression>]: the identifier and the text of the expression, or the
    error of a loop without parameters or with a first parameter that does
    not match. *)
Definition loopHeader (params : list string) : string * string + ParseError :=
  match params with
  | [] => inr ForLoopNoExpression
  | p :: _ =>
      match matchForExpression p with
      | Some header => inl header
      | None => inr ForLoopBadExpression
      end
  end.

(** Modelled from the spec: the loop parser is not among the sources.  The
    expression of a header that matches. *)
Definition loopExpression (text : string) : option Ast * list ParseError :=
  match parseBinding text with
  | inl ast => (Some ast, [])
  | inr message => (None, [ExpressionSyntax message])
  end.

(** Modelled from the spec: the loop parser is not among the sources.  A loop
    "requires expression matching the pattern [<identifier> of
    <expression>]; requires exactly one [track <expression>] parameter -- its
    absence is a hard error"; optional [let] parameters; "at most one
    [{:empty}] secondary block, taking no parameters".  A loop whose header
    is missing or does not match is reported for its header, and its other
    parameters are not looked at: "a [{#for a of b}] with no [track] clause
    always fails" is about a loop that has its header.  The sections are
    looked at in both cases.  The errors are collected, and a block comes out
    when there is none. *)
Definition createForLoop (g : BlockGroup Node)
  : option (ForLoopBlock Ast Node) * list ParseError :=
  let params := parameters (primary g) in
  let '(empty, sectionErrors) := foldl loopSection (None, []) (secondary g) in
  match loopHeader params with
  | inr headerError => (None, headerError :: sectionErrors)
  | inl (item, text) =>
      let '(expression, expressionErrors) := loopExpression text in
      let rest :=
        foldl loopParameter (mkLoopParameters false None [] []) (tail params) in
      let trackErrors := if lp_hasTrack rest then [] else [ForLoopMissingTrack] in
      let errors := expressionErrors ++ lp_errors rest ++ sectionErrors ++ trackErrors in
      match errors, expression, lp_trackBy rest with
      | [], Some expression, Some trackBy =>
          (Some (mkForLoopBlock item expression trackBy
                   ((item, "$implicit") :: lp_context rest)
                   (children (primary g)) empty),
           [])
      | _, _, _ => (None, errors)
      end
  end.

(** Modelled from the spec: the switch parser is not among the sources.
    What the sections of a switch have given so far. *)
Record SwitchCases := mkSwitchCases {
  sc_cases : list (SwitchBlockCase Ast Node);
  sc_hasDefault : bool;
  sc_errors : list ParseError
}.

(** Modelled from the spec: the switch parser is not among the sources.  The
    body "may contain only [{:case expr}] (exactly one parameter each) and at
    most one [{:default}] (zero parameters) -- any other nested block name is
    a hard error.  A case with a null expression denotes default and must be
    unique." *)
Definition switchSection (acc : SwitchCases) (b : Block Node) : SwitchCases :=
  if String.eqb (blockName b) "case" then
    match parameters b with
    | [p] =>
        match parseBinding p with
        | inl ast =>
            mkSwitchCases (sc_cases acc ++ [mkSwitchBlockCase (Some ast) (children b)])
              (sc_hasDefault acc) (sc_errors acc)
        | inr message =>
            mkSwitchCases (sc_cases acc) (sc_hasDefault acc)
              (sc_errors acc ++ [ExpressionSyntax message])
        end
    | _ =>
        mkSwitchCases (sc_cases acc) (sc_hasDefault acc)
          (sc_errors acc ++ [CaseParameterCount])
    end
  else if String.eqb (blockName b) "default" then
    if sc_hasDefault acc then
      mkSwitchCases (sc_cases acc) true (sc_errors acc ++ [SwitchDuplicateDefault])
    else
      match parameters b with
      | [] =>
          mkSwitchCases (sc_cases acc ++ [mkSwitchBlockCase None (children b)])
            true (sc_errors acc)
      | _ =>
          mkSwitchCases (sc_cases acc) true
            (sc_errors acc ++ [DefaultBlockWithParameters])
      end
  else
    mkSwitchCases (sc_cases acc) (sc_hasDefault acc)
      (sc_errors acc ++ [SwitchUnexpectedBlock]).

(** Modelled from the spec: the switch parser is not among the sources.  A
    switch has "exactly one parameter (the discriminant expression)" and the
    sections above.  The errors are collected, and a block comes out when
    there is none. *)
Definition createSwitchBlock (g : BlockGroup Node)
  : option (SwitchBlock Ast Node) * list ParseError :=
  let '(expression, headerErrors) :=
    match parameters (primary g) with
    | [p] =>
        match parseBinding p with
        | inl ast => (Some ast, [])
        | inr message => (None, [ExpressionSyntax message])
        end
    | _ => (None, [SwitchParameterCount])
    end in
  let sections := foldl switchSection (mkSwitchCases [] false []) (secondary g) in
  let errors := headerErrors ++ sc_errors sections in
  match errors, expression with
  | [], Some ast => (Some (mkSwitchBlock ast (sc_cases sections)), [])
  | _, _ => (None, errors)
  end.

(** A [{:case q}] section, the case it stands for when [q] parses, and
    whether [q] parses. *)
Definition caseBlock (section : string * list Node) : Block Node :=
  mkBlock "case" [section.1] section.2.

Definition caseOf (section : string * list Node) : SwitchBlockCase Ast Node :=
  mkSwitchBlockCase
    (match parseBinding section.1 with inl ast => Some ast | inr _ => None end)
    section.2.

Definition parses (section : string * list Node) : Prop :=
  exists ast, parseBinding section.1 = inl ast.

End grammar.
End BlockParser.

Module DeferParser.
Import Text Lexing Blocks.

(** Modelled from the spec: the trigger parser is not among the sources.  A
    trigger call of an [on] list, [name] or [name(p1, p2, ...)]: its name and
    its parameters. *)
Definition parseTriggerCall (item : string) : (string * list string) + ParseError :=
  let item := trim item in
  let '(name, rest) := span isIdentifierChar item in
  if String.eqb name "" then inr (TriggerSyntax item)
  else
    match dropSpaces rest with
    | EmptyString => inl (name, [])
    | String c args =>
        if Ascii.eqb c "(" then
          match String.rev args with
          | String d inner =>
              if Ascii.eqb d ")" then
                let inner := String.rev inner in
                if String.eqb (trim inner) "" then inl (name, [])
                else inl (name, trim <$> splitTop "," 0 inner)
              else inr (TriggerSyntax item)
          | EmptyString => inr (TriggerSyntax item)
          end
        else inr (TriggerSyntax item)
    end.

Section triggers.
Variable Ast : Type.
Variable Node : Type.
Variable parseBinding : string -> Ast + string.

(** Modelled from the spec: the trigger table is not among the sources.
    "[idle]/[immediate] take zero parameters, [timer] and
    [hover]/[interaction] take exactly one, [viewport] takes zero or one";
    the parameter of [timer] is a time value. *)
Definition createTrigger (name : string) (params : list string)
  : (TriggerKind * Trigger Ast) + ParseError :=
  if String.eqb name "idle" then
    match params with
    | [] => inl (IdleKind, IdleDeferredTrigger)
    | _ => inr (TriggerCannotHaveParameters name)
    end
  else if String.eqb name "immediate" then
    match params with
    | [] => inl (ImmediateKind, ImmediateDeferredTrigger)
    | _ => inr (TriggerCannotHaveParameters name)
    end
  else if String.eqb name "timer" then
    match params with
    | [p] =>
        match parseDeferredTime p with
        | Some delay => inl (TimerKind, TimerDeferredTrigger delay)
        | None => inr (TriggerTimeValue name)
        end
    | _ => inr (TriggerExactlyOneParameter name)
    end
  else if String.eqb name "hover" then
    match params with
    | [p] => inl (HoverKind, HoverDeferredTrigger (Some p))
    | _ => inr (TriggerExactlyOneParameter name)
    end
  else if String.eqb name "interaction" then
    match params with
    | [p] => inl (InteractionKind, InteractionDeferredTrigger (Some p))
    | _ => inr (TriggerExactlyOneParameter name)
    end
  else if String.eqb name "viewport" then
    match params with
    | [] => inl (ViewportKind, ViewportDeferredTrigger None)
    | [p] => inl (ViewportKind, ViewportDeferredTrigger (Some p))
    | _ => inr (TriggerZeroOrOneParameters name)
    end
  else inr (UnrecognizedTriggerType name).

(** Modelled from the spec: the trigger parser is not among the sources.
    The eager set, the prefetch set and the errors so far. *)
Record DeferTriggers := mkDeferTriggers {
  dt_triggers : TriggerSet Ast;
  dt_prefetch : TriggerSet Ast;
  dt_errors : list ParseError
}.

(** Both sets are free of duplicate kinds. *)
Definition uniqueKinds (acc : DeferTriggers) : Prop :=
  NoDup (triggerKinds (dt_triggers acc)) /\ NoDup (triggerKinds (dt_prefetch acc)).

(** One more error among those of the trigger clauses. *)
Definition deferError (acc : DeferTriggers) (e : ParseError) : DeferTriggers :=
  mkDeferTriggers (dt_triggers acc) (dt_prefetch acc) (dt_errors acc ++ [e]).

(** Modelled from the spec: the trigger bookkeeping is not among the sources.
    "Duplicate trigger kinds within the same set (eager or prefetch) are
    errors, reported per kind": a trigger goes into its set unless the set
    has one of its kind. *)
Definition trackTrigger (prefetch : bool) (kind : TriggerKind) (t : Trigger Ast)
    (acc : DeferTriggers) : DeferTriggers :=
  if prefetch then
    if bool_decide (kind ∈ triggerKinds (dt_prefetch acc))
    then deferError acc (DuplicateTrigger kind)
    else mkDeferTriggers (dt_triggers acc) (dt_prefetch acc ++ [(kind, t)])
           (dt_errors acc)
  else
    if bool_decide (kind ∈ triggerKinds (dt_triggers acc))
    then deferError acc (DuplicateTrigger kind)
    else mkDeferTriggers (dt_triggers acc ++ [(kind, t)]) (dt_prefetch acc)
           (dt_errors acc).

(** Modelled from the spec: the trigger parser is not among the sources.  A
    [when <expression>] clause. *)
Definition whenTrigger (prefetch : bool) (expression : string) (acc : DeferTriggers)
  : DeferTriggers :=
  match parseBinding expression with
  | inl ast => trackTrigger prefetch WhenKind (BoundDeferredTrigger ast) acc
  | inr message => deferError acc (ExpressionSyntax message)
  end.

(** Modelled from the spec: the trigger parser is not among the sources.
    One trigger call of an [on <trigger-list>] clause. *)
Definition onTrigger (prefetch : bool) (acc : DeferTriggers) (item : string)
  : DeferTriggers :=
  match parseTriggerCall item with
  | inr e => deferError acc e
  | inl (name, params) =>
      match createTrigger name params with
      | inl (kind, t) => trackTrigger prefetch kind t acc
      | inr e => deferError acc e
      end
  end.

(** Modelled from the spec: the trigger parser is not among the sources.
    An [on <trigger-list>] clause: "comma-separated trigger calls". *)
Definition onTriggers (prefetch : bool) (triggerList : string) (acc : DeferTriggers)
  : DeferTriggers :=
  foldl (onTrigger prefetch) acc (splitTop "," 0 triggerList).

(** Modelled from the spec: the parser of the trigger clauses is not among
    the sources.  A clause is [when <expr>], [on <trigger-list>],
    [prefetch when <expr>] or [prefetch on <trigger-list>]. *)
Definition deferParameter (acc : DeferTriggers) (param : string) : DeferTriggers :=
  match keywordRest "when" param with
  | Some expression => whenTrigger false expression acc
  | None =>
      match keywordRest "on" param with
      | Some triggerList => onTriggers false triggerList acc
      | None =>
          match keywordRest "prefetch" param with
          | Some rest =>
              match keywordRest "when" rest with
              | Some expression => whenTrigger true expression acc
              | None =>
                  match keywordRest "on" rest with
                  | Some triggerList => onTriggers true triggerList acc
                  | None => deferError acc (UnrecognizedTrigger param)
                  end
              end
          | None => deferError acc (UnrecognizedTrigger param)
          end
      end
  end.

(** Modelled from the spec: the trigger parser is not among the sources.
    The trigger clauses of a deferred block, in order. *)
Definition parseDeferTriggers (params : list string) : DeferTriggers :=
  foldl deferParameter (mkDeferTriggers [] [] []) params.

(** Modelled from the spec: the parser of the placeholder section is not
    among the sources.  [{:placeholder [minimum <time>]}], with one
    [minimum] at most. *)
Definition placeholderParameter (acc : option nat * list ParseError) (param : string)
  : option nat * list ParseError :=
  let '(minimum, errors) := acc in
  match keywordRest "minimum" param with
  | Some time =>
      match minimum with
      | Some _ => (minimum, errors ++ [DuplicateBlockParameter "Placeholder" "minimum"])
      | None =>
          match parseDeferredTime time with
          | Some ms => (Some ms, errors)
          | None => (None, errors ++ [ParameterTimeValue "minimum"])
          end
      end
  | None => (minimum, errors ++ [UnrecognizedBlockParameter "placeholder" param])
  end.

(** Modelled from the spec: the parser of the loading section is not among
    the sources.  [{:loading [after <time>][; minimum <time>]}], with one of
    each parameter at most. *)
Definition loadingParameter (acc : option nat * option nat * list ParseError)
    (param : string) : option nat * option nat * list ParseError :=
  let '(after, minimum, errors) := acc in
  match keywordRest "after" param with
  | Some time =>
      match after with
      | Some _ => (after, minimum, errors ++ [DuplicateBlockParameter "Loading" "after"])
      | None =>
          match parseDeferredTime time with
          | Some ms => (Some ms, minimum, errors)
          | None => (None, minimum, errors ++ [ParameterTimeValue "after"])
          end
      end
  | None =>
      match keywordRest "minimum" param with
      | Some time =>
          match minimum with
          | Some _ =>
              (after, minimum, errors ++ [DuplicateBlockParameter "Loading" "minimum"])
          | None =>
              match parseDeferredTime time with
              | Some ms => (after, Some ms, errors)
              | None => (after, None, errors ++ [ParameterTimeValue "minimum"])
              end
          end
      | None => (after, minimum, errors ++ [UnrecognizedBlockParameter "loading" param])
      end
  end.

(** Modelled from the spec: the parser of deferred blocks is not among the
    sources.  The sections of a deferred block so far. *)
Record DeferSections := mkDeferSections {
  ds_placeholder : option (option nat * list Node);
  ds_loading : option (option nat * option nat * list Node);
  ds_error : option (list Node);
  ds_errors : list ParseError
}.

(** Modelled from the spec: the parser of the sections of a deferred block is
    not among the sources.  "At most one each of [{:placeholder}],
    [{:loading}], [{:error}] (no parameters allowed)". *)
Definition deferSection (acc : DeferSections) (b : Block Node) : DeferSections :=
  if String.eqb (blockName b) "placeholder" then
    match ds_placeholder acc with
    | Some _ =>
        mkDeferSections (ds_placeholder acc) (ds_loading acc) (ds_error acc)
          (ds_errors acc ++ [DuplicateDeferSection "placeholder"])
    | None =>
        let '(minimum, errors) := foldl placeholderParameter (None, []) (parameters b) in
        mkDeferSections (Some (minimum, children b)) (ds_loading acc) (ds_error acc)
          (ds_errors acc ++ errors)
    end
  else if String.eqb (blockName b) "loading" then
    match ds_loading acc with
    | Some _ =>
        mkDeferSections (ds_placeholder acc) (ds_loading acc) (ds_error acc)
          (ds_errors acc ++ [DuplicateDeferSection "loading"])
    | None =>
        let '(after, minimum, errors) :=
          foldl loadingParameter (None, None, []) (parameters b) in
        mkDeferSections (ds_placeholder acc) (Some (after, minimum, children b))
          (ds_error acc) (ds_errors acc ++ errors)
    end
  else if String.eqb (blockName b) "error" then
    match ds_error acc with
    | Some _ =>
        mkDeferSections (ds_placeholder acc) (ds_loading acc) (ds_error acc)
          (ds_errors acc ++ [DuplicateDeferSection "error"])
    | None =>
        match parameters b with
        | [] =>
            mkDeferSections (ds_placeholder acc) (ds_loading acc) (Some (children b))
              (ds_errors acc)
        | _ =>
            mkDeferSections (ds_placeholder acc) (ds_loading acc) (Some (children b))
              (ds_errors acc ++ [ErrorBlockWithParameters])
        end
    end
  else
    mkDeferSections (ds_placeholder acc) (ds_loading acc) (ds_error acc)
      (ds_errors acc ++ [UnrecognizedDeferBlock (blockName b)]).

(** Modelled from the spec: the parser of deferred blocks is not among the
    sources.  The trigger clauses of the primary block and the sections
    after it; the errors are collected, and a block comes out when there is
    none. *)
Definition createDeferredBlock (g : BlockGroup Node)
  : option (DeferredBlock Ast Node) * list ParseError :=
  let triggers := parseDeferTriggers (parameters (primary g)) in
  let sections := foldl deferSection (mkDeferSections None None None []) (secondary g) in
  match dt_errors triggers ++ ds_errors sections with
  | [] =>
      (Some (mkDeferredBlock (children (primary g)) (dt_triggers triggers)
               (dt_prefetch triggers) (ds_placeholder sections) (ds_loading sections)
               (ds_error sections)),
       [])
  | errors => (None, errors)
  end.

End triggers.
End DeferParser.

(** ** Templates of the test suite, as block groups *)

Module BlockExamples.
Import Text Lexing Blocks BlockParser DeferParser.

(** A stand-in for the Expression Service: the text is its own AST, and a
    text with an unclosed parenthesis is a syntax error. *)
Definition parseBinding (text : string) : string + string :=
  if String.eqb text "" then inr "Unexpected end of expression"
  else if balanced 0 text then inl text
  else inr "Unexpected end of expression".

(** A stand-in for the loop pattern: [<identifier> of <expression>] with
    single spaces. *)
Definition matchForExpression (text : string) : option (string * string) :=
  let '(item, rest) := span isIdentifierChar text in
  if String.eqb item "" then None
  else match keywordRest "of" (dropSpaces rest) with
       | Some e => if String.eqb e "" then None else Some (item, e)
       | None => None
       end.

(** The children of a block that holds the text [s] only. *)
Definition text (s : string) : list string := [s].

(** The three block parsers over the stand-ins. *)
Definition createDeferredBlock :=
  DeferParser.createDeferredBlock string string parseBinding.
Definition createSwitchBlock :=
  BlockParser.createSwitchBlock string string parseBinding.
Definition createForLoop :=
  BlockParser.createForLoop string string parseBinding matchForExpression.

End BlockExamples.

Module BlockInputs.
Import Text Lexing Blocks BlockExamples.

(** [{#for a of b}hello{/for}] *)
Definition loopWithoutTrack : BlockGroup string :=
  mkBlockGroup (mkBlock "for" ["a of b"] (text "hello")) [].

(** [{#for}hello{/for}] *)
Definition loopWithoutHeader : BlockGroup string :=
  mkBlockGroup (mkBlock "for" [] (text "hello")) [].

(** [{#for a b; let i = $index}hello{/for}] *)
Definition loopWithBadHeader : BlockGroup string :=
  mkBlockGroup (mkBlock "for" ["a b"; "let i = $index"] (text "hello")) [].

(** [{#for a of b; let i = $index}hello{:empty}none{/for}] *)
Definition loopWithLetAndEmpty : BlockGroup string :=
  mkBlockGroup (mkBlock "for" ["a of b"; "let i = $index"] (text "hello"))
    [mkBlock "empty" [] (text "none")].

(** [{#switch cond}{:case foo} foo{:default} one{:default} two{/switch}] *)
Definition switchWithTwoDefaults : BlockGroup string :=
  mkBlockGroup (mkBlock "switch" ["cond"] [])
    [mkBlock "case" ["foo"] (text " foo ");
     mkBlock "default" [] (text " one ");
     mkBlock "default" [] (text " two ")].

(** [{#switch cond.kind}{:case x()} X case{:default} No case
    matched{:case 42} Z case{/switch}] *)
Definition switchWithDefaultInTheMiddle : BlockGroup string :=
  mkBlockGroup (mkBlock "switch" ["cond.kind"] [])
    [mkBlock "case" ["x()"] (text " X case ");
     mkBlock "default" [] (text " No case matched ");
     mkBlock "case" ["42"] (text " Z case ")].

(** [{#defer on idle; when isVisible(); on timer(10), idle}hello{/defer}] *)
Definition deferWithDuplicateOn : BlockGroup string :=
  mkBlockGroup
    (mkBlock "defer" ["on idle"; "when isVisible()"; "on timer(10), idle"]
       (text "hello")) [].

(** [{#defer when isVisible(); when somethingElse()}hello{/defer}] *)
Definition deferWithDuplicateWhen : BlockGroup string :=
  mkBlockGroup
    (mkBlock "defer" ["when isVisible()"; "when somethingElse()"] (text "hello")) [].

(** [{#defer prefetch on idle; prefetch when isVisible(); prefetch on
    timer(10), idle}hello{/defer}] *)
Definition deferWithDuplicatePrefetchOn : BlockGroup string :=
  mkBlockGroup
    (mkBlock "defer"
       ["prefetch on idle"; "prefetch when isVisible()"; "prefetch on timer(10), idle"]
       (text "hello")) [].

(** [{#defer prefetch when isVisible(); prefetch when
    somethingElse()}hello{/defer}] *)
Definition deferWithDuplicatePrefetchWhen : BlockGroup string :=
  mkBlockGroup
    (mkBlock "defer" ["prefetch when isVisible()"; "prefetch when somethingElse()"]
       (text "hello")) [].

(** The complete example of the test suite: the eager set and the prefetch
    set both hold an [immediate] trigger. *)
Definition deferComplete : BlockGroup string :=
  mkBlockGroup
    (mkBlock "defer"
       ["when isVisible() && foo";
        "on hover(button), timer(10s), idle, immediate, interaction(button), viewport(container)";
        "prefetch on immediate";
        "prefetch when isDataLoaded()"]
       (text "<calendar-cmp>"))
    [mkBlock "loading" ["minimum 1s"; "after 100ms"] (text "Loading...");
     mkBlock "placeholder" ["minimum 500"] (text "Placeholder content!");
     mkBlock "error" [] (text "Loading failed :(")].

End BlockInputs.

(** ** The callback scheduler *)

Module Scheduler.

(** Identity of one call of the scheduling function, that is, of its
    variable [executeCallback]. *)
Definition CallId := nat.

(** Identity of a callback function. *)
Definition Callback := nat.

(** One of the two arrow functions a call registers: it closes over the
    [executeCallback] of its call and over the callback. *)
Record Task := mkTask {
  task_call : CallId;
  task_callback : Callback
}.

(** The host and the closures: the [executeCallback] variables, the
    functions handed to [nativeSetTimeout] and to
    [nativeRequestAnimationFrame] that have not fired yet, and the calls of
    callbacks made so far, each with the call of the scheduling function it
    comes from. *)
Record World := mkWorld {
  executeCallback : gmap CallId bool;
  timeouts : list Task;
  frames : list Task;
  executed : list (CallId * Callback);
  nextCall : CallId
}.

(** Before the scheduling function is called for the first time. *)
Definition initial : World := mkWorld ∅ [] [] [] 0.

(** The function [getCallbackScheduler] returns, applied to [callback].
    [hasRequestAnimationFrame] is fixed when the scheduler is made; without
    it [nativeRequestAnimationFrame] is [null] and the optional call does
    nothing. *)
Definition schedule (hasRequestAnimationFrame : bool) (callback : Callback)
    (w : World) : World :=
  let c := nextCall w in
  mkWorld (<[c := true]> (executeCallback w))
    (timeouts w ++ [mkTask c callback])
    (if hasRequestAnimationFrame then frames w ++ [mkTask c callback] else frames w)
    (executed w) (S c).

(** The body shared by the two arrow functions. *)
Definition runTask (t : Task) (w : World) : World :=
  match executeCallback w !! task_call t with
  | Some true =>
      mkWorld (<[task_call t := false]> (executeCallback w)) (timeouts w) (frames w)
        (executed w ++ [(task_call t, task_callback t)]) (nextCall w)
  | _ => w
  end.

(** The host runs the [i]-th function handed to [nativeSetTimeout]. *)
Definition fireTimeout (i : nat) (w : World) : World :=
  match timeouts w !! i with
  | Some t =>
      runTask t
        (mkWorld (executeCallback w) (delete i (timeouts w)) (frames w) (executed w)
           (nextCall w))
  | None => w
  end.

(** The host runs the [i]-th function handed to
    [nativeRequestAnimationFrame]. *)
Definition fireFrame (i : nat) (w : World) : World :=
  match frames w !! i with
  | Some t =>
      runTask t
        (mkWorld (executeCallback w) (timeouts w) (delete i (frames w)) (executed w)
           (nextCall w))
  | None => w
  end.

(** What can happen next: the scheduling function is called, a timeout
    fires, or an animation frame fires; a function that has fired leaves its
    queue. *)
Inductive step (hasRequestAnimationFrame : bool) : World -> World -> Prop :=
| step_schedule (callback : Callback) (w : World) :
    step hasRequestAnimationFrame w (schedule hasRequestAnimationFrame callback w)
| step_timeout (i : nat) (w : World) :
    step hasRequestAnimationFrame w (fireTimeout i w)
| step_frame (i : nat) (w : World) :
    step hasRequestAnimationFrame w (fireFrame i w).

(** The worlds a scheduler can get to. *)
Definition reachable (hasRequestAnimationFrame : bool) (w : World) : Prop :=
  rtc (step hasRequestAnimationFrame) initial w.

(** How many times a callback has been called on behalf of the call [c]. *)
Definition timesExecuted (c : CallId) (w : World) : nat :=
  count_occ Nat.eq_dec (executed w).*1 c.

(** What holds of every world a scheduler gets to. *)
Record consistent (w : World) : Prop := mkConsistent {
  consistent_flags :
    forall c, c ∈ (executed w).*1 -> executeCallback w !! c = Some false;
  consistent_once : NoDup (executed w).*1;
  consistent_fresh : forall c, is_Some (executeCallback w !! c) -> c < nextCall w
}.

End Scheduler.

(** ** The writes of the naming phase, one at a time *)

Module NamingWrites.
Import Text Naming NamingSpec.

Section writes.
Variable sanitizeIdentifier : string -> string.
Variable hyphenate : string -> string.
Variable jobFnSuffix : string.
Variable jobCompatibility : CompatibilityMode.
Variable compatibility : bool.

(** [kindWritten cu k k']: the assignments of one case of the [switch] of
    the first loop, on an operation of kind [k] of the unit [cu], make its
    kind [k'].  The cases that assign nothing are not listed. *)
Inductive kindWritten (cu : CompilationUnit) : OpKind -> OpKind -> Prop :=
| written_property (name : string) :
    kindWritten cu (Property name true) (Property ("@" +:+ name) true)
| written_hostProperty (name : string) :
    kindWritten cu (HostProperty name true) (HostProperty ("@" +:+ name) true)
| written_hostBindingHandler (baseName name : string) (handlerFnName : option string)
    (slot : option nat) (tag : option string) (isAnimationListener : bool)
    (animationPhase : option string) :
    legacyHostBinding jobCompatibility cu = true ->
    kindWritten cu
      (Listener name handlerFnName slot tag isAnimationListener animationPhase)
      (Listener name
         (Some (sanitizeIdentifier (baseName +:+ "_" +:+ name +:+ "_HostBindingHandler")))
         slot tag isAnimationListener animationPhase)
| written_handler (name : string) (slot : nat) (tag : option string)
    (isAnimationListener : bool) (animationPhase : option string)
    (handler name' : string) :
    legacyHostBinding jobCompatibility cu = false ->
    listenerNames sanitizeIdentifier (fnName cu) name slot tag isAnimationListener
      animationPhase = (handler, name') ->
    kindWritten cu
      (Listener name None (Some slot) tag isAnimationListener animationPhase)
      (Listener name' (Some handler) (Some slot) tag isAnimationListener animationPhase)
| written_style (name : string) :
    kindWritten cu (StyleProp name)
      (StyleProp (if compatibility
                  then stripImportant (normalizeStylePropName hyphenate name)
                  else normalizeStylePropName hyphenate name))
| written_class (name : string) :
    compatibility = true ->
    kindWritten cu (ClassProp name) (ClassProp (stripImportant name)).

(** [write h h']: one statement of [addNamesToView] or [getVariableName]
    that assigns to a field takes the heap from [h] to [h']: the function
    name of a unit that has none, the fields of an operation in the first
    loop, the names of the reads of an operation in the second loop, or the
    name of a variable that has none, with the counter. *)
Inductive write : Heap -> Heap -> Prop :=
| write_fnName (u : XrefId) (cu : CompilationUnit) (baseName : string) (h : Heap) :
    h_views h !! u = Some cu -> fnName cu = None ->
    write h (setFnName u (sanitizeIdentifier (baseName +:+ "_" +:+ jobFnSuffix)) h).2
| write_kind (u : XrefId) (cu : CompilationUnit) (i : nat) (op : Op) (k : OpKind)
    (h : Heap) :
    h_views h !! u = Some cu -> ops cu !! i = Some op ->
    kindWritten cu (kind op) k ->
    write h (replaceOp u i (mkOp k (exprs op)) h)
| write_reads (u : XrefId) (cu : CompilationUnit) (i : nat) (op : Op)
    (varNames : gmap XrefId string) (h : Heap) :
    h_views h !! u = Some cu -> ops cu !! i = Some op ->
    write h (replaceOp u i (mkOp (kind op) (resolveExprs varNames (exprs op)).1) h)
| write_variable (v : VarRef) (sv : SemanticVariable) (h : Heap) :
    h_variables h !! v = Some sv -> variable_name sv = None ->
    write h (getVariableName v h).2.

(** Any number of writes, one after the other. *)
Definition changes : Heap -> Heap -> Prop := rtc write.

End writes.

(** A job with its names taken out: what is left is what the naming phase
    reads but never assigns. *)
Definition kindSkeleton (k : OpKind) : OpKind :=
  match k with
  | Property _ isAnimationTrigger => Property "" isAnimationTrigger
  | HostProperty _ isAnimationTrigger => HostProperty "" isAnimationTrigger
  | Listener _ _ slot tag isAnimationListener animationPhase =>
      Listener "" None slot tag isAnimationListener animationPhase
  | StyleProp _ => StyleProp ""
  | ClassProp _ => ClassProp ""
  | VariableOp _ _ | Template _ _ _ _ | OtherOp => k
  end.

(** A read without its name. *)
Definition exprSkeleton (e : Expr) : Expr :=
  match e with
  | ReadVariableExpr xref _ => ReadVariableExpr xref None
  | OtherExpr => OtherExpr
  end.

(** An operation, a unit, a variable and a job without their names. *)
Definition opSkeleton (o : Op) : Op :=
  mkOp (kindSkeleton (kind o)) (exprSkeleton <$> exprs o).

Definition unitSkeleton (cu : CompilationUnit) : CompilationUnit :=
  mkUnit (unitKind cu) None (opSkeleton <$> ops cu).

Definition variableSkeleton (sv : SemanticVariable) : SemanticVariable :=
  mkSemanticVariable (variable_kind sv) None.

Definition jobSkeleton (cpl : CompilationJob) : CompilationJob :=
  mkJob (componentName cpl) (fnSuffix cpl) (compatibility cpl) (root cpl)
    (unitSkeleton <$> views cpl) (variableSkeleton <$> variables cpl).

(** Whether the expression is not a read without a name. *)
Definition readNamed (e : Expr) : bool :=
  match e with
  | ReadVariableExpr _ None => false
  | _ => true
  end.

(** [unitSettled vs u]: the unit [u] is in the table [vs], it has a function
    name, every listener in it has a handler name and every read in it has a
    name. *)
Definition unitSettled (vs : gmap XrefId CompilationUnit) (u : XrefId) : Prop :=
  exists cu,
    vs !! u = Some cu /\ is_Some (fnName cu) /\
    forall j o, ops cu !! j = Some o ->
      listenerNamed o = true /\ forallb readNamed (exprs o) = true.

End NamingWrites.

(** ** What the phase needs of a job, and what its names look like *)

Module NamingConditions.
Import Text Naming NamingSpec.

(** [readyForNaming c vs u]: the unit [u] is in the table [vs]; every
    [Template] operation in it has a slot, points at a unit of the table and
    sits in a view; and, outside the legacy host-binding case, every listener
    without a handler name has a slot. *)
Definition readyForNaming (jobCompatibility : CompatibilityMode)
    (vs : gmap XrefId CompilationUnit) (u : XrefId) : Prop :=
  exists cu,
    vs !! u = Some cu /\
    (forall j o x s tg ns,
       ops cu !! j = Some o -> kind o = Template x s tg ns ->
       unitKind cu = ViewCompilationUnit /\ is_Some s /\ is_Some (vs !! x)) /\
    (legacyHostBinding jobCompatibility cu = false ->
     forall j o n s tg a ph,
       ops cu !! j = Some o -> kind o = Listener n None s tg a ph -> is_Some s).

(** The name of a style or class property has no [!important] in it. *)
Definition importantFree (o : Op) : Prop :=
  match kind o with
  | StyleProp n | ClassProp n => ~ occursIn "!important" n
  | _ => True
  end.

Section baseNames.
Variable prefixWithNamespace : option string -> Namespace -> string.

(** [viewBaseName vs r b0 u b]: [b] is the base name that [addNamesToView],
    called on [r] with the base name [b0], hands down to [u] along some chain
    of [Template] operations of the table [vs]. *)
Inductive viewBaseName (vs : gmap XrefId CompilationUnit) (r : XrefId) (b0 : string)
  : XrefId -> string -> Prop :=
| base_root : viewBaseName vs r b0 r b0
| base_child (a : XrefId) (baseName : string) (cu : CompilationUnit) (j : nat)
    (o : Op) (b : XrefId) (s : nat) (tg : option string) (ns : Namespace) :
    viewBaseName vs r b0 a baseName ->
    vs !! a = Some cu -> ops cu !! j = Some o -> kind o = Template b (Some s) tg ns ->
    viewBaseName vs r b0 b
      (baseName +:+ "_" +:+ prefixWithNamespace tg ns +:+ "_" +:+ showNat s).

End baseNames.

End NamingConditions.

(** ** Histories of the scheduler *)

Module SchedulerTraces.
Import Scheduler.

(** What happens to a scheduler, one event at a time: the scheduling
    function is called with a callback, the host runs the [i]-th pending
    timeout function, or it runs the [i]-th pending animation-frame
    function. *)
Inductive Event :=
| Schedule (callback : Callback)
| TimeoutFires (i : nat)
| FrameFires (i : nat).

(** The world after one more event. *)
Definition after (hasRequestAnimationFrame : bool) (w : World) (e : Event) : World :=
  match e with
  | Schedule callback => schedule hasRequestAnimationFrame callback w
  | TimeoutFires i => fireTimeout i w
  | FrameFires i => fireFrame i w
  end.

(** The world after a history, from a scheduler that has just been made. *)
Definition run (hasRequestAnimationFrame : bool) (events : list Event) : World :=
  foldl (after hasRequestAnimationFrame) initial events.

(** The callbacks the scheduling function was called with, in order: the
    [c]-th one is the callback of the call [c]. *)
Definition scheduled (events : list Event) : list Callback :=
  omap (fun e => match e with
                 | Schedule callback => Some callback
                 | _ => None
                 end) events.

(** [pending c w]: the timeout function of the call [c] has not run yet,
    nor, where there is [requestAnimationFrame], its animation-frame
    function. *)
Definition pending (hasRequestAnimationFrame : bool) (c : CallId) (w : World) : Prop :=
  exists callback,
    mkTask c callback ∈ timeouts w /\
    (hasRequestAnimationFrame = true -> mkTask c callback ∈ frames w).

(** The callbacks in a world are those of the history that led to it. *)
Record faithful (events : list Event) (w : World) : Prop := mkFaithful {
  faithful_next : nextCall w = List.length (scheduled events);
  faithful_timeouts :
    forall t, t ∈ timeouts w -> scheduled events !! task_call t = Some (task_callback t);
  faithful_frames :
    forall t, t ∈ frames w -> scheduled events !! task_call t = Some (task_callback t);
  faithful_executed :
    forall c callback, (c, callback) ∈ executed w -> scheduled events !! c = Some callback
}.

End SchedulerTraces.

(** ** The humanizer of the test suite

    [R3AstHumanizer] turns a template AST into a flat list of rows, which
    the tests compare with what they expect. *)

Module Humanizer.
Import Text.
Local Set Warnings "-register-all".

Section humanizer.
(** Expression ASTs, [unparse] and [BindingType] come from the expression
    parser. *)
Variable Ast : Type.
Variable BindingType : Type.
Variable unparse : Ast -> string.

(** One entry of a row. *)
Inductive Cell :=
| Str (s : string)
| Null
| Num (n : nat)
| Binding (type : BindingType).

(** [x] for a [string|null] field. *)
Definition nullable (x : option string) : Cell :=
  match x with
  | Some s => Str s
  | None => Null
  end.

(** The subclasses of [t.DeferredTrigger] that [visitDeferredTrigger] tells
    apart; for an object of any other class it throws [Unknown trigger]. *)
Inductive DeferredTrigger :=
| BoundDeferredTrigger (value : Ast)
| ImmediateDeferredTrigger
| HoverDeferredTrigger (reference : option string)
| IdleDeferredTrigger
| TimerDeferredTrigger (delay : nat)
| InteractionDeferredTrigger (reference : option string)
| ViewportDeferredTrigger (reference : option string).

(** The nodes of [t.Node], each with the fields the humanizer reads.  A
    [DeferredBlock] carries the nodes that its own [visitAll] hands to a
    visitor, in that order; the [contextVariables] of a loop are the values
    of that object, as pairs of a name and a value. *)
Inductive Node :=
| Element (name : string) (attributes inputs outputs references children : list Node)
| Template (attributes inputs outputs templateAttrs references variables children
            : list Node)
| Content (selector : string) (attributes : list Node)
| VariableNode (name value : string)
| Reference (name value : string)
| TextAttribute (name value : string)
| BoundAttribute (type : BindingType) (name : string) (value : Ast)
| BoundEvent (name : string) (target : option string) (handler : Ast)
| TextNode (value : string)
| BoundText (value : Ast)
| Icu
| DeferredBlock (visited : list Node)
| SwitchBlock (expression : Ast) (cases : list Node)
| SwitchBlockCase (expression : option Ast) (children : list Node)
| ForLoopBlock (expression trackBy : Ast) (item : Node)
    (contextVariables : list (string * string)) (children : list Node)
    (empty : option Node)
| ForLoopBlockEmpty (children : list Node)
| IfBlock (branches : list Node)
| IfBlockBranch (expression : option Ast) (expressionAlias : option Node)
    (children : list Node)
| Trigger (trigger : DeferredTrigger)
| DeferredBlockPlaceholder (minimumTime : option nat) (children : list Node)
| DeferredBlockLoading (afterTime minimumTime : option nat) (children : list Node)
| DeferredBlockError (children : list Node).

(** A row, and [this.result]. *)
Definition Row : Type := list Cell.

(** [unparse(e)], or [null] for no expression. *)
Definition unparseOrNull (e : option Ast) : Cell :=
  match e with
  | Some a => Str (unparse a)
  | None => Null
  end.

(** [visitDeferredTrigger]: the row of a trigger. *)
Definition visitDeferredTrigger (trigger : DeferredTrigger) : Row :=
  match trigger with
  | BoundDeferredTrigger value => [Str "BoundDeferredTrigger"; Str (unparse value)]
  | ImmediateDeferredTrigger => [Str "ImmediateDeferredTrigger"]
  | HoverDeferredTrigger reference => [Str "HoverDeferredTrigger"; nullable reference]
  | IdleDeferredTrigger => [Str "IdleDeferredTrigger"]
  | TimerDeferredTrigger delay => [Str "TimerDeferredTrigger"; Num delay]
  | InteractionDeferredTrigger reference =>
      [Str "InteractionDeferredTrigger"; nullable reference]
  | ViewportDeferredTrigger reference =>
      [Str "ViewportDeferredTrigger"; nullable reference]
  end.

(** [x !== null && result.push(`<label> ${x}ms`)] *)
Definition timeCell (label : string) (time : option nat) : list Cell :=
  match time with
  | Some ms => [Str (label +:+ " " +:+ showNat ms +:+ "ms")]
  | None => []
  end.

(** [Object.values(block.contextVariables).filter(v => v.name !== v.value)],
    as [Variable] nodes. *)
Definition explicitVariables (contextVariables : list (string * string)) : list Node :=
  (fun v => VariableNode v.1 v.2)
    <$> filter (fun v => v.1 <> v.2) contextVariables.

(** [node.visit(this)]: the method of the humanizer for the class of the
    node, on [this.result]. *)
Fixpoint visit (node : Node) (result : list Row) {struct node} : list Row :=
  let visitAll (nodes : list (list Node)) (result : list Row) : list Row :=
    foldl (fun r ns => foldl (fun r n => visit n r) r ns) result nodes in
  match node with
  | Element name attributes inputs outputs references children =>
      visitAll [attributes; inputs; outputs; references; children]
        (result ++ [[Str "Element"; Str name]])
  | Template attributes inputs outputs templateAttrs references variables children =>
      visitAll [attributes; inputs; outputs; templateAttrs; references; variables;
                children]
        (result ++ [[Str "Template"]])
  | Content selector attributes =>
      foldl (fun r n => visit n r) (result ++ [[Str "Content"; Str selector]]) attributes
  | VariableNode name value => result ++ [[Str "Variable"; Str name; Str value]]
  | Reference name value => result ++ [[Str "Reference"; Str name; Str value]]
  | TextAttribute name value => result ++ [[Str "TextAttribute"; Str name; Str value]]
  | BoundAttribute type name value =>
      result ++ [[Str "BoundAttribute"; Binding type; Str name; Str (unparse value)]]
  | BoundEvent name target handler =>
      result ++ [[Str "BoundEvent"; Str name; nullable target; Str (unparse handler)]]
  | TextNode value => result ++ [[Str "Text"; Str value]]
  | BoundText value => result ++ [[Str "BoundText"; Str (unparse value)]]
  | Icu => result
  | DeferredBlock visited =>
      foldl (fun r n => visit n r) (result ++ [[Str "DeferredBlock"]]) visited
  | SwitchBlock expression cases =>
      visitAll [cases] (result ++ [[Str "SwitchBlock"; Str (unparse expression)]])
  | SwitchBlockCase expression children =>
      visitAll [children] (result ++ [[Str "SwitchBlockCase"; unparseOrNull expression]])
  | ForLoopBlock expression trackBy item contextVariables children empty =>
      let result :=
        result ++ [[Str "ForLoopBlock"; Str (unparse expression); Str (unparse trackBy)]] in
      let result := visit item result in
      let result :=
        foldl (fun r v => r ++ [[Str "Variable"; Str v.1; Str v.2]]) result
          (filter (fun v => v.1 <> v.2) contextVariables) in
      let result := visitAll [children] result in
      match empty with
      | Some block => visit block result
      | None => result
      end
  | ForLoopBlockEmpty children =>
      visitAll [children] (result ++ [[Str "ForLoopBlockEmpty"]])
  | IfBlock branches => visitAll [branches] (result ++ [[Str "IfBlock"]])
  | IfBlockBranch expression expressionAlias children =>
      let result := result ++ [[Str "IfBlockBranch"; unparseOrNull expression]] in
      let result :=
        match expressionAlias with
        | Some alias => visit alias result
        | None => result
        end in
      visitAll [children] result
  | Trigger trigger => result ++ [visitDeferredTrigger trigger]
  | DeferredBlockPlaceholder minimumTime children =>
      visitAll [children]
        (result ++ [Str "DeferredBlockPlaceholder" :: timeCell "minimum" minimumTime])
  | DeferredBlockLoading afterTime minimumTime children =>
      visitAll [children]
        (result ++ [Str "DeferredBlockLoading"
                      :: timeCell "after" afterTime ++ timeCell "minimum" minimumTime])
  | DeferredBlockError children =>
      visitAll [children] (result ++ [[Str "DeferredBlockError"]])
  end.

(** [t.visitAll(visitor, nodes)] for the humanizer. *)
Definition visitNodes (nodes : list Node) (result : list Row) : list Row :=
  foldl (fun r n => visit n r) result nodes.

(** What [expectFromR3Nodes(nodes)] hands to [expect]: the result of a new
    humanizer after [t.visitAll]. *)
Definition humanize (nodes : list Node) : list Row := visitNodes nodes [].

End humanizer.

Arguments Str {BindingType} s.
Arguments Null {BindingType}.
Arguments Num {BindingType} n.
Arguments Binding {BindingType} type.
Arguments Icu {Ast BindingType}.
Arguments VariableNode {Ast BindingType} name value.
Arguments Reference {Ast BindingType} name value.
Arguments TextAttribute {Ast BindingType} name value.
Arguments TextNode {Ast BindingType} value.
Arguments BoundText {Ast BindingType} value.
Arguments Element {Ast BindingType} name attributes inputs outputs references children.
Arguments DeferredBlock {Ast BindingType} visited.
Arguments ForLoopBlock {Ast BindingType} expression trackBy item contextVariables
  children empty.
Arguments ForLoopBlockEmpty {Ast BindingType} children.
Arguments Trigger {Ast BindingType} trigger.
Arguments TimerDeferredTrigger {Ast} delay.
Arguments IdleDeferredTrigger {Ast}.
Arguments DeferredBlockPlaceholder {Ast BindingType} minimumTime children.

End Humanizer.

(** ** What in a job makes the phase throw *)

Module NamingErrors.
Import Text Naming NamingSpec.

(** [errorCause c vs vars r e]: the job with the units [vs] and the
    variables [vars], named from the unit [r], has what [e] is thrown for:
    a listener without handler name and without slot outside the legacy
    host-binding case; a [Template] operation in a host binding; a
    [Template] operation without slot; a read without a name in a unit none
    of whose [Variable] operations has its xref; a unit that is not there; a
    variable that is not there. *)
Definition errorCause (jobCompatibility : CompatibilityMode)
    (vs : gmap XrefId CompilationUnit) (vars : gmap VarRef SemanticVariable)
    (r : XrefId) (e : NamingError) : Prop :=
  match e with
  | ExpectedSlotListener =>
      exists u cu j o n tg a ph,
        vs !! u = Some cu /\ legacyHostBinding jobCompatibility cu = false /\
        ops cu !! j = Some o /\ kind o = Listener n None None tg a ph
  | MustBeCompilingComponent =>
      exists u cu j o x s tg ns,
        vs !! u = Some cu /\ unitKind cu = HostBindingCompilationUnit /\
        ops cu !! j = Some o /\ kind o = Template x s tg ns
  | ExpectedSlotTemplate =>
      exists u cu j o x tg ns,
        vs !! u = Some cu /\ ops cu !! j = Some o /\ kind o = Template x None tg ns
  | VariableNotYetNamed x =>
      exists u cu j o,
        vs !! u = Some cu /\ ops cu !! j = Some o /\
        ReadVariableExpr x None ∈ exprs o /\
        forall i o' v, ops cu !! i = Some o' -> kind o' <> VariableOp x v
  | UndefinedView =>
      vs !! r = None \/
      exists u cu j o x s tg ns,
        vs !! u = Some cu /\ ops cu !! j = Some o /\ kind o = Template x s tg ns /\
        vs !! x = None
  | UndefinedVariable =>
      exists u cu j o x v,
        vs !! u = Some cu /\ ops cu !! j = Some o /\ kind o = VariableOp x v /\
        vars !! v = None
  end.

End NamingErrors.

(** ** Names the first loop settles for good *)

Module NamingMarks.
Import Text Naming NamingSpec.

(** The name of a property that is an animation trigger starts with [@]. *)
Definition triggerMarked (o : Op) : Prop :=
  match kind o with
  | Property n true | HostProperty n true => startsWith "@" n = true
  | _ => True
  end.

(** The handler name of a listener is the one of the legacy host-binding
    case, for the base name [baseName]. *)
Definition hostBindingHandler (sanitizeIdentifier : string -> string)
    (baseName : string) (o : Op) : Prop :=
  match kind o with
  | Listener n hf _ _ _ _ =>
      hf = Some (sanitizeIdentifier (baseName +:+ "_" +:+ n +:+ "_HostBindingHandler"))
  | _ => True
  end.

End NamingMarks.

(** ** Where the phase can write *)

Module NamingReach.
Import Text Naming NamingSpec.

(** [declares vs u v]: some [Variable] operation of the unit [u] of the table
    [vs] has the variable [v]. *)
Definition declares (vs : gmap XrefId CompilationUnit) (u : XrefId) (v : VarRef) : Prop :=
  exists cu j o x,
    vs !! u = Some cu /\ ops cu !! j = Some o /\ kind o = VariableOp x v.

End NamingReach.

(** * Properties *)

(** ** Facts about strings and numerals *)

Module TextFacts.
Import Text.

Lemma append_nil_l (s : string) : "" +:+ s = s.
Proof. reflexivity. Qed.

Lemma append_cons (c : ascii) (s t : string) :
  String c s +:+ t = String c (s +:+ t).
Proof. reflexivity. Qed.

Lemma append_nil_r (s : string) : s +:+ "" = s.
Proof. induction s as [|c s IH]; [reflexivity|]. by rewrite append_cons, IH. Qed.

Lemma append_assoc (a b c : string) : (a +:+ b) +:+ c = a +:+ b +:+ c.
Proof.
  induction a as [|x a IH]; [reflexivity|].
  by rewrite !append_cons, IH.
Qed.

Lemma chars_append (a b : string) :
  list_ascii_of_string (a +:+ b) = list_ascii_of_string a ++ list_ascii_of_string b.
Proof.
  induction a as [|x a IH]; [reflexivity|].
  rewrite append_cons. simpl. by rewrite IH.
Qed.

Lemma chars_inj (a b : string) :
  list_ascii_of_string a = list_ascii_of_string b -> a = b.
Proof.
  intros H.
  rewrite <- (string_of_list_ascii_of_string a), <- (string_of_list_ascii_of_string b).
  by rewrite H.
Qed.

Lemma showUint_digits (d : Decimal.uint) :
  allDigits (list_ascii_of_string (NilEmpty.string_of_uint d)).
Proof.
  unfold allDigits.
  induction d; simpl; constructor; first [reflexivity | assumption].
Qed.

Lemma showNat_digits (n : nat) : allDigits (list_ascii_of_string (showNat n)).
Proof. apply showUint_digits. Qed.

Lemma showNat_inj (a b : nat) : showNat a = showNat b -> a = b.
Proof.
  unfold showNat. intros H.
  apply DecimalNat.Unsigned.to_uint_inj.
  assert (Some (Nat.to_uint a) = Some (Nat.to_uint b)) as Hs.
  { rewrite <- !NilEmpty.usu. by rewrite H. }
  by injection Hs.
Qed.

(** A run of digits in front of a non-digit is determined by the whole. *)
Lemma digit_run_unique (x y r1 r2 : list ascii) (c1 c2 : ascii) :
  allDigits x -> allDigits y -> isDigit c1 = false -> isDigit c2 = false ->
  x ++ c1 :: r1 = y ++ c2 :: r2 -> x = y.
Proof.
  intros Hx. revert y. induction Hx as [|a x Ha Hx IH]; intros y Hy Hc1 Hc2 Heq.
  - destruct Hy as [|b y Hb Hy]; [reflexivity|].
    simpl in Heq. injection Heq as -> _. congruence.
  - destruct Hy as [|b y Hb Hy]; simpl in Heq.
    + injection Heq as -> _. congruence.
    + injection Heq as -> Heq. f_equal. by apply IH.
Qed.

(** The numeral that ends a string, after a non-digit, is determined by the
    string. *)
Lemma numeral_suffix_unique (p1 p2 : string) (c1 c2 : ascii) (n1 n2 : nat) :
  isDigit c1 = false -> isDigit c2 = false ->
  p1 +:+ String c1 (showNat n1) = p2 +:+ String c2 (showNat n2) -> n1 = n2.
Proof.
  intros Hc1 Hc2 Heq. apply showNat_inj, chars_inj.
  apply (f_equal list_ascii_of_string) in Heq.
  rewrite !chars_append in Heq. simpl in Heq.
  apply (f_equal (@rev ascii)) in Heq.
  rewrite !rev_app_distr in Heq. simpl in Heq.
  rewrite <- !app_assoc in Heq. simpl in Heq.
  apply digit_run_unique in Heq; try assumption.
  - rewrite <- (rev_involutive (list_ascii_of_string (showNat n1))).
    rewrite Heq. apply rev_involutive.
  - apply Forall_rev, showNat_digits.
  - apply Forall_rev, showNat_digits.
Qed.

Lemma prefix_append (p s : string) : String.prefix p (p +:+ s) = true.
Proof.
  induction p as [|c p IH]; [by destruct s|].
  rewrite append_cons. simpl. by destruct (ascii_dec c c).
Qed.

Lemma substring_append (a b : string) :
  String.substring 0 (String.length a) (a +:+ b) = a.
Proof.
  induction a as [|c a IH]; [by destruct b|].
  rewrite append_cons. simpl. by rewrite IH.
Qed.

End TextFacts.

(** ** The heap only evolves during the naming phase *)

Module NamingFacts.
Import Text TextFacts Naming NamingSpec.
Local Open Scope naming_scope.

Lemma variableNameFor_inj (k1 k2 : SemanticVariableKind) (n1 n2 : nat) :
  variableNameFor k1 n1 = variableNameFor k2 n2 -> n1 = n2.
Proof.
  assert (forall n, "ctx_r" +:+ showNat n = "ctx_" +:+ String "r" (showNat n)) as Hc
    by reflexivity.
  assert (forall i n, i +:+ "_" +:+ showNat n = i +:+ String "_" (showNat n)) as Hi
    by reflexivity.
  assert (forall n, "_r" +:+ showNat n = "_" +:+ String "r" (showNat n)) as Hs
    by reflexivity.
  destruct k1, k2; unfold variableNameFor; rewrite ?Hc, ?Hi, ?Hs;
    apply numeral_suffix_unique; reflexivity.
Qed.

Lemma setKind_then_ret_eq {A} (u : XrefId) (i : nat) (o : Op) (k : OpKind) (x : A)
    (h : Heap) :
  (setKind u i o k ;;; ret x) h = (Done x, replaceOp u i (mkOp k (exprs o)) h).
Proof. reflexivity. Qed.

Section evolution.
Variable sanitizeIdentifier : string -> string.
Variable hyphenate : string -> string.
Variable prefixWithNamespace : option string -> Namespace -> string.
Variable jobFnSuffix : string.
Variable jobCompatibility : CompatibilityMode.
Variable compatibility : bool.

Local Abbreviation kindKeeps := (kindKeeps hyphenate compatibility).
Local Abbreviation opKeeps := (opKeeps hyphenate compatibility).
Local Abbreviation unitKeeps := (unitKeeps hyphenate jobCompatibility compatibility).
Local Abbreviation evolves := (evolves hyphenate jobCompatibility compatibility).
Local Abbreviation legacyHostBinding := (legacyHostBinding jobCompatibility).
Local Abbreviation nameOp :=
  (nameOp sanitizeIdentifier hyphenate prefixWithNamespace jobCompatibility).
Local Abbreviation nameOps :=
  (nameOps sanitizeIdentifier hyphenate prefixWithNamespace jobCompatibility).
Local Abbreviation nameUnit :=
  (nameUnit sanitizeIdentifier hyphenate prefixWithNamespace jobFnSuffix jobCompatibility).
Local Abbreviation addNamesToView :=
  (addNamesToView sanitizeIdentifier hyphenate prefixWithNamespace jobFnSuffix
     jobCompatibility).

Lemma exprKeeps_refl (e : Expr) : exprKeeps e e.
Proof. destruct e as [x [n|]|]; simpl; eauto. Qed.

Lemma exprKeeps_trans (e1 e2 e3 : Expr) :
  exprKeeps e1 e2 -> exprKeeps e2 e3 -> exprKeeps e1 e3.
Proof.
  destruct e1 as [x [n|]|]; simpl.
  - intros -> H. exact H.
  - intros [n' ->] H. destruct n' as [n'|]; simpl in H.
    + subst. eauto.
    + exact H.
  - intros -> H. exact H.
Qed.

Lemma kindKeeps_refl (lh : bool) (k : OpKind) : kindKeeps lh k k.
Proof. destruct k; simpl; eauto 10. Qed.

Lemma kindKeeps_trans (lh : bool) (k1 k2 k3 : OpKind) :
  kindKeeps lh k1 k2 -> kindKeeps lh k2 k3 -> kindKeeps lh k1 k3.
Proof.
  destruct k1; simpl.
  - intros (n' & -> & H1) (n'' & -> & H2). exists n''. split; [done|].
    intros Ht. rewrite (H2 Ht). auto.
  - intros (n' & -> & H1) (n'' & -> & H2). exists n''. split; [done|].
    intros Ht. rewrite (H2 Ht). auto.
  - intros (n' & hf' & -> & Ha & Hb) (n'' & hf'' & -> & Hc & Hd).
    exists n'', hf''. split; [done|]. split.
    + intros Hl. rewrite (Hc Hl). auto.
    + intros Hl f Hf. destruct (Hb Hl f Hf) as [-> ->].
      exact (Hd Hl f eq_refl).
  - intros -> H. exact H.
  - intros -> H. exact H.
  - intros (n' & -> & H1) (n'' & -> & H2). exists n''. split; [done|].
    intros Hn Hs. specialize (H1 Hn Hs). subst n'. auto.
  - intros (n' & -> & H1) (n'' & -> & H2). exists n''. split; [done|].
    intros Hs. specialize (H1 Hs). subst n'. auto.
  - intros -> H. exact H.
Qed.

Lemma opKeeps_refl (lh : bool) (o : Op) : opKeeps lh o o.
Proof.
  split; [apply kindKeeps_refl|].
  apply Forall_Forall2_diag, Forall_forall. intros; apply exprKeeps_refl.
Qed.

Lemma opKeeps_trans (lh : bool) (o1 o2 o3 : Op) :
  opKeeps lh o1 o2 -> opKeeps lh o2 o3 -> opKeeps lh o1 o3.
Proof.
  intros [Hk1 He1] [Hk2 He2]. split; [by eapply kindKeeps_trans|].
  eapply Forall2_trans; [|exact He1|exact He2].
  intros ???; apply exprKeeps_trans.
Qed.

Lemma unitKeeps_refl (cu : CompilationUnit) : unitKeeps cu cu.
Proof.
  split; [done|]. split; [done|].
  apply Forall_Forall2_diag, Forall_forall. intros; apply opKeeps_refl.
Qed.

Lemma unitKeeps_trans (c1 c2 c3 : CompilationUnit) :
  unitKeeps c1 c2 -> unitKeeps c2 c3 -> unitKeeps c1 c3.
Proof.
  intros (Hk1 & Hf1 & Ho1) (Hk2 & Hf2 & Ho2).
  split; [congruence|]. split; [auto|].
  assert (legacyHostBinding c2 = legacyHostBinding c1) as Hl
    by (unfold NamingSpec.legacyHostBinding; by rewrite Hk1).
  rewrite Hl in Ho2.
  eapply Forall2_trans; [|exact Ho1|exact Ho2].
  intros ???; apply opKeeps_trans.
Qed.

Lemma variableKeeps_refl (i i' : nat) (sv : SemanticVariable) :
  variableKeeps i i' sv sv.
Proof.
  split; [done|]. destruct (variable_name sv) eqn:E; [done|].
  intros n Hn. congruence.
Qed.

Lemma variableKeeps_trans (i1 i2 i3 : nat) (s1 s2 s3 : SemanticVariable) :
  i1 <= i2 -> i2 <= i3 ->
  variableKeeps i1 i2 s1 s2 -> variableKeeps i2 i3 s2 s3 -> variableKeeps i1 i3 s1 s3.
Proof.
  intros Hi1 Hi2 [Hk1 Hn1] [Hk2 Hn2]. split; [congruence|].
  destruct (variable_name s1) as [n1|] eqn:E1.
  - rewrite Hn1 in Hn2. exact Hn2.
  - intros n Hn. destruct (variable_name s2) as [n2|] eqn:E2.
    + rewrite Hn2 in Hn. injection Hn as <-.
      destruct (Hn1 n2 eq_refl) as (N & HN & ->). exists N. split; [lia|done].
    + destruct (Hn2 n Hn) as (N & HN & ->). exists N. split; [lia|congruence].
Qed.

Lemma evolves_refl (h : Heap) : evolves h h.
Proof.
  split.
  - done.
  - intros u. destruct (h_views h !! u); constructor. apply unitKeeps_refl.
  - intros v. destruct (h_variables h !! v); constructor. apply variableKeeps_refl.
  - intros v1 v2 n1 n2 _ (sv & sv' & H1 & H2 & H3 & H4) _. congruence.
Qed.

Lemma evolves_trans (h1 h2 h3 : Heap) :
  evolves h1 h2 -> evolves h2 h3 -> evolves h1 h3.
Proof.
  intros [Hi1 Hu1 Hv1 Hf1] [Hi2 Hu2 Hv2 Hf2]. split.
  - lia.
  - intros u. specialize (Hu1 u). specialize (Hu2 u).
    destruct Hu1 as [c1 c2 H12|]; inversion Hu2; subst; constructor.
    by eapply unitKeeps_trans.
  - intros v. specialize (Hv1 v). specialize (Hv2 v).
    destruct Hv1 as [s1 s2 H12|]; inversion Hv2; subst; constructor.
    by eapply variableKeeps_trans.
  - intros v1 v2 n1 n2 Hne (a1 & a3 & Ha1 & Han & Ha3 & Ha3n)
      (b1 & b3 & Hb1 & Hbn & Hb3 & Hb3n).
    pose proof (Hv1 v1) as Ha12. pose proof (Hv2 v1) as Ha23.
    pose proof (Hv1 v2) as Hb12. pose proof (Hv2 v2) as Hb23.
    rewrite Ha1 in Ha12. rewrite Ha3 in Ha23. rewrite Hb1 in Hb12. rewrite Hb3 in Hb23.
    inversion Ha12 as [? a2 [Hak Hanm] Ea Ea2|]; subst.
    inversion Hb12 as [? b2 [Hbk Hbnm] Eb Eb2|]; subst.
    symmetry in Ea2, Eb2.
    rewrite Ea2 in Ha23. rewrite Eb2 in Hb23.
    inversion Ha23 as [? ? [Hak' Hanm'] |]; subst.
    inversion Hb23 as [? ? [Hbk' Hbnm'] |]; subst.
    rewrite Han in Hanm. rewrite Hbn in Hbnm.
    destruct (variable_name a2) as [ma|] eqn:Ema;
      destruct (variable_name b2) as [mb|] eqn:Emb.
    + assert (ma = n1) by congruence. assert (mb = n2) by congruence. subst.
      apply (Hf1 v1 v2 n1 n2 Hne); [by exists a1, a2 | by exists b1, b2].
    + assert (ma = n1) by congruence. subst.
      destruct (Hanm n1 eq_refl) as (N1 & HN1 & ->).
      destruct (Hbnm' n2 Hb3n) as (N2 & HN2 & ->).
      intros Heq. apply variableNameFor_inj in Heq. lia.
    + assert (mb = n2) by congruence. subst.
      destruct (Hbnm n2 eq_refl) as (N2 & HN2 & ->).
      destruct (Hanm' n1 Ha3n) as (N1 & HN1 & ->).
      intros Heq. apply variableNameFor_inj in Heq. lia.
    + apply (Hf2 v1 v2 n1 n2 Hne); [by exists a2, a3 | by exists b2, b3].
Qed.

Lemma evolves_views_only (h h' : Heap) :
  h_index h' = h_index h -> h_variables h' = h_variables h ->
  (forall u, option_Forall2 unitKeeps (h_views h !! u) (h_views h' !! u)) ->
  evolves h h'.
Proof.
  intros Hi Hv Hu. split.
  - lia.
  - exact Hu.
  - intros v. rewrite Hv. destruct (h_variables h !! v); constructor.
    apply variableKeeps_refl.
  - intros v1 v2 n1 n2 _ (sv & sv' & H1 & H2 & H3 & H4) _.
    rewrite Hv in H3. congruence.
Qed.

Lemma evolves_setFnName (u : XrefId) (n : string) (h : Heap) (cu : CompilationUnit) :
  h_views h !! u = Some cu -> fnName cu = None -> evolves h (setFnName u n h).2.
Proof.
  intros Hu Hn. apply evolves_views_only; [done..|]. intros u'. simpl.
  destruct (decide (u = u')) as [<-|Hne].
  - rewrite lookup_alter_eq, Hu. constructor.
    split; [done|]. split; [intros ?; congruence|].
    apply Forall_Forall2_diag, Forall_forall. intros; apply opKeeps_refl.
  - rewrite lookup_alter_ne by done.
    destruct (h_views h !! u'); constructor. apply unitKeeps_refl.
Qed.

Lemma evolves_replaceOp (u : XrefId) (i : nat) (o o' : Op) (h : Heap)
    (cu : CompilationUnit) :
  h_views h !! u = Some cu -> ops cu !! i = Some o ->
  opKeeps (legacyHostBinding cu) o o' -> evolves h (replaceOp u i o' h).
Proof.
  intros Hu Hi Hk. apply evolves_views_only; [done..|]. intros u'. simpl.
  destruct (decide (u = u')) as [<-|Hne].
  - rewrite lookup_alter_eq, Hu. constructor.
    split; [done|]. split; [done|]. simpl.
    rewrite <- (list_insert_id (ops cu) i o Hi) at 1.
    apply Forall2_insert; [|done].
    apply Forall_Forall2_diag, Forall_forall. intros; apply opKeeps_refl.
  - rewrite lookup_alter_ne by done.
    destruct (h_views h !! u'); constructor. apply unitKeeps_refl.
Qed.

Lemma evolves_getVariableName (v : VarRef) (h : Heap) :
  evolves h (getVariableName v h).2.
Proof.
  unfold getVariableName.
  destruct (h_variables h !! v) as [sv|] eqn:Hv; [|apply evolves_refl].
  destruct (variable_name sv) as [n|] eqn:Hn; [apply evolves_refl|].
  split; simpl.
  - lia.
  - intros u. destruct (h_views h !! u); constructor. apply unitKeeps_refl.
  - intros v'. destruct (decide (v = v')) as [<-|Hne].
    + rewrite lookup_insert_eq, Hv. constructor. split; [done|].
      rewrite Hn. intros n [= <-]. exists (h_index h). split; [lia|done].
    + rewrite lookup_insert_ne by done.
      destruct (h_variables h !! v'); constructor. apply variableKeeps_refl.
  - intros v1 v2 n1 n2 Hne (a & a' & Ha1 & Ha2 & Ha3 & Ha4)
      (b & b' & Hb1 & Hb2 & Hb3 & Hb4). simpl in *.
    destruct (decide (v = v1)) as [<-|Hv1].
    + rewrite lookup_insert_ne in Hb3 by done. congruence.
    + rewrite lookup_insert_ne in Ha3 by done. congruence.
Qed.

Lemma bind_evolves {A B} (m : M A) (k : A -> M B) (h : Heap) :
  evolves h (m h).2 -> (forall a h', evolves h' (k a h').2) ->
  evolves h (bind m k h).2.
Proof.
  intros Hm Hk. unfold bind. destruct (m h) as [[a|e|] h']; simpl in *.
  - eapply evolves_trans; [exact Hm|apply Hk].
  - exact Hm.
  - exact Hm.
Qed.

Lemma if_evolves {A} (b : bool) (m1 m2 : M A) (h : Heap) :
  (b = true -> evolves h (m1 h).2) -> (b = false -> evolves h (m2 h).2) ->
  evolves h ((if b then m1 else m2) h).2.
Proof. destruct b; auto. Qed.

Lemma foldM_evolves {A B} (f : B -> A -> M B) (l : list A) (b : B) (h : Heap) :
  (forall b a h', evolves h' (f b a h').2) -> evolves h (foldM f l b h).2.
Proof.
  intros Hf. revert b h. induction l as [|a l IH]; intros b h; simpl.
  - apply evolves_refl.
  - apply bind_evolves; [apply Hf|]. intros b' h'. apply IH.
Qed.

Lemma evolves_setKind (u : XrefId) (i : nat) (o : Op) (k : OpKind) (h : Heap)
    (cu : CompilationUnit) :
  h_views h !! u = Some cu -> ops cu !! i = Some o ->
  kindKeeps (legacyHostBinding cu) (kind o) k ->
  evolves h (replaceOp u i (mkOp k (exprs o)) h).
Proof.
  intros Hu Hi Hk. eapply evolves_replaceOp; [done..|].
  split; [done|]. simpl.
  apply Forall_Forall2_diag, Forall_forall. intros; apply exprKeeps_refl.
Qed.

Lemma nameOp_evolves (recur : XrefId -> string -> bool -> M unit) (u : XrefId)
    (baseName : string) (varNames : gmap XrefId string) (i : nat) (h : Heap) :
  (forall x b h', evolves h' (recur x b compatibility h').2) ->
  evolves h (nameOp recur u baseName compatibility varNames i h).2.
Proof.
  intros Hrec. unfold Naming.nameOp, bind at 1, getUnit.
  destruct (h_views h !! u) as [cu|] eqn:Hu; [|apply evolves_refl].
  destruct (ops cu !! i) as [op|] eqn:Hi; [|apply evolves_refl].
  destruct (kind op) as [n t|n t|n hf s tg a ph|x v|x s tg ns|n|n|] eqn:Hk.
  - destruct t; [|apply evolves_refl].
    rewrite setKind_then_ret_eq. simpl. eapply evolves_setKind; [done..|].
    rewrite Hk. simpl. eexists. split; [done|intros; discriminate].
  - destruct t; [|apply evolves_refl].
    rewrite setKind_then_ret_eq. simpl. eapply evolves_setKind; [done..|].
    rewrite Hk. simpl. eexists. split; [done|intros; discriminate].
  - fold (legacyHostBinding cu).
    destruct (legacyHostBinding cu) eqn:Hl.
    + rewrite setKind_then_ret_eq. simpl. eapply evolves_setKind; [done..|].
      rewrite Hk, Hl. simpl. eexists _, _. split; [done|]. split; [done|]. done.
    + destruct hf as [f|]; [apply evolves_refl|].
      destruct s as [s|]; [|apply evolves_refl].
      destruct (listenerNames _ _ _ _ _ _ _) as [handler name'].
      rewrite setKind_then_ret_eq. simpl. eapply evolves_setKind; [done..|].
      rewrite Hk, Hl. simpl. eexists _, _. split; [done|]. split; [done|]. done.
  - apply bind_evolves; [apply evolves_getVariableName|].
    intros; apply evolves_refl.
  - destruct (unitKind cu); [|apply evolves_refl].
    destruct s as [s|]; [|apply evolves_refl].
    apply bind_evolves; [apply Hrec|]. intros; apply evolves_refl.
  - rewrite setKind_then_ret_eq. simpl. eapply evolves_setKind; [done..|].
    rewrite Hk. simpl. eexists. split; [done|].
    intros Hn Hs. rewrite Hn. destruct compatibility; auto.
  - apply if_evolves; [intros Hc|intros _; apply evolves_refl].
    rewrite setKind_then_ret_eq. simpl. eapply evolves_setKind; [done..|].
    rewrite Hk. simpl. eexists. split; [done|]. auto.
  - apply evolves_refl.
Qed.

Lemma resolveExprs_keeps (varNames : gmap XrefId string) (es : list Expr) :
  Forall2 exprKeeps es (resolveExprs varNames es).1.
Proof.
  induction es as [|e es IH]; simpl; [constructor|].
  destruct e as [x [n|]|].
  - destruct (resolveExprs varNames es) as [r err]. constructor; [done|exact IH].
  - destruct (varNames !! x) as [n|].
    + destruct (resolveExprs varNames es) as [r err].
      constructor; [simpl; eauto|exact IH].
    + simpl. apply Forall_Forall2_diag, Forall_forall. intros; apply exprKeeps_refl.
  - destruct (resolveExprs varNames es) as [r err]. constructor; [done|exact IH].
Qed.

Lemma resolveOp_evolves (u : XrefId) (varNames : gmap XrefId string) (x : unit)
    (i : nat) (h : Heap) :
  evolves h (resolveOp u varNames x i h).2.
Proof.
  unfold resolveOp, bind at 1, getUnit.
  destruct (h_views h !! u) as [cu|] eqn:Hu; [|apply evolves_refl].
  destruct (ops cu !! i) as [op|] eqn:Hi; [|apply evolves_refl].
  pose proof (resolveExprs_keeps varNames (exprs op)) as Hes.
  destruct (resolveExprs varNames (exprs op)) as [es err]. simpl in Hes.
  assert (evolves h (replaceOp u i (mkOp (kind op) es) h)) as Hev.
  { eapply evolves_replaceOp; [done..|]. split; [apply kindKeeps_refl|done]. }
  destruct err; exact Hev.
Qed.

Lemma nameUnit_evolves (recur : XrefId -> string -> bool -> M unit) (u : XrefId)
    (baseName : string) (cu : CompilationUnit) (h : Heap) :
  (forall x b h', evolves h' (recur x b compatibility h').2) ->
  h_views h !! u = Some cu ->
  evolves h (nameUnit recur u baseName compatibility cu h).2.
Proof.
  intros Hrec Hu. unfold Naming.nameUnit. apply bind_evolves.
  - unfold assignFnName. destruct (fnName cu) eqn:Hn; [apply evolves_refl|].
    by eapply evolves_setFnName.
  - intros _ h'. apply foldM_evolves. intros b a h''. by apply nameOp_evolves.
Qed.

Lemma addNamesToView_evolves (depth : nat) (u : XrefId) (baseName : string)
    (h : Heap) :
  evolves h (addNamesToView depth u baseName compatibility h).2.
Proof.
  revert u baseName h. induction depth as [|d IH]; intros u baseName h.
  - apply evolves_refl.
  - simpl. unfold bind at 1, getUnit.
    destruct (h_views h !! u) as [cu|] eqn:Hu; [|apply evolves_refl].
    apply bind_evolves.
    + apply nameUnit_evolves; [|done]. intros; apply IH.
    + intros varNames h'. apply foldM_evolves. intros; apply resolveOp_evolves.
Qed.

End evolution.
End NamingFacts.

(** ** The [!important] marker *)

Module ImportantFacts.
Import Text TextFacts Naming.

Lemma prefix_split (p s : string) :
  String.prefix p s = true -> exists r, s = p +:+ r.
Proof.
  revert s. induction p as [|c p IH]; intros s H.
  - exists s. reflexivity.
  - destruct s as [|d s]; [discriminate|].
    change (String.prefix (String c p) (String d s))
      with (if ascii_dec c d then String.prefix p s else false) in H.
    destruct (ascii_dec c d) as [->|]; [|discriminate].
    destruct (IH s H) as [r ->]. exists r. reflexivity.
Qed.

Lemma occursIn_cons (p : string) (c : ascii) (s : string) :
  occursIn p s -> occursIn p (String c s).
Proof. intros (a & b & ->). exists (String c a), b. reflexivity. Qed.

Lemma prefix_cons (c d : ascii) (p s : string) :
  String.prefix (String c p) (String d s)
  = if ascii_dec c d then String.prefix p s else false.
Proof. reflexivity. Qed.

Local Ltac next_char a H :=
  let c := fresh "c" in
  destruct a as [|c a];
  [ cbv in H; discriminate
  | rewrite append_cons, prefix_cons in H;
    match type of H with
    | (if ascii_dec ?x ?y then _ else _) = true =>
        destruct (ascii_dec x y) as [<-|]; [|discriminate]
    end ].

(** [!important] does not overlap itself: an occurrence that starts before
    another one ends before it. *)
Lemma important_no_overlap (a b : string) :
  String.prefix "!important" (a +:+ "!important" +:+ b) = true ->
  a = "" \/ exists r, a = "!important" +:+ r.
Proof.
  intros H. destruct a as [|c0 a]; [by left|right].
  rewrite append_cons, prefix_cons in H.
  destruct (ascii_dec "!" c0) as [<-|]; [|discriminate].
  do 9 next_char a H.
  exists a. reflexivity.
Qed.

Lemma index_important_first (a b : string) :
  ~ occursIn "!important" a ->
  indexOf "!important" (a +:+ "!important" +:+ b) = Some (String.length a).
Proof.
  unfold indexOf. induction a as [|c a IH]; intros Hno.
  - rewrite append_nil_l.
    change (String.index 0 "!important" ("!important" +:+ b))
      with (if String.prefix "!important" ("!important" +:+ b)
            then Some 0
            else match String.index 0 "!important" ("important" +:+ b) with
                 | Some n => Some (S n)
                 | None => None
                 end).
    by rewrite prefix_append.
  - rewrite append_cons.
    change (String.index 0 "!important" (String c (a +:+ "!important" +:+ b)))
      with (if String.prefix "!important" (String c (a +:+ "!important" +:+ b))
            then Some 0
            else match String.index 0 "!important" (a +:+ "!important" +:+ b) with
                 | Some n => Some (S n)
                 | None => None
                 end).
    destruct (String.prefix "!important" (String c (a +:+ "!important" +:+ b))) eqn:Hp.
    + rewrite <- append_cons in Hp. apply important_no_overlap in Hp.
      destruct Hp as [Hp|[r Hp]]; [discriminate|].
      exfalso. apply Hno. exists "", r. exact Hp.
    + rewrite IH; [reflexivity|].
      intros Hocc. apply Hno. by apply occursIn_cons.
Qed.

Lemma index_important_none (s : string) :
  ~ occursIn "!important" s -> indexOf "!important" s = None.
Proof.
  unfold indexOf. induction s as [|c s IH]; intros Hno.
  - reflexivity.
  - change (String.index 0 "!important" (String c s))
      with (if String.prefix "!important" (String c s)
            then Some 0
            else match String.index 0 "!important" s with
                 | Some n => Some (S n)
                 | None => None
                 end).
    destruct (String.prefix "!important" (String c s)) eqn:Hp.
    + apply prefix_split in Hp as [r Hr]. exfalso. apply Hno.
      exists "", r. exact Hr.
    + rewrite IH; [reflexivity|].
      intros Hocc. apply Hno. by apply occursIn_cons.
Qed.

Lemma stripImportant_absent (name : string) :
  ~ occursIn "!important" name -> stripImportant name = name.
Proof. intros H. unfold stripImportant. by rewrite index_important_none. Qed.

Lemma stripImportant_first (a b : string) :
  ~ occursIn "!important" a -> stripImportant (a +:+ "!important" +:+ b) = a.
Proof.
  intros H. unfold stripImportant. rewrite index_important_first by done.
  apply substring_append.
Qed.

End ImportantFacts.

(** ** Single operations of the first loop *)

Module NamingSteps.
Import Text TextFacts Naming NamingSpec NamingFacts ImportantFacts.
Local Open Scope naming_scope.

Lemma replaceOp_views (u : XrefId) (i : nat) (o : Op) (h : Heap) (cu : CompilationUnit) :
  h_views h !! u = Some cu ->
  h_views (replaceOp u i o h)
  = <[u := mkUnit (unitKind cu) (fnName cu) (<[i:=o]> (ops cu))]> (h_views h).
Proof.
  intros Hu. simpl. apply map_eq. intros u'.
  destruct (decide (u = u')) as [<-|Hne].
  - by rewrite lookup_alter_eq, lookup_insert_eq, Hu.
  - by rewrite lookup_alter_ne, lookup_insert_ne.
Qed.

Lemma replaceOp_rest (u : XrefId) (i : nat) (o : Op) (h : Heap) :
  h_variables (replaceOp u i o h) = h_variables h /\
  h_index (replaceOp u i o h) = h_index h.
Proof. split; reflexivity. Qed.

(** C4. A [Listener] operation without a handler name, outside the legacy
    host-binding case: without a slot the phase throws; with slot [s] the
    handler name becomes the sanitized
    [<fnName>_<tag>_<name>_<s>_listener], where the tag has its first hyphen
    turned into an underscore and is [host] when the operation has none; for
    an animation listener the handler name is the sanitized
    [<fnName>_<tag>_animation_<name>_<phase>_<s>_listener] and the binding
    name becomes [@<name>.<phase>].  Nothing else in the heap changes. *)
Theorem C4_listener_handler_name
    (sanitizeIdentifier hyphenate : string -> string)
    (prefixWithNamespace : option string -> Namespace -> string)
    (jobCompatibility : CompatibilityMode)
    (recur : XrefId -> string -> bool -> M unit)
    (u : XrefId) (baseName : string) (compatibility : bool)
    (varNames : gmap XrefId string) (i : nat) (h : Heap)
    (cu : CompilationUnit) (op : Op) (unitFnName name : string)
    (slot : option nat) (tag : option string) (isAnimationListener : bool)
    (animationPhase : option string) :
  h_views h !! u = Some cu ->
  ops cu !! i = Some op ->
  fnName cu = Some unitFnName ->
  kind op = Listener name None slot tag isAnimationListener animationPhase ->
  legacyHostBinding jobCompatibility cu = false ->
  let safeTagName :=
    match tag with
    | None | Some EmptyString => "host"
    | Some t => replaceFirst "-" "_" t
    end in
  let phase := match animationPhase with Some p => p | None => "null" end in
  nameOp sanitizeIdentifier hyphenate prefixWithNamespace jobCompatibility recur
    u baseName compatibility varNames i h
  = match slot with
    | None => (Throw ExpectedSlotListener, h)
    | Some s =>
        (Done varNames,
         replaceOp u i
           (mkOp
              (if isAnimationListener then
                 Listener ("@" +:+ name +:+ "." +:+ phase)
                   (Some (sanitizeIdentifier
                            (unitFnName +:+ "_" +:+ safeTagName +:+ "_animation_"
                               +:+ name +:+ "_" +:+ phase +:+ "_" +:+ showNat s
                               +:+ "_listener")))
                   slot tag isAnimationListener animationPhase
               else
                 Listener name
                   (Some (sanitizeIdentifier
                            (unitFnName +:+ "_" +:+ safeTagName +:+ "_" +:+ name
                               +:+ "_" +:+ showNat s +:+ "_listener")))
                   slot tag isAnimationListener animationPhase)
              (exprs op))
           h)
    end.
Proof.
  intros Hu Hi Hfn Hk Hl safeTagName phase.
  unfold nameOp, bind at 1, getUnit. rewrite Hu, Hi, Hk.
  unfold legacyHostBinding in Hl. rewrite Hl.
  destruct slot as [s|]; [|reflexivity].
  unfold listenerNames. rewrite Hfn.
  destruct isAnimationListener; rewrite setKind_then_ret_eq; reflexivity.
Qed.

(** C5. A [StyleProp] name is hyphenated unless it starts with [--]; in
    compatibility mode, what starts at the first [!important] is then cut
    off the name of a [StyleProp] and of a [ClassProp]; outside
    compatibility mode a [ClassProp] is left as it is.  Cutting removes an
    [!important] suffix and leaves a name without [!important] as it is. *)
Theorem C5_style_and_class_names
    (sanitizeIdentifier hyphenate : string -> string)
    (prefixWithNamespace : option string -> Namespace -> string)
    (jobCompatibility : CompatibilityMode)
    (recur : XrefId -> string -> bool -> M unit)
    (u : XrefId) (baseName : string) (compatibility : bool)
    (varNames : gmap XrefId string) (i : nat) (h : Heap)
    (cu : CompilationUnit) (op : Op) (name : string) :
  h_views h !! u = Some cu ->
  ops cu !! i = Some op ->
  (kind op = StyleProp name ->
   nameOp sanitizeIdentifier hyphenate prefixWithNamespace jobCompatibility recur
     u baseName compatibility varNames i h
   = (Done varNames,
      replaceOp u i
        (mkOp (StyleProp
                 (let hyphenCase :=
                    if startsWith "--" name then name else hyphenate name in
                  if compatibility then stripImportant hyphenCase else hyphenCase))
              (exprs op))
        h)) /\
  (kind op = ClassProp name ->
   nameOp sanitizeIdentifier hyphenate prefixWithNamespace jobCompatibility recur
     u baseName compatibility varNames i h
   = (Done varNames,
      if compatibility
      then replaceOp u i (mkOp (ClassProp (stripImportant name)) (exprs op)) h
      else h)) /\
  (forall a b, ~ occursIn "!important" a ->
     stripImportant (a +:+ "!important" +:+ b) = a) /\
  (forall n, ~ occursIn "!important" n -> stripImportant n = n).
Proof.
  intros Hu Hi. repeat split.
  - intros Hk. unfold nameOp, bind at 1, getUnit. rewrite Hu, Hi, Hk.
    rewrite setKind_then_ret_eq. reflexivity.
  - intros Hk. unfold nameOp, bind at 1, getUnit. rewrite Hu, Hi, Hk.
    destruct compatibility; [rewrite setKind_then_ret_eq|]; reflexivity.
  - apply stripImportant_first.
  - apply stripImportant_absent.
Qed.

End NamingSteps.

Module NamingStepExamples.
Import Text Naming NamingSpec NamingSteps Examples.

Lemma C4_listener_handler_name_witness :
  nameOp Helpers.sanitizeIdentifier Helpers.hyphenate Helpers.prefixWithNamespace
    Normal (fun _ _ _ => ret tt) 7 "App" false ∅ 0 listenerHeap
  = (Done ∅,
     replaceOp 7 0
       (mkOp (Listener "click" (Some "App_Template_my_button_click_3_listener")
                (Some 3) (Some "my-button") false None) [])
       listenerHeap)
  /\ nameOp Helpers.sanitizeIdentifier Helpers.hyphenate Helpers.prefixWithNamespace
       Normal (fun _ _ _ => ret tt) 7 "App" false ∅ 1 listenerHeap
     = (Done ∅,
        replaceOp 7 1
          (mkOp (Listener "@fade.done"
                   (Some "App_Template_host_animation_fade_done_4_listener")
                   (Some 4) None true (Some "done")) [])
          listenerHeap)
  /\ nameOp Helpers.sanitizeIdentifier Helpers.hyphenate Helpers.prefixWithNamespace
       Normal (fun _ _ _ => ret tt) 7 "App" false ∅ 2 listenerHeap
     = (Throw ExpectedSlotListener, listenerHeap).
Proof.
  split; [|split].
  - exact (C4_listener_handler_name Helpers.sanitizeIdentifier Helpers.hyphenate
             Helpers.prefixWithNamespace Normal (fun _ _ _ => ret tt) 7 "App" false ∅ 0
             listenerHeap _ _ "App_Template" "click" (Some 3) (Some "my-button") false
             None eq_refl eq_refl eq_refl eq_refl eq_refl).
  - exact (C4_listener_handler_name Helpers.sanitizeIdentifier Helpers.hyphenate
             Helpers.prefixWithNamespace Normal (fun _ _ _ => ret tt) 7 "App" false ∅ 1
             listenerHeap _ _ "App_Template" "fade" (Some 4) None true
             (Some "done") eq_refl eq_refl eq_refl eq_refl eq_refl).
  - exact (C4_listener_handler_name Helpers.sanitizeIdentifier Helpers.hyphenate
             Helpers.prefixWithNamespace Normal (fun _ _ _ => ret tt) 7 "App" false ∅ 2
             listenerHeap _ _ "App_Template" "blur" None (Some "input") false
             None eq_refl eq_refl eq_refl eq_refl eq_refl).
Defined.

Lemma C5_style_and_class_names_witness :
  nameOp Helpers.sanitizeIdentifier Helpers.hyphenate Helpers.prefixWithNamespace
    TemplateDefinitionBuilder (fun _ _ _ => ret tt) 7 "App" true ∅ 3 listenerHeap
  = (Done ∅,
     replaceOp 7 3 (mkOp (StyleProp "background-color") []) listenerHeap)
  /\ nameOp Helpers.sanitizeIdentifier Helpers.hyphenate Helpers.prefixWithNamespace
       Normal (fun _ _ _ => ret tt) 7 "App" false ∅ 3 listenerHeap
     = (Done ∅,
        replaceOp 7 3 (mkOp (StyleProp "background-color!important") []) listenerHeap)
  /\ nameOp Helpers.sanitizeIdentifier Helpers.hyphenate Helpers.prefixWithNamespace
       TemplateDefinitionBuilder (fun _ _ _ => ret tt) 7 "App" true ∅ 4 listenerHeap
     = (Done ∅, replaceOp 7 4 (mkOp (ClassProp "active") []) listenerHeap)
  /\ nameOp Helpers.sanitizeIdentifier Helpers.hyphenate Helpers.prefixWithNamespace
       Normal (fun _ _ _ => ret tt) 7 "App" false ∅ 4 listenerHeap
     = (Done ∅, listenerHeap).
Proof.
  split; [|split; [|split]].
  - exact (proj1 (C5_style_and_class_names Helpers.sanitizeIdentifier
             Helpers.hyphenate Helpers.prefixWithNamespace TemplateDefinitionBuilder
             (fun _ _ _ => ret tt) 7 "App" true ∅ 3 listenerHeap _ _
             "backgroundColor!important" eq_refl eq_refl) eq_refl).
  - exact (proj1 (C5_style_and_class_names Helpers.sanitizeIdentifier
             Helpers.hyphenate Helpers.prefixWithNamespace Normal
             (fun _ _ _ => ret tt) 7 "App" false ∅ 3 listenerHeap _ _
             "backgroundColor!important" eq_refl eq_refl) eq_refl).
  - exact (proj1 (proj2 (C5_style_and_class_names Helpers.sanitizeIdentifier
             Helpers.hyphenate Helpers.prefixWithNamespace TemplateDefinitionBuilder
             (fun _ _ _ => ret tt) 7 "App" true ∅ 4 listenerHeap _ _
             "active!important" eq_refl eq_refl)) eq_refl).
  - exact (proj1 (proj2 (C5_style_and_class_names Helpers.sanitizeIdentifier
             Helpers.hyphenate Helpers.prefixWithNamespace Normal
             (fun _ _ _ => ret tt) 7 "App" false ∅ 4 listenerHeap _ _
             "active!important" eq_refl eq_refl)) eq_refl).
Defined.

End NamingStepExamples.

(** ** Whole runs of the naming phase *)

Module NamingRuns.
Import Text TextFacts Naming NamingSpec NamingFacts Examples.
Local Open Scope naming_scope.

Section runs.
Variable sanitizeIdentifier : string -> string.
Variable hyphenate : string -> string.
Variable prefixWithNamespace : option string -> Namespace -> string.

Local Abbreviation phaseNaming :=
  (phaseNaming sanitizeIdentifier hyphenate prefixWithNamespace).

(** The heap [phaseNaming] starts from and the heap it ends with. *)
Lemma phaseNaming_evolves (depth : nat) (cpl : CompilationJob) :
  exists h',
    evolves hyphenate (compatibility cpl)
      (isTemplateDefinitionBuilder (compatibility cpl))
      (mkHeap (views cpl) (variables cpl) 0) h' /\
    views (phaseNaming depth cpl).2 = h_views h' /\
    variables (phaseNaming depth cpl).2 = h_variables h'.
Proof.
  unfold Naming.phaseNaming.
  pose proof (addNamesToView_evolves sanitizeIdentifier hyphenate prefixWithNamespace
                (fnSuffix cpl) (compatibility cpl)
                (isTemplateDefinitionBuilder (compatibility cpl)) depth (root cpl)
                (componentName cpl) (mkHeap (views cpl) (variables cpl) 0)) as Hev.
  destruct (addNamesToView _ _ _ _ _ _ _ _ _ _) as [r h']. simpl in *.
  exists h'. auto.
Qed.

Lemma namesPopulated_views (cpl : CompilationJob) (u : XrefId) (cu : CompilationUnit) :
  namesPopulated cpl = true -> views cpl !! u = Some cu -> unitNamed cu = true.
Proof.
  unfold namesPopulated. intros [H _]%andb_prop Hu.
  rewrite forallb_forall in H.
  apply (H (u, cu)). apply list_elem_of_In. by apply elem_of_map_to_list.
Qed.

Lemma namesPopulated_variables (cpl : CompilationJob) (v : VarRef)
    (sv : SemanticVariable) :
  namesPopulated cpl = true -> variables cpl !! v = Some sv ->
  is_Some (variable_name sv).
Proof.
  unfold namesPopulated. intros [_ H]%andb_prop Hv.
  rewrite forallb_forall in H.
  specialize (H (v, sv)). simpl in H.
  eapply bool_decide_eq_true_1, H, list_elem_of_In. by apply elem_of_map_to_list.
Qed.

Lemma kindKeeps_second_pass (compatibility lh : bool) (o o' : Op) :
  listenerNamed o = true ->
  kindKeeps hyphenate compatibility lh (kind o) (kind o') ->
  keptBySecondPass hyphenate compatibility lh (kind o) (kind o').
Proof.
  unfold listenerNamed. destruct (kind o) as [n t|n t|n hf s tg a ph| | | | |]; simpl;
    try done.
  - intros _ (n' & -> & H). destruct t; [eauto|]. by rewrite H.
  - intros _ (n' & -> & H). destruct t; [eauto|]. by rewrite H.
  - intros Hhf (n' & hf' & -> & Ha & Hb). destruct lh.
    + rewrite (Ha eq_refl). eauto.
    + destruct hf as [f|]; [|discriminate].
      by destruct (Hb eq_refl f eq_refl) as [-> ->].
Qed.

Lemma unitKeeps_second_pass (jobCompatibility : CompatibilityMode)
    (compatibility : bool) (cu cu' : CompilationUnit) :
  unitNamed cu = true ->
  unitKeeps hyphenate jobCompatibility compatibility cu cu' ->
  unitKeptBySecondPass hyphenate jobCompatibility compatibility cu cu'.
Proof.
  unfold unitNamed. intros [Hfn Hops]%andb_prop (Hk & Hf & Ho).
  eapply bool_decide_eq_true_1 in Hfn. destruct Hfn as [n Hn].
  split; [done|]. split; [rewrite Hn; auto|].
  unfold legacyHostBinding in Ho.
  revert Hops. induction Ho as [|o o' os os' [Hko _] Hos IH]; intros Hops.
  - constructor.
  - simpl in Hops. apply andb_prop in Hops as [Ho1 Hos1].
    constructor; [by apply kindKeeps_second_pass|by apply IH].
Qed.

(** C1, amended.  When every unit has a function name, every listener a
    handler name and every variable a name, a run of [phaseNaming] leaves
    every variable and every function name as it is, and every field of
    every operation too (the reads inside it apart, which may still get
    their names), except for the name of a [Property] or [HostProperty] that
    is an animation trigger, the handler name of a listener in the legacy
    host-binding case, and the name of a [StyleProp] or [ClassProp] that is
    not yet normalized. *)
Theorem C1_names_not_overwritten (depth : nat) (cpl : CompilationJob) :
  namesPopulated cpl = true ->
  (forall v, variables (phaseNaming depth cpl).2 !! v = variables cpl !! v) /\
  (forall u,
     option_Forall2
       (unitKeptBySecondPass hyphenate (compatibility cpl)
          (isTemplateDefinitionBuilder (compatibility cpl)))
       (views cpl !! u) (views (phaseNaming depth cpl).2 !! u)).
Proof.
  intros Hpop.
  destruct (phaseNaming_evolves depth cpl) as (h' & [_ Hu Hv _] & -> & ->).
  simpl in *. split.
  - intros v. specialize (Hv v).
    destruct (variables cpl !! v) as [sv|] eqn:E.
    + inversion Hv as [? sv' [Hk Hn] Ea Eb|]; subst.
      destruct (namesPopulated_variables _ _ _ Hpop E) as [n Hsn].
      rewrite Hsn in Hn. destruct sv, sv'; simpl in *. congruence.
    + by inversion Hv.
  - intros u. specialize (Hu u).
    destruct (views cpl !! u) as [cu|] eqn:E.
    + inversion Hu as [? cu' Hcu Ea Eb|]; subst. constructor.
      apply unitKeeps_second_pass; [|done].
      by apply (namesPopulated_views _ _ _ Hpop E).
    + inversion Hu. constructor.
Qed.

(** The names given to variables by one run: each is built from the kind of
    its variable and a value of the counter, and no two are the same. *)
Lemma phaseNaming_fresh_names (depth : nat) (cpl : CompilationJob) :
  (forall v k n, namedDuring cpl (phaseNaming depth cpl).2 v k n ->
     exists N, n = variableNameFor k N) /\
  (forall v1 v2 k1 k2 n1 n2, v1 <> v2 ->
     namedDuring cpl (phaseNaming depth cpl).2 v1 k1 n1 ->
     namedDuring cpl (phaseNaming depth cpl).2 v2 k2 n2 -> n1 <> n2).
Proof.
  destruct (phaseNaming_evolves depth cpl) as (h' & [_ _ Hv Hf] & _ & Hvs).
  simpl in *. split.
  - intros v k n (sv & sv' & H1 & H2 & H3 & H4 & H5). rewrite Hvs in H4.
    specialize (Hv v). rewrite H1, H4 in Hv.
    inversion Hv as [? ? [Hk Hn]|]; subst. rewrite H2 in Hn.
    destruct (Hn n H5) as (N & _ & ->). eauto.
  - intros v1 v2 k1 k2 n1 n2 Hne (a & a' & Ha1 & Ha2 & _ & Ha4 & Ha5)
      (b & b' & Hb1 & Hb2 & _ & Hb4 & Hb5).
    rewrite Hvs in Ha4, Hb4.
    apply (Hf v1 v2 n1 n2 Hne); [by exists a, a'|by exists b, b'].
Qed.

End runs.

(** C1 as stated fails: in a job that has just been named, where all the
    names are set, another run of the phase puts a second [@] in front of
    the name of an animation-trigger property. *)
Lemma C1_second_pass_changes_a_name :
  Helpers.phaseNaming 2 animatedJob = (Done tt, animatedJobNamed) /\
  namesPopulated animatedJobNamed = true /\
  ~ namesUnchanged animatedJobNamed (Helpers.phaseNaming 2 animatedJobNamed).2.
Proof.
  split; [vm_compute; reflexivity|]. split; [vm_compute; reflexivity|].
  intros H. specialize (H 0). vm_compute in H. discriminate.
Qed.

(** The other two exceptions: the handler name of a listener in the legacy
    host-binding case is computed anew, and a style name that is not
    normalized is normalized. *)
Lemma legacy_handler_is_recomputed :
  namesPopulated legacyHostJob = true /\
  views (Helpers.phaseNaming 2 legacyHostJob).2 !! 0
  = Some (mkUnit HostBindingCompilationUnit (Some "App_HostBindings")
            [ mkOp (Listener "click" (Some "App_click_HostBindingHandler") None None
                      false None) [] ]).
Proof. split; vm_compute; reflexivity. Qed.

Lemma style_name_is_normalized :
  namesPopulated camelCaseStyleJob = true /\
  views (Helpers.phaseNaming 2 camelCaseStyleJob).2 !! 0
  = Some (mkUnit ViewCompilationUnit (Some "App_Template")
            [ mkOp (StyleProp "background-color") [] ]).
Proof. split; vm_compute; reflexivity. Qed.

Lemma C1_names_not_overwritten_witness :
  (forall v, variables (Helpers.phaseNaming 2 animatedJobNamed).2 !! v
             = variables animatedJobNamed !! v) /\
  (forall u,
     option_Forall2
       (unitKeptBySecondPass Helpers.hyphenate Normal false)
       (views animatedJobNamed !! u)
       (views (Helpers.phaseNaming 2 animatedJobNamed).2 !! u)).
Proof.
  apply (C1_names_not_overwritten Helpers.sanitizeIdentifier Helpers.hyphenate
           Helpers.prefixWithNamespace 2 animatedJobNamed).
  vm_compute. reflexivity.
Defined.

End NamingRuns.

(** ** Every variable declaration the phase gets to is named *)

Module NamingCoverage.
Import Text TextFacts Naming NamingSpec NamingFacts.
Local Open Scope naming_scope.

Lemma foldM_seq_invariant {B} (I : nat -> B -> Heap -> Prop) (f : B -> nat -> M B)
    (n : nat) :
  forall (s : nat) (b : B) (h : Heap) (b' : B) (h' : Heap),
    I s b h ->
    (forall i b0 h0 b1 h1, s <= i < s + n -> I i b0 h0 ->
       f b0 i h0 = (Done b1, h1) -> I (S i) b1 h1) ->
    foldM f (seq s n) b h = (Done b', h') -> I (s + n) b' h'.
Proof.
  induction n as [|n IH]; intros s b h b' h' Hi Hstep Hrun; simpl in Hrun.
  - injection Hrun as <- <-. by rewrite Nat.add_0_r.
  - unfold bind in Hrun. destruct (f b s h) as [[b1|e|] h1] eqn:E; try discriminate.
    replace (s + S n) with (S s + n) by lia.
    apply (IH (S s) b1 h1 b' h'); [|intros; eapply Hstep; eauto; lia|done].
    apply (Hstep s b h b1 h1); [lia|done..].
Qed.

Section coverage.
Variable sanitizeIdentifier : string -> string.
Variable hyphenate : string -> string.
Variable prefixWithNamespace : option string -> Namespace -> string.
Variable jobFnSuffix : string.
Variable jobCompatibility : CompatibilityMode.
Variable compatibility : bool.

Local Abbreviation kindKeeps := (kindKeeps hyphenate compatibility).
Local Abbreviation evolves := (evolves hyphenate jobCompatibility compatibility).
Local Abbreviation legacyHostBinding := (legacyHostBinding jobCompatibility).
Local Abbreviation nameOp :=
  (nameOp sanitizeIdentifier hyphenate prefixWithNamespace jobCompatibility).
Local Abbreviation nameOps :=
  (nameOps sanitizeIdentifier hyphenate prefixWithNamespace jobCompatibility).
Local Abbreviation nameUnit :=
  (nameUnit sanitizeIdentifier hyphenate prefixWithNamespace jobFnSuffix jobCompatibility).
Local Abbreviation addNamesToView :=
  (addNamesToView sanitizeIdentifier hyphenate prefixWithNamespace jobFnSuffix
     jobCompatibility).
Local Abbreviation evolves_trans :=
  (evolves_trans hyphenate jobCompatibility compatibility).

Lemma kindKeeps_VariableOp_r (lh : bool) (k : OpKind) (x : XrefId) (v : VarRef) :
  kindKeeps lh k (VariableOp x v) -> k = VariableOp x v.
Proof.
  destruct k; simpl; try done.
  - by intros (? & ? & ?).
  - by intros (? & ? & ?).
  - by intros (? & ? & ? & ?).
  - by intros (? & ? & ?).
  - by intros (? & ? & ?).
Qed.

Lemma evolves_op_forward (h h' : Heap) (u : XrefId) (cu : CompilationUnit)
    (j : nat) (o : Op) :
  evolves h h' -> h_views h !! u = Some cu -> ops cu !! j = Some o ->
  exists cu' o', h_views h' !! u = Some cu' /\ ops cu' !! j = Some o' /\
                 kindKeeps (legacyHostBinding cu) (kind o) (kind o').
Proof.
  intros [_ Hu _ _] Hcu Hj. specialize (Hu u). rewrite Hcu in Hu.
  inversion Hu as [? cu' (_ & _ & Hops) Ea Eb|]; subst.
  destruct (Forall2_lookup_l _ _ _ _ _ Hops Hj) as (o' & Ho' & [Hk _]).
  exists cu', o'. auto.
Qed.

Lemma evolves_op_backward (h h' : Heap) (u : XrefId) (cu' : CompilationUnit)
    (j : nat) (o' : Op) :
  evolves h h' -> h_views h' !! u = Some cu' -> ops cu' !! j = Some o' ->
  exists cu o, h_views h !! u = Some cu /\ ops cu !! j = Some o /\
               kindKeeps (legacyHostBinding cu) (kind o) (kind o').
Proof.
  intros [_ Hu _ _] Hcu Hj. specialize (Hu u). rewrite Hcu in Hu.
  inversion Hu as [cu ? (_ & _ & Hops) Ea Eb|]; subst.
  destruct (Forall2_lookup_r _ _ _ _ _ Hops Hj) as (o & Ho & [Hk _]).
  exists cu, o. auto.
Qed.

Lemma evolves_named (h h' : Heap) (v : VarRef) (sv : SemanticVariable) (n : string) :
  evolves h h' -> h_variables h !! v = Some sv -> variable_name sv = Some n ->
  exists sv', h_variables h' !! v = Some sv' /\ variable_name sv' = Some n.
Proof.
  intros [_ _ Hv _] Hsv Hn. specialize (Hv v). rewrite Hsv in Hv.
  inversion Hv as [? sv' [_ Hk] Ea Eb|]; subst. rewrite Hn in Hk. eauto.
Qed.

Lemma evolves_childView (h h' : Heap) (a b : XrefId) :
  evolves h h' -> childView (h_views h) a b -> childView (h_views h') a b.
Proof.
  intros Hev (cu & j & o & s & tg & ns & Hcu & Hj & Hk).
  destruct (evolves_op_forward _ _ _ _ _ _ Hev Hcu Hj) as (cu' & o' & Hcu' & Hj' & Hkk).
  rewrite Hk in Hkk. simpl in Hkk. exists cu', j, o', s, tg, ns. auto.
Qed.

Lemma evolves_reachable (h h' : Heap) (a b : XrefId) :
  evolves h h' -> reachable (h_views h) a b -> reachable (h_views h') a b.
Proof.
  intros Hev. apply rtc_subrel. intros x y. by apply evolves_childView.
Qed.

Lemma evolves_unitVariablesNamed (h h' : Heap) (u : XrefId) :
  evolves h h' -> unitVariablesNamed h u -> unitVariablesNamed h' u.
Proof.
  intros Hev Hn cu' j o' x v Hcu' Hj' Hk'.
  destruct (evolves_op_backward _ _ _ _ _ _ Hev Hcu' Hj') as (cu & o & Hcu & Hj & Hkk).
  rewrite Hk' in Hkk. apply kindKeeps_VariableOp_r in Hkk.
  destruct (Hn cu j o x v Hcu Hj Hkk) as (sv & n & Hsv & Hsn).
  destruct (evolves_named _ _ _ _ _ Hev Hsv Hsn) as (sv' & ? & ?). eauto.
Qed.

Lemma getVariableName_named (v : VarRef) (h h' : Heap) (n : string) :
  getVariableName v h = (Done n, h') ->
  exists sv, h_variables h' !! v = Some sv /\ variable_name sv = Some n.
Proof.
  unfold getVariableName. destruct (h_variables h !! v) as [sv|] eqn:Hv; [|done].
  destruct (variable_name sv) as [m|] eqn:Hm.
  - intros [= <- <-]. eauto.
  - intros [= <- <-]. simpl. rewrite lookup_insert_eq. eauto.
Qed.

Lemma nameOp_variable (recur : XrefId -> string -> bool -> M unit) (u : XrefId)
    (baseName : string) (vn vn' : gmap XrefId string) (j : nat) (h h' : Heap)
    (cu : CompilationUnit) (o : Op) (x : XrefId) (v : VarRef) :
  h_views h !! u = Some cu -> ops cu !! j = Some o -> kind o = VariableOp x v ->
  nameOp recur u baseName compatibility vn j h = (Done vn', h') ->
  exists n sv, vn' = <[x:=n]> vn /\ h_variables h' !! v = Some sv /\
               variable_name sv = Some n.
Proof.
  intros Hu Hj Hk. unfold Naming.nameOp, bind at 1, getUnit. rewrite Hu, Hj, Hk.
  unfold bind. destruct (getVariableName v h) as [[n|e|] h1] eqn:E; try done.
  intros [= <- <-]. destruct (getVariableName_named _ _ _ _ E) as (sv & ? & ?).
  eauto.
Qed.

Lemma nameOp_template (recur : XrefId -> string -> bool -> M unit) (u : XrefId)
    (baseName : string) (vn vn' : gmap XrefId string) (j : nat) (h h' : Heap)
    (cu : CompilationUnit) (o : Op) (b : XrefId) (s : option nat)
    (tg : option string) (ns : Namespace) :
  h_views h !! u = Some cu -> ops cu !! j = Some o -> kind o = Template b s tg ns ->
  nameOp recur u baseName compatibility vn j h = (Done vn', h') ->
  vn' = vn /\ exists baseName', recur b baseName' compatibility h = (Done tt, h').
Proof.
  intros Hu Hj Hk. unfold Naming.nameOp, bind at 1, getUnit. rewrite Hu, Hj, Hk.
  destruct (unitKind cu); [|done]. destruct s as [s|]; [|done].
  unfold bind. destruct (recur b _ compatibility h) as [[[]|e|] h1] eqn:E; try done.
  intros [= <- <-]. eauto.
Qed.

(** What is left of the loop when it gets to position [j]. *)
Lemma foldM_seq_step {B} (f : B -> nat -> M B) (n : nat) :
  (forall b a h, evolves h (f b a h).2) ->
  forall (s : nat) (b : B) (h : Heap) (b' : B) (h' : Heap) (j : nat),
    foldM f (seq s n) b h = (Done b', h') -> s <= j < s + n ->
    exists bj hj bj' hj',
      evolves h hj /\ f bj j hj = (Done bj', hj') /\ evolves hj' h'.
Proof.
  intros Hf. induction n as [|n IH]; intros s b h b' h' j Hrun Hj; [lia|].
  simpl in Hrun. unfold bind in Hrun.
  destruct (f b s h) as [[b1|e|] h1] eqn:E; try discriminate.
  pose proof (foldM_evolves hyphenate jobCompatibility compatibility f (seq (S s) n)
                b1 h1 Hf) as Hrest.
  rewrite Hrun in Hrest. simpl in Hrest.
  destruct (decide (j = s)) as [->|Hne].
  - exists b, h, b1, h1. split; [apply evolves_refl|]. auto.
  - destruct (IH (S s) b1 h1 b' h' j Hrun) as (bj & hj & bj' & hj' & H1 & H2 & H3);
      [lia|].
    exists bj, hj, bj', hj'. split; [|done].
    eapply evolves_trans; [|exact H1].
    pose proof (Hf b s h) as H0. by rewrite E in H0.
Qed.

Lemma addNamesToView_names_all (depth : nat) :
  forall (u : XrefId) (baseName : string) (h h' : Heap),
    addNamesToView depth u baseName compatibility h = (Done tt, h') ->
    forall u', reachable (h_views h) u u' -> unitVariablesNamed h' u'.
Proof.
  induction depth as [|d IH]; intros u baseName h h' Hrun u' Hreach; [done|].
  simpl in Hrun. unfold bind at 1, getUnit in Hrun.
  destruct (h_views h !! u) as [cu|] eqn:Hu; [|done].
  unfold bind in Hrun.
  destruct (nameUnit (addNamesToView d) u baseName compatibility cu h)
    as [[vn|e|] h1] eqn:E1; try done.
  assert (evolves h1 h') as Hev1.
  { pose proof (foldM_evolves hyphenate jobCompatibility compatibility
                  (resolveOp u vn) (seq 0 (List.length (ops cu))) tt h1
                  (resolveOp_evolves hyphenate jobCompatibility compatibility u vn))
      as H.
    unfold resolveOps in Hrun. by rewrite Hrun in H. }
  unfold Naming.nameUnit, bind in E1.
  destruct (assignFnName sanitizeIdentifier jobFnSuffix u baseName cu h)
    as [[[]|e|] h0] eqn:E0; try done.
  assert (evolves h h0) as Hev0.
  { unfold assignFnName in E0. destruct (fnName cu) eqn:Hn.
    - injection E0 as <-. apply evolves_refl.
    - pose proof (evolves_setFnName hyphenate jobCompatibility compatibility u
                    (sanitizeIdentifier (baseName +:+ "_" +:+ jobFnSuffix)) h cu Hu Hn)
        as H.
      by rewrite E0 in H. }
  assert (forall b a h2,
            evolves h2 (nameOp (addNamesToView d) u baseName compatibility b a h2).2)
    as Hstep.
  { intros. apply nameOp_evolves. intros.
    apply addNamesToView_evolves. }
  assert (forall j, j < List.length (ops cu) ->
            exists bj hj bj' hj',
              evolves h hj /\
              nameOp (addNamesToView d) u baseName compatibility bj j hj = (Done bj', hj') /\
              evolves hj' h') as Hat.
  { intros j Hj.
    destruct (foldM_seq_step _ _ Hstep 0 ∅ h0 vn h1 j E1) as (bj & hj & bj' & hj' & ? & ? & ?);
      [lia|].
    exists bj, hj, bj', hj'. split; [by eapply evolves_trans|].
    split; [done|by eapply evolves_trans]. }
  apply rtc_inv in Hreach as [<-|(b & Hchild & Hreach)].
  - intros cu' j o' x v Hcu' Hj' Hk'.
    assert (evolves h h') as Hev by (eapply evolves_trans; [exact Hev0|];
      eapply evolves_trans; [|exact Hev1];
      pose proof (foldM_evolves hyphenate jobCompatibility compatibility _
                    (seq 0 (List.length (ops cu))) ∅ h0 Hstep) as H;
      unfold Naming.nameOps in E1; by rewrite E1 in H).
    destruct (evolves_op_backward _ _ _ _ _ _ Hev Hcu' Hj') as (c0 & o0 & Hc0 & Ho0 & _).
    assert (c0 = cu) by congruence. subst c0.
    destruct (Hat j (lookup_lt_Some _ _ _ Ho0)) as (bj & hj & bj' & hj' & Ha & Hb & Hc).
    assert (evolves hj h') as Hjh.
    { eapply evolves_trans; [|exact Hc].
      pose proof (Hstep bj j hj) as H. by rewrite Hb in H. }
    destruct (evolves_op_backward _ _ _ _ _ _ Hjh Hcu' Hj') as (cj & oj & Hcj & Hoj & Hkj).
    rewrite Hk' in Hkj. apply kindKeeps_VariableOp_r in Hkj.
    destruct (nameOp_variable _ _ _ _ _ _ _ _ _ _ _ _ Hcj Hoj Hkj Hb)
      as (n & sv & _ & Hsv & Hsn).
    destruct (evolves_named _ _ _ _ _ Hc Hsv Hsn) as (sv' & ? & ?). eauto.
  - destruct Hchild as (c0 & j & o & s & tg & ns & Hc0 & Ho & Hk).
    assert (c0 = cu) by congruence. subst c0.
    destruct (Hat j (lookup_lt_Some _ _ _ Ho)) as (bj & hj & bj' & hj' & Ha & Hb & Hc).
    destruct (evolves_op_forward _ _ _ _ _ _ Ha Hu Ho) as (cj & oj & Hcj & Hoj & Hkj).
    rewrite Hk in Hkj. simpl in Hkj.
    destruct (nameOp_template _ _ _ _ _ _ _ _ _ _ _ _ _ _ Hcj Hoj Hkj Hb)
      as (_ & baseName' & Hrec).
    eapply evolves_unitVariablesNamed; [exact Hc|].
    eapply IH; [exact Hrec|]. by eapply evolves_reachable.
Qed.

End coverage.
End NamingCoverage.

(** ** The phase returns on views nested to a finite depth *)

Module NamingTermination.
Import Text TextFacts Naming NamingSpec NamingFacts NamingCoverage.
Local Open Scope naming_scope.

Section termination.
Variable sanitizeIdentifier : string -> string.
Variable hyphenate : string -> string.
Variable prefixWithNamespace : option string -> Namespace -> string.
Variable jobFnSuffix : string.
Variable jobCompatibility : CompatibilityMode.
Variable compatibility : bool.

Local Abbreviation kindKeeps := (kindKeeps hyphenate compatibility).
Local Abbreviation evolves := (evolves hyphenate jobCompatibility compatibility).
Local Abbreviation nameOp :=
  (nameOp sanitizeIdentifier hyphenate prefixWithNamespace jobCompatibility).
Local Abbreviation nameUnit :=
  (nameUnit sanitizeIdentifier hyphenate prefixWithNamespace jobFnSuffix jobCompatibility).
Local Abbreviation addNamesToView :=
  (addNamesToView sanitizeIdentifier hyphenate prefixWithNamespace jobFnSuffix
     jobCompatibility).
Local Abbreviation evolves_trans :=
  (evolves_trans hyphenate jobCompatibility compatibility).
Local Abbreviation backward :=
  (evolves_op_backward hyphenate jobCompatibility compatibility).

Lemma kindKeeps_Template_r (lh : bool) (k : OpKind) (x : XrefId) (s : option nat)
    (tg : option string) (ns : Namespace) :
  kindKeeps lh k (Template x s tg ns) -> k = Template x s tg ns.
Proof.
  destruct k; simpl; try done.
  - by intros (? & ? & ?).
  - by intros (? & ? & ?).
  - by intros (? & ? & ? & ?).
  - by intros (? & ? & ?).
  - by intros (? & ? & ?).
Qed.

Lemma evolves_childView_back (h h' : Heap) (a b : XrefId) :
  evolves h h' -> childView (h_views h') a b -> childView (h_views h) a b.
Proof.
  intros Hev (cu' & j & o' & s & tg & ns & Hcu' & Hj' & Hk').
  destruct (backward _ _ _ _ _ _ Hev Hcu' Hj') as (cu & o & Hcu & Hj & Hkk).
  rewrite Hk' in Hkk. apply kindKeeps_Template_r in Hkk.
  exists cu, j, o, s, tg, ns. auto.
Qed.

Lemma evolves_nestingWithin (d : nat) (h h' : Heap) (u : XrefId) :
  evolves h h' -> nestingWithin (h_views h) d u -> nestingWithin (h_views h') d u.
Proof.
  intros Hev. revert u. induction d as [|d IH]; intros u; [done|].
  simpl. intros H b Hb. apply IH, H. by eapply evolves_childView_back.
Qed.

(** A loop whose steps return, from heaps satisfying [P], returns. *)
Lemma foldM_returns {A B} (P : Heap -> Prop) (f : B -> A -> M B) (l : list A) :
  (forall b a h, P h -> (f b a h).1 <> Diverge /\
                        forall b1 h1, f b a h = (Done b1, h1) -> P h1) ->
  forall b h, P h -> (foldM f l b h).1 <> Diverge.
Proof.
  intros Hf. induction l as [|a l IH]; intros b h Hp; [done|].
  simpl. unfold bind. destruct (Hf b a h Hp) as [Hnd Hnext].
  destruct (f b a h) as [[b1|e|] h1] eqn:E; simpl in *; [|done..].
  apply IH. by apply (Hnext b1 h1).
Qed.

Lemma resolveOps_returns (u : XrefId) (vn : gmap XrefId string) (n : nat) (h : Heap) :
  (resolveOps u vn n h).1 <> Diverge.
Proof.
  unfold resolveOps. apply (foldM_returns (fun _ => True)); [|done].
  intros [] i h0 _. split; [|done].
  unfold resolveOp, bind at 1, getUnit.
  destruct (h_views h0 !! u) as [cu|]; [|done].
  destruct (ops cu !! i) as [op|]; [|done].
  destruct (resolveExprs vn (exprs op)) as [es [e|]]; done.
Qed.

Lemma nameOp_returns (recur : XrefId -> string -> bool -> M unit) (u : XrefId)
    (baseName : string) (vn : gmap XrefId string) (i : nat) (h : Heap) :
  (forall b baseName', childView (h_views h) u b ->
     (recur b baseName' compatibility h).1 <> Diverge) ->
  (nameOp recur u baseName compatibility vn i h).1 <> Diverge.
Proof.
  intros Hrec. unfold Naming.nameOp, bind at 1, getUnit.
  destruct (h_views h !! u) as [cu|] eqn:Hu; [|done].
  destruct (ops cu !! i) as [op|] eqn:Hi; [|done].
  destruct (kind op) as [n t|n t|n hf s tg a ph|x v|x s tg ns|n|n|] eqn:Hk.
  - by destruct t.
  - by destruct t.
  - destruct (_ && _); [done|]. destruct hf; [done|]. destruct s; [|done].
    by destruct (listenerNames _ _ _ _ _ _ _).
  - unfold bind, getVariableName.
    destruct (h_variables h !! v) as [sv|]; [|done]. by destruct (variable_name sv).
  - destruct (unitKind cu); [|done]. destruct s as [s|]; [|done].
    unfold bind.
    assert (childView (h_views h) u x) as Hchild by (exists cu, i, op; eauto 10).
    specialize (Hrec x (baseName +:+ "_" +:+ prefixWithNamespace tg ns +:+ "_"
                          +:+ showNat s) Hchild).
    by destruct (recur x _ compatibility h) as [[[]|e|] h1].
  - done.
  - by destruct compatibility.
  - done.
Qed.

(** [addNamesToView] returns or throws when the views below its unit are
    nested less deep than the bound it is given. *)
Lemma addNamesToView_returns (depth : nat) :
  forall (u : XrefId) (baseName : string) (h : Heap),
    nestingWithin (h_views h) depth u ->
    (addNamesToView depth u baseName compatibility h).1 <> Diverge.
Proof.
  induction depth as [|d IH]; intros u baseName h Hnest; [done|].
  simpl. unfold bind at 1, getUnit.
  destruct (h_views h !! u) as [cu|] eqn:Hu; [|done].
  unfold bind at 1.
  destruct (nameUnit (addNamesToView d) u baseName compatibility cu h)
    as [[vn|e|] h1] eqn:E1; [apply resolveOps_returns|done|].
  exfalso. unfold Naming.nameUnit, bind in E1.
  destruct (assignFnName sanitizeIdentifier jobFnSuffix u baseName cu h)
    as [[[]|e|] h0] eqn:E0.
  - assert (evolves h h0) as Hev0.
    { unfold assignFnName in E0. destruct (fnName cu) eqn:Hn.
      - injection E0 as <-. apply evolves_refl.
      - pose proof (evolves_setFnName hyphenate jobCompatibility compatibility u
                      (sanitizeIdentifier (baseName +:+ "_" +:+ jobFnSuffix)) h cu Hu Hn)
          as H.
        by rewrite E0 in H. }
    apply (foldM_returns (fun h' => evolves h h')
             (nameOp (addNamesToView d) u baseName compatibility)
             (seq 0 (List.length (ops cu)))) with (b := ∅) (h := h0); [|done|].
    + intros vn i h' Hev. split.
      * apply nameOp_returns. intros b baseName' Hchild. apply IH.
        apply (evolves_nestingWithin d h h' b Hev).
        simpl in Hnest. apply Hnest. by eapply evolves_childView_back.
      * intros vn1 h1' Hstep. eapply evolves_trans; [exact Hev|].
        pose proof (nameOp_evolves sanitizeIdentifier hyphenate prefixWithNamespace
                      jobCompatibility compatibility (addNamesToView d) u baseName vn i
                      h') as H.
        rewrite Hstep in H. apply H. intros. apply addNamesToView_evolves.
    + unfold Naming.nameOps in E1. by rewrite E1.
  - done.
  - unfold assignFnName in E0. by destruct (fnName cu).
Qed.

End termination.
End NamingTermination.

(** ** The names of variables *)

Module VariableNames.
Import Text TextFacts Naming NamingSpec NamingFacts NamingCoverage NamingTermination
  NamingRuns Examples.
Local Open Scope naming_scope.

(** C2.  A variable without a name gets, from [getVariableName], the name
    [ctx_r<N>], [<identifier>_<N>] or [_r<N>] that goes with its kind, [N]
    being the value of the counter, which then goes up by one.  The counter
    is the one heap cell of the whole run, so for [phaseNaming]: it returns
    or throws when the views are nested to a finite depth; when it returns,
    the variable of every [Variable] operation in every view reachable from
    the root has a name; every name given during the run has one of the
    three forms; and two different variables named during the run have
    different names. *)
Theorem C2_variable_names
    (sanitizeIdentifier hyphenate : string -> string)
    (prefixWithNamespace : option string -> Namespace -> string)
    (depth : nat) (cpl : CompilationJob) :
  let run := phaseNaming sanitizeIdentifier hyphenate prefixWithNamespace depth cpl in
  let form (k : SemanticVariableKind) (N : nat) :=
    match k with
    | Context => "ctx_r" +:+ showNat N
    | Identifier identifier => identifier +:+ "_" +:+ showNat N
    | SavedView => "_r" +:+ showNat N
    end in
  (forall h v sv,
     h_variables h !! v = Some sv -> variable_name sv = None ->
     getVariableName v h
     = (Done (form (variable_kind sv) (h_index h)),
        mkHeap (h_views h)
          (<[v := mkSemanticVariable (variable_kind sv)
                    (Some (form (variable_kind sv) (h_index h)))]> (h_variables h))
          (S (h_index h)))) /\
  (nestingWithin (views cpl) depth (root cpl) -> run.1 <> Diverge) /\
  (run.1 = Done tt ->
   forall u cu j o x v,
     reachable (views cpl) (root cpl) u ->
     views run.2 !! u = Some cu -> ops cu !! j = Some o -> kind o = VariableOp x v ->
     exists sv n, variables run.2 !! v = Some sv /\ variable_name sv = Some n) /\
  (forall v k n, namedDuring cpl run.2 v k n -> exists N, n = form k N) /\
  (forall v1 v2 k1 k2 n1 n2, v1 <> v2 ->
     namedDuring cpl run.2 v1 k1 n1 -> namedDuring cpl run.2 v2 k2 n2 -> n1 <> n2).
Proof.
  intros run form. split; [|split; [|split]].
  - intros h v sv Hv Hn. unfold getVariableName. by rewrite Hv, Hn.
  - intros Hnest. subst run. unfold phaseNaming.
    pose proof (addNamesToView_returns sanitizeIdentifier hyphenate prefixWithNamespace
                  (fnSuffix cpl) (compatibility cpl)
                  (isTemplateDefinitionBuilder (compatibility cpl)) depth (root cpl)
                  (componentName cpl) (mkHeap (views cpl) (variables cpl) 0) Hnest) as H.
    by destruct (addNamesToView _ _ _ _ _ _ _ _ _ _) as [r h'].
  - intros Hdone u cu j o x v Hreach Hcu Hj Hk.
    subst run. unfold phaseNaming in *.
    destruct (addNamesToView _ _ _ _ _ _ _ _ _ _) as [r h'] eqn:E.
    simpl in *. subst r.
    eapply (addNamesToView_names_all _ _ _ _ _ _ _ _ _ _ _ E u Hreach); eauto.
  - apply (phaseNaming_fresh_names sanitizeIdentifier hyphenate prefixWithNamespace
             depth cpl).
Qed.

(** In [nestedJob] the context variables of the two nested views get
    [ctx_r0] and [ctx_r1]. *)
Lemma C2_variable_names_witness :
  (Helpers.phaseNaming 3 nestedJob).1 = Done tt /\
  namedDuring nestedJob (Helpers.phaseNaming 3 nestedJob).2 0 Context "ctx_r0" /\
  namedDuring nestedJob (Helpers.phaseNaming 3 nestedJob).2 1 Context "ctx_r1" /\
  namedDuring nestedJob (Helpers.phaseNaming 3 nestedJob).2 2 (Identifier "item") "item_2" /\
  "ctx_r0" <> "ctx_r1".
Proof.
  assert (namedDuring nestedJob (Helpers.phaseNaming 3 nestedJob).2 0 Context "ctx_r0")
    as H0.
  { exists (mkSemanticVariable Context None),
      (mkSemanticVariable Context (Some "ctx_r0")).
    repeat split; vm_compute; reflexivity. }
  assert (namedDuring nestedJob (Helpers.phaseNaming 3 nestedJob).2 1 Context "ctx_r1")
    as H1.
  { exists (mkSemanticVariable Context None),
      (mkSemanticVariable Context (Some "ctx_r1")).
    repeat split; vm_compute; reflexivity. }
  split; [vm_compute; reflexivity|]. split; [exact H0|]. split; [exact H1|]. split.
  - exists (mkSemanticVariable (Identifier "item") None),
      (mkSemanticVariable (Identifier "item") (Some "item_2")).
    repeat split; vm_compute; reflexivity.
  - apply (proj2 (proj2 (proj2 (proj2 (C2_variable_names Helpers.sanitizeIdentifier
             Helpers.hyphenate Helpers.prefixWithNamespace 3 nestedJob))))
             0 1 Context Context "ctx_r0" "ctx_r1"); [discriminate|exact H0|exact H1].
Defined.

End VariableNames.

(** ** Reads take the names of the table *)

Module ReadResolution.
Import Text TextFacts Naming NamingSpec NamingFacts NamingCoverage Examples.
Local Open Scope naming_scope.

Lemma head_app {A} (l1 l2 : list A) :
  head (l1 ++ l2) = match head l1 with Some x => Some x | None => head l2 end.
Proof. by destruct l1. Qed.

Lemma unnamedReads_app (a b : list Expr) :
  unnamedReads (a ++ b) = unnamedReads a ++ unnamedReads b.
Proof. apply omap_app. Qed.

Lemma firstUnresolved_cons (vn : gmap XrefId string) (o : Op) (os : list Op) :
  firstUnresolved vn (o :: os)
  = match head (filter (fun x => vn !! x = None) (unnamedReads (exprs o))) with
    | Some x => Some x
    | None => firstUnresolved vn os
    end.
Proof.
  unfold firstUnresolved.
  change ((o :: os) ≫= exprs) with (exprs o ++ (os ≫= exprs)).
  by rewrite unnamedReads_app, filter_app, head_app.
Qed.

Lemma firstUnresolved_missing (vn : gmap XrefId string) (os : list Op) (x : XrefId) :
  firstUnresolved vn os = Some x -> vn !! x = None.
Proof.
  unfold firstUnresolved. intros H. apply head_Some_elem_of in H.
  by apply list_elem_of_filter in H as [H _].
Qed.

(** The visitor on the expressions of one operation. *)
Lemma resolveExprs_spec (vn : gmap XrefId string) (es : list Expr) :
  match head (filter (fun x => vn !! x = None) (unnamedReads es)) with
  | None => resolveExprs vn es = (resolveRead vn <$> es, None)
  | Some x => exists es', resolveExprs vn es = (es', Some (VariableNotYetNamed x))
  end.
Proof.
  induction es as [|e es IH]; [reflexivity|].
  destruct e as [x [n|]|].
  - change (unnamedReads (ReadVariableExpr x (Some n) :: es)) with (unnamedReads es).
    simpl. destruct (head _) as [y|].
    + destruct IH as [es' ->]. eauto.
    + by rewrite IH.
  - change (unnamedReads (ReadVariableExpr x None :: es)) with (x :: unnamedReads es).
    rewrite filter_cons. simpl. destruct (decide (vn !! x = None)) as [Hx|Hx].
    + simpl. rewrite Hx. eauto.
    + destruct (vn !! x) as [n|] eqn:E; [|done].
      destruct (head _) as [y|].
      * destruct IH as [es' ->]. eauto.
      * by rewrite IH.
  - change (unnamedReads (OtherExpr :: es)) with (unnamedReads es).
    simpl. destruct (head _) as [y|].
    + destruct IH as [es' ->]. eauto.
    + by rewrite IH.
Qed.

Lemma bind_done {A B} (m : M A) (k : A -> M B) (h h1 : Heap) (a : A) :
  m h = (Done a, h1) -> bind m k h = k a h1.
Proof. intros H. unfold bind. by rewrite H. Qed.

Lemma heap_eq (h h' : Heap) :
  h_views h = h_views h' -> h_variables h = h_variables h' -> h_index h = h_index h' ->
  h = h'.
Proof. destruct h, h'; simpl; congruence. Qed.

Lemma replaceOps_same (u : XrefId) (h : Heap) (cu : CompilationUnit) :
  h_views h !! u = Some cu -> replaceOps u (ops cu) h = h.
Proof.
  intros Hu. apply heap_eq; [|done..]. simpl. apply map_eq. intros u'.
  destruct (decide (u = u')) as [<-|Hne].
  - rewrite lookup_alter_eq, Hu. by destruct cu.
  - by rewrite lookup_alter_ne.
Qed.

Lemma replaceOps_replaceOp (u : XrefId) (i : nat) (o : Op) (os : list Op) (h : Heap) :
  replaceOps u os (replaceOp u i o h) = replaceOps u os h.
Proof.
  apply heap_eq; [|done..]. simpl. apply map_eq. intros u'.
  destruct (decide (u = u')) as [<-|Hne].
  - rewrite !lookup_alter_eq. by destruct (h_views h !! u).
  - by rewrite !lookup_alter_ne.
Qed.

Lemma replaceOp_lookup (u : XrefId) (i : nat) (o : Op) (h : Heap) (cu : CompilationUnit) :
  h_views h !! u = Some cu ->
  h_views (replaceOp u i o h) !! u
  = Some (mkUnit (unitKind cu) (fnName cu) (<[i:=o]> (ops cu))).
Proof. intros Hu. simpl. by rewrite lookup_alter_eq, Hu. Qed.

(** The second loop, from the operation after [done] on. *)
Lemma resolveOps_from (u : XrefId) (vn : gmap XrefId string) (todo : list Op) :
  forall (done : list Op) (h : Heap) (cu : CompilationUnit),
    h_views h !! u = Some cu -> ops cu = done ++ todo ->
    match firstUnresolved vn todo with
    | None =>
        foldM (resolveOp u vn) (seq (List.length done) (List.length todo)) tt h
        = (Done tt, replaceOps u (done ++ (resolveReads vn <$> todo)) h)
    | Some x =>
        exists h2,
          foldM (resolveOp u vn) (seq (List.length done) (List.length todo)) tt h
          = (Throw (VariableNotYetNamed x), h2)
    end.
Proof.
  induction todo as [|o todo IH]; intros done h cu Hu Hops.
  - simpl. rewrite app_nil_r in *. rewrite <- Hops.
    by rewrite (replaceOps_same u h cu Hu).
  - rewrite firstUnresolved_cons.
    assert (ops cu !! List.length done = Some o) as Ho
      by (rewrite Hops; apply list_lookup_middle; done).
    assert (resolveOp u vn tt (List.length done) h
            = (let '(es, err) := resolveExprs vn (exprs o) in
               setOp u (List.length done) (mkOp (kind o) es) ;;;
               match err with Some e => throw e | None => ret tt end) h) as Hstep.
    { unfold resolveOp, bind at 1, getUnit. by rewrite Hu, Ho. }
    pose proof (resolveExprs_spec vn (exprs o)) as Hes.
    destruct (head (filter _ (unnamedReads (exprs o)))) as [x|].
    + destruct Hes as [es' Hes]. rewrite Hes in Hstep.
      simpl. unfold bind at 1. rewrite Hstep. eexists. reflexivity.
    + rewrite Hes in Hstep.
      set (h1 := replaceOp u (List.length done) (resolveReads vn o) h).
      assert (resolveOp u vn tt (List.length done) h = (Done tt, h1)) as Hstep1
        by (rewrite Hstep; reflexivity).
      change (foldM (resolveOp u vn)
                (seq (List.length done) (List.length (o :: todo))) tt h)
        with (bind (resolveOp u vn tt (List.length done))
                (fun b' => foldM (resolveOp u vn)
                             (seq (S (List.length done)) (List.length todo)) b') h).
      rewrite (bind_done _ _ _ _ _ Hstep1).
      assert (h_views h1 !! u
              = Some (mkUnit (unitKind cu) (fnName cu)
                        ((done ++ [resolveReads vn o]) ++ todo))) as Hu1.
      { unfold h1. rewrite (replaceOp_lookup _ _ _ _ _ Hu). do 2 f_equal.
        rewrite Hops, <- app_assoc. simpl.
        rewrite <- (Nat.add_0_r (List.length done)) at 1.
        by rewrite insert_app_r. }
      specialize (IH (done ++ [resolveReads vn o]) h1 _ Hu1 eq_refl).
      rewrite length_app in IH. simpl in IH.
      rewrite Nat.add_1_r in IH.
      destruct (firstUnresolved vn todo) as [x|].
      * exact IH.
      * rewrite IH. unfold h1. rewrite replaceOps_replaceOp.
        rewrite <- app_assoc. reflexivity.
Qed.

End ReadResolution.

(** ** The table of the first loop *)

Module NameTable.
Import Text TextFacts Naming NamingSpec NamingFacts NamingCoverage ReadResolution
  Examples.
Local Open Scope naming_scope.

Section table.
Variable sanitizeIdentifier : string -> string.
Variable hyphenate : string -> string.
Variable prefixWithNamespace : option string -> Namespace -> string.
Variable jobFnSuffix : string.
Variable jobCompatibility : CompatibilityMode.
Variable compatibility : bool.

Local Abbreviation evolves := (evolves hyphenate jobCompatibility compatibility).
Local Abbreviation nameOp :=
  (nameOp sanitizeIdentifier hyphenate prefixWithNamespace jobCompatibility).
Local Abbreviation nameOps :=
  (nameOps sanitizeIdentifier hyphenate prefixWithNamespace jobCompatibility).
Local Abbreviation nameUnit :=
  (nameUnit sanitizeIdentifier hyphenate prefixWithNamespace jobFnSuffix jobCompatibility).
Local Abbreviation addNamesToView :=
  (addNamesToView sanitizeIdentifier hyphenate prefixWithNamespace jobFnSuffix
     jobCompatibility).
Local Abbreviation forward :=
  (evolves_op_forward hyphenate jobCompatibility compatibility).
Local Abbreviation backward :=
  (evolves_op_backward hyphenate jobCompatibility compatibility).
Local Abbreviation named :=
  (evolves_named hyphenate jobCompatibility compatibility).

(** A step of the first loop changes the table at a [Variable] operation
    only. *)
Lemma nameOp_table (recur : XrefId -> string -> bool -> M unit) (u : XrefId)
    (baseName : string) (vn vn' : gmap XrefId string) (i : nat) (h h' : Heap) :
  nameOp recur u baseName compatibility vn i h = (Done vn', h') ->
  vn' = vn \/
  exists cu o x v, h_views h !! u = Some cu /\ ops cu !! i = Some o /\
                   kind o = VariableOp x v.
Proof.
  unfold Naming.nameOp, bind at 1, getUnit.
  destruct (h_views h !! u) as [cu|] eqn:Hu; [|done].
  destruct (ops cu !! i) as [op|] eqn:Hi; [|by intros [= <- _]; left].
  destruct (kind op) as [n t|n t|n hf s tg a ph|x v|x s tg ns|n|n|] eqn:Hk.
  - destruct t; [rewrite setKind_then_ret_eq|]; intros [= <- _]; by left.
  - destruct t; [rewrite setKind_then_ret_eq|]; intros [= <- _]; by left.
  - destruct (_ && _).
    + rewrite setKind_then_ret_eq. intros [= <- _]; by left.
    + destruct hf; [intros [= <- _]; by left|].
      destruct s; [|done]. destruct (listenerNames _ _ _ _ _ _ _).
      rewrite setKind_then_ret_eq. intros [= <- _]; by left.
  - intros _. right. eauto 10.
  - destruct (unitKind cu); [|done]. destruct s; [|done].
    unfold bind. destruct (recur _ _ _ _) as [[[]|?|] ?]; try done.
    intros [= <- _]; by left.
  - rewrite setKind_then_ret_eq. intros [= <- _]; by left.
  - destruct compatibility; [rewrite setKind_then_ret_eq|]; intros [= <- _]; by left.
  - intros [= <- _]; by left.
Qed.

Lemma tableJustified_evolves (u : XrefId) (vn : gmap XrefId string) (h h' : Heap) :
  evolves h h' -> tableJustified u vn h -> tableJustified u vn h'.
Proof.
  intros Hev Hj x n Hx.
  destruct (Hj x n Hx) as (cu & j & o & v & sv & Hcu & Ho & Hk & Hsv & Hn).
  destruct (forward _ _ _ _ _ _ Hev Hcu Ho) as (cu' & o' & Hcu' & Ho' & Hkk).
  rewrite Hk in Hkk. simpl in Hkk.
  destruct (named _ _ _ _ _ Hev Hsv Hn) as (sv' & Hsv' & Hn').
  exists cu', j, o', v, sv'. auto.
Qed.

Lemma nameOps_table (recur : XrefId -> string -> bool -> M unit) (u : XrefId)
    (baseName : string) (n : nat) (vn : gmap XrefId string) (h h' : Heap) :
  (forall x b h0, evolves h0 (recur x b compatibility h0).2) ->
  nameOps recur u baseName compatibility n h = (Done vn, h') ->
  tableJustified u vn h' /\ tableCovers u n vn h'.
Proof.
  intros Hrec Hrun.
  apply (foldM_seq_invariant
           (fun i vn h => tableJustified u vn h /\ tableCovers u i vn h)
           (nameOp recur u baseName compatibility) n 0 ∅ h vn h'); [| |exact Hrun].
  - split.
    + intros x m Hx. by rewrite lookup_empty in Hx.
    + intros cu j o x v Hj. lia.
  - intros i vn0 h0 vn1 h1 _ [Hjust Hcov] Hstep.
    assert (evolves h0 h1) as Hev.
    { pose proof (nameOp_evolves sanitizeIdentifier hyphenate prefixWithNamespace
                    jobCompatibility compatibility recur u baseName vn0 i h0 Hrec) as H.
      by rewrite Hstep in H. }
    pose proof (tableJustified_evolves u vn0 h0 h1 Hev Hjust) as Hjust1.
    split.
    + destruct (nameOp_table _ _ _ _ _ _ _ _ Hstep)
        as [->|(cu & o & x0 & v0 & Hcu & Ho & Hk)]; [done|].
      destruct (nameOp_variable sanitizeIdentifier hyphenate prefixWithNamespace
                  jobCompatibility compatibility recur u baseName vn0 vn1 i h0 h1
                  cu o x0 v0 Hcu Ho Hk Hstep) as (n0 & sv & -> & Hsv & Hn).
      intros x m Hx. destruct (decide (x0 = x)) as [<-|Hne].
      * rewrite lookup_insert_eq in Hx. injection Hx as <-.
        destruct (forward _ _ _ _ _ _ Hev Hcu Ho) as (cu' & o' & Hcu' & Ho' & Hkk).
        rewrite Hk in Hkk. simpl in Hkk.
        exists cu', i, o', v0, sv. auto.
      * rewrite lookup_insert_ne in Hx by done. by apply Hjust1.
    + intros cu1 j o1 x v Hj Hcu1 Ho1 Hk1.
      destruct (backward _ _ _ _ _ _ Hev Hcu1 Ho1) as (cu & o & Hcu & Ho & Hkk).
      rewrite Hk1 in Hkk.
      apply (kindKeeps_VariableOp_r hyphenate compatibility) in Hkk.
      destruct (decide (j = i)) as [->|Hne].
      * destruct (nameOp_variable sanitizeIdentifier hyphenate prefixWithNamespace
                    jobCompatibility compatibility recur u baseName vn0 vn1 i h0 h1
                    cu o x v Hcu Ho Hkk Hstep) as (n0 & sv & -> & _).
        rewrite lookup_insert_eq. eauto.
      * assert (is_Some (vn0 !! x)) as Hsome
          by (apply (Hcov cu j o x v); [lia|done..]).
        destruct (nameOp_table _ _ _ _ _ _ _ _ Hstep)
          as [->|(cu2 & o2 & x0 & v0 & Hcu2 & Ho2 & Hk2)]; [done|].
        destruct (nameOp_variable sanitizeIdentifier hyphenate prefixWithNamespace
                    jobCompatibility compatibility recur u baseName vn0 vn1 i h0 h1
                    cu2 o2 x0 v0 Hcu2 Ho2 Hk2 Hstep) as (n0 & sv & -> & _).
        rewrite lookup_insert_is_Some. destruct (decide (x0 = x)); auto.
Qed.

(** C3.  When the first loop of [addNamesToView] on a unit has ended with
    the table [varNames], the table holds exactly the xrefs of the [Variable]
    operations of the unit, each with the name of its variable.  If every
    read without a name in the unit has its xref in the table, the call
    returns, and each such read has taken the name the table has for its
    xref, nothing else being changed; otherwise the call throws
    [Variable <xref> not yet named] for the first read whose xref is
    missing. *)
Theorem C3_reads_take_table_names (depth : nat) (u : XrefId) (baseName : string)
    (h : Heap) (cu : CompilationUnit) (varNames : gmap XrefId string) (h1 : Heap) :
  h_views h !! u = Some cu ->
  nameUnit (addNamesToView depth) u baseName compatibility cu h = (Done varNames, h1) ->
  exists cu1,
    h_views h1 !! u = Some cu1 /\
    (forall x, is_Some (varNames !! x) <->
               exists j o v, ops cu1 !! j = Some o /\ kind o = VariableOp x v) /\
    (forall x n, varNames !! x = Some n ->
       exists j o v sv,
         ops cu1 !! j = Some o /\ kind o = VariableOp x v /\
         h_variables h1 !! v = Some sv /\ variable_name sv = Some n) /\
    match firstUnresolved varNames (ops cu1) with
    | None =>
        addNamesToView (S depth) u baseName compatibility h
        = (Done tt, replaceOps u (resolveReads varNames <$> ops cu1) h1)
    | Some x =>
        varNames !! x = None /\
        exists h2,
          addNamesToView (S depth) u baseName compatibility h
          = (Throw (VariableNotYetNamed x), h2)
    end.
Proof.
  intros Hu Hrun.
  assert (forall x b h0, evolves h0 (addNamesToView depth x b compatibility h0).2)
    as Hrec by (intros; apply addNamesToView_evolves).
  assert (evolves h h1) as Hev.
  { pose proof (nameUnit_evolves sanitizeIdentifier hyphenate prefixWithNamespace
                  jobFnSuffix jobCompatibility compatibility (addNamesToView depth)
                  u baseName cu h Hrec Hu) as H.
    by rewrite Hrun in H. }
  destruct Hev as [_ Hviews _ _]. specialize (Hviews u). rewrite Hu in Hviews.
  inversion Hviews as [? cu1 (_ & _ & Hops) Ea Hcu1|]; subst. symmetry in Hcu1.
  apply Forall2_length in Hops.
  assert (tableJustified u varNames h1 /\
          tableCovers u (List.length (ops cu)) varNames h1) as [Hjust Hcov].
  { unfold Naming.nameUnit, bind in Hrun.
    destruct (assignFnName _ _ _ _ _ _) as [[[]|?|] h0]; try done.
    by eapply nameOps_table. }
  exists cu1. split; [done|]. split; [|split].
  - intros x. split.
    + intros [n Hx].
      destruct (Hjust x n Hx) as (c & j & o & v & sv & Hc & Ho & Hk & _).
      assert (c = cu1) by congruence. subst c. eauto.
    + intros (j & o & v & Ho & Hk).
      apply (Hcov cu1 j o x v); [|done..].
      rewrite Hops. by eapply lookup_lt_Some.
  - intros x n Hx.
    destruct (Hjust x n Hx) as (c & j & o & v & sv & Hc & Ho & Hk & Hsv & Hn).
    assert (c = cu1) by congruence. subst c. eauto 10.
  - assert (addNamesToView (S depth) u baseName compatibility h
            = resolveOps u varNames (List.length (ops cu1)) h1) as ->.
    { simpl. unfold bind at 1, getUnit. rewrite Hu.
      rewrite (bind_done _ _ _ _ _ Hrun). by rewrite Hops. }
    pose proof (resolveOps_from u varNames (ops cu1) [] h1 cu1 Hcu1 eq_refl) as H.
    destruct (firstUnresolved varNames (ops cu1)) as [x|] eqn:E.
    + split; [by eapply firstUnresolved_missing|]. exact H.
    + exact H.
Qed.

End table.
End NameTable.

Module NameTableExamples.
Import Text Naming NamingSpec NameTable Examples TableExamples.

Lemma C3_reads_take_table_names_witness :
  (exists h2,
     addNamesToView Helpers.sanitizeIdentifier Helpers.hyphenate
       Helpers.prefixWithNamespace "Template" Normal 1 0 "App" false danglingHeap
     = (Throw (VariableNotYetNamed 11), h2)) /\
  addNamesToView Helpers.sanitizeIdentifier Helpers.hyphenate
    Helpers.prefixWithNamespace "Template" Normal 1 0 "App" false resolvableHeap
  = (Done tt, resolvableHeapResolved).
Proof.
  split.
  - destruct (C3_reads_take_table_names Helpers.sanitizeIdentifier Helpers.hyphenate
                Helpers.prefixWithNamespace "Template" Normal false 0 0 "App"
                danglingHeap _ {[ 10 := "ctx_r0" ]} danglingHeapNamed
                eq_refl eq_refl) as (cu1 & Hcu1 & _ & _ & Hm).
    vm_compute in Hcu1. injection Hcu1 as <-.
    destruct Hm as [_ Hm]. exact Hm.
  - destruct (C3_reads_take_table_names Helpers.sanitizeIdentifier Helpers.hyphenate
                Helpers.prefixWithNamespace "Template" Normal false 0 0 "App"
                resolvableHeap _ {[ 10 := "item_4" ]} resolvableHeapNamed
                eq_refl eq_refl) as (cu1 & Hcu1 & _ & _ & Hm).
    vm_compute in Hcu1. injection Hcu1 as <-.
    exact Hm.
Defined.

End NameTableExamples.

(** ** Loops need a [track] parameter *)

Module LoopFacts.
Import Text Lexing Blocks BlockParser BlockInputs.

Section loops.
Variable Ast : Type.
Variable Node : Type.
Variable parseBinding : string -> Ast + string.
Variable matchForExpression : string -> option (string * string).

Local Abbreviation loopParameter := (loopParameter Ast parseBinding).
Local Abbreviation letBinding := (letBinding Ast).
Local Abbreviation createForLoop :=
  (createForLoop Ast Node parseBinding matchForExpression).

Lemma letBinding_hasTrack (acc : LoopParameters Ast) (binding : string) :
  lp_hasTrack Ast (letBinding acc binding) = lp_hasTrack Ast acc.
Proof.
  unfold BlockParser.letBinding.
  destruct (splitTop "=" 0 binding) as [|a [|b [|c l]]]; try reflexivity.
  repeat (case_match; try reflexivity).
Qed.

Lemma letBindings_hasTrack (bindings : list string) (acc : LoopParameters Ast) :
  lp_hasTrack Ast (foldl letBinding acc bindings) = lp_hasTrack Ast acc.
Proof.
  revert acc. induction bindings as [|b bs IH]; intros acc; [reflexivity|].
  simpl. by rewrite IH, letBinding_hasTrack.
Qed.

Lemma loopParameter_hasTrack (acc : LoopParameters Ast) (param : string) :
  keywordRest "track" param = None ->
  lp_hasTrack Ast (loopParameter acc param) = lp_hasTrack Ast acc.
Proof.
  intros H. unfold BlockParser.loopParameter. rewrite H.
  destruct (keywordRest "let" param); [apply letBindings_hasTrack|reflexivity].
Qed.

Lemma loopParameters_hasTrack (params : list string) (acc : LoopParameters Ast) :
  (forall p, p ∈ params -> keywordRest "track" p = None) ->
  lp_hasTrack Ast (foldl loopParameter acc params) = lp_hasTrack Ast acc.
Proof.
  revert acc. induction params as [|p ps IH]; intros acc H; [reflexivity|].
  simpl. rewrite IH by (intros q Hq; apply H; by right).
  apply loopParameter_hasTrack, H. by left.
Qed.

(** The sections of a loop are never the place of the [track] error. *)
Lemma loopSections_no_track (sections : list (Block Node))
    (acc : option (list Node) * list ParseError) :
  ForLoopMissingTrack ∉ acc.2 ->
  ForLoopMissingTrack ∉ (foldl (loopSection Node) acc sections).2.
Proof.
  assert (forall errors e, e <> ForLoopMissingTrack ->
            ForLoopMissingTrack ∉ errors -> ForLoopMissingTrack ∉ errors ++ [e]) as Hadd.
  { intros errors e He H Hin. apply elem_of_app in Hin as [Hin|Hin]; [done|].
    apply elem_of_cons in Hin as [Hin|Hin]; [done|]. by apply elem_of_nil in Hin. }
  revert acc. induction sections as [|b bs IH]; intros [empty errors] H; [done|].
  simpl. apply IH. simpl in H.
  destruct (String.eqb (blockName b) "empty"); [|by apply Hadd].
  destruct empty; [by apply Hadd|]. destruct (parameters b); [done|by apply Hadd].
Qed.

(** A loop without parameters, or whose first parameter does not match the
    pattern, gives no block and is reported for its header; the [track]
    error is not among its errors. *)
Lemma loop_without_header (g : BlockGroup Node) (e : ParseError) :
  loopHeader matchForExpression (parameters (primary g)) = inr e ->
  (createForLoop g).1 = None /\ e ∈ (createForLoop g).2 /\
  e <> ForLoopMissingTrack /\ ForLoopMissingTrack ∉ (createForLoop g).2.
Proof.
  intros H. unfold BlockParser.createForLoop. rewrite H.
  pose proof (loopSections_no_track (secondary g) (None, [])) as Hs.
  destruct (foldl (loopSection Node) (None, []) (secondary g)) as [empty sectionErrors].
  simpl in *.
  assert (e <> ForLoopMissingTrack) as He.
  { unfold loopHeader in H. destruct (parameters (primary g)) as [|p ps];
      [by injection H as <-|].
    destruct (matchForExpression p); [done|by injection H as <-]. }
  split; [done|]. split; [by left|]. split; [done|].
  intros Hin. apply elem_of_cons in Hin as [Hin|Hin]; [done|].
  apply Hs; [apply not_elem_of_nil|done].
Qed.

(** C6.  A loop whose first parameter matches [<identifier> of <expression>]
    and none of whose other parameters is a [track] parameter gives no
    block, and its errors include "For loop must have a track expression",
    whatever the expression, the other parameters and the sections of the
    loop are. *)
Theorem C6_loop_without_track (g : BlockGroup Node) (p : string)
    (others : list string) (item text : string) :
  parameters (primary g) = p :: others ->
  matchForExpression p = Some (item, text) ->
  (forall q, q ∈ others -> keywordRest "track" q = None) ->
  (createForLoop g).1 = None /\ ForLoopMissingTrack ∈ (createForLoop g).2.
Proof.
  intros Hparams Hheader H. unfold BlockParser.createForLoop, loopHeader.
  rewrite Hparams, Hheader. simpl.
  destruct (foldl (loopSection Node) (None, []) (secondary g)) as [empty sectionErrors].
  destruct (loopExpression Ast parseBinding text) as [expression expressionErrors].
  rewrite (loopParameters_hasTrack others) by exact H.
  simpl.
  set (rest := foldl loopParameter _ _).
  set (errors := expressionErrors ++ lp_errors Ast rest ++ sectionErrors ++ _).
  assert (ForLoopMissingTrack ∈ errors) as Hin by (unfold errors; set_solver).
  destruct errors as [|e errors]; [by apply elem_of_nil in Hin|].
  by destruct expression.
Qed.

End loops.

(** [{#for}] and [{#for a b; let i = $index}] are reported for their header
    only. *)
Example loops_without_header :
  BlockExamples.createForLoop loopWithoutHeader = (None, [ForLoopNoExpression]) /\
  BlockExamples.createForLoop loopWithBadHeader = (None, [ForLoopBadExpression]).
Proof. split; reflexivity. Qed.

Lemma C6_loop_without_track_witness :
  BlockExamples.createForLoop loopWithoutTrack = (None, [ForLoopMissingTrack]) /\
  (BlockExamples.createForLoop loopWithLetAndEmpty).1 = None /\
  ForLoopMissingTrack ∈ (BlockExamples.createForLoop loopWithLetAndEmpty).2.
Proof.
  split; [reflexivity|].
  apply (C6_loop_without_track string string BlockExamples.parseBinding
           BlockExamples.matchForExpression loopWithLetAndEmpty
           "a of b" ["let i = $index"] "a" "b").
  - reflexivity.
  - reflexivity.
  - intros q Hq. apply elem_of_cons in Hq as [->|Hq]; [reflexivity|].
    by apply elem_of_nil in Hq.
Defined.

End LoopFacts.

(** ** A switch has one default at most *)

Module SwitchFacts.
Import Text Lexing Blocks BlockParser BlockInputs.

Section switches.
Variable Ast : Type.
Variable Node : Type.
Variable parseBinding : string -> Ast + string.

Local Abbreviation switchSection := (switchSection Ast Node parseBinding).
Local Abbreviation createSwitchBlock := (createSwitchBlock Ast Node parseBinding).
Local Abbreviation SwitchCases := (SwitchCases Ast Node).
Local Abbreviation caseBlock := (caseBlock Node).
Local Abbreviation caseOf := (caseOf Ast Node parseBinding).
Local Abbreviation parses := (parses Ast Node parseBinding).

Lemma switchSection_errors (acc : SwitchCases) (b : Block Node) (e : ParseError) :
  e ∈ sc_errors Ast Node acc -> e ∈ sc_errors Ast Node (switchSection acc b).
Proof.
  intros H. unfold BlockParser.switchSection.
  repeat case_match; simpl; set_solver.
Qed.

Lemma switchSections_errors (bs : list (Block Node)) (acc : SwitchCases)
    (e : ParseError) :
  e ∈ sc_errors Ast Node acc -> e ∈ sc_errors Ast Node (foldl switchSection acc bs).
Proof.
  revert acc. induction bs as [|b bs IH]; intros acc H; [done|].
  simpl. by apply IH, switchSection_errors.
Qed.

Lemma switchSection_hasDefault (acc : SwitchCases) (b : Block Node) :
  sc_hasDefault Ast Node acc = true ->
  sc_hasDefault Ast Node (switchSection acc b) = true.
Proof.
  intros H. unfold BlockParser.switchSection.
  repeat case_match; simpl; done.
Qed.

Lemma switchSections_hasDefault (bs : list (Block Node)) (acc : SwitchCases) :
  sc_hasDefault Ast Node acc = true ->
  sc_hasDefault Ast Node (foldl switchSection acc bs) = true.
Proof.
  revert acc. induction bs as [|b bs IH]; intros acc H; [done|].
  simpl. by apply IH, switchSection_hasDefault.
Qed.

Lemma switchSection_default (acc : SwitchCases) (b : Block Node) :
  blockName b = "default" ->
  sc_hasDefault Ast Node (switchSection acc b) = true.
Proof.
  intros H. unfold BlockParser.switchSection. rewrite H. simpl.
  repeat case_match; simpl; done.
Qed.

Lemma switchSection_first_default (acc : SwitchCases) (body : list Node) :
  sc_hasDefault Ast Node acc = false ->
  switchSection acc (mkBlock "default" [] body)
  = mkSwitchCases Ast Node
      (sc_cases Ast Node acc ++ [mkSwitchBlockCase None body]) true
      (sc_errors Ast Node acc).
Proof. intros H. unfold BlockParser.switchSection. simpl. by rewrite H. Qed.

Lemma switchSection_second_default (acc : SwitchCases) (b : Block Node) :
  blockName b = "default" -> sc_hasDefault Ast Node acc = true ->
  SwitchDuplicateDefault ∈ sc_errors Ast Node (switchSection acc b).
Proof.
  intros H Hd. unfold BlockParser.switchSection. rewrite H, Hd. simpl. set_solver.
Qed.

Lemma switchSections_cases (sections : list (string * list Node)) (acc : SwitchCases) :
  Forall parses sections ->
  foldl switchSection acc (caseBlock <$> sections)
  = mkSwitchCases Ast Node (sc_cases Ast Node acc ++ (caseOf <$> sections))
      (sc_hasDefault Ast Node acc) (sc_errors Ast Node acc).
Proof.
  intros H. revert acc. induction H as [|s ss [ast Hs] _ IH]; intros acc.
  - simpl. rewrite app_nil_r. by destruct acc.
  - simpl. rewrite IH. unfold BlockParser.switchSection, BlockParser.caseOf at 2.
    simpl. rewrite Hs. simpl. by rewrite <- app_assoc.
Qed.

(** C7.  A switch with two [{:default}] sections gives no block, and its
    errors include "Switch block can only have one default block".  A
    switch whose sections are cases with expressions that parse and one
    [{:default}] without parameters, anywhere among them, gives a block
    without errors: its cases are those of the sections, in their order,
    the default being the one without an expression. *)
Theorem C7_switch_default_is_unique :
  (forall (g : BlockGroup Node) (l1 l2 l3 : list (Block Node)) (d1 d2 : Block Node),
     secondary g = l1 ++ d1 :: l2 ++ d2 :: l3 ->
     blockName d1 = "default" -> blockName d2 = "default" ->
     (createSwitchBlock g).1 = None /\
     SwitchDuplicateDefault ∈ (createSwitchBlock g).2) /\
  (forall (p : string) (ast : Ast) (body defaultBody : list Node)
          (before after : list (string * list Node)),
     parseBinding p = inl ast ->
     Forall parses before -> Forall parses after ->
     createSwitchBlock
       (mkBlockGroup (mkBlock "switch" [p] body)
          ((caseBlock <$> before) ++ mkBlock "default" [] defaultBody
             :: (caseBlock <$> after)))
     = (Some (mkSwitchBlock ast
                ((caseOf <$> before) ++ mkSwitchBlockCase None defaultBody
                   :: (caseOf <$> after))),
        []) /\
     Forall (fun c => is_Some (case_expression c)) (caseOf <$> before) /\
     Forall (fun c => is_Some (case_expression c)) (caseOf <$> after)).
Proof.
  split.
  - intros g l1 l2 l3 d1 d2 Hs H1 H2. unfold BlockParser.createSwitchBlock.
    rewrite Hs.
    assert (SwitchDuplicateDefault
              ∈ sc_errors Ast Node
                  (foldl switchSection (mkSwitchCases Ast Node [] false [])
                     (l1 ++ d1 :: l2 ++ d2 :: l3))) as Hin.
    { rewrite foldl_app. simpl. rewrite foldl_app. simpl.
      apply switchSections_errors, switchSection_second_default; [done|].
      apply switchSections_hasDefault. by apply switchSection_default. }
    destruct (match parameters (primary g) with
              | [p] => _
              | _ => _
              end) as [expression headerErrors].
    set (errors := headerErrors ++ _) in *.
    assert (SwitchDuplicateDefault ∈ errors) as Hin' by (unfold errors; set_solver).
    destruct errors as [|e errors]; [by apply elem_of_nil in Hin'|done].
  - intros p ast body defaultBody before after Hp Hb Ha. split; [|split].
    + unfold BlockParser.createSwitchBlock. cbn [primary secondary parameters].
      rewrite Hp.
      rewrite foldl_app, (switchSections_cases before) by done.
      change (foldl switchSection ?a (?d :: ?l))
        with (foldl switchSection (switchSection a d) l).
      rewrite switchSection_first_default by done.
      rewrite (switchSections_cases after) by done. simpl.
      by rewrite <- app_assoc.
    + apply Forall_fmap. eapply Forall_impl; [exact Hb|].
      intros s [a Hs]. unfold BlockParser.caseOf. simpl. rewrite Hs. eauto.
    + apply Forall_fmap. eapply Forall_impl; [exact Ha|].
      intros s [a Hs]. unfold BlockParser.caseOf. simpl. rewrite Hs. eauto.
Qed.

End switches.

Lemma C7_switch_default_is_unique_witness :
  BlockExamples.createSwitchBlock switchWithTwoDefaults
    = (None, [SwitchDuplicateDefault]) /\
  ((BlockExamples.createSwitchBlock switchWithTwoDefaults).1 = None /\
   SwitchDuplicateDefault ∈ (BlockExamples.createSwitchBlock switchWithTwoDefaults).2) /\
  BlockExamples.createSwitchBlock switchWithDefaultInTheMiddle
    = (Some (mkSwitchBlock "cond.kind"
               [mkSwitchBlockCase (Some "x()") [" X case "];
                mkSwitchBlockCase None [" No case matched "];
                mkSwitchBlockCase (Some "42") [" Z case "]]),
       []).
Proof.
  split; [reflexivity|]. split.
  - apply (proj1 (C7_switch_default_is_unique string string BlockExamples.parseBinding)
             switchWithTwoDefaults [mkBlock "case" ["foo"] [" foo "]] [] []
             (mkBlock "default" [] [" one "]) (mkBlock "default" [] [" two "]));
      reflexivity.
  - apply (proj1 (proj2 (C7_switch_default_is_unique string string
                           BlockExamples.parseBinding)
                    "cond.kind" "cond.kind" [] [" No case matched "]
                    [("x()", [" X case "])] [("42", [" Z case "])] eq_refl
                    ltac:(repeat constructor; eexists; reflexivity)
                    ltac:(repeat constructor; eexists; reflexivity))).
Defined.

End SwitchFacts.

(** ** Time values *)

Module TimeFacts.
Import Text TextFacts Lexing Blocks DeferParser.

Lemma span_append (p : ascii -> bool) (a b : string) :
  Forall (fun c => p c = true) (list_ascii_of_string a) ->
  (b = "" \/ exists c b', b = String c b' /\ p c = false) ->
  span p (a +:+ b) = (a, b).
Proof.
  intros Ha Hb. induction a as [|c a IH].
  - rewrite append_nil_l. destruct Hb as [->|(c & b' & -> & Hc)]; [done|].
    simpl. by rewrite Hc.
  - rewrite append_cons. simpl in *. inversion Ha as [|? ? Hc Ha']; subst.
    rewrite Hc, IH by done. reflexivity.
Qed.

Lemma span_spec (p : ascii -> bool) (s a b : string) :
  span p s = (a, b) ->
  s = a +:+ b /\ Forall (fun c => p c = true) (list_ascii_of_string a).
Proof.
  revert a b. induction s as [|c s IH]; intros a b H; simpl in H.
  - injection H as <- <-. by split; [|constructor].
  - destruct (p c) eqn:Hc.
    + destruct (span p s) as [a' b'] eqn:E. injection H as <- <-.
      destruct (IH a' b' eq_refl) as [-> Ha]. split; [done|]. simpl. by constructor.
    + injection H as <- <-. by split; [|constructor].
Qed.

Lemma numeralFrom_uint (d : Decimal.uint) (acc : nat) :
  numeralFrom acc (NilEmpty.string_of_uint d) = Nat.of_uint_acc d acc.
Proof.
  revert acc. induction d as [|d IH|d IH|d IH|d IH|d IH|d IH|d IH|d IH|d IH|d IH];
    intros acc; simpl; [reflexivity|..];
    rewrite IH, Nat.tail_mul_spec; f_equal; unfold digitValue; simpl; lia.
Qed.

Lemma numeral_showNat (n : nat) : numeral (showNat n) = n.
Proof.
  unfold numeral, showNat. rewrite numeralFrom_uint.
  apply DecimalNat.Unsigned.of_to.
Qed.

Lemma eqb_empty (s : string) : String.eqb s "" = true <-> s = "".
Proof. apply String.eqb_eq. Qed.

Lemma parseDeferredTime_units (digits units : string) :
  digits <> "" -> allDigits (list_ascii_of_string digits) ->
  (units = "" \/ exists c b', units = String c b' /\ isDigit c = false) ->
  parseDeferredTime (digits +:+ units)
  = if String.eqb units "" || String.eqb units "ms" then Some (numeral digits)
    else if String.eqb units "s" then Some (numeral digits * 1000)
    else None.
Proof.
  intros Hne Hd Hu. unfold parseDeferredTime. rewrite span_append by done.
  destruct (String.eqb digits "") eqn:E; [|done].
  by apply String.eqb_eq in E.
Qed.

(** C8.  A time value is a run of digits followed by [s], by [ms] or by
    nothing: with [s] it stands for the number times 1000, otherwise for the
    number, in milliseconds; the numeral of [n] stands for [n]; any other
    text has no value.  [timer(10s)] is a timer trigger with delay 10000,
    [timer(100)] one with delay 100, and [timer(123abc)], [minimum 123abc]
    and [after 123abc] give "Could not parse time value". *)
Theorem C8_time_values :
  (forall digits,
     digits <> "" -> allDigits (list_ascii_of_string digits) ->
     parseDeferredTime (digits +:+ "s") = Some (numeral digits * 1000) /\
     parseDeferredTime (digits +:+ "ms") = Some (numeral digits) /\
     parseDeferredTime digits = Some (numeral digits)) /\
  (forall n, numeral (showNat n) = n) /\
  (forall value ms,
     parseDeferredTime value = Some ms ->
     exists digits units,
       value = digits +:+ units /\ digits <> "" /\
       allDigits (list_ascii_of_string digits) /\
       (units = "" /\ ms = numeral digits \/
        units = "ms" /\ ms = numeral digits \/
        units = "s" /\ ms = numeral digits * 1000)) /\
  (forall (Ast : Type) (p : string),
     createTrigger Ast "timer" [p]
     = match parseDeferredTime p with
       | Some delay => inl (TimerKind, TimerDeferredTrigger delay)
       | None => inr (TriggerTimeValue "timer")
       end) /\
  (createTrigger unit "timer" ["10s"] = inl (TimerKind, TimerDeferredTrigger (10 * 1000)) /\
   createTrigger unit "timer" ["100"] = inl (TimerKind, TimerDeferredTrigger 100) /\
   createTrigger unit "timer" ["100ms"] = inl (TimerKind, TimerDeferredTrigger 100) /\
   createTrigger unit "timer" ["123abc"] = inr (TriggerTimeValue "timer")) /\
  (placeholderParameter (None, []) "minimum 1s" = (Some 1000, []) /\
   placeholderParameter (None, []) "minimum 123abc"
     = (None, [ParameterTimeValue "minimum"]) /\
   loadingParameter (None, None, []) "after 100ms" = (Some 100, None, []) /\
   loadingParameter (None, None, []) "after 123abc"
     = (None, None, [ParameterTimeValue "after"]) /\
   loadingParameter (None, None, []) "minimum 123abc"
     = (None, None, [ParameterTimeValue "minimum"])).
Proof.
  split; [|split; [|split; [|split; [|split]]]].
  - intros digits Hne Hd. split; [|split].
    + rewrite parseDeferredTime_units; [reflexivity|done..|].
      right. exists "s"%char, "". by split.
    + rewrite parseDeferredTime_units; [reflexivity|done..|].
      right. exists "m"%char, "s". by split.
    + rewrite <- (append_nil_r digits) at 1.
      rewrite parseDeferredTime_units; [reflexivity|done..|]. by left.
  - apply numeral_showNat.
  - intros value ms. unfold parseDeferredTime.
    destruct (span isDigit value) as [digits units] eqn:E.
    apply span_spec in E as [-> Hd].
    destruct (String.eqb digits "") eqn:Ed; [done|].
    apply String.eqb_neq in Ed.
    destruct (String.eqb units "") eqn:E1.
    { apply String.eqb_eq in E1 as ->. intros [= <-]. exists digits, "". auto 10. }
    destruct (String.eqb units "ms") eqn:E2.
    { apply String.eqb_eq in E2 as ->. intros [= <-]. exists digits, "ms". auto 10. }
    destruct (String.eqb units "s") eqn:E3; [|done].
    apply String.eqb_eq in E3 as ->. intros [= <-]. exists digits, "s". auto 10.
  - intros Ast p. reflexivity.
  - repeat split; vm_compute; reflexivity.
  - repeat split; vm_compute; reflexivity.
Qed.

Lemma C8_time_values_witness :
  parseDeferredTime ("10" +:+ "s") = Some (numeral "10" * 1000) /\
  parseDeferredTime ("10" +:+ "ms") = Some (numeral "10") /\
  parseDeferredTime "10" = Some (numeral "10").
Proof.
  apply (proj1 C8_time_values "10"); [discriminate|].
  repeat constructor.
Defined.

End TimeFacts.

(** ** Triggers are unique by kind within a set *)

Module TriggerFacts.
Import Text Lexing Blocks DeferParser BlockInputs.

Section sets.
Variable Ast : Type.
Variable Node : Type.
Variable parseBinding : string -> Ast + string.

Local Abbreviation DeferTriggers := (DeferTriggers Ast).
Local Abbreviation dt_triggers := (dt_triggers Ast).
Local Abbreviation dt_prefetch := (dt_prefetch Ast).
Local Abbreviation dt_errors := (dt_errors Ast).
Local Abbreviation trackTrigger := (trackTrigger Ast).
Local Abbreviation deferParameter := (deferParameter Ast parseBinding).
Local Abbreviation parseDeferTriggers := (parseDeferTriggers Ast parseBinding).
Local Abbreviation createDeferredBlock := (createDeferredBlock Ast Node parseBinding).
Local Abbreviation uniqueKinds := (uniqueKinds Ast).

Lemma triggerKinds_snoc (s : TriggerSet Ast) (k : TriggerKind) (t : Trigger Ast) :
  triggerKinds (s ++ [(k, t)]) = triggerKinds s ++ [k].
Proof. unfold triggerKinds. by rewrite fmap_app. Qed.

Lemma NoDup_snoc (l : list TriggerKind) (k : TriggerKind) :
  NoDup l -> k ∉ l -> NoDup (l ++ [k]).
Proof.
  intros Hl Hk. apply NoDup_app. split; [done|]. split.
  - intros x Hx Hx'. apply list_elem_of_singleton in Hx' as ->. done.
  - apply NoDup_singleton.
Qed.

Lemma deferError_unique (acc : DeferTriggers) (e : ParseError) :
  uniqueKinds acc -> uniqueKinds (deferError Ast acc e).
Proof. done. Qed.

Lemma trackTrigger_unique (prefetch : bool) (k : TriggerKind) (t : Trigger Ast)
    (acc : DeferTriggers) :
  uniqueKinds acc -> uniqueKinds (trackTrigger prefetch k t acc).
Proof.
  intros [He Hp]. unfold DeferParser.trackTrigger. destruct prefetch.
  - case_bool_decide as Hk; [done|]. split; [done|]. simpl.
    rewrite triggerKinds_snoc. by apply NoDup_snoc.
  - case_bool_decide as Hk; [done|]. split; [|done]. simpl.
    rewrite triggerKinds_snoc. by apply NoDup_snoc.
Qed.

Lemma whenTrigger_unique (prefetch : bool) (e : string) (acc : DeferTriggers) :
  uniqueKinds acc -> uniqueKinds (whenTrigger Ast parseBinding prefetch e acc).
Proof.
  intros H. unfold whenTrigger. destruct (parseBinding e); [|done].
  by apply trackTrigger_unique.
Qed.

Lemma onTrigger_unique (prefetch : bool) (acc : DeferTriggers) (item : string) :
  uniqueKinds acc -> uniqueKinds (onTrigger Ast prefetch acc item).
Proof.
  intros H. unfold onTrigger. destruct (parseTriggerCall item) as [[name params]|]; [|done].
  destruct (createTrigger Ast name params) as [[k t]|]; [|done].
  by apply trackTrigger_unique.
Qed.

Lemma onTriggers_unique (prefetch : bool) (l : string) (acc : DeferTriggers) :
  uniqueKinds acc -> uniqueKinds (onTriggers Ast prefetch l acc).
Proof.
  unfold onTriggers. generalize (splitTop "," 0 l). intros items. revert acc.
  induction items as [|i items IH]; intros acc H; [done|].
  simpl. by apply IH, onTrigger_unique.
Qed.

Lemma deferParameter_unique (acc : DeferTriggers) (param : string) :
  uniqueKinds acc -> uniqueKinds (deferParameter acc param).
Proof.
  intros H. unfold DeferParser.deferParameter.
  destruct (keywordRest "when" param); [by apply whenTrigger_unique|].
  destruct (keywordRest "on" param); [by apply onTriggers_unique|].
  destruct (keywordRest "prefetch" param) as [rest|]; [|done].
  destruct (keywordRest "when" rest); [by apply whenTrigger_unique|].
  destruct (keywordRest "on" rest); [by apply onTriggers_unique|].
  done.
Qed.

Lemma parseDeferTriggers_unique (params : list string) :
  uniqueKinds (parseDeferTriggers params).
Proof.
  unfold DeferParser.parseDeferTriggers.
  assert (uniqueKinds (mkDeferTriggers Ast [] [] [])) as H0
    by (split; apply NoDup_nil_2).
  revert H0. generalize (mkDeferTriggers Ast [] [] []).
  induction params as [|p ps IH]; intros acc H; [done|].
  simpl. by apply IH, deferParameter_unique.
Qed.

(** No error is ever dropped. *)
Lemma trackTrigger_errors (prefetch : bool) (k : TriggerKind) (t : Trigger Ast)
    (acc : DeferTriggers) (e : ParseError) :
  e ∈ dt_errors acc -> e ∈ dt_errors (trackTrigger prefetch k t acc).
Proof.
  intros H. unfold DeferParser.trackTrigger.
  destruct prefetch; case_bool_decide; simpl; try done; apply elem_of_app; by left.
Qed.

Lemma deferError_errors (acc : DeferTriggers) (e' e : ParseError) :
  e ∈ dt_errors acc -> e ∈ dt_errors (deferError Ast acc e').
Proof. intros H. simpl. apply elem_of_app. by left. Qed.

Lemma whenTrigger_errors (prefetch : bool) (x : string) (acc : DeferTriggers)
    (e : ParseError) :
  e ∈ dt_errors acc -> e ∈ dt_errors (whenTrigger Ast parseBinding prefetch x acc).
Proof.
  intros H. unfold whenTrigger. destruct (parseBinding x).
  - by apply trackTrigger_errors.
  - by apply deferError_errors.
Qed.

Lemma onTrigger_errors (prefetch : bool) (acc : DeferTriggers) (item : string)
    (e : ParseError) :
  e ∈ dt_errors acc -> e ∈ dt_errors (onTrigger Ast prefetch acc item).
Proof.
  intros H. unfold onTrigger.
  destruct (parseTriggerCall item) as [[name params]|]; [|by apply deferError_errors].
  destruct (createTrigger Ast name params) as [[k t]|].
  - by apply trackTrigger_errors.
  - by apply deferError_errors.
Qed.

Lemma onTriggers_errors (prefetch : bool) (l : string) (acc : DeferTriggers)
    (e : ParseError) :
  e ∈ dt_errors acc -> e ∈ dt_errors (onTriggers Ast prefetch l acc).
Proof.
  unfold onTriggers. generalize (splitTop "," 0 l). intros items. revert acc.
  induction items as [|i items IH]; intros acc H; [done|].
  simpl. by apply IH, onTrigger_errors.
Qed.

Lemma deferParameter_errors (acc : DeferTriggers) (param : string) (e : ParseError) :
  e ∈ dt_errors acc -> e ∈ dt_errors (deferParameter acc param).
Proof.
  intros H. unfold DeferParser.deferParameter.
  destruct (keywordRest "when" param); [by apply whenTrigger_errors|].
  destruct (keywordRest "on" param); [by apply onTriggers_errors|].
  destruct (keywordRest "prefetch" param) as [rest|]; [|by apply deferError_errors].
  destruct (keywordRest "when" rest); [by apply whenTrigger_errors|].
  destruct (keywordRest "on" rest); [by apply onTriggers_errors|].
  by apply deferError_errors.
Qed.

Lemma deferParameters_errors (params : list string) (acc : DeferTriggers)
    (e : ParseError) :
  e ∈ dt_errors acc -> e ∈ dt_errors (foldl deferParameter acc params).
Proof.
  revert acc. induction params as [|p ps IH]; intros acc H; [done|].
  simpl. by apply IH, deferParameter_errors.
Qed.

(** C9.  Whatever the trigger clauses of a deferred block are, the kinds of
    its eager triggers are free of duplicates and so are the kinds of its
    prefetch triggers, [when] being one of the kinds; this holds of every
    block that comes out.  A trigger whose kind its set has already is not
    added: it gives "Duplicate trigger is not allowed" for its kind; an
    error of a clause stays among the errors of the block, which then does
    not come out.  A trigger goes into its set whatever the other set
    holds. *)
Theorem C9_triggers_unique_by_kind :
  (forall params,
     NoDup (triggerKinds (dt_triggers (parseDeferTriggers params))) /\
     NoDup (triggerKinds (dt_prefetch (parseDeferTriggers params)))) /\
  (forall (g : BlockGroup Node) (b : DeferredBlock Ast Node) (errors : list ParseError),
     createDeferredBlock g = (Some b, errors) ->
     NoDup (triggerKinds (defer_triggers b)) /\
     NoDup (triggerKinds (defer_prefetchTriggers b))) /\
  (forall (prefetch : bool) (kind : TriggerKind) (t : Trigger Ast) (acc : DeferTriggers),
     kind ∈ triggerKinds (if prefetch then dt_prefetch acc else dt_triggers acc) ->
     trackTrigger prefetch kind t acc
     = mkDeferTriggers Ast (dt_triggers acc) (dt_prefetch acc)
         (dt_errors acc ++ [DuplicateTrigger kind])) /\
  (forall (prefetch : bool) (kind : TriggerKind) (t : Trigger Ast) (acc : DeferTriggers),
     kind ∉ triggerKinds (if prefetch then dt_prefetch acc else dt_triggers acc) ->
     trackTrigger prefetch kind t acc
     = if prefetch
       then mkDeferTriggers Ast (dt_triggers acc) (dt_prefetch acc ++ [(kind, t)])
              (dt_errors acc)
       else mkDeferTriggers Ast (dt_triggers acc ++ [(kind, t)]) (dt_prefetch acc)
              (dt_errors acc)) /\
  (forall (g : BlockGroup Node) (before after : list string) (acc : DeferTriggers)
          (e : ParseError),
     parameters (primary g) = before ++ after ->
     foldl deferParameter (mkDeferTriggers Ast [] [] []) before = acc ->
     e ∈ dt_errors acc ->
     (createDeferredBlock g).1 = None /\ e ∈ (createDeferredBlock g).2).
Proof.
  split; [|split; [|split; [|split]]].
  - apply parseDeferTriggers_unique.
  - intros g b errors. unfold DeferParser.createDeferredBlock.
    pose proof (parseDeferTriggers_unique (parameters (primary g))) as [He Hp].
    destruct (_ ++ _); [|done]. intros [= <- _]. by split.
  - intros prefetch kind t acc Hin. unfold DeferParser.trackTrigger.
    destruct prefetch; by rewrite bool_decide_eq_true_2.
  - intros prefetch kind t acc Hin. unfold DeferParser.trackTrigger.
    destruct prefetch; by rewrite bool_decide_eq_false_2.
  - intros g before after acc e Hparams Hacc He.
    unfold DeferParser.createDeferredBlock, DeferParser.parseDeferTriggers.
    rewrite Hparams, foldl_app, Hacc.
    pose proof (deferParameters_errors after acc e He) as Hin.
    set (errors := _ ++ _).
    assert (e ∈ errors) as Hin' by (unfold errors; set_solver).
    destruct errors; [by apply elem_of_nil in Hin'|done].
Qed.

End sets.

Lemma C9_triggers_unique_by_kind_witness :
  BlockExamples.createDeferredBlock deferWithDuplicateOn
    = (None, [DuplicateTrigger IdleKind]) /\
  BlockExamples.createDeferredBlock deferWithDuplicateWhen
    = (None, [DuplicateTrigger WhenKind]) /\
  BlockExamples.createDeferredBlock deferWithDuplicatePrefetchOn
    = (None, [DuplicateTrigger IdleKind]) /\
  BlockExamples.createDeferredBlock deferWithDuplicatePrefetchWhen
    = (None, [DuplicateTrigger WhenKind]) /\
  (exists b,
     BlockExamples.createDeferredBlock deferComplete = (Some b, []) /\
     triggerKinds (defer_triggers b)
       = [WhenKind; HoverKind; TimerKind; IdleKind; ImmediateKind; InteractionKind;
          ViewportKind] /\
     triggerKinds (defer_prefetchTriggers b) = [ImmediateKind; WhenKind] /\
     NoDup (triggerKinds (defer_triggers b)) /\
     NoDup (triggerKinds (defer_prefetchTriggers b))).
Proof.
  repeat (split; [vm_compute; reflexivity|]).
  eexists. split; [vm_compute; reflexivity|].
  split; [reflexivity|]. split; [reflexivity|].
  apply (proj1 (proj2 (C9_triggers_unique_by_kind string string
                         BlockExamples.parseBinding))
           deferComplete _ []).
  vm_compute. reflexivity.
Defined.

End TriggerFacts.

(** ** A scheduled callback runs once *)

Module SchedulerFacts.
Import Scheduler.

Lemma consistent_initial : consistent initial.
Proof.
  split; simpl.
  - intros c Hc. by apply elem_of_nil in Hc.
  - apply NoDup_nil_2.
  - intros c [b Hb]. by rewrite lookup_empty in Hb.
Qed.

Lemma consistent_schedule (has : bool) (callback : Callback) (w : World) :
  consistent w -> consistent (schedule has callback w).
Proof.
  intros [Hf Ho Hn]. split; simpl.
  - intros c Hc. rewrite lookup_insert_ne; [by apply Hf|].
    intros <-. specialize (Hf _ Hc).
    assert (nextCall w < nextCall w) by (apply Hn; eauto). lia.
  - done.
  - intros c. rewrite lookup_insert_is_Some. intros [<-|[_ Hc]]; [lia|].
    specialize (Hn c Hc). lia.
Qed.

Lemma consistent_runTask (t : Task) (w : World) :
  consistent w -> consistent (runTask t w).
Proof.
  intros [Hf Ho Hn]. unfold runTask.
  destruct (executeCallback w !! task_call t) as [[|]|] eqn:E; [|by split..].
  split; simpl.
  - intros c. rewrite fmap_app, elem_of_app. simpl.
    intros [Hc|Hc%list_elem_of_singleton].
    + destruct (decide (task_call t = c)) as [<-|Hne].
      * by rewrite lookup_insert_eq.
      * rewrite lookup_insert_ne by done. by apply Hf.
    + subst c. by rewrite lookup_insert_eq.
  - rewrite fmap_app. simpl. apply NoDup_app. split; [done|]. split.
    + intros c Hc Hc'. apply list_elem_of_singleton in Hc' as ->.
      specialize (Hf _ Hc). congruence.
    + apply NoDup_singleton.
  - intros c. rewrite lookup_insert_is_Some. intros [<-|[_ Hc]]; apply Hn; eauto.
Qed.

Lemma consistent_queues (w : World) (ts fs : list Task) :
  consistent w ->
  consistent (mkWorld (executeCallback w) ts fs (executed w) (nextCall w)).
Proof. intros [Hf Ho Hn]. by split. Qed.

Lemma consistent_step (has : bool) (w w' : World) :
  step has w w' -> consistent w -> consistent w'.
Proof.
  intros [callback w0|i w0|i w0] Hc.
  - by apply consistent_schedule.
  - unfold fireTimeout. destruct (timeouts w0 !! i); [|done].
    by apply consistent_runTask, consistent_queues.
  - unfold fireFrame. destruct (frames w0 !! i); [|done].
    by apply consistent_runTask, consistent_queues.
Qed.

Lemma reachable_consistent (has : bool) (w : World) :
  reachable has w -> consistent w.
Proof.
  unfold reachable. revert w.
  apply (rtc_ind_r (fun w => consistent w) initial); [apply consistent_initial|].
  intros y z _ Hs IH. by eapply consistent_step.
Qed.

(** C10.  In every world a scheduler gets to, whatever the order in which
    timeouts and animation frames fire, a callback has been called at most
    once for each call of the scheduling function.  With
    [requestAnimationFrame] a call registers one function with each of the
    two; the one that runs first, with [executeCallback] still true, calls
    the callback and clears [executeCallback], and any function of the same
    call that runs after it, at any later time, changes nothing. *)
Theorem C10_callback_runs_at_most_once (hasRequestAnimationFrame : bool) (w : World) :
  reachable hasRequestAnimationFrame w ->
  (forall c, timesExecuted c w <= 1) /\
  (forall callback,
     timeouts (schedule true callback w) = timeouts w ++ [mkTask (nextCall w) callback] /\
     frames (schedule true callback w) = frames w ++ [mkTask (nextCall w) callback] /\
     executeCallback (schedule true callback w) !! nextCall w = Some true) /\
  (forall t,
     executeCallback w !! task_call t = Some true ->
     executed (runTask t w) = executed w ++ [(task_call t, task_callback t)] /\
     executeCallback (runTask t w) !! task_call t = Some false) /\
  (forall t w',
     task_call t ∈ (executed w).*1 ->
     rtc (step hasRequestAnimationFrame) w w' -> runTask t w' = w').
Proof.
  intros Hreach. pose proof (reachable_consistent _ _ Hreach) as Hc.
  split; [|split; [|split]].
  - intros c. unfold timesExecuted.
    by apply (proj1 (NoDup_count_occ Nat.eq_dec _)), NoDup_ListNoDup, Hc.
  - intros callback. simpl. by rewrite lookup_insert_eq.
  - intros t Ht. unfold runTask. rewrite Ht. simpl. by rewrite lookup_insert_eq.
  - intros t w' Hin Hsteps.
    assert (reachable hasRequestAnimationFrame w') as Hreach'
      by (unfold reachable; by etrans).
    assert (task_call t ∈ (executed w').*1) as Hin'.
    { clear Hreach Hc Hreach'. induction Hsteps as [|w1 w2 w3 Hs _ IH]; [done|].
      apply IH. destruct Hs as [callback w0|i w0|i w0].
      - done.
      - unfold fireTimeout. destruct (timeouts w0 !! i) as [t0|]; [|done].
        unfold runTask. simpl. destruct (executeCallback w0 !! task_call t0) as [[|]|];
          simpl; try done. rewrite fmap_app. apply elem_of_app. by left.
      - unfold fireFrame. destruct (frames w0 !! i) as [t0|]; [|done].
        unfold runTask. simpl. destruct (executeCallback w0 !! task_call t0) as [[|]|];
          simpl; try done. rewrite fmap_app. apply elem_of_app. by left. }
    pose proof (reachable_consistent _ _ Hreach') as [Hf _ _].
    unfold runTask. by rewrite (Hf _ Hin').
Qed.

(** Two calls of the scheduling function; the animation frame of the first
    fires, then both timeouts, then the animation frame of the second. *)
Lemma C10_callback_runs_at_most_once_witness :
  executed (fireFrame 0 (fireTimeout 0 (fireTimeout 0 (fireFrame 0
              (schedule true 8 (schedule true 7 initial))))))
    = [(0, 7); (1, 8)] /\
  (forall c,
     timesExecuted c
       (fireFrame 0 (fireTimeout 0 (fireTimeout 0 (fireFrame 0
          (schedule true 8 (schedule true 7 initial))))))
     <= 1).
Proof.
  split; [vm_compute; reflexivity|].
  apply (C10_callback_runs_at_most_once true).
  unfold reachable.
  eapply rtc_l; [apply (step_schedule true 7)|].
  eapply rtc_l; [apply (step_schedule true 8)|].
  eapply rtc_l; [apply (step_frame true 0)|].
  eapply rtc_l; [apply (step_timeout true 0)|].
  eapply rtc_l; [apply (step_timeout true 0)|].
  eapply rtc_l; [apply (step_frame true 0)|].
  apply rtc_refl.
Defined.

End SchedulerFacts.

(** ** The phase as a sequence of writes *)

Module NamingWriteFacts.
Import Text TextFacts Naming NamingSpec NamingWrites NamingFacts NamingCoverage.
Local Open Scope naming_scope.

Section writes.
Variable sanitizeIdentifier : string -> string.
Variable hyphenate : string -> string.
Variable prefixWithNamespace : option string -> Namespace -> string.
Variable jobFnSuffix : string.
Variable jobCompatibility : CompatibilityMode.
Variable compatibility : bool.

Local Abbreviation kindKeeps := (kindKeeps hyphenate compatibility).
Local Abbreviation evolves := (evolves hyphenate jobCompatibility compatibility).
Local Abbreviation legacyHostBinding := (legacyHostBinding jobCompatibility).
Local Abbreviation kindWritten :=
  (kindWritten sanitizeIdentifier hyphenate jobCompatibility compatibility).
Local Abbreviation write :=
  (write sanitizeIdentifier hyphenate jobFnSuffix jobCompatibility compatibility).
Local Abbreviation changes :=
  (changes sanitizeIdentifier hyphenate jobFnSuffix jobCompatibility compatibility).
Local Abbreviation nameOp :=
  (nameOp sanitizeIdentifier hyphenate prefixWithNamespace jobCompatibility).
Local Abbreviation nameOps :=
  (nameOps sanitizeIdentifier hyphenate prefixWithNamespace jobCompatibility).
Local Abbreviation nameUnit :=
  (nameUnit sanitizeIdentifier hyphenate prefixWithNamespace jobFnSuffix jobCompatibility).
Local Abbreviation addNamesToView :=
  (addNamesToView sanitizeIdentifier hyphenate prefixWithNamespace jobFnSuffix
     jobCompatibility).

Lemma kindWritten_keeps (cu : CompilationUnit) (k k' : OpKind) :
  kindWritten cu k k' -> kindKeeps (legacyHostBinding cu) k k'.
Proof.
  intros [n|n|b n hf s tg a ph Hl|n s tg a ph handler n' Hl Hn|n|n Hc]; simpl.
  - eexists. split; [done|intros; discriminate].
  - eexists. split; [done|intros; discriminate].
  - rewrite Hl. eexists _, _. split; [done|]. split; done.
  - rewrite Hl. eexists _, _. split; [done|]. split; done.
  - eexists. split; [done|]. intros Hn Hs. rewrite Hn. destruct compatibility; auto.
  - eexists. split; [done|]. auto.
Qed.

Lemma write_evolves (h h' : Heap) : write h h' -> evolves h h'.
Proof.
  intros [u cu b h0 Hu Hn|u cu i op k h0 Hu Hi Hk|u cu i op vn h0 Hu Hi|v sv h0 Hv Hn].
  - by eapply evolves_setFnName.
  - eapply evolves_setKind; [done..|]. by apply kindWritten_keeps.
  - eapply evolves_replaceOp; [done..|].
    split; [apply kindKeeps_refl|apply resolveExprs_keeps].
  - apply evolves_getVariableName.
Qed.

Lemma changes_evolves (h h' : Heap) : changes h h' -> evolves h h'.
Proof.
  induction 1 as [h|h1 h2 h3 H12 _ IH]; [apply evolves_refl|].
  eapply evolves_trans; [by apply write_evolves|exact IH].
Qed.

Lemma changes_trans (h1 h2 h3 : Heap) : changes h1 h2 -> changes h2 h3 -> changes h1 h3.
Proof. apply rtc_trans. Qed.

Lemma bind_changes {A B} (m : M A) (k : A -> M B) (h : Heap) :
  changes h (m h).2 -> (forall a h', changes h' (k a h').2) ->
  changes h (bind m k h).2.
Proof.
  intros Hm Hk. unfold bind. destruct (m h) as [[a|e|] h']; simpl in *.
  - eapply changes_trans; [exact Hm|apply Hk].
  - exact Hm.
  - exact Hm.
Qed.

Lemma if_changes {A} (b : bool) (m1 m2 : M A) (h : Heap) :
  (b = true -> changes h (m1 h).2) -> (b = false -> changes h (m2 h).2) ->
  changes h ((if b then m1 else m2) h).2.
Proof. destruct b; auto. Qed.

Lemma foldM_changes {A B} (f : B -> A -> M B) (l : list A) (b : B) (h : Heap) :
  (forall b a h', changes h' (f b a h').2) -> changes h (foldM f l b h).2.
Proof.
  intros Hf. revert b h. induction l as [|a l IH]; intros b h; simpl.
  - apply rtc_refl.
  - apply bind_changes; [apply Hf|]. intros b' h'. apply IH.
Qed.

Lemma getVariableName_changes (v : VarRef) (h : Heap) :
  changes h (getVariableName v h).2.
Proof.
  destruct (h_variables h !! v) as [sv|] eqn:Hv.
  - destruct (variable_name sv) as [n|] eqn:Hn.
    + unfold getVariableName. rewrite Hv, Hn. apply rtc_refl.
    + apply rtc_once. by eapply write_variable.
  - unfold getVariableName. rewrite Hv. apply rtc_refl.
Qed.

Lemma setKind_changes {A} (u : XrefId) (i : nat) (op : Op) (k : OpKind) (x : A)
    (h : Heap) (cu : CompilationUnit) :
  h_views h !! u = Some cu -> ops cu !! i = Some op -> kindWritten cu (kind op) k ->
  changes h ((setKind u i op k ;;; ret x) h).2.
Proof.
  intros Hu Hi Hk. rewrite setKind_then_ret_eq. simpl.
  apply rtc_once. by eapply write_kind.
Qed.

Lemma nameOp_changes (recur : XrefId -> string -> bool -> M unit) (u : XrefId)
    (baseName : string) (varNames : gmap XrefId string) (i : nat) (h : Heap) :
  (forall x b h', changes h' (recur x b compatibility h').2) ->
  changes h (nameOp recur u baseName compatibility varNames i h).2.
Proof.
  intros Hrec. unfold Naming.nameOp, bind at 1, getUnit.
  destruct (h_views h !! u) as [cu|] eqn:Hu; [|apply rtc_refl].
  destruct (ops cu !! i) as [op|] eqn:Hi; [|apply rtc_refl].
  destruct (kind op) as [n t|n t|n hf s tg a ph|x v|x s tg ns|n|n|] eqn:Hk.
  - destruct t; [|apply rtc_refl].
    eapply setKind_changes; [done..|]. rewrite Hk. constructor.
  - destruct t; [|apply rtc_refl].
    eapply setKind_changes; [done..|]. rewrite Hk. constructor.
  - fold (legacyHostBinding cu).
    destruct (legacyHostBinding cu) eqn:Hl.
    + eapply setKind_changes; [done..|]. rewrite Hk. by constructor.
    + destruct hf as [f|]; [apply rtc_refl|].
      destruct s as [s|]; [|apply rtc_refl].
      destruct (listenerNames _ _ _ _ _ _ _) as [handler name'] eqn:Hn.
      eapply setKind_changes; [done..|]. rewrite Hk. by constructor.
  - apply bind_changes; [apply getVariableName_changes|].
    intros; apply rtc_refl.
  - destruct (unitKind cu); [|apply rtc_refl].
    destruct s as [s|]; [|apply rtc_refl].
    apply bind_changes; [apply Hrec|]. intros; apply rtc_refl.
  - eapply setKind_changes; [done..|]. rewrite Hk. constructor.
  - apply if_changes; [intros Hc|intros _; apply rtc_refl].
    eapply setKind_changes; [done..|]. rewrite Hk. by constructor.
  - apply rtc_refl.
Qed.

Lemma resolveOp_changes (u : XrefId) (varNames : gmap XrefId string) (x : unit)
    (i : nat) (h : Heap) :
  changes h (resolveOp u varNames x i h).2.
Proof.
  unfold resolveOp, bind at 1, getUnit.
  destruct (h_views h !! u) as [cu|] eqn:Hu; [|apply rtc_refl].
  destruct (ops cu !! i) as [op|] eqn:Hi; [|apply rtc_refl].
  pose proof (write_reads sanitizeIdentifier hyphenate jobFnSuffix jobCompatibility
                compatibility u cu i op varNames h Hu Hi) as Hw.
  destruct (resolveExprs varNames (exprs op)) as [es err]. simpl in Hw.
  destruct err; apply rtc_once; exact Hw.
Qed.

Lemma assignFnName_changes (u : XrefId) (baseName : string) (cu : CompilationUnit)
    (h : Heap) :
  h_views h !! u = Some cu ->
  changes h (assignFnName sanitizeIdentifier jobFnSuffix u baseName cu h).2.
Proof.
  intros Hu. unfold assignFnName. destruct (fnName cu) eqn:Hn; [apply rtc_refl|].
  apply rtc_once. by eapply write_fnName.
Qed.

Lemma nameUnit_changes (recur : XrefId -> string -> bool -> M unit) (u : XrefId)
    (baseName : string) (cu : CompilationUnit) (h : Heap) :
  (forall x b h', changes h' (recur x b compatibility h').2) ->
  h_views h !! u = Some cu ->
  changes h (nameUnit recur u baseName compatibility cu h).2.
Proof.
  intros Hrec Hu. unfold Naming.nameUnit. apply bind_changes.
  - by apply assignFnName_changes.
  - intros _ h'. apply foldM_changes. intros b a h''. by apply nameOp_changes.
Qed.

(** Whatever [addNamesToView] does to the heap, it does by these writes. *)
Lemma addNamesToView_changes (depth : nat) (u : XrefId) (baseName : string)
    (h : Heap) :
  changes h (addNamesToView depth u baseName compatibility h).2.
Proof.
  revert u baseName h. induction depth as [|d IH]; intros u baseName h.
  - apply rtc_refl.
  - simpl. unfold bind at 1, getUnit.
    destruct (h_views h !! u) as [cu|] eqn:Hu; [|apply rtc_refl].
    apply bind_changes.
    + apply nameUnit_changes; [|done]. intros; apply IH.
    + intros varNames h'. apply foldM_changes. intros; apply resolveOp_changes.
Qed.

(** What is left of a loop when it gets to position [j]. *)
Lemma foldM_seq_at {B} (f : B -> nat -> M B) (n : nat) :
  (forall b a h, changes h (f b a h).2) ->
  forall (s : nat) (b : B) (h : Heap) (b' : B) (h' : Heap) (j : nat),
    foldM f (seq s n) b h = (Done b', h') -> s <= j < s + n ->
    exists bj hj bj' hj',
      changes h hj /\ f bj j hj = (Done bj', hj') /\ changes hj' h'.
Proof.
  intros Hf. induction n as [|n IH]; intros s b h b' h' j Hrun Hj; [lia|].
  simpl in Hrun. unfold bind in Hrun.
  destruct (f b s h) as [[b1|e|] h1] eqn:E; try discriminate.
  pose proof (foldM_changes f (seq (S s) n) b1 h1 Hf) as Hrest.
  rewrite Hrun in Hrest. simpl in Hrest.
  destruct (decide (j = s)) as [->|Hne].
  - exists b, h, b1, h1. split; [apply rtc_refl|]. auto.
  - destruct (IH (S s) b1 h1 b' h' j Hrun) as (bj & hj & bj' & hj' & H1 & H2 & H3);
      [lia|].
    exists bj, hj, bj', hj'. split; [|done].
    eapply changes_trans; [|exact H1].
    pose proof (Hf b s h) as H0. by rewrite E in H0.
Qed.

(** A call of [addNamesToView] that returns, taken apart: the function name
    is assigned, the first loop returns a table, and the second loop finds
    every read without a name in the table. *)
Lemma addNamesToView_done (depth : nat) (u : XrefId) (baseName : string)
    (h h' : Heap) :
  addNamesToView (S depth) u baseName compatibility h = (Done tt, h') ->
  exists cu h0 vn h1,
    h_views h !! u = Some cu /\
    assignFnName sanitizeIdentifier jobFnSuffix u baseName cu h = (Done tt, h0) /\
    nameOps (addNamesToView depth) u baseName compatibility (List.length (ops cu)) h0
    = (Done vn, h1) /\
    resolveOps u vn (List.length (ops cu)) h1 = (Done tt, h') /\
    changes h h0 /\ changes h0 h1 /\ changes h1 h' /\
    forall j, j < List.length (ops cu) ->
      exists bj hj bj' hj',
        changes h hj /\
        nameOp (addNamesToView depth) u baseName compatibility bj j hj = (Done bj', hj') /\
        changes hj' h1.
Proof.
  intros Hrun. simpl in Hrun. unfold bind at 1, getUnit in Hrun.
  destruct (h_views h !! u) as [cu|] eqn:Hu; [|done].
  unfold bind in Hrun.
  destruct (nameUnit (addNamesToView depth) u baseName compatibility cu h)
    as [[vn|e|] h1] eqn:E1; try done.
  unfold Naming.nameUnit, bind in E1.
  destruct (assignFnName sanitizeIdentifier jobFnSuffix u baseName cu h)
    as [[[]|e|] h0] eqn:E0; try done.
  assert (changes h h0) as Hc0.
  { pose proof (assignFnName_changes u baseName cu h Hu) as H. by rewrite E0 in H. }
  assert (forall b a h2,
            changes h2 (nameOp (addNamesToView depth) u baseName compatibility b a h2).2)
    as Hstep.
  { intros. apply nameOp_changes. intros. apply addNamesToView_changes. }
  assert (changes h0 h1) as Hc1.
  { pose proof (foldM_changes _ (seq 0 (List.length (ops cu))) ∅ h0 Hstep) as H.
    unfold Naming.nameOps in E1. by rewrite E1 in H. }
  assert (changes h1 h') as Hc2.
  { pose proof (foldM_changes (resolveOp u vn) (seq 0 (List.length (ops cu))) tt h1
                  (resolveOp_changes u vn)) as H.
    unfold resolveOps in Hrun. by rewrite Hrun in H. }
  exists cu, h0, vn, h1. repeat (split; [done|]).
  intros j Hj.
  destruct (foldM_seq_at _ _ Hstep 0 ∅ h0 vn h1 j E1) as (bj & hj & bj' & hj' & ? & ? & ?);
    [lia|].
  exists bj, hj, bj', hj'. split; [by eapply changes_trans|]. done.
Qed.

(** A property of units that writes do not undo, and that a call of
    [addNamesToView] that returns gives to its unit, holds of every unit
    below that unit when the call returns. *)
Lemma addNamesToView_everywhere (Q : Heap -> XrefId -> Prop) :
  (forall h h' u, changes h h' -> Q h u -> Q h' u) ->
  (forall depth u baseName h h',
     addNamesToView (S depth) u baseName compatibility h = (Done tt, h') -> Q h' u) ->
  forall depth u baseName h h',
    addNamesToView depth u baseName compatibility h = (Done tt, h') ->
    forall u', reachable (h_views h) u u' -> Q h' u'.
Proof.
  intros Hmono Hlocal.
  induction depth as [|d IH]; intros u baseName h h' Hrun u' Hreach; [done|].
  apply rtc_inv in Hreach as [<-|(b & Hchild & Hreach)]; [by eapply Hlocal|].
  destruct (addNamesToView_done _ _ _ _ _ Hrun)
    as (cu & h0 & vn & h1 & Hu & _ & _ & _ & _ & _ & Hc2 & Hat).
  destruct Hchild as (c0 & j & o & s & tg & ns & Hc0 & Ho & Hk).
  assert (c0 = cu) by congruence. subst c0.
  destruct (Hat j (lookup_lt_Some _ _ _ Ho)) as (bj & hj & bj' & hj' & Ha & Hb & Hc).
  destruct (evolves_op_forward _ _ _ _ _ _ _ _ _ (changes_evolves _ _ Ha) Hu Ho)
    as (cj & oj & Hcj & Hoj & Hkj).
  rewrite Hk in Hkj. simpl in Hkj.
  destruct (nameOp_template _ _ _ _ _ _ _ _ _ _ _ _ _ _ _ _ _ _ _ Hcj Hoj Hkj Hb)
    as (_ & baseName' & Hrec).
  apply (Hmono hj' h'); [by eapply changes_trans|].
  eapply IH; [exact Hrec|].
  eapply evolves_reachable; [|exact Hreach]. apply changes_evolves, Ha.
Qed.

End writes.
End NamingWriteFacts.

(** ** What the phase leaves behind when it returns *)

Module NamingOutcome.
Import Text TextFacts Naming NamingSpec NamingWrites NamingFacts NamingCoverage
  ReadResolution NamingWriteFacts Examples.
Local Open Scope naming_scope.

Section outcome.
Variable sanitizeIdentifier : string -> string.
Variable hyphenate : string -> string.
Variable prefixWithNamespace : option string -> Namespace -> string.
Variable jobFnSuffix : string.
Variable jobCompatibility : CompatibilityMode.
Variable compatibility : bool.

Local Abbreviation legacyHostBinding := (legacyHostBinding jobCompatibility).
Local Abbreviation kindWritten :=
  (kindWritten sanitizeIdentifier hyphenate jobCompatibility compatibility).
Local Abbreviation write :=
  (write sanitizeIdentifier hyphenate jobFnSuffix jobCompatibility compatibility).
Local Abbreviation changes :=
  (changes sanitizeIdentifier hyphenate jobFnSuffix jobCompatibility compatibility).
Local Abbreviation nameOp :=
  (nameOp sanitizeIdentifier hyphenate prefixWithNamespace jobCompatibility).
Local Abbreviation nameOps :=
  (nameOps sanitizeIdentifier hyphenate prefixWithNamespace jobCompatibility).
Local Abbreviation addNamesToView :=
  (addNamesToView sanitizeIdentifier hyphenate prefixWithNamespace jobFnSuffix
     jobCompatibility).
Local Abbreviation write_evolves :=
  (write_evolves sanitizeIdentifier hyphenate jobFnSuffix jobCompatibility compatibility).
Local Abbreviation changes_evolves :=
  (changes_evolves sanitizeIdentifier hyphenate jobFnSuffix jobCompatibility
     compatibility).
Local Abbreviation changes_trans :=
  (changes_trans sanitizeIdentifier hyphenate jobFnSuffix jobCompatibility compatibility).
Local Abbreviation foldM_seq_at :=
  (foldM_seq_at sanitizeIdentifier hyphenate jobFnSuffix jobCompatibility compatibility).
Local Abbreviation resolveOp_changes :=
  (resolveOp_changes sanitizeIdentifier hyphenate jobFnSuffix jobCompatibility
     compatibility).
Local Abbreviation nameOp_changes :=
  (nameOp_changes sanitizeIdentifier hyphenate prefixWithNamespace jobFnSuffix
     jobCompatibility compatibility).
Local Abbreviation addNamesToView_changes :=
  (addNamesToView_changes sanitizeIdentifier hyphenate prefixWithNamespace jobFnSuffix
     jobCompatibility compatibility).
Local Abbreviation addNamesToView_done :=
  (addNamesToView_done sanitizeIdentifier hyphenate prefixWithNamespace jobFnSuffix
     jobCompatibility compatibility).

(** The operation at position [j] of unit [u] satisfies [P]. *)
Local Abbreviation opAt h u j P :=
  (exists cu o, h_views h !! u = Some cu /\ ops cu !! j = Some o /\ P o).

(** One write, seen from one operation. *)
Lemma write_op (h h' : Heap) (u : XrefId) (cu : CompilationUnit) (j : nat) (o : Op) :
  write h h' -> h_views h !! u = Some cu -> ops cu !! j = Some o ->
  exists cu' o',
    h_views h' !! u = Some cu' /\ ops cu' !! j = Some o' /\
    unitKind cu' = unitKind cu /\
    (fnName cu' = fnName cu \/ fnName cu = None /\ is_Some (fnName cu')) /\
    (o' = o \/
     (exists k, kindWritten cu (kind o) k /\ o' = mkOp k (exprs o)) \/
     (exists vn, o' = mkOp (kind o) (resolveExprs vn (exprs o)).1)).
Proof.
  intros [u0 c0 b h0 Hu0 Hn|u0 c0 i op k h0 Hu0 Hi Hk|u0 c0 i op vn h0 Hu0 Hi
         |v sv h0 Hv Hn] Hu Hj.
  - simpl. destruct (decide (u0 = u)) as [->|Hne].
    + rewrite lookup_alter_eq, Hu. simpl. eexists _, o. repeat split; eauto.
      right. split; [congruence|eauto].
    + rewrite lookup_alter_ne by done. exists cu, o. eauto 10.
  - simpl. destruct (decide (u0 = u)) as [->|Hne].
    + rewrite lookup_alter_eq, Hu. simpl.
      assert (c0 = cu) by congruence. subst c0.
      destruct (decide (i = j)) as [->|Hij].
      * assert (op = o) by congruence. subst op.
        eexists _, _. split; [done|]. simpl.
        split; [apply list_lookup_insert_eq; by eapply lookup_lt_Some|].
        split; [done|]. split; [by left|]. right; left. eauto.
      * eexists _, o. split; [done|]. simpl.
        split; [by rewrite list_lookup_insert_ne|]. eauto 10.
    + rewrite lookup_alter_ne by done. exists cu, o. eauto 10.
  - simpl. destruct (decide (u0 = u)) as [->|Hne].
    + rewrite lookup_alter_eq, Hu. simpl.
      assert (c0 = cu) by congruence. subst c0.
      destruct (decide (i = j)) as [->|Hij].
      * assert (op = o) by congruence. subst op.
        eexists _, _. split; [done|]. simpl.
        split; [apply list_lookup_insert_eq; by eapply lookup_lt_Some|].
        split; [done|]. split; [by left|]. right; right. eauto.
      * eexists _, o. split; [done|]. simpl.
        split; [by rewrite list_lookup_insert_ne|]. eauto 10.
    + rewrite lookup_alter_ne by done. exists cu, o. eauto 10.
  - unfold getVariableName. rewrite Hv, Hn. simpl. exists cu, o. eauto 10.
Qed.

(** One write, seen from one unit. *)
Lemma write_unit (h h' : Heap) (u : XrefId) (cu : CompilationUnit) :
  write h h' -> h_views h !! u = Some cu ->
  exists cu',
    h_views h' !! u = Some cu' /\ unitKind cu' = unitKind cu /\
    List.length (ops cu') = List.length (ops cu) /\
    (fnName cu' = fnName cu \/ fnName cu = None /\ is_Some (fnName cu')).
Proof.
  intros Hw Hu.
  pose proof (write_evolves _ _ Hw) as [_ Hv _ _].
  specialize (Hv u). rewrite Hu in Hv.
  inversion Hv as [? cu' (Hk & Hf & Hops) Ea Eb|]; subst.
  exists cu'. split; [done|]. split; [done|].
  split; [symmetry; by eapply Forall2_length|].
  destruct (fnName cu) as [n|] eqn:E.
  - left. by apply Hf.
  - destruct (fnName cu') eqn:E'; [right; eauto|by left].
Qed.

Lemma kindWritten_listenerNamed (cu : CompilationUnit) (k k' : OpKind) (es : list Expr) :
  kindWritten cu k k' -> listenerNamed (mkOp k' es) = true.
Proof. by intros []. Qed.

Lemma resolveExprs_readNamed (vn : gmap XrefId string) (es : list Expr) :
  forallb readNamed es = true -> forallb readNamed (resolveExprs vn es).1 = true.
Proof.
  induction es as [|e es IH]; [done|]. simpl.
  intros [He Hes]%andb_prop. specialize (IH Hes).
  destruct e as [x [n|]|]; try done.
  - destruct (resolveExprs vn es) as [r err]. simpl in *. exact IH.
  - destruct (resolveExprs vn es) as [r err]. simpl in *. exact IH.
Qed.

Lemma resolveExprs_all (vn : gmap XrefId string) (es es' : list Expr) :
  resolveExprs vn es = (es', None) -> forallb readNamed es' = true.
Proof.
  revert es'. induction es as [|e es IH]; intros es'; simpl.
  - by intros [= <-].
  - destruct e as [x [n|]|].
    + destruct (resolveExprs vn es) as [r err]. intros [= <- ->]. simpl. by apply IH.
    + destruct (vn !! x) as [n|]; [|done].
      destruct (resolveExprs vn es) as [r err]. intros [= <- ->]. simpl. by apply IH.
    + destruct (resolveExprs vn es) as [r err]. intros [= <- ->]. simpl. by apply IH.
Qed.

Lemma write_listenerNamed (h h' : Heap) (u : XrefId) (j : nat) :
  write h h' -> opAt h u j (fun o => listenerNamed o = true) ->
  opAt h' u j (fun o => listenerNamed o = true).
Proof.
  intros Hw (cu & o & Hu & Hj & Ho).
  destruct (write_op _ _ _ _ _ _ Hw Hu Hj)
    as (cu' & o' & Hu' & Hj' & _ & _ & [->|[(k & Hk & ->)|[vn ->]]]);
    (eexists cu', _; split; [done|]; split; [done|]); try done.
  by eapply kindWritten_listenerNamed.
Qed.

Lemma write_readsNamed (h h' : Heap) (u : XrefId) (j : nat) :
  write h h' -> opAt h u j (fun o => forallb readNamed (exprs o) = true) ->
  opAt h' u j (fun o => forallb readNamed (exprs o) = true).
Proof.
  intros Hw (cu & o & Hu & Hj & Ho).
  destruct (write_op _ _ _ _ _ _ Hw Hu Hj)
    as (cu' & o' & Hu' & Hj' & _ & _ & [->|[(k & Hk & ->)|[vn ->]]]);
    (eexists cu', _; split; [done|]; split; [done|]); try done.
  simpl. by apply resolveExprs_readNamed.
Qed.

Lemma changes_opAt (P : Op -> Prop) (u : XrefId) (j : nat) :
  (forall h h', write h h' -> opAt h u j P -> opAt h' u j P) ->
  forall h h', changes h h' -> opAt h u j P -> opAt h' u j P.
Proof. intros Hw h h'. induction 1; eauto. Qed.

Lemma changes_unit (h h' : Heap) (u : XrefId) (cu : CompilationUnit) :
  changes h h' -> h_views h !! u = Some cu ->
  exists cu',
    h_views h' !! u = Some cu' /\ unitKind cu' = unitKind cu /\
    List.length (ops cu') = List.length (ops cu) /\
    (is_Some (fnName cu) -> fnName cu' = fnName cu).
Proof.
  intros Hc. revert cu. induction Hc as [h|h1 h2 h3 Hw _ IH]; intros cu Hu.
  - exists cu. auto.
  - destruct (write_unit _ _ _ _ Hw Hu) as (c2 & Hu2 & Hk2 & Hl2 & Hf2).
    destruct (IH c2 Hu2) as (c3 & Hu3 & Hk3 & Hl3 & Hf3).
    exists c3. split; [done|]. split; [congruence|]. split; [congruence|].
    intros Hs. destruct Hf2 as [Hf2|[Hf2 _]].
    + rewrite Hf3; [done|]. by rewrite Hf2.
    + rewrite Hf2 in Hs. by destruct Hs.
Qed.

Lemma changes_unitSettled (h h' : Heap) (u : XrefId) :
  changes h h' -> unitSettled (h_views h) u -> unitSettled (h_views h') u.
Proof.
  intros Hc (cu & Hu & Hfn & Hops).
  destruct (changes_unit _ _ _ _ Hc Hu) as (cu' & Hu' & _ & Hlen & Hf).
  exists cu'. split; [done|]. split; [by rewrite (Hf Hfn)|].
  intros j o' Hj'.
  assert (j < List.length (ops cu)) as Hlt
    by (rewrite <- Hlen; by eapply lookup_lt_Some).
  destruct (lookup_lt_is_Some_2 _ _ Hlt) as [o Hj].
  destruct (Hops j o Hj) as [Hl Hr]. split.
  - destruct (changes_opAt (fun o => listenerNamed o = true) u j
                (fun h1 h2 => write_listenerNamed h1 h2 u j) h h' Hc)
      as (c & o2 & Hc2 & Ho2 & H); [by exists cu, o|].
    congruence.
  - destruct (changes_opAt (fun o => forallb readNamed (exprs o) = true) u j
                (fun h1 h2 => write_readsNamed h1 h2 u j) h h' Hc)
      as (c & o2 & Hc2 & Ho2 & H); [by exists cu, o|].
    congruence.
Qed.

(** A step of the first loop that returns leaves a handler name in the
    listener it was at. *)
Lemma nameOp_listenerNamed (depth : nat) (u : XrefId) (baseName : string)
    (vn vn' : gmap XrefId string) (j : nat) (h h' : Heap) (cu : CompilationUnit)
    (o : Op) :
  h_views h !! u = Some cu -> ops cu !! j = Some o ->
  nameOp (addNamesToView depth) u baseName compatibility vn j h = (Done vn', h') ->
  opAt h' u j (fun o => listenerNamed o = true).
Proof.
  intros Hu Hj Hrun.
  pose proof (nameOp_changes (addNamesToView depth) u baseName vn j h
                (fun x b h0 => addNamesToView_changes depth x b h0)) as Hc.
  rewrite Hrun in Hc. simpl in Hc.
  destruct (listenerNamed o) eqn:Hl.
  - apply (changes_opAt _ u j (fun h1 h2 => write_listenerNamed h1 h2 u j) h h' Hc).
    by exists cu, o.
  - unfold listenerNamed in Hl.
    destruct (kind o) as [| |n [f|] s tg a ph| | | | |] eqn:Hk; try done.
    unfold Naming.nameOp, bind at 1, getUnit in Hrun. rewrite Hu, Hj, Hk in Hrun.
    destruct (isTemplateDefinitionBuilder jobCompatibility && isHostBinding (unitKind cu)).
    + rewrite setKind_then_ret_eq in Hrun. injection Hrun as <- <-.
      eexists _, _. split; [by apply replaceOp_lookup|]. simpl.
      split; [apply list_lookup_insert_eq; by eapply lookup_lt_Some|done].
    + destruct s as [s|]; [|done].
      destruct (listenerNames _ _ _ _ _ _ _) as [handler name'].
      rewrite setKind_then_ret_eq in Hrun. injection Hrun as <- <-.
      eexists _, _. split; [by apply replaceOp_lookup|]. simpl.
      split; [apply list_lookup_insert_eq; by eapply lookup_lt_Some|done].
Qed.

(** A step of the second loop that returns leaves no read without a name in
    the operation it was at. *)
Lemma resolveOp_readsNamed (u : XrefId) (vn : gmap XrefId string) (j : nat)
    (h h' : Heap) (cu : CompilationUnit) (o : Op) :
  h_views h !! u = Some cu -> ops cu !! j = Some o ->
  resolveOp u vn tt j h = (Done tt, h') ->
  opAt h' u j (fun o => forallb readNamed (exprs o) = true).
Proof.
  intros Hu Hj. unfold resolveOp, bind at 1, getUnit. rewrite Hu, Hj.
  destruct (resolveExprs vn (exprs o)) as [es [e|]] eqn:E; [done|].
  intros [= <-].
  eexists _, _. split; [by apply replaceOp_lookup|]. simpl.
  split; [apply list_lookup_insert_eq; by eapply lookup_lt_Some|].
  simpl. by eapply resolveExprs_all.
Qed.

Lemma assignFnName_named (u : XrefId) (baseName : string) (cu : CompilationUnit)
    (h h0 : Heap) :
  h_views h !! u = Some cu ->
  assignFnName sanitizeIdentifier jobFnSuffix u baseName cu h = (Done tt, h0) ->
  exists cu0,
    h_views h0 !! u = Some cu0 /\
    fnName cu0 = Some (match fnName cu with
                       | Some n => n
                       | None => sanitizeIdentifier (baseName +:+ "_" +:+ jobFnSuffix)
                       end).
Proof.
  intros Hu. unfold assignFnName. destruct (fnName cu) as [n|] eqn:E.
  - intros [= <-]. eauto.
  - intros [= <-]. simpl. rewrite lookup_alter_eq, Hu. simpl. eauto.
Qed.

(** A call of [addNamesToView] that returns has settled its unit. *)
Lemma addNamesToView_settles (depth : nat) (u : XrefId) (baseName : string)
    (h h' : Heap) :
  addNamesToView (S depth) u baseName compatibility h = (Done tt, h') ->
  unitSettled (h_views h') u.
Proof.
  intros Hrun.
  destruct (addNamesToView_done _ _ _ _ _ Hrun)
    as (cu & h0 & vn & h1 & Hu & E0 & E1 & E2 & Hc0 & Hc1 & Hc2 & Hat).
  destruct (assignFnName_named _ _ _ _ _ Hu E0) as (cu0 & Hu0 & Hf0).
  assert (changes h0 h') as Hc0' by (eapply changes_trans; eauto).
  destruct (changes_unit _ _ _ _ Hc0' Hu0) as (cu' & Hu' & _ & Hlen' & Hf').
  destruct (changes_unit _ _ _ _ Hc0 Hu) as (cu0' & Hu0' & _ & Hlen0 & _).
  assert (cu0' = cu0) by congruence. subst cu0'.
  exists cu'. split; [done|]. split; [rewrite Hf'; by rewrite Hf0|].
  intros j o' Hj'.
  assert (j < List.length (ops cu)) as Hlt
    by (rewrite <- Hlen0, <- Hlen'; by eapply lookup_lt_Some).
  split.
  - destruct (Hat j Hlt) as (bj & hj & bj' & hj' & Ha & Hb & Hc).
    destruct (changes_unit _ _ _ _ Ha Hu) as (cj & Huj & _ & Hlenj & _).
    destruct (lookup_lt_is_Some_2 (ops cj) j) as [oj Hoj]; [by rewrite Hlenj|].
    pose proof (nameOp_listenerNamed _ _ _ _ _ _ _ _ _ _ Huj Hoj Hb) as Hl.
    destruct (changes_opAt _ u j (fun h1 h2 => write_listenerNamed h1 h2 u j) hj' h')
      as (c & o2 & Hc2' & Ho2 & H); [by eapply changes_trans|done|].
    congruence.
  - destruct (foldM_seq_at (resolveOp u vn) (List.length (ops cu))
                (resolveOp_changes u vn) 0 tt h1 tt h' j E2)
      as ([] & hj & [] & hj' & Ha & Hb & Hc); [lia|].
    assert (changes h hj) as Hhj
      by (eapply changes_trans; [exact Hc0|]; eapply changes_trans; [exact Hc1|exact Ha]).
    destruct (changes_unit _ _ _ _ Hhj Hu) as (cj & Huj & _ & Hlenj & _).
    destruct (lookup_lt_is_Some_2 (ops cj) j) as [oj Hoj]; [by rewrite Hlenj|].
    pose proof (resolveOp_readsNamed _ _ _ _ _ _ _ Huj Hoj Hb) as Hl.
    destruct (changes_opAt _ u j (fun h1 h2 => write_readsNamed h1 h2 u j) hj' h' Hc Hl)
      as (c & o2 & Hc2' & Ho2 & H).
    congruence.
Qed.

End outcome.
End NamingOutcome.

(** ** Guarantees of a run of the naming phase *)

Module NamingGuarantees.
Import Text TextFacts Naming NamingSpec NamingWrites NamingFacts NamingCoverage
  ReadResolution NamingWriteFacts NamingOutcome Examples.
Local Open Scope naming_scope.

Section guarantees.
Variable sanitizeIdentifier : string -> string.
Variable hyphenate : string -> string.
Variable prefixWithNamespace : option string -> Namespace -> string.

Local Abbreviation phaseNaming :=
  (phaseNaming sanitizeIdentifier hyphenate prefixWithNamespace).

(** [phaseNaming] is [addNamesToView] on the root, from a counter at 0. *)
Lemma phaseNaming_run (depth : nat) (cpl : CompilationJob) :
  exists h',
    addNamesToView sanitizeIdentifier hyphenate prefixWithNamespace (fnSuffix cpl)
      (compatibility cpl) depth (root cpl) (componentName cpl)
      (isTemplateDefinitionBuilder (compatibility cpl))
      (mkHeap (views cpl) (variables cpl) 0)
    = ((phaseNaming depth cpl).1, h') /\
    views (phaseNaming depth cpl).2 = h_views h' /\
    variables (phaseNaming depth cpl).2 = h_variables h'.
Proof.
  unfold Naming.phaseNaming.
  destruct (addNamesToView _ _ _ _ _ _ _ _ _ _) as [r h']. exists h'. auto.
Qed.

(** X1.  When [phaseNaming] returns, every unit reachable from the root
    through [Template] operations has a function name, every listener in it
    has a handler name, and every read in it has a name. *)
Theorem phaseNaming_settles_reachable_units (depth : nat) (cpl : CompilationJob) :
  (phaseNaming depth cpl).1 = Done tt ->
  forall u, reachable (views cpl) (root cpl) u ->
    unitSettled (views (phaseNaming depth cpl).2) u.
Proof.
  intros Hdone u Hreach.
  destruct (phaseNaming_run depth cpl) as (h' & Hrun & -> & _).
  rewrite Hdone in Hrun.
  apply (addNamesToView_everywhere sanitizeIdentifier hyphenate prefixWithNamespace
           (fnSuffix cpl) (compatibility cpl)
           (isTemplateDefinitionBuilder (compatibility cpl))
           (fun h u => unitSettled (h_views h) u)
           (changes_unitSettled _ _ _ _ _)
           (addNamesToView_settles _ _ _ _ _ _)
           depth (root cpl) (componentName cpl) _ h' Hrun u Hreach).
Qed.

End guarantees.

Lemma nestedJob_reaches_2 : reachable (views nestedJob) (root nestedJob) 2.
Proof.
  apply rtc_once.
  exists (mkUnit ViewCompilationUnit None
            [ mkOp (Template 1 (Some 0) (Some "div") HTML) [];
              mkOp (Template 2 (Some 1) (Some "span") HTML) [];
              mkOp (VariableOp 30 2) [];
              mkOp OtherOp [ReadVariableExpr 30 None] ]),
    1, (mkOp (Template 2 (Some 1) (Some "span") HTML) []), (Some 1), (Some "span"), HTML.
  repeat split.
Qed.

Lemma phaseNaming_settles_reachable_units_witness :
  unitSettled (views (Helpers.phaseNaming 3 nestedJob).2) 2.
Proof.
  apply (phaseNaming_settles_reachable_units Helpers.sanitizeIdentifier
           Helpers.hyphenate Helpers.prefixWithNamespace 3 nestedJob).
  - vm_compute. reflexivity.
  - exact nestedJob_reaches_2.
Defined.

End NamingGuarantees.

(** ** What a job must be like for the phase to return *)

Module NamingRequirements.
Import Text TextFacts Naming NamingSpec NamingWrites NamingConditions NamingFacts
  NamingCoverage NamingTermination ReadResolution NamingWriteFacts NamingOutcome Examples.
Local Open Scope naming_scope.

Section requirements.
Variable sanitizeIdentifier : string -> string.
Variable hyphenate : string -> string.
Variable prefixWithNamespace : option string -> Namespace -> string.
Variable jobFnSuffix : string.
Variable jobCompatibility : CompatibilityMode.
Variable compatibility : bool.

Local Abbreviation kindKeeps := (kindKeeps hyphenate compatibility).
Local Abbreviation evolves := (evolves hyphenate jobCompatibility compatibility).
Local Abbreviation legacyHostBinding := (legacyHostBinding jobCompatibility).
Local Abbreviation kindWritten :=
  (kindWritten sanitizeIdentifier hyphenate jobCompatibility compatibility).
Local Abbreviation write :=
  (write sanitizeIdentifier hyphenate jobFnSuffix jobCompatibility compatibility).
Local Abbreviation changes :=
  (changes sanitizeIdentifier hyphenate jobFnSuffix jobCompatibility compatibility).
Local Abbreviation nameOp :=
  (nameOp sanitizeIdentifier hyphenate prefixWithNamespace jobCompatibility).
Local Abbreviation addNamesToView :=
  (addNamesToView sanitizeIdentifier hyphenate prefixWithNamespace jobFnSuffix
     jobCompatibility).
Local Abbreviation changes_evolves :=
  (changes_evolves sanitizeIdentifier hyphenate jobFnSuffix jobCompatibility
     compatibility).
Local Abbreviation changes_trans :=
  (changes_trans sanitizeIdentifier hyphenate jobFnSuffix jobCompatibility compatibility).
Local Abbreviation nameOp_changes :=
  (nameOp_changes sanitizeIdentifier hyphenate prefixWithNamespace jobFnSuffix
     jobCompatibility compatibility).
Local Abbreviation addNamesToView_changes :=
  (addNamesToView_changes sanitizeIdentifier hyphenate prefixWithNamespace jobFnSuffix
     jobCompatibility compatibility).
Local Abbreviation addNamesToView_done :=
  (addNamesToView_done sanitizeIdentifier hyphenate prefixWithNamespace jobFnSuffix
     jobCompatibility compatibility).
Local Abbreviation forward :=
  (evolves_op_forward hyphenate jobCompatibility compatibility).
Local Abbreviation backward :=
  (evolves_op_backward hyphenate jobCompatibility compatibility).
Local Abbreviation changes_unit :=
  (changes_unit sanitizeIdentifier hyphenate jobFnSuffix jobCompatibility compatibility).
Local Abbreviation write_op :=
  (write_op sanitizeIdentifier hyphenate jobFnSuffix jobCompatibility compatibility).

(** The [Template] operations of [u] have what the first loop asks of
    them. *)
Local Abbreviation templatesReady h u :=
  (exists cu,
     h_views h !! u = Some cu /\
     forall j o x s tg ns,
       ops cu !! j = Some o -> kind o = Template x s tg ns ->
       unitKind cu = ViewCompilationUnit /\ is_Some s /\ is_Some (h_views h !! x)).

Lemma evolves_unit (h h' : Heap) (u : XrefId) :
  evolves h h' ->
  option_Forall2 (fun cu cu' => unitKind cu' = unitKind cu)
    (h_views h !! u) (h_views h' !! u).
Proof.
  intros [_ Hu _ _]. specialize (Hu u).
  destruct Hu as [cu cu' (Hk & _)|]; by constructor.
Qed.

Lemma evolves_present (h h' : Heap) (u : XrefId) :
  evolves h h' -> is_Some (h_views h !! u) <-> is_Some (h_views h' !! u).
Proof.
  intros Hev. pose proof (evolves_unit h h' u Hev) as H.
  inversion H; split; intros [? ?]; eauto; congruence.
Qed.

Lemma kindKeeps_Template_l (lh : bool) (k : OpKind) (x : XrefId) (s : option nat)
    (tg : option string) (ns : Namespace) :
  kindKeeps lh (Template x s tg ns) k -> k = Template x s tg ns.
Proof. done. Qed.

Lemma evolves_templatesReady (h h' : Heap) (u : XrefId) :
  evolves h h' -> templatesReady h u <-> templatesReady h' u.
Proof.
  intros Hev. pose proof (evolves_unit h h' u Hev) as Hu. split.
  - intros (cu & Hcu & Hops). rewrite Hcu in Hu.
    inversion Hu as [? cu' Hk Ea Eb|]; subst. symmetry in Eb.
    exists cu'. split; [done|]. intros j o' x s tg ns Hj' Hk'.
    destruct (backward _ _ _ _ _ _ Hev Eb Hj') as (c0 & o & Hc0 & Hj & Hkk).
    assert (c0 = cu) by congruence. subst c0.
    rewrite Hk' in Hkk. apply kindKeeps_Template_r in Hkk.
    destruct (Hops j o x s tg ns Hj Hkk) as (? & ? & ?).
    split; [congruence|]. split; [done|]. by apply (evolves_present h h' x Hev).
  - intros (cu' & Hcu' & Hops). rewrite Hcu' in Hu.
    inversion Hu as [cu ? Hk Ea Eb|]; subst. symmetry in Ea.
    exists cu. split; [done|]. intros j o x s tg ns Hj Hko.
    destruct (forward _ _ _ _ _ _ Hev Ea Hj) as (c0 & o' & Hc0 & Hj' & Hkk).
    assert (c0 = cu') by congruence. subst c0.
    rewrite Hko in Hkk. simpl in Hkk.
    destruct (Hops j o' x s tg ns Hj' Hkk) as (? & ? & ?).
    split; [congruence|]. split; [done|]. by apply (evolves_present h h' x Hev).
Qed.

(** A step of the first loop that returns at a [Template] operation has
    found a view, a slot and the child view. *)
Lemma nameOp_template_ready (depth : nat) (u : XrefId) (baseName : string)
    (vn vn' : gmap XrefId string) (j : nat) (h h' : Heap) (cu : CompilationUnit)
    (o : Op) (x : XrefId) (s : option nat) (tg : option string) (ns : Namespace) :
  h_views h !! u = Some cu -> ops cu !! j = Some o -> kind o = Template x s tg ns ->
  nameOp (addNamesToView depth) u baseName compatibility vn j h = (Done vn', h') ->
  unitKind cu = ViewCompilationUnit /\ is_Some s /\ is_Some (h_views h !! x).
Proof.
  intros Hu Hj Hk. unfold Naming.nameOp, bind at 1, getUnit. rewrite Hu, Hj, Hk.
  destruct (unitKind cu); [|done]. destruct s as [s|]; [|done].
  unfold bind.
  destruct (addNamesToView depth x _ compatibility h) as [[[]|e|] h1] eqn:E; try done.
  intros _. split; [done|]. split; [eauto|].
  destruct depth as [|d]; [done|]. simpl in E. unfold bind at 1, getUnit in E.
  destruct (h_views h !! x); [eauto|done].
Qed.

Lemma addNamesToView_templatesReady (depth : nat) (u : XrefId) (baseName : string)
    (h h' : Heap) :
  addNamesToView (S depth) u baseName compatibility h = (Done tt, h') ->
  templatesReady h' u.
Proof.
  intros Hrun.
  destruct (addNamesToView_done _ _ _ _ _ Hrun)
    as (cu & h0 & vn & h1 & Hu & E0 & E1 & E2 & Hc0 & Hc1 & Hc2 & Hat).
  assert (changes h h') as Hc
    by (eapply changes_trans; [exact Hc0|]; eapply changes_trans; eauto).
  destruct (changes_unit _ _ _ _ Hc Hu) as (cu' & Hu' & Hk' & Hlen' & _).
  exists cu'. split; [done|]. intros j o' x s tg ns Hj' Hko'.
  assert (j < List.length (ops cu)) as Hlt
    by (rewrite <- Hlen'; by eapply lookup_lt_Some).
  destruct (Hat j Hlt) as (bj & hj & bj' & hj' & Ha & Hb & Hc').
  assert (changes hj h') as Hjh.
  { eapply changes_trans; [|eapply changes_trans; [exact Hc'|exact Hc2]].
    pose proof (nameOp_changes (addNamesToView depth) u baseName bj j hj
                  (fun x b h0 => addNamesToView_changes depth x b h0)) as H.
    by rewrite Hb in H. }
  destruct (backward _ _ _ _ _ _ (changes_evolves _ _ Hjh) Hu' Hj')
    as (cj & oj & Hcj & Hoj & Hkk).
  rewrite Hko' in Hkk. apply kindKeeps_Template_r in Hkk.
  destruct (nameOp_template_ready _ _ _ _ _ _ _ _ _ _ _ _ _ _ Hcj Hoj Hkk Hb)
    as (Hv & Hs & Hx).
  destruct (changes_unit _ _ _ _ Hjh Hcj) as (c2 & Hc2' & Hk2 & _).
  assert (c2 = cu') by congruence. subst c2.
  split; [congruence|]. split; [done|].
  by apply (evolves_present hj h' x (changes_evolves _ _ Hjh)).
Qed.

(** A listener outside the legacy host-binding case gets a handler name
    only when it has a slot. *)
Local Abbreviation slotBeforeHandler s o :=
  (exists n hf tg a ph,
     kind o = Listener n hf s tg a ph /\ (hf = None \/ is_Some s)).

Lemma write_slotBeforeHandler (h h' : Heap) (u : XrefId) (j : nat) (s : option nat)
    (cu : CompilationUnit) (o : Op) :
  write h h' -> h_views h !! u = Some cu -> ops cu !! j = Some o ->
  legacyHostBinding cu = false -> slotBeforeHandler s o ->
  exists cu' o',
    h_views h' !! u = Some cu' /\ ops cu' !! j = Some o' /\
    legacyHostBinding cu' = false /\ slotBeforeHandler s o'.
Proof.
  intros Hw Hu Hj Hl (n & hf & tg & a & ph & Hk & Hs).
  destruct (write_op _ _ _ _ _ _ Hw Hu Hj)
    as (cu' & o' & Hu' & Hj' & Hkind & _ & Ho').
  exists cu', o'. split; [done|]. split; [done|].
  split; [unfold NamingSpec.legacyHostBinding in *; by rewrite Hkind|].
  destruct Ho' as [->|[(k & Hw' & ->)|[vn ->]]].
  - eauto 10.
  - rewrite Hk in Hw'. simpl. inversion Hw'; subst.
    + congruence.
    + eexists _, _, _, _, _. split; [done|]. right. eauto.
  - simpl. eauto 10.
Qed.

Lemma changes_slotBeforeHandler (h h' : Heap) (u : XrefId) (j : nat) (s : option nat) :
  changes h h' ->
  forall cu o,
    h_views h !! u = Some cu -> ops cu !! j = Some o ->
    legacyHostBinding cu = false -> slotBeforeHandler s o ->
    exists cu' o',
      h_views h' !! u = Some cu' /\ ops cu' !! j = Some o' /\ slotBeforeHandler s o'.
Proof.
  induction 1 as [h|h1 h2 h3 Hw _ IH]; intros cu o Hu Hj Hl Hs; [eauto|].
  destruct (write_slotBeforeHandler _ _ _ _ _ _ _ Hw Hu Hj Hl Hs)
    as (c2 & o2 & ? & ? & ? & ?).
  eauto.
Qed.

(** The units reachable in the heap a call of [addNamesToView] starts from
    have, when the call returns, what the phase asks of a job. *)
Lemma addNamesToView_ready (depth : nat) (u : XrefId) (baseName : string)
    (h h' : Heap) :
  addNamesToView depth u baseName compatibility h = (Done tt, h') ->
  forall u', reachable (h_views h) u u' -> readyForNaming jobCompatibility (h_views h) u'.
Proof.
  intros Hrun u' Hreach.
  pose proof (addNamesToView_changes depth u baseName h) as Hc.
  rewrite Hrun in Hc. simpl in Hc.
  pose proof (changes_evolves _ _ Hc) as Hev.
  assert (templatesReady h' u') as Ht.
  { apply (addNamesToView_everywhere sanitizeIdentifier hyphenate prefixWithNamespace
             jobFnSuffix jobCompatibility compatibility
             (fun h u => templatesReady h u)
             (fun h1 h2 u0 H12 =>
                proj1 (evolves_templatesReady h1 h2 u0 (changes_evolves _ _ H12)))
             addNamesToView_templatesReady
             depth u baseName h h' Hrun u' Hreach). }
  apply (evolves_templatesReady h h' u' Hev) in Ht as (cu & Hcu & Hops).
  exists cu. split; [done|]. split; [done|].
  intros Hl j o n s tg a ph Hj Hk.
  destruct (changes_slotBeforeHandler h h' u' j s Hc cu o Hcu Hj Hl)
    as (cu' & o' & Hcu' & Hj' & (n' & hf' & tg' & a' & ph' & Hk' & Hs)).
  { eexists _, _, _, _, _. split; [done|]. by left. }
  pose proof (addNamesToView_everywhere sanitizeIdentifier hyphenate prefixWithNamespace
                jobFnSuffix jobCompatibility compatibility
                (fun h u => unitSettled (h_views h) u)
                (changes_unitSettled _ _ _ _ _)
                (addNamesToView_settles _ _ _ _ _ _)
                depth u baseName h h' Hrun u' Hreach) as (c2 & Hc2 & _ & Hset).
  assert (c2 = cu') by congruence. subst c2.
  destruct (Hset j o' Hj') as [Hln _].
  unfold listenerNamed in Hln. rewrite Hk' in Hln.
  destruct Hs as [->|Hs]; [done|exact Hs].
Qed.

End requirements.

Section theorems.
Variable sanitizeIdentifier : string -> string.
Variable hyphenate : string -> string.
Variable prefixWithNamespace : option string -> Namespace -> string.

Local Abbreviation phaseNaming :=
  (phaseNaming sanitizeIdentifier hyphenate prefixWithNamespace).

(** X2.  [phaseNaming] returns only on a job in which, in every unit
    reachable from the root, each [Template] operation has a slot, points at
    a unit of the job and sits in a view, and, outside the legacy
    host-binding case, each listener without a handler name has a slot.  In
    all other jobs it throws or does not end. *)
Theorem phaseNaming_returns_only_on_ready_jobs (depth : nat) (cpl : CompilationJob) :
  (phaseNaming depth cpl).1 = Done tt ->
  forall u, reachable (views cpl) (root cpl) u ->
    readyForNaming (compatibility cpl) (views cpl) u.
Proof.
  intros Hdone u Hreach.
  destruct (NamingGuarantees.phaseNaming_run sanitizeIdentifier hyphenate
              prefixWithNamespace depth cpl) as (h' & Hrun & _ & _).
  rewrite Hdone in Hrun.
  apply (addNamesToView_ready _ _ _ _ _ _ _ _ _ _ _ Hrun u Hreach).
Qed.

End theorems.

Lemma phaseNaming_returns_only_on_ready_jobs_witness :
  readyForNaming Normal (views nestedJob) 0.
Proof.
  apply (phaseNaming_returns_only_on_ready_jobs Helpers.sanitizeIdentifier
           Helpers.hyphenate Helpers.prefixWithNamespace 3 nestedJob).
  - vm_compute. reflexivity.
  - apply rtc_refl.
Defined.

End NamingRequirements.

(** ** The phase assigns names and nothing else *)

Module NamingFrame.
Import Text TextFacts Naming NamingSpec NamingWrites NamingFacts NamingRuns Examples.
Local Open Scope naming_scope.

Section frame.
Variable sanitizeIdentifier : string -> string.
Variable hyphenate : string -> string.
Variable prefixWithNamespace : option string -> Namespace -> string.

Local Abbreviation phaseNaming :=
  (phaseNaming sanitizeIdentifier hyphenate prefixWithNamespace).

Lemma exprKeeps_skeleton (e e' : Expr) :
  exprKeeps e e' -> exprSkeleton e' = exprSkeleton e.
Proof.
  destruct e as [x [n|]|]; simpl.
  - by intros ->.
  - by intros [n' ->].
  - by intros ->.
Qed.

Lemma kindKeeps_skeleton (compatibility lh : bool) (k k' : OpKind) :
  kindKeeps hyphenate compatibility lh k k' -> kindSkeleton k' = kindSkeleton k.
Proof.
  destruct k; simpl.
  - by intros (? & -> & _).
  - by intros (? & -> & _).
  - by intros (? & ? & -> & _).
  - by intros ->.
  - by intros ->.
  - by intros (? & -> & _).
  - by intros (? & -> & _).
  - by intros ->.
Qed.

Lemma unitKeeps_skeleton (c : CompatibilityMode) (compatibility : bool)
    (cu cu' : CompilationUnit) :
  unitKeeps hyphenate c compatibility cu cu' -> unitSkeleton cu' = unitSkeleton cu.
Proof.
  intros (Hk & _ & Hops). unfold unitSkeleton. rewrite Hk. f_equal.
  induction Hops as [|o o' os os' [Hko Heo] _ IH]; [done|].
  simpl. f_equal; [|exact IH].
  unfold opSkeleton. f_equal; [by eapply kindKeeps_skeleton|].
  clear Hko. induction Heo as [|e e' es es' He _ IHe]; [done|].
  simpl. f_equal; [by apply exprKeeps_skeleton|exact IHe].
Qed.

(** X3.  Whether it returns, throws or does not end, [phaseNaming] assigns
    names and nothing else: with every function name, handler name,
    operation name, variable name and read name taken out, the job after the
    phase is the job before it.  No unit, operation, expression or variable
    is added, removed or moved, and no slot, tag, xref or kind is touched. *)
Theorem phaseNaming_assigns_names_only (depth : nat) (cpl : CompilationJob) :
  jobSkeleton (phaseNaming depth cpl).2 = jobSkeleton cpl.
Proof.
  destruct (phaseNaming_evolves sanitizeIdentifier hyphenate prefixWithNamespace
              depth cpl) as (h' & [_ Hu Hv _] & Hviews & Hvars).
  unfold jobSkeleton. rewrite Hviews, Hvars.
  assert (componentName (phaseNaming depth cpl).2 = componentName cpl /\
          fnSuffix (phaseNaming depth cpl).2 = fnSuffix cpl /\
          compatibility (phaseNaming depth cpl).2 = compatibility cpl /\
          root (phaseNaming depth cpl).2 = root cpl) as (-> & -> & -> & ->).
  { unfold Naming.phaseNaming. by destruct (addNamesToView _ _ _ _ _ _ _ _ _ _). }
  simpl in *. f_equal.
  - apply map_eq. intros u. rewrite !lookup_fmap. specialize (Hu u).
    destruct Hu as [cu cu' Hcu|]; [|done]. simpl. f_equal.
    by eapply unitKeeps_skeleton.
  - apply map_eq. intros v. rewrite !lookup_fmap. specialize (Hv v).
    destruct Hv as [sv sv' [Hk _]|]; [|done]. simpl. f_equal.
    unfold variableSkeleton. by rewrite Hk.
Qed.

End frame.
End NamingFrame.

(** ** Names of variables, once given *)

Module NamingCounter.
Import Text TextFacts Naming NamingSpec NamingWrites NamingFacts NamingCoverage
  NamingWriteFacts Examples.
Local Open Scope naming_scope.

Section counter.
Variable sanitizeIdentifier : string -> string.
Variable hyphenate : string -> string.
Variable prefixWithNamespace : option string -> Namespace -> string.
Variable jobFnSuffix : string.
Variable jobCompatibility : CompatibilityMode.
Variable compatibility : bool.

Local Abbreviation evolves := (evolves hyphenate jobCompatibility compatibility).
Local Abbreviation write :=
  (write sanitizeIdentifier hyphenate jobFnSuffix jobCompatibility compatibility).
Local Abbreviation changes :=
  (changes sanitizeIdentifier hyphenate jobFnSuffix jobCompatibility compatibility).
Local Abbreviation write_evolves :=
  (write_evolves sanitizeIdentifier hyphenate jobFnSuffix jobCompatibility compatibility).
Local Abbreviation changes_evolves :=
  (changes_evolves sanitizeIdentifier hyphenate jobFnSuffix jobCompatibility
     compatibility).
Local Abbreviation named := (evolves_named hyphenate jobCompatibility compatibility).

(** X4.  Once [getVariableName] has returned a name for a variable, asking
    again, at any later point of the phase, returns the same name, and
    changes neither the variable nor the counter. *)
Theorem getVariableName_again (v : VarRef) (h h1 h2 : Heap) (n : string) :
  getVariableName v h = (Done n, h1) -> changes h1 h2 ->
  getVariableName v h2 = (Done n, h2).
Proof.
  intros Hrun Hc.
  destruct (getVariableName_named _ _ _ _ Hrun) as (sv & Hsv & Hn).
  destruct (named _ _ _ _ _ (changes_evolves _ _ Hc) Hsv Hn) as (sv' & Hsv' & Hn').
  unfold getVariableName. by rewrite Hsv', Hn'.
Qed.

(** Every value the counter has gone through is in the name of a variable
    that had no name before. *)
Lemma changes_consecutive (h h' : Heap) :
  changes h h' ->
  forall N, h_index h <= N < h_index h' ->
    exists v sv sv',
      h_variables h !! v = Some sv /\ variable_name sv = None /\
      h_variables h' !! v = Some sv' /\
      variable_name sv' = Some (variableNameFor (variable_kind sv) N).
Proof.
  induction 1 as [h|h1 h2 h3 Hw Hc IH]; intros N HN; [lia|].
  pose proof (write_evolves _ _ Hw) as Hev.
  destruct (decide (h_index h2 <= N)) as [Hle|Hgt].
  - destruct (IH N) as (v & sv2 & sv3 & H2 & Hn2 & H3 & Hn3); [lia|].
    destruct Hev as [_ _ Hv _]. specialize (Hv v). rewrite H2 in Hv.
    inversion Hv as [sv1 ? [Hk Hn] E1 E2|]; subst. symmetry in E1.
    exists v, sv1, sv3. split; [done|].
    destruct (variable_name sv1) as [m|] eqn:Em; [congruence|].
    split; [done|]. split; [done|]. by rewrite <- Hk.
  - destruct Hw as [u cu b h0 Hu Hn|u cu i op k h0 Hu Hi Hk|u cu i op vn h0 Hu Hi
                   |v sv h0 Hv Hn]; simpl in *; try lia.
    unfold getVariableName in *. rewrite Hv, Hn in *. simpl in *.
    assert (N = h_index h0) by lia. subst N.
    destruct (named (mkHeap (h_views h0)
                       (<[v:=mkSemanticVariable (variable_kind sv)
                               (Some (variableNameFor (variable_kind sv) (h_index h0)))]>
                          (h_variables h0)) (S (h_index h0))) h3 v
                _ _ (changes_evolves _ _ Hc) (lookup_insert_eq _ _ _) eq_refl)
      as (sv3 & H3 & Hn3).
    exists v, sv, sv3. auto.
Qed.

End counter.

Section numbering.
Variable sanitizeIdentifier : string -> string.
Variable hyphenate : string -> string.
Variable prefixWithNamespace : option string -> Namespace -> string.

Local Abbreviation phaseNaming :=
  (phaseNaming sanitizeIdentifier hyphenate prefixWithNamespace).

(** X5.  The names [phaseNaming] gives to variables are numbered from 0
    without a gap: when a variable gets the name numbered [N], then for every
    [M] below [N] some variable, named in the same run, got the name numbered
    [M]. *)
Theorem phaseNaming_numbers_without_gaps (depth : nat) (cpl : CompilationJob)
    (v : VarRef) (k : SemanticVariableKind) (N : nat) :
  namedDuring cpl (phaseNaming depth cpl).2 v k (variableNameFor k N) ->
  forall M, M < N ->
    exists v' k', namedDuring cpl (phaseNaming depth cpl).2 v' k' (variableNameFor k' M).
Proof.
  intros (sv & sv' & Hsv & Hn & Hk & Hsv' & Hn') M HM.
  destruct (NamingGuarantees.phaseNaming_run sanitizeIdentifier hyphenate
              prefixWithNamespace depth cpl) as (h' & Hrun & _ & Hvars).
  rewrite Hvars in *.
  pose proof (addNamesToView_changes sanitizeIdentifier hyphenate prefixWithNamespace
                (fnSuffix cpl) (compatibility cpl)
                (isTemplateDefinitionBuilder (compatibility cpl)) depth (root cpl)
                (componentName cpl) (mkHeap (views cpl) (variables cpl) 0)) as Hc.
  rewrite Hrun in Hc. simpl in Hc.
  pose proof (changes_evolves _ _ _ _ _ _ _ Hc) as [_ _ Hv _].
  specialize (Hv v). simpl in Hv. rewrite Hsv, Hsv' in Hv.
  inversion Hv as [? ? [_ Hname]|]; subst. rewrite Hn in Hname.
  destruct (Hname _ Hn') as (N' & HN' & Heq).
  apply variableNameFor_inj in Heq. subst N'.
  destruct (changes_consecutive _ _ _ _ _ _ _ Hc M) as (v' & a & a' & Ha & Han & Ha' & Hn2);
    [simpl; lia|].
  exists v', (variable_kind a), a, a'. rewrite Hvars. simpl in Ha. auto.
Qed.

End numbering.

Lemma getVariableName_again_witness :
  getVariableName 0
    (getVariableName 1
       (getVariableName 0 (mkHeap ∅ (variables nestedJob) 0)).2).2
  = (Done "ctx_r0",
     (getVariableName 1 (getVariableName 0 (mkHeap ∅ (variables nestedJob) 0)).2).2).
Proof.
  apply (getVariableName_again Helpers.sanitizeIdentifier Helpers.hyphenate "Template"
           Normal false 0 (mkHeap ∅ (variables nestedJob) 0)
           (getVariableName 0 (mkHeap ∅ (variables nestedJob) 0)).2).
  - vm_compute. reflexivity.
  - apply getVariableName_changes.
Defined.

Lemma phaseNaming_numbers_without_gaps_witness :
  exists v' k',
    namedDuring nestedJob (Helpers.phaseNaming 3 nestedJob).2 v' k' (variableNameFor k' 1).
Proof.
  apply (phaseNaming_numbers_without_gaps Helpers.sanitizeIdentifier Helpers.hyphenate
           Helpers.prefixWithNamespace 3 nestedJob 2 (Identifier "item") 2); [|lia].
  exists (mkSemanticVariable (Identifier "item") None),
    (mkSemanticVariable (Identifier "item") (Some "item_2")).
  repeat split; vm_compute; reflexivity.
Defined.

End NamingCounter.

(** ** No [!important] is left in compatibility mode *)

Module ImportantStripped.
Import Text TextFacts Naming NamingSpec NamingWrites NamingConditions NamingFacts
  NamingCoverage ReadResolution ImportantFacts NamingWriteFacts NamingOutcome Examples.
Local Open Scope naming_scope.

Lemma occursIn_empty (p : string) : p <> "" -> ~ occursIn p "".
Proof.
  intros Hp (a & b & H). destruct a; [|discriminate].
  destruct p; [done|discriminate].
Qed.

Lemma occursIn_tail (p : string) (c : ascii) (s : string) :
  String.prefix p (String c s) = false -> occursIn p (String c s) -> occursIn p s.
Proof.
  intros Hp (a & b & H). destruct a as [|d a].
  - rewrite append_nil_l in H. by rewrite H, prefix_append in Hp.
  - rewrite append_cons in H. injection H as _ ->. by exists a, b.
Qed.

Lemma occursIn_dec (p s : string) : p <> "" -> occursIn p s \/ ~ occursIn p s.
Proof.
  intros Hp. induction s as [|c s IH].
  - right. by apply occursIn_empty.
  - destruct (String.prefix p (String c s)) eqn:E.
    + left. apply prefix_split in E as [r ->]. by exists "", r.
    + destruct IH as [IH|IH].
      * left. by apply occursIn_cons.
      * right. intros H. by apply IH, (occursIn_tail p c s).
Qed.

(** A string that has [p] in it has a first occurrence of [p]. *)
Lemma occursIn_first (p s : string) :
  p <> "" -> occursIn p s ->
  exists a b, s = a +:+ p +:+ b /\ ~ occursIn p a.
Proof.
  intros Hp. induction s as [|c s IH]; intros Hocc.
  - by apply occursIn_empty in Hocc.
  - destruct (String.prefix p (String c s)) eqn:E.
    + apply prefix_split in E as [r ->]. exists "", r.
      split; [done|]. by apply occursIn_empty.
    + destruct (IH (occursIn_tail p c s E Hocc)) as (a & b & -> & Hno).
      exists (String c a), b. split; [done|].
      intros (x & y & Hxy). destruct x as [|d x].
      * rewrite append_nil_l in Hxy.
        rewrite <- append_cons, Hxy, append_assoc, prefix_append in E. done.
      * rewrite append_cons in Hxy. injection Hxy as _ ->. apply Hno. by exists x, y.
Qed.

Lemma stripImportant_cases (name : string) :
  ~ occursIn "!important" name /\ stripImportant name = name \/
  exists a b,
    name = a +:+ "!important" +:+ b /\ ~ occursIn "!important" a /\
    stripImportant name = a.
Proof.
  destruct (occursIn_dec "!important" name) as [H|H]; [done| |].
  - right. destruct (occursIn_first "!important" name) as (a & b & -> & Hno); [done..|].
    exists a, b. split; [done|]. split; [done|]. by apply stripImportant_first.
  - left. split; [done|]. by apply stripImportant_absent.
Qed.

Lemma stripImportant_clean (name : string) :
  ~ occursIn "!important" (stripImportant name).
Proof.
  destruct (stripImportant_cases name) as [[H ->]|(a & b & _ & H & ->)]; done.
Qed.

(** X6.  [stripImportant] cuts its argument off at some point: the result
    starts the argument, has no [!important] in it -- so that nothing of the
    marker is left wherever it stood and however often --, and is left as it
    is by [stripImportant]. *)
Theorem stripImportant_leaves_no_marker (name : string) :
  (exists rest, name = stripImportant name +:+ rest) /\
  ~ occursIn "!important" (stripImportant name) /\
  stripImportant (stripImportant name) = stripImportant name.
Proof.
  split; [|split].
  - destruct (stripImportant_cases name) as [[_ ->]|(a & b & Hn & _ & ->)].
    + exists "". by rewrite append_nil_r.
    + eauto.
  - apply stripImportant_clean.
  - apply stripImportant_absent, stripImportant_clean.
Qed.

Section compatibility.
Variable sanitizeIdentifier : string -> string.
Variable hyphenate : string -> string.
Variable prefixWithNamespace : option string -> Namespace -> string.
Variable jobFnSuffix : string.
Variable jobCompatibility : CompatibilityMode.

Local Abbreviation kindWritten :=
  (kindWritten sanitizeIdentifier hyphenate jobCompatibility true).
Local Abbreviation write :=
  (write sanitizeIdentifier hyphenate jobFnSuffix jobCompatibility true).
Local Abbreviation changes :=
  (changes sanitizeIdentifier hyphenate jobFnSuffix jobCompatibility true).
Local Abbreviation nameOp :=
  (nameOp sanitizeIdentifier hyphenate prefixWithNamespace jobCompatibility).
Local Abbreviation addNamesToView :=
  (addNamesToView sanitizeIdentifier hyphenate prefixWithNamespace jobFnSuffix
     jobCompatibility).
Local Abbreviation changes_trans :=
  (changes_trans sanitizeIdentifier hyphenate jobFnSuffix jobCompatibility true).
Local Abbreviation nameOp_changes :=
  (nameOp_changes sanitizeIdentifier hyphenate prefixWithNamespace jobFnSuffix
     jobCompatibility true).
Local Abbreviation addNamesToView_changes :=
  (addNamesToView_changes sanitizeIdentifier hyphenate prefixWithNamespace jobFnSuffix
     jobCompatibility true).
Local Abbreviation addNamesToView_done :=
  (addNamesToView_done sanitizeIdentifier hyphenate prefixWithNamespace jobFnSuffix
     jobCompatibility true).
Local Abbreviation changes_unit :=
  (changes_unit sanitizeIdentifier hyphenate jobFnSuffix jobCompatibility true).
Local Abbreviation write_op :=
  (write_op sanitizeIdentifier hyphenate jobFnSuffix jobCompatibility true).
Local Abbreviation changes_opAt :=
  (changes_opAt sanitizeIdentifier hyphenate jobFnSuffix jobCompatibility true).

Local Abbreviation opAt h u j P :=
  (exists cu o, h_views h !! u = Some cu /\ ops cu !! j = Some o /\ P o).

Lemma write_importantFree (h h' : Heap) (u : XrefId) (j : nat) :
  write h h' -> opAt h u j importantFree -> opAt h' u j importantFree.
Proof.
  intros Hw (cu & o & Hu & Hj & Ho).
  destruct (write_op _ _ _ _ _ _ Hw Hu Hj)
    as (cu' & o' & Hu' & Hj' & _ & _ & [->|[(k & Hk & ->)|[vn ->]]]);
    (eexists cu', _; split; [done|]; split; [done|]); try done.
  unfold importantFree. simpl.
  destruct Hk; try done; apply stripImportant_clean.
Qed.

(** A step of the first loop leaves no [!important] in the name it was
    at. *)
Lemma nameOp_importantFree (depth : nat) (u : XrefId) (baseName : string)
    (vn vn' : gmap XrefId string) (j : nat) (h h' : Heap) (cu : CompilationUnit)
    (o : Op) :
  h_views h !! u = Some cu -> ops cu !! j = Some o ->
  nameOp (addNamesToView depth) u baseName true vn j h = (Done vn', h') ->
  opAt h' u j importantFree.
Proof.
  intros Hu Hj Hrun.
  pose proof (nameOp_changes (addNamesToView depth) u baseName vn j h
                (fun x b h0 => addNamesToView_changes depth x b h0)) as Hc.
  rewrite Hrun in Hc. simpl in Hc.
  assert (importantFree o -> opAt h' u j importantFree) as Hkeep.
  { intros Ho.
    apply (changes_opAt _ u j (fun h1 h2 => write_importantFree h1 h2 u j) h h' Hc).
    by exists cu, o. }
  destruct (kind o) as [| | | | |n|n|] eqn:Hk;
    try (apply Hkeep; unfold importantFree; by rewrite Hk).
  - unfold Naming.nameOp, bind at 1, getUnit in Hrun. rewrite Hu, Hj, Hk in Hrun.
    rewrite setKind_then_ret_eq in Hrun. injection Hrun as <- <-.
    eexists _, _. split; [by apply replaceOp_lookup|]. simpl.
    split; [apply list_lookup_insert_eq; by eapply lookup_lt_Some|].
    apply stripImportant_clean.
  - unfold Naming.nameOp, bind at 1, getUnit in Hrun. rewrite Hu, Hj, Hk in Hrun.
    rewrite setKind_then_ret_eq in Hrun. injection Hrun as <- <-.
    eexists _, _. split; [by apply replaceOp_lookup|]. simpl.
    split; [apply list_lookup_insert_eq; by eapply lookup_lt_Some|].
    apply stripImportant_clean.
Qed.

Local Abbreviation unitImportantFree h u :=
  (forall cu j o, h_views h !! u = Some cu -> ops cu !! j = Some o -> importantFree o).

Lemma changes_unitImportantFree (h h' : Heap) (u : XrefId) :
  changes h h' -> unitImportantFree h u -> unitImportantFree h' u.
Proof.
  intros Hc Hfree cu' j o' Hu' Hj'.
  pose proof (changes_evolves _ _ _ _ _ _ _ Hc) as Hev.
  destruct (evolves_op_backward _ _ _ _ _ _ _ _ _ Hev Hu' Hj') as (cu & o & Hu & Hj & _).
  destruct (changes_opAt _ u j (fun h1 h2 => write_importantFree h1 h2 u j) h h' Hc)
    as (c & o2 & Hc2 & Ho2 & H); [exists cu, o; eauto|].
  congruence.
Qed.

Lemma addNamesToView_importantFree (depth : nat) (u : XrefId) (baseName : string)
    (h h' : Heap) :
  addNamesToView (S depth) u baseName true h = (Done tt, h') ->
  unitImportantFree h' u.
Proof.
  intros Hrun cu' j o' Hu' Hj'.
  destruct (addNamesToView_done _ _ _ _ _ Hrun)
    as (cu & h0 & vn & h1 & Hu & E0 & E1 & E2 & Hc0 & Hc1 & Hc2 & Hat).
  assert (changes h h') as Hc
    by (eapply changes_trans; [exact Hc0|]; eapply changes_trans; eauto).
  destruct (changes_unit _ _ _ _ Hc Hu) as (c2 & Hu2 & _ & Hlen & _).
  assert (c2 = cu') by congruence. subst c2.
  assert (j < List.length (ops cu)) as Hlt
    by (rewrite <- Hlen; by eapply lookup_lt_Some).
  destruct (Hat j Hlt) as (bj & hj & bj' & hj' & Ha & Hb & Hc').
  destruct (changes_unit _ _ _ _ Ha Hu) as (cj & Huj & _ & Hlenj & _).
  destruct (lookup_lt_is_Some_2 (ops cj) j) as [oj Hoj]; [by rewrite Hlenj|].
  pose proof (nameOp_importantFree _ _ _ _ _ _ _ _ _ _ Huj Hoj Hb) as Hl.
  destruct (changes_opAt _ u j (fun h1 h2 => write_importantFree h1 h2 u j) hj' h')
    as (c & o2 & Hc2' & Ho2 & H); [by eapply changes_trans|done|].
  congruence.
Qed.

End compatibility.

Section theorems.
Variable sanitizeIdentifier : string -> string.
Variable hyphenate : string -> string.
Variable prefixWithNamespace : option string -> Namespace -> string.

Local Abbreviation phaseNaming :=
  (phaseNaming sanitizeIdentifier hyphenate prefixWithNamespace).

(** X7.  In compatibility mode, when [phaseNaming] returns, no [StyleProp]
    or [ClassProp] operation of a unit reachable from the root has
    [!important] anywhere in its name. *)
Theorem phaseNaming_strips_important (depth : nat) (cpl : CompilationJob) :
  compatibility cpl = TemplateDefinitionBuilder ->
  (phaseNaming depth cpl).1 = Done tt ->
  forall u cu j o,
    reachable (views cpl) (root cpl) u ->
    views (phaseNaming depth cpl).2 !! u = Some cu -> ops cu !! j = Some o ->
    importantFree o.
Proof.
  intros Hcompat Hdone u cu j o Hreach.
  destruct (NamingGuarantees.phaseNaming_run sanitizeIdentifier hyphenate
              prefixWithNamespace depth cpl) as (h' & Hrun & -> & _).
  rewrite Hdone, Hcompat in Hrun. simpl in Hrun.
  apply (addNamesToView_everywhere sanitizeIdentifier hyphenate prefixWithNamespace
           (fnSuffix cpl) TemplateDefinitionBuilder true
           (fun h u => forall cu j o,
              h_views h !! u = Some cu -> ops cu !! j = Some o -> importantFree o)
           (changes_unitImportantFree _ _ _ _)
           (addNamesToView_importantFree _ _ _ _ _)
           depth (root cpl) (componentName cpl) _ h' Hrun u Hreach).
Qed.

End theorems.

(** A view in compatibility mode with [!important] in the middle of a class
    name and at the end of a style name. *)
Lemma phaseNaming_strips_important_witness :
  let cpl :=
    mkJob "App" "Template" TemplateDefinitionBuilder 0
      {[ 0 := mkUnit ViewCompilationUnit None
                [ mkOp (ClassProp "a!important-b") [];
                  mkOp (StyleProp "fontSize!important") [] ] ]} ∅ in
  views (Helpers.phaseNaming 1 cpl).2 !! 0
  = Some (mkUnit ViewCompilationUnit (Some "App_Template")
            [ mkOp (ClassProp "a") []; mkOp (StyleProp "font-size") [] ])
  /\ importantFree (mkOp (ClassProp "a") []).
Proof.
  intros cpl. split; [vm_compute; reflexivity|].
  apply (phaseNaming_strips_important Helpers.sanitizeIdentifier Helpers.hyphenate
           Helpers.prefixWithNamespace 1 cpl eq_refl eq_refl 0
           (mkUnit ViewCompilationUnit (Some "App_Template")
              [ mkOp (ClassProp "a") []; mkOp (StyleProp "font-size") [] ])
           0 (mkOp (ClassProp "a") []) (rtc_refl _ _)).
  - vm_compute. reflexivity.
  - reflexivity.
Defined.

End ImportantStripped.

(** ** Function names follow the chain of templates *)

Module FunctionNames.
Import Text TextFacts Naming NamingSpec NamingWrites NamingConditions NamingFacts
  NamingCoverage NamingTermination ReadResolution NamingWriteFacts NamingOutcome Examples.
Local Open Scope naming_scope.

Section names.
Variable sanitizeIdentifier : string -> string.
Variable hyphenate : string -> string.
Variable prefixWithNamespace : option string -> Namespace -> string.
Variable jobFnSuffix : string.
Variable jobCompatibility : CompatibilityMode.
Variable compatibility : bool.

Local Abbreviation evolves := (evolves hyphenate jobCompatibility compatibility).
Local Abbreviation changes :=
  (changes sanitizeIdentifier hyphenate jobFnSuffix jobCompatibility compatibility).
Local Abbreviation nameOp :=
  (nameOp sanitizeIdentifier hyphenate prefixWithNamespace jobCompatibility).
Local Abbreviation nameUnit :=
  (nameUnit sanitizeIdentifier hyphenate prefixWithNamespace jobFnSuffix jobCompatibility).
Local Abbreviation addNamesToView :=
  (addNamesToView sanitizeIdentifier hyphenate prefixWithNamespace jobFnSuffix
     jobCompatibility).
Local Abbreviation changes_evolves :=
  (changes_evolves sanitizeIdentifier hyphenate jobFnSuffix jobCompatibility
     compatibility).
Local Abbreviation changes_trans :=
  (changes_trans sanitizeIdentifier hyphenate jobFnSuffix jobCompatibility compatibility).
Local Abbreviation nameOp_changes :=
  (nameOp_changes sanitizeIdentifier hyphenate prefixWithNamespace jobFnSuffix
     jobCompatibility compatibility).
Local Abbreviation resolveOp_changes :=
  (resolveOp_changes sanitizeIdentifier hyphenate jobFnSuffix jobCompatibility
     compatibility).
Local Abbreviation assignFnName_changes :=
  (assignFnName_changes sanitizeIdentifier hyphenate jobFnSuffix jobCompatibility
     compatibility).
Local Abbreviation addNamesToView_changes :=
  (addNamesToView_changes sanitizeIdentifier hyphenate prefixWithNamespace jobFnSuffix
     jobCompatibility compatibility).
Local Abbreviation changes_unit :=
  (changes_unit sanitizeIdentifier hyphenate jobFnSuffix jobCompatibility compatibility).
Local Abbreviation backward :=
  (evolves_op_backward hyphenate jobCompatibility compatibility).
Local Abbreviation viewBaseName := (viewBaseName prefixWithNamespace).

(** The function names are the same in the two heaps. *)
Local Abbreviation sameFnNames h h' :=
  (forall u, fnName <$> h_views h' !! u = fnName <$> h_views h !! u).

(** The unit [u] has no function name in [h] and the function name [n] in
    [h']. *)
Local Abbreviation fnNamed h h' u n :=
  (fnName <$> h_views h !! u = Some None /\ fnName <$> h_views h' !! u = Some (Some n)).

Lemma replaceOp_fnNames (u : XrefId) (i : nat) (o : Op) (h : Heap) :
  sameFnNames h (replaceOp u i o h).
Proof.
  intros u'. simpl. destruct (decide (u = u')) as [<-|Hne].
  - rewrite lookup_alter_eq. by destruct (h_views h !! u).
  - by rewrite lookup_alter_ne.
Qed.

Lemma bind_ret_heap {A B} (m : M A) (b : B) (h : Heap) :
  (bind m (fun _ => ret b) h).2 = (m h).2.
Proof. unfold bind. by destruct (m h) as [[a|e|] h']. Qed.

(** A step of the first loop leaves the function names alone, unless it
    goes into a child view. *)
Lemma nameOp_fnNames (recur : XrefId -> string -> bool -> M unit) (u : XrefId)
    (baseName : string) (vn : gmap XrefId string) (j : nat) (h : Heap) :
  sameFnNames h (nameOp recur u baseName compatibility vn j h).2 \/
  exists cu o x s tg ns,
    h_views h !! u = Some cu /\ ops cu !! j = Some o /\
    kind o = Template x (Some s) tg ns /\
    (nameOp recur u baseName compatibility vn j h).2
    = (recur x (baseName +:+ "_" +:+ prefixWithNamespace tg ns +:+ "_" +:+ showNat s)
         compatibility h).2.
Proof.
  set (hr := (nameOp recur u baseName compatibility vn j h).2).
  assert (hr = (nameOp recur u baseName compatibility vn j h).2) as Hr by reflexivity.
  clearbody hr. unfold Naming.nameOp, bind at 1, getUnit in Hr.
  destruct (h_views h !! u) as [cu|] eqn:Hu; [|left; by rewrite Hr].
  destruct (ops cu !! j) as [op|] eqn:Hj; [|left; by rewrite Hr].
  destruct (kind op) as [n t|n t|n hf s tg a ph|x v|x s tg ns|n|n|] eqn:Hk.
  - left. destruct t; [|by rewrite Hr].
    rewrite setKind_then_ret_eq in Hr. rewrite Hr. apply replaceOp_fnNames.
  - left. destruct t; [|by rewrite Hr].
    rewrite setKind_then_ret_eq in Hr. rewrite Hr. apply replaceOp_fnNames.
  - left. destruct (_ && _).
    + rewrite setKind_then_ret_eq in Hr. rewrite Hr. apply replaceOp_fnNames.
    + destruct hf; [by rewrite Hr|]. destruct s; [|by rewrite Hr].
      destruct (listenerNames _ _ _ _ _ _ _).
      rewrite setKind_then_ret_eq in Hr. rewrite Hr. apply replaceOp_fnNames.
  - left. rewrite Hr. unfold bind, getVariableName.
    destruct (h_variables h !! v) as [sv|]; [|done]. by destruct (variable_name sv).
  - destruct (unitKind cu); [|left; by rewrite Hr].
    destruct s as [s|]; [|left; by rewrite Hr].
    right. exists cu, op, x, s, tg, ns. repeat (split; [done|]).
    rewrite Hr. apply bind_ret_heap.
  - left. rewrite setKind_then_ret_eq in Hr. rewrite Hr. apply replaceOp_fnNames.
  - left. destruct compatibility; [|by rewrite Hr].
    rewrite setKind_then_ret_eq in Hr. rewrite Hr. apply replaceOp_fnNames.
  - left. by rewrite Hr.
Qed.

Lemma resolveOp_fnNames (u : XrefId) (vn : gmap XrefId string) (x : unit) (j : nat)
    (h : Heap) :
  sameFnNames h (resolveOp u vn x j h).2.
Proof.
  unfold resolveOp, bind at 1, getUnit.
  destruct (h_views h !! u) as [cu|]; [|done].
  destruct (ops cu !! j) as [op|]; [|done].
  destruct (resolveExprs vn (exprs op)) as [es [e|]]; apply replaceOp_fnNames.
Qed.

Lemma foldM_preserves {A B} (I : Heap -> Prop) (f : B -> A -> M B) (l : list A) :
  (forall b a h, I h -> I (f b a h).2) ->
  forall b h, I h -> I (foldM f l b h).2.
Proof.
  intros Hf. induction l as [|a l IH]; intros b h Hi; [done|].
  simpl. unfold bind. specialize (Hf b a h Hi).
  destruct (f b a h) as [[b1|e|] h1]; simpl in *; [by apply IH|done..].
Qed.

Lemma viewBaseName_trans (vs : gmap XrefId CompilationUnit) (r a u : XrefId)
    (b0 ba b : string) :
  viewBaseName vs r b0 a ba -> viewBaseName vs a ba u b -> viewBaseName vs r b0 u b.
Proof.
  intros Hra. induction 1 as [|? ? ? ? ? ? ? ? ? _ IH ? ? ?]; [done|].
  eapply base_child; eauto.
Qed.

Lemma evolves_viewBaseName_back (h h' : Heap) (r u : XrefId) (b0 b : string) :
  evolves h h' -> viewBaseName (h_views h') r b0 u b -> viewBaseName (h_views h) r b0 u b.
Proof.
  intros Hev. induction 1 as [|a ba cu' j o' x s tg ns _ IH Hcu' Hj' Hk']; [constructor|].
  destruct (backward _ _ _ _ _ _ Hev Hcu' Hj') as (cu & o & Hcu & Hj & Hkk).
  rewrite Hk' in Hkk. apply kindKeeps_Template_r in Hkk.
  by eapply base_child.
Qed.

Lemma evolves_fnName (h h' : Heap) (u : XrefId) (n : string) :
  evolves h h' -> fnName <$> h_views h !! u = Some (Some n) ->
  fnName <$> h_views h' !! u = Some (Some n).
Proof.
  intros [_ Hu _ _]. specialize (Hu u).
  destruct Hu as [cu cu' (_ & Hf & _)|]; [|done]. simpl.
  intros [= H]. by rewrite (Hf n H).
Qed.

Lemma evolves_fnName_present (h h' : Heap) (u : XrefId) (x : option string) :
  evolves h h' -> fnName <$> h_views h' !! u = Some x ->
  exists y, fnName <$> h_views h !! u = Some y.
Proof.
  intros [_ Hu _ _]. specialize (Hu u).
  destruct Hu as [cu cu' _|]; [eauto|done].
Qed.

(** The function names [addNamesToView] assigns are made of the base names
    it hands down. *)
Lemma addNamesToView_fnNames (depth : nat) :
  forall (u : XrefId) (baseName : string) (h : Heap) (u' : XrefId) (n : string),
    fnNamed h (addNamesToView depth u baseName compatibility h).2 u' n ->
    exists baseName',
      viewBaseName (h_views h) u baseName u' baseName' /\
      n = sanitizeIdentifier (baseName' +:+ "_" +:+ jobFnSuffix).
Proof.
  induction depth as [|d IH]; intros u baseName h u' n [Hnone Hsome].
  { simpl in Hsome. congruence. }
  simpl in Hsome. unfold bind at 1, getUnit in Hsome.
  destruct (h_views h !! u) as [cu|] eqn:Hu; [|simpl in Hsome; congruence].
  set (I := fun hx : Heap =>
              changes h hx /\
              forall u' n, fnNamed h hx u' n ->
                exists baseName',
                  viewBaseName (h_views h) u baseName u' baseName' /\
                  n = sanitizeIdentifier (baseName' +:+ "_" +:+ jobFnSuffix)).
  assert (forall hx hy, I hx -> changes hx hy -> sameFnNames hx hy -> I hy) as Hsame.
  { intros hx hy [Hcx Hpx] Hxy Heq. split; [by eapply changes_trans|].
    intros u0 n0 [H1 H2]. apply Hpx. split; [done|]. by rewrite <- Heq. }
  assert (I (assignFnName sanitizeIdentifier jobFnSuffix u baseName cu h).2) as H0.
  { split; [by apply assignFnName_changes|].
    unfold assignFnName. destruct (fnName cu) eqn:Hfn; simpl; [intros ? ? [? ?]; congruence|].
    intros u0 n0 [H1 H2]. destruct (decide (u = u0)) as [<-|Hne].
    - rewrite lookup_alter_eq, Hu in H2. simpl in H2. injection H2 as <-.
      eexists. split; [constructor|done].
    - rewrite lookup_alter_ne in H2 by done. congruence. }
  assert (forall b j hx, I hx ->
            I (nameOp (addNamesToView d) u baseName compatibility b j hx).2) as Hstep.
  { intros b j hx Hx.
    pose proof (nameOp_changes (addNamesToView d) u baseName b j hx
                  (fun x b h0 => addNamesToView_changes d x b h0)) as Hc.
    destruct (nameOp_fnNames (addNamesToView d) u baseName b j hx)
      as [Heq|(cj & oj & x & s & tg & ns & Hcj & Hoj & Hk & Heq)];
      [by apply (Hsame hx)|].
    destruct Hx as [Hcx Hpx]. split; [by eapply changes_trans|].
    rewrite Heq in *. intros u0 n0 [H1 H2].
    pose proof (changes_evolves _ _ Hc) as Hev.
    destruct (evolves_fnName_present _ _ _ _ Hev H2) as [[m|] Hm].
    - apply Hpx. split; [done|].
      pose proof (evolves_fnName _ _ _ _ Hev Hm). congruence.
    - destruct (IH x _ hx u0 n0 (conj Hm H2)) as (b' & Hpath & ->).
      exists b'. split; [|done].
      pose proof (changes_evolves _ _ Hcx) as Hevx.
      apply (evolves_viewBaseName_back h hx _ _ _ _ Hevx).
      eapply viewBaseName_trans; [|exact Hpath].
      eapply base_child; [constructor|done..]. }
  unfold bind in Hsome. unfold Naming.nameUnit, bind in Hsome.
  pose proof (foldM_preserves I (nameOp (addNamesToView d) u baseName compatibility)
                (seq 0 (List.length (ops cu))) Hstep ∅ _ H0) as H1.
  destruct (assignFnName sanitizeIdentifier jobFnSuffix u baseName cu h)
    as [[[]|e|] h0]; simpl in *; [|by apply H0|by apply H0].
  fold (Naming.nameOps sanitizeIdentifier hyphenate prefixWithNamespace jobCompatibility
          (addNamesToView d) u baseName compatibility (List.length (ops cu))) in *.
  destruct (Naming.nameOps _ _ _ _ _ _ _ _ _ h0) as [[vn|e|] h1];
    simpl in *; [|by apply H1|by apply H1].
  pose proof (foldM_preserves I (resolveOp u vn) (seq 0 (List.length (ops cu)))
                (fun b j hx Hx =>
                   Hsame hx _ Hx (resolveOp_changes u vn b j hx)
                     (resolveOp_fnNames u vn b j hx)) tt h1 H1) as H2.
  by apply H2.
Qed.

Lemma bind_post {A B} (I : Heap -> Prop) (m : M A) (k : A -> M B) (h : Heap) :
  I (m h).2 -> (forall a hx, I hx -> I (k a hx).2) -> I (bind m k h).2.
Proof.
  intros Hm Hk. unfold bind. destruct (m h) as [[a|e|] h1]; simpl in *; auto.
Qed.

(** After its first statement [addNamesToView] leaves the function name of
    its unit alone. *)
Lemma addNamesToView_names_unit (depth : nat) (u : XrefId) (baseName : string)
    (h : Heap) (cu : CompilationUnit) :
  h_views h !! u = Some cu ->
  exists cu',
    h_views (addNamesToView (S depth) u baseName compatibility h).2 !! u = Some cu' /\
    fnName cu'
    = Some (match fnName cu with
            | Some n => n
            | None => sanitizeIdentifier (baseName +:+ "_" +:+ jobFnSuffix)
            end).
Proof.
  intros Hu.
  set (I := fun hx : Heap =>
              exists cu', h_views hx !! u = Some cu' /\
                fnName cu'
                = Some (match fnName cu with
                        | Some n => n
                        | None => sanitizeIdentifier (baseName +:+ "_" +:+ jobFnSuffix)
                        end)).
  assert (forall hx hy, changes hx hy -> I hx -> I hy) as Hkeep.
  { intros hx hy Hc (c & Hc1 & Hc2).
    destruct (changes_unit _ _ _ _ Hc Hc1) as (c' & Hu' & _ & _ & Hf').
    exists c'. split; [done|]. rewrite Hf'; [done|]. by rewrite Hc2. }
  change (I (addNamesToView (S depth) u baseName compatibility h).2).
  simpl. unfold bind at 1, getUnit. rewrite Hu.
  apply (bind_post I); [unfold Naming.nameUnit; apply (bind_post I)|].
  - unfold assignFnName, I. destruct (fnName cu) as [n|] eqn:E; simpl.
    + exists cu. by rewrite E.
    + rewrite lookup_alter_eq, Hu. simpl. eauto.
  - intros _ hx Hx. eapply Hkeep; [|exact Hx].
    apply (foldM_changes sanitizeIdentifier hyphenate jobFnSuffix jobCompatibility
             compatibility).
    intros b a hy. apply nameOp_changes. intros. apply addNamesToView_changes.
  - intros vn hx Hx. eapply Hkeep; [|exact Hx].
    apply (foldM_changes sanitizeIdentifier hyphenate jobFnSuffix jobCompatibility
             compatibility).
    intros b a hy. apply resolveOp_changes.
Qed.

End names.

Section theorems.
Variable sanitizeIdentifier : string -> string.
Variable hyphenate : string -> string.
Variable prefixWithNamespace : option string -> Namespace -> string.

Local Abbreviation phaseNaming :=
  (phaseNaming sanitizeIdentifier hyphenate prefixWithNamespace).

(** X8.  Whatever the outcome of [phaseNaming], a unit that had no function
    name and has one afterwards has the sanitized [<base>_<fnSuffix>], where
    [<base>] is the component name for the root and, for a child view, the
    base of its parent followed by [_<namespaced tag>_<slot>] of the
    [Template] operation that leads to it.  Unless the root is missing, it
    has a function name afterwards: the one it had, or the sanitized
    [<componentName>_<fnSuffix>]. *)
Theorem phaseNaming_function_names (depth : nat) (cpl : CompilationJob) :
  (forall u cu cu' n,
     views cpl !! u = Some cu -> fnName cu = None ->
     views (phaseNaming depth cpl).2 !! u = Some cu' -> fnName cu' = Some n ->
     exists baseName,
       viewBaseName prefixWithNamespace (views cpl) (root cpl) (componentName cpl)
         u baseName /\
       n = sanitizeIdentifier (baseName +:+ "_" +:+ fnSuffix cpl)) /\
  (forall cu,
     views cpl !! root cpl = Some cu -> depth <> 0 ->
     exists cu',
       views (phaseNaming depth cpl).2 !! root cpl = Some cu' /\
       fnName cu'
       = Some (match fnName cu with
               | Some n => n
               | None => sanitizeIdentifier (componentName cpl +:+ "_" +:+ fnSuffix cpl)
               end)).
Proof.
  destruct (NamingGuarantees.phaseNaming_run sanitizeIdentifier hyphenate
              prefixWithNamespace depth cpl) as (h' & Hrun & -> & _).
  split.
  - intros u cu cu' n Hu Hnone Hu' Hsome.
    apply (addNamesToView_fnNames sanitizeIdentifier hyphenate prefixWithNamespace
             (fnSuffix cpl) (compatibility cpl)
             (isTemplateDefinitionBuilder (compatibility cpl)) depth (root cpl)
             (componentName cpl) (mkHeap (views cpl) (variables cpl) 0) u n).
    rewrite Hrun. simpl. rewrite Hu, Hu'. simpl. by rewrite Hnone, Hsome.
  - intros cu Hroot Hdepth. destruct depth as [|d]; [done|].
    pose proof (addNamesToView_names_unit sanitizeIdentifier hyphenate
                  prefixWithNamespace (fnSuffix cpl) (compatibility cpl)
                  (isTemplateDefinitionBuilder (compatibility cpl)) d (root cpl)
                  (componentName cpl) (mkHeap (views cpl) (variables cpl) 0) cu Hroot)
      as H.
    by rewrite Hrun in H.
Qed.

End theorems.

Lemma phaseNaming_function_names_witness :
  (exists baseName,
     viewBaseName Helpers.prefixWithNamespace (views nestedJob) 0 "App" 2 baseName /\
     "App_span_1_Template" = Helpers.sanitizeIdentifier (baseName +:+ "_Template")) /\
  (exists cu',
     views (Helpers.phaseNaming 3 nestedJob).2 !! 0 = Some cu' /\
     fnName cu' = Some "App_Template").
Proof.
  pose proof (phaseNaming_function_names Helpers.sanitizeIdentifier Helpers.hyphenate
                Helpers.prefixWithNamespace 3 nestedJob) as [H1 H2].
  split.
  - apply (H1 2 (mkUnit ViewCompilationUnit None
                   [ mkOp (VariableOp 20 1) [];
                     mkOp OtherOp [ReadVariableExpr 20 None] ])
             (mkUnit ViewCompilationUnit (Some "App_span_1_Template")
                   [ mkOp (VariableOp 20 1) [];
                     mkOp OtherOp [ReadVariableExpr 20 (Some "ctx_r1")] ])
             "App_span_1_Template"); vm_compute; reflexivity.
  - destruct (H2 (mkUnit ViewCompilationUnit None
                    [ mkOp (Template 1 (Some 0) (Some "div") HTML) [];
                      mkOp (Template 2 (Some 1) (Some "span") HTML) [];
                      mkOp (VariableOp 30 2) [];
                      mkOp OtherOp [ReadVariableExpr 30 None] ]))
      as (cu' & Hcu' & Hfn); [vm_compute; reflexivity|lia|].
    exists cu'. split; [exact Hcu'|exact Hfn].
Defined.

End FunctionNames.

(** ** No callback is lost, and none is run for another *)

Module SchedulerProgress.
Import Scheduler SchedulerTraces SchedulerFacts.

Local Abbreviation waiting has c w :=
  (executeCallback w !! c = Some true /\ timesExecuted c w = 0 /\ pending has c w).
Local Abbreviation finished c w :=
  (executeCallback w !! c = Some false /\ timesExecuted c w = 1).

Lemma timesExecuted_snoc (c c' : CallId) (callback : Callback) (w : World)
    (flags : gmap CallId bool) (ts fs : list Task) (n : CallId) :
  timesExecuted c (mkWorld flags ts fs (executed w ++ [(c', callback)]) n)
  = timesExecuted c w + (if decide (c' = c) then 1 else 0).
Proof.
  unfold timesExecuted. simpl. rewrite fmap_app, count_occ_app. simpl.
  destruct (Nat.eq_dec c' c), (decide (c' = c)); done.
Qed.

Lemma elem_of_delete_other {A} (l : list A) (i : nat) (x y : A) :
  l !! i = Some y -> x <> y -> x ∈ l -> x ∈ delete i l.
Proof.
  revert i. induction l as [|a l IH]; intros i Hi Hne Hx; [by apply elem_of_nil in Hx|].
  destruct i as [|i]; simpl in *.
  - injection Hi as ->. apply elem_of_cons in Hx as [->|Hx]; done.
  - apply elem_of_cons in Hx as [->|Hx]; [by left|]. right. by eapply IH.
Qed.

Lemma not_executed_zero (c : CallId) (w : World) :
  c ∉ (executed w).*1 -> timesExecuted c w = 0.
Proof. intros H. apply count_occ_not_In. by rewrite <- list_elem_of_In. Qed.

(** What running one of the two functions of a call does to the state of
    every call. *)
Lemma runTask_progress (has : bool) (t : Task) (w : World) (c : CallId) :
  let w' := runTask t w in
  (finished c w -> finished c w') /\
  (executeCallback w !! c = Some true -> timesExecuted c w = 0 ->
   if decide (task_call t = c) then finished c w'
   else executeCallback w' !! c = Some true /\ timesExecuted c w' = 0).
Proof.
  unfold runTask. simpl.
  destruct (executeCallback w !! task_call t) as [[|]|] eqn:E.
  - split.
    + intros [Hf Hn]. destruct (decide (task_call t = c)) as [<-|Hne]; [congruence|].
      rewrite timesExecuted_snoc. simpl. rewrite lookup_insert_ne by done.
      rewrite decide_False by done. split; [done|lia].
    + intros Hf Hn. rewrite timesExecuted_snoc. simpl.
      destruct (decide (task_call t = c)) as [<-|Hne].
      * rewrite lookup_insert_eq. split; [done|lia].
      * rewrite lookup_insert_ne by done. split; [done|lia].
  - split; [done|]. intros Hf Hn.
    destruct (decide (task_call t = c)) as [<-|Hne]; [congruence|done].
  - split; [done|]. intros Hf Hn.
    destruct (decide (task_call t = c)) as [<-|Hne]; [congruence|done].
Qed.

Lemma runTask_queues (t : Task) (w : World) :
  timeouts (runTask t w) = timeouts w /\ frames (runTask t w) = frames w /\
  nextCall (runTask t w) = nextCall w.
Proof.
  unfold runTask. by destruct (executeCallback w !! task_call t) as [[|]|].
Qed.

Lemma step_progress (has : bool) (w w' : World) :
  step has w w' -> consistent w ->
  (forall c, c < nextCall w -> waiting has c w \/ finished c w) ->
  forall c, c < nextCall w' -> waiting has c w' \/ finished c w'.
Proof.
  intros [callback w0|i w0|i w0] Hcons IH c Hc.
  - simpl in Hc. destruct (decide (c = nextCall w0)) as [->|Hne].
    + left. simpl. rewrite lookup_insert_eq. split; [done|]. split.
      * apply not_executed_zero. intros Hin.
        pose proof (consistent_flags _ Hcons _ Hin) as Hf.
        assert (nextCall w0 < nextCall w0) by (apply (consistent_fresh _ Hcons); eauto).
        lia.
      * exists callback. simpl. split; [apply elem_of_app; right; by left|].
        intros ->. apply elem_of_app; right; by left.
    + destruct (IH c) as [(Hf & Hn & cb & Ht & Hfr)|[Hf Hn]]; [lia| |].
      * left. simpl. rewrite lookup_insert_ne by done. split; [done|].
        split; [done|]. exists cb. simpl. split; [apply elem_of_app; by left|].
        intros ->. apply elem_of_app; left. by apply Hfr.
      * right. simpl. by rewrite lookup_insert_ne.
  - unfold fireTimeout in *. destruct (timeouts w0 !! i) as [t|] eqn:Et; [|by apply IH].
    set (w1 := mkWorld (executeCallback w0) (delete i (timeouts w0)) (frames w0)
                 (executed w0) (nextCall w0)) in *.
    destruct (runTask_queues t w1) as (Hts & Hfs & Hnc). rewrite Hnc in Hc.
    destruct (runTask_progress has t w1 c) as [Hfin Hwait].
    destruct (IH c Hc) as [(Hf & Hn & cb & Ht & Hfr)|Hdone]; [|right; by apply Hfin].
    specialize (Hwait Hf Hn).
    destruct (decide (task_call t = c)) as [Heq|Hne]; [by right|left].
    destruct Hwait as [? ?]. split; [done|]. split; [done|].
    exists cb. rewrite Hts, Hfs. split; [|done]. simpl.
    eapply elem_of_delete_other; [done| |done]. intros <-. by apply Hne.
  - unfold fireFrame in *. destruct (frames w0 !! i) as [t|] eqn:Et; [|by apply IH].
    set (w1 := mkWorld (executeCallback w0) (timeouts w0) (delete i (frames w0))
                 (executed w0) (nextCall w0)) in *.
    destruct (runTask_queues t w1) as (Hts & Hfs & Hnc). rewrite Hnc in Hc.
    destruct (runTask_progress has t w1 c) as [Hfin Hwait].
    destruct (IH c Hc) as [(Hf & Hn & cb & Ht & Hfr)|Hdone]; [|right; by apply Hfin].
    specialize (Hwait Hf Hn).
    destruct (decide (task_call t = c)) as [Heq|Hne]; [by right|left].
    destruct Hwait as [? ?]. split; [done|]. split; [done|].
    exists cb. rewrite Hts, Hfs. split; [done|]. simpl. intros Hhas.
    eapply elem_of_delete_other; [done| |by apply Hfr]. intros <-. by apply Hne.
Qed.

(** X9.  In every world a scheduler gets to, each call of the scheduling
    function made so far is in one of two states: its callback has not run
    and its timeout function is still pending (and its animation-frame
    function too, where there is [requestAnimationFrame]), or its callback
    has run exactly once.  So no callback is lost, and once no timeout is
    pending every callback has run exactly once. *)
Theorem callback_pending_or_run_once (hasRequestAnimationFrame : bool) (w : World) :
  reachable hasRequestAnimationFrame w ->
  (forall c, c < nextCall w ->
     executeCallback w !! c = Some true /\ timesExecuted c w = 0 /\
     pending hasRequestAnimationFrame c w
     \/ executeCallback w !! c = Some false /\ timesExecuted c w = 1) /\
  (timeouts w = [] -> forall c, c < nextCall w -> timesExecuted c w = 1).
Proof.
  intros Hreach.
  assert (forall c, c < nextCall w ->
            waiting hasRequestAnimationFrame c w \/ finished c w) as Hinv.
  { unfold reachable in Hreach. revert w Hreach.
    apply (rtc_ind_r
             (fun w => forall c, c < nextCall w ->
                         waiting hasRequestAnimationFrame c w \/ finished c w)
             initial).
    - simpl. intros c Hc. lia.
    - intros w1 w2 Hsteps Hstep IH. eapply step_progress; [done| |done].
      by apply (reachable_consistent hasRequestAnimationFrame). }
  split; [exact Hinv|].
  intros Hempty c Hc.
  destruct (Hinv c Hc) as [(_ & _ & cb & Hin & _)|[_ Hn]]; [|done].
  rewrite Hempty in Hin. by apply elem_of_nil in Hin.
Qed.

(** Two calls; the animation frame of the second fires, then both
    timeouts: by then both callbacks have run once. *)
Lemma callback_pending_or_run_once_witness :
  timesExecuted 0 (fireTimeout 0 (fireTimeout 0 (fireFrame 1
                     (schedule true 8 (schedule true 7 initial))))) = 1 /\
  timesExecuted 1 (fireTimeout 0 (fireTimeout 0 (fireFrame 1
                     (schedule true 8 (schedule true 7 initial))))) = 1.
Proof.
  assert (reachable true (fireTimeout 0 (fireTimeout 0 (fireFrame 1
                            (schedule true 8 (schedule true 7 initial)))))) as Hreach.
  { unfold reachable.
    eapply rtc_l; [apply (step_schedule true 7)|].
    eapply rtc_l; [apply (step_schedule true 8)|].
    eapply rtc_l; [apply (step_frame true 1)|].
    eapply rtc_l; [apply (step_timeout true 0)|].
    eapply rtc_l; [apply (step_timeout true 0)|].
    apply rtc_refl. }
  split.
  - apply (proj2 (callback_pending_or_run_once true _ Hreach)); [reflexivity|].
    apply Nat.ltb_lt. vm_compute. reflexivity.
  - apply (proj2 (callback_pending_or_run_once true _ Hreach)); [reflexivity|].
    apply Nat.ltb_lt. vm_compute. reflexivity.
Defined.

End SchedulerProgress.

Module SchedulerCallbacks.
Import Scheduler SchedulerTraces SchedulerFacts.

Lemma scheduled_snoc (events : list Event) (e : Event) :
  scheduled (events ++ [e])
  = scheduled events ++ match e with Schedule callback => [callback] | _ => [] end.
Proof. unfold scheduled. rewrite omap_app. by destruct e. Qed.

Lemma elem_of_delete {A} (l : list A) (i : nat) (x : A) : x ∈ delete i l -> x ∈ l.
Proof.
  revert i. induction l as [|a l IH]; intros i; [by destruct i|].
  destruct i as [|i]; simpl.
  - by right.
  - intros [->|H]%elem_of_cons; [by left|]. right. by eapply IH.
Qed.

Lemma faithful_runTask (events : list Event) (t : Task) (w : World) :
  scheduled events !! task_call t = Some (task_callback t) ->
  faithful events w -> faithful events (runTask t w).
Proof.
  intros Ht [Hn Hts Hfs Hex]. unfold runTask.
  destruct (executeCallback w !! task_call t) as [[|]|]; [|by split..].
  split; simpl; try done.
  intros c callback [H|H%list_elem_of_singleton]%elem_of_app; [by apply Hex|].
  by injection H as -> ->.
Qed.

Lemma faithful_ext (events events' : list Event) (w : World) :
  scheduled events' = scheduled events -> faithful events w -> faithful events' w.
Proof. intros H [Hn Hts Hfs Hex]. split; rewrite H; done. Qed.

Lemma faithful_after (has : bool) (events : list Event) (w : World) (e : Event) :
  faithful events w -> faithful (events ++ [e]) (after has w e).
Proof.
  intros Hw. destruct e as [callback|i|i]; simpl.
  - destruct Hw as [Hn Hts Hfs Hex].
    assert (forall c cb, scheduled events !! c = Some cb ->
              (scheduled events ++ [callback]) !! c = Some cb) as Hold
      by (intros; by apply lookup_app_l_Some).
    assert ((scheduled events ++ [callback]) !! nextCall w = Some callback) as Hnew
      by (rewrite Hn; apply list_lookup_middle; done).
    split; rewrite scheduled_snoc; simpl.
    + rewrite length_app. simpl. lia.
    + intros t [H|H%list_elem_of_singleton]%elem_of_app; [by apply Hold, Hts|].
      by subst t.
    + destruct has; [|intros; by apply Hold, Hfs].
      intros t [H|H%list_elem_of_singleton]%elem_of_app; [by apply Hold, Hfs|].
      by subst t.
    + intros; by apply Hold, Hex.
  - apply (faithful_ext events); [by rewrite scheduled_snoc, app_nil_r|].
    destruct Hw as [Hn Hts Hfs Hex]. unfold fireTimeout.
    destruct (timeouts w !! i) as [t|] eqn:E; [|by split].
    apply faithful_runTask; [by eapply Hts, list_elem_of_lookup_2|].
    split; simpl; try done. intros t0 Ht0. by eapply Hts, elem_of_delete.
  - apply (faithful_ext events); [by rewrite scheduled_snoc, app_nil_r|].
    destruct Hw as [Hn Hts Hfs Hex]. unfold fireFrame.
    destruct (frames w !! i) as [t|] eqn:E; [|by split].
    apply faithful_runTask; [by eapply Hfs, list_elem_of_lookup_2|].
    split; simpl; try done. intros t0 Ht0. by eapply Hfs, elem_of_delete.
Qed.

Lemma run_faithful (has : bool) (events : list Event) : faithful events (run has events).
Proof.
  induction events as [|e events IH] using rev_ind.
  - split; simpl; [done|..]; intros *; by rewrite elem_of_nil.
  - unfold run. rewrite foldl_app. simpl. by apply faithful_after.
Qed.

Lemma run_reachable (has : bool) (events : list Event) : reachable has (run has events).
Proof.
  induction events as [|e events IH] using rev_ind; [apply rtc_refl|].
  unfold run. rewrite foldl_app. simpl. eapply rtc_r; [exact IH|].
  destruct e; constructor.
Qed.

(** X10.  After any history, a callback that has been run for the call [c]
    is the callback that the [c]-th call of the scheduling function was given:
    no callback is run on behalf of another call, and none that was never
    scheduled.  The calls are numbered in the order they were made. *)
Theorem only_scheduled_callbacks_run (hasRequestAnimationFrame : bool)
    (events : list Event) :
  nextCall (run hasRequestAnimationFrame events) = List.length (scheduled events) /\
  forall c callback,
    (c, callback) ∈ executed (run hasRequestAnimationFrame events) ->
    scheduled events !! c = Some callback.
Proof.
  destruct (run_faithful hasRequestAnimationFrame events) as [Hn _ _ Hex]. auto.
Qed.

(** Two calls with the callbacks 7 and 8; the animation frame of the second
    fires first. *)
Lemma only_scheduled_callbacks_run_witness :
  executed (run true [Schedule 7; Schedule 8; FrameFires 1; TimeoutFires 0])
  = [(1, 8); (0, 7)] /\
  scheduled [Schedule 7; Schedule 8; FrameFires 1; TimeoutFires 0] !! 1 = Some 8.
Proof.
  split; [vm_compute; reflexivity|].
  apply (proj2 (only_scheduled_callbacks_run true
                  [Schedule 7; Schedule 8; FrameFires 1; TimeoutFires 0])).
  vm_compute. by left.
Defined.

End SchedulerCallbacks.

(** ** Every exception of the phase has a cause in the job *)

Module NamingErrorFacts.
Import Text TextFacts Naming NamingSpec NamingWrites NamingConditions NamingErrors
  NamingFacts NamingCoverage NamingTermination ReadResolution NameTable NamingWriteFacts
  NamingOutcome NamingRequirements Examples.
Local Open Scope naming_scope.

Section errors.
Variable sanitizeIdentifier : string -> string.
Variable hyphenate : string -> string.
Variable prefixWithNamespace : option string -> Namespace -> string.
Variable jobFnSuffix : string.
Variable jobCompatibility : CompatibilityMode.
Variable compatibility : bool.

Local Abbreviation kindKeeps := (kindKeeps hyphenate compatibility).
Local Abbreviation evolves := (evolves hyphenate jobCompatibility compatibility).
Local Abbreviation legacyHostBinding := (legacyHostBinding jobCompatibility).
Local Abbreviation changes :=
  (changes sanitizeIdentifier hyphenate jobFnSuffix jobCompatibility compatibility).
Local Abbreviation nameOp :=
  (nameOp sanitizeIdentifier hyphenate prefixWithNamespace jobCompatibility).
Local Abbreviation nameUnit :=
  (nameUnit sanitizeIdentifier hyphenate prefixWithNamespace jobFnSuffix jobCompatibility).
Local Abbreviation addNamesToView :=
  (addNamesToView sanitizeIdentifier hyphenate prefixWithNamespace jobFnSuffix
     jobCompatibility).
Local Abbreviation changes_evolves :=
  (changes_evolves sanitizeIdentifier hyphenate jobFnSuffix jobCompatibility
     compatibility).
Local Abbreviation changes_trans :=
  (changes_trans sanitizeIdentifier hyphenate jobFnSuffix jobCompatibility compatibility).
Local Abbreviation nameOp_changes :=
  (nameOp_changes sanitizeIdentifier hyphenate prefixWithNamespace jobFnSuffix
     jobCompatibility compatibility).
Local Abbreviation resolveOp_changes :=
  (resolveOp_changes sanitizeIdentifier hyphenate jobFnSuffix jobCompatibility
     compatibility).
Local Abbreviation assignFnName_changes :=
  (assignFnName_changes sanitizeIdentifier hyphenate jobFnSuffix jobCompatibility
     compatibility).
Local Abbreviation addNamesToView_changes :=
  (addNamesToView_changes sanitizeIdentifier hyphenate prefixWithNamespace jobFnSuffix
     jobCompatibility compatibility).
Local Abbreviation backward :=
  (evolves_op_backward hyphenate jobCompatibility compatibility).
Local Abbreviation evolves_present :=
  (evolves_present hyphenate jobCompatibility compatibility).
Local Abbreviation evolves_unit :=
  (evolves_unit hyphenate jobCompatibility compatibility).
Local Abbreviation changes_unit :=
  (changes_unit sanitizeIdentifier hyphenate jobFnSuffix jobCompatibility compatibility).
Local Abbreviation cause h r e :=
  (errorCause jobCompatibility (h_views h) (h_variables h) r e).

Lemma kindKeeps_Listener_r (k : OpKind) (n : string) (s : option nat)
    (tg : option string) (a : bool) (ph : option string) :
  kindKeeps false k (Listener n None s tg a ph) ->
  exists n0, k = Listener n0 None s tg a ph.
Proof.
  destruct k as [| |n0 hf0 s0 tg0 a0 ph0| | | | |]; simpl; try done.
  - by intros (? & ? & ?).
  - by intros (? & ? & ?).
  - intros (n' & hf' & Heq & _ & H). injection Heq as ? ? ? ? ? ?. subst.
    destruct hf0 as [f|]; [|eauto]. by destruct (H eq_refl f eq_refl).
  - by intros (? & ? & ?).
  - by intros (? & ? & ?).
Qed.

Lemma exprKeeps_unnamed_r (e : Expr) (x : XrefId) :
  exprKeeps e (ReadVariableExpr x None) -> e = ReadVariableExpr x None.
Proof.
  destruct e as [y [n|]|]; simpl.
  - by intros <-.
  - by intros [n' [= ->]].
  - done.
Qed.

Lemma evolves_none (h h' : Heap) (u : XrefId) :
  evolves h h' -> h_views h' !! u = None -> h_views h !! u = None.
Proof.
  intros Hev Hnone. destruct (h_views h !! u) eqn:E; [|done].
  assert (is_Some (h_views h' !! u)) as [? ?]
    by (apply (evolves_present h h' u Hev); eauto).
  congruence.
Qed.

Lemma evolves_unit_back (h h' : Heap) (u : XrefId) (cu' : CompilationUnit) :
  evolves h h' -> h_views h' !! u = Some cu' ->
  exists cu, h_views h !! u = Some cu /\ unitKind cu' = unitKind cu.
Proof.
  intros Hev Hu'. pose proof (evolves_unit h h' u Hev) as H. rewrite Hu' in H.
  inversion H; subst. eauto.
Qed.

(** What is a cause in a later heap was one before. *)
Lemma evolves_cause (h h' : Heap) (r : XrefId) (e : NamingError) :
  evolves h h' -> cause h' r e -> cause h r e.
Proof.
  intros Hev. destruct e as [| | |x| |]; simpl.
  - intros (u & cu' & j & o' & n & tg & a & ph & Hu' & Hl & Hj' & Hk').
    destruct (backward _ _ _ _ _ _ Hev Hu' Hj') as (cu & o & Hu & Hj & Hkk).
    destruct (evolves_unit_back _ _ _ _ Hev Hu') as (c0 & Hc0 & Hkind).
    assert (c0 = cu) by congruence. subst c0.
    assert (legacyHostBinding cu = false) as Hl0
      by (unfold NamingSpec.legacyHostBinding in *; by rewrite <- Hkind).
    rewrite Hk', Hl0 in Hkk. apply kindKeeps_Listener_r in Hkk as [n0 Hk].
    exists u, cu, j, o, n0, tg, a, ph. auto.
  - intros (u & cu' & j & o' & x & s & tg & ns & Hu' & Hkind' & Hj' & Hk').
    destruct (backward _ _ _ _ _ _ Hev Hu' Hj') as (cu & o & Hu & Hj & Hkk).
    destruct (evolves_unit_back _ _ _ _ Hev Hu') as (c0 & Hc0 & Hkind).
    assert (c0 = cu) by congruence. subst c0.
    rewrite Hk' in Hkk. apply kindKeeps_Template_r in Hkk.
    exists u, cu, j, o, x, s, tg, ns. split; [done|]. split; [congruence|]. auto.
  - intros (u & cu' & j & o' & x & tg & ns & Hu' & Hj' & Hk').
    destruct (backward _ _ _ _ _ _ Hev Hu' Hj') as (cu & o & Hu & Hj & Hkk).
    rewrite Hk' in Hkk. apply kindKeeps_Template_r in Hkk.
    exists u, cu, j, o, x, tg, ns. auto.
  - intros (u & cu' & j & o' & Hu' & Hj' & Hin & Hnone).
    pose proof Hev as [_ Hviews _ _]. specialize (Hviews u). rewrite Hu' in Hviews.
    inversion Hviews as [cu ? (_ & _ & Hops) Ea Eb|]; subst. symmetry in Ea.
    destruct (Forall2_lookup_r _ _ _ _ _ Hops Hj') as (o & Hj & [_ Hes]).
    apply list_elem_of_lookup in Hin as [i Hi].
    destruct (Forall2_lookup_r _ _ _ _ _ Hes Hi) as (e0 & Hi0 & Hke).
    apply exprKeeps_unnamed_r in Hke. subst e0.
    exists u, cu, j, o. split; [done|]. split; [done|].
    split; [by eapply list_elem_of_lookup_2|].
    intros i0 o0 v Hi0' Hk0.
    destruct (Forall2_lookup_l _ _ _ _ _ Hops Hi0') as (o1 & Hi1 & [Hkk _]).
    rewrite Hk0 in Hkk. simpl in Hkk. by apply (Hnone i0 o1 v).
  - intros [Hr|(u & cu' & j & o' & x & s & tg & ns & Hu' & Hj' & Hk' & Hx)].
    + left. by eapply evolves_none.
    + right. destruct (backward _ _ _ _ _ _ Hev Hu' Hj') as (cu & o & Hu & Hj & Hkk).
      rewrite Hk' in Hkk. apply kindKeeps_Template_r in Hkk.
      exists u, cu, j, o, x, s, tg, ns. repeat (split; [done|]).
      by eapply evolves_none.
  - intros (u & cu' & j & o' & x & v & Hu' & Hj' & Hk' & Hv).
    destruct (backward _ _ _ _ _ _ Hev Hu' Hj') as (cu & o & Hu & Hj & Hkk).
    rewrite Hk' in Hkk. apply kindKeeps_VariableOp_r in Hkk.
    exists u, cu, j, o, x, v. repeat (split; [done|]).
    destruct Hev as [_ _ Hvars _]. specialize (Hvars v). rewrite Hv in Hvars.
    by inversion Hvars.
Qed.

(** A loop that throws throws at one of its steps. *)
Lemma foldM_throws {A B} (f : B -> A -> M B) (l : list A) :
  (forall b a h, changes h (f b a h).2) ->
  forall (b : B) (h h' : Heap) (e : NamingError),
    foldM f l b h = (Throw e, h') ->
    exists b0 a h0, changes h h0 /\ f b0 a h0 = (Throw e, h').
Proof.
  intros Hf. induction l as [|a l IH]; intros b h h' e Hrun; [done|].
  simpl in Hrun. unfold bind in Hrun.
  destruct (f b a h) as [[b1|e1|] h1] eqn:E; try done.
  - destruct (IH b1 h1 h' e Hrun) as (b0 & a0 & h0 & Hc & Hstep).
    exists b0, a0, h0. split; [|done].
    eapply changes_trans; [|exact Hc]. pose proof (Hf b a h) as H. by rewrite E in H.
  - injection Hrun as <- <-. exists b, a, h. split; [apply rtc_refl|done].
Qed.

Lemma resolveExprs_error (vn : gmap XrefId string) (es es' : list Expr)
    (e : NamingError) :
  resolveExprs vn es = (es', Some e) ->
  exists x, e = VariableNotYetNamed x /\ vn !! x = None /\ ReadVariableExpr x None ∈ es.
Proof.
  revert es'. induction es as [|e0 es IH]; intros es'; simpl; [done|].
  destruct e0 as [y [n|]|].
  - destruct (resolveExprs vn es) as [r err]. intros [= <- ->].
    destruct (IH r eq_refl) as (x & ? & ? & ?). exists x. split; [done|].
    split; [done|by right].
  - destruct (vn !! y) as [n|] eqn:Ey.
    + destruct (resolveExprs vn es) as [r err]. intros [= <- ->].
      destruct (IH r eq_refl) as (x & ? & ? & ?). exists x. split; [done|].
      split; [done|by right].
    + intros [= <- <-]. exists y. split; [done|]. split; [done|by left].
  - destruct (resolveExprs vn es) as [r err]. intros [= <- ->].
    destruct (IH r eq_refl) as (x & ? & ? & ?). exists x. split; [done|].
    split; [done|by right].
Qed.

(** A step of the second loop throws for a read whose xref the table does
    not have. *)
Lemma resolveOp_throws (u : XrefId) (vn : gmap XrefId string) (x : unit) (j : nat)
    (h h' : Heap) (e : NamingError) :
  resolveOp u vn x j h = (Throw e, h') ->
  h_views h !! u = None /\ e = UndefinedView \/
  exists y cu op,
    e = VariableNotYetNamed y /\ vn !! y = None /\
    h_views h !! u = Some cu /\ ops cu !! j = Some op /\
    ReadVariableExpr y None ∈ exprs op.
Proof.
  unfold resolveOp, bind at 1, getUnit.
  destruct (h_views h !! u) as [cu|] eqn:Hu; [|intros [= <- <-]; by left].
  destruct (ops cu !! j) as [op|] eqn:Hj; [|done].
  destruct (resolveExprs vn (exprs op)) as [es [e0|]] eqn:E; [|done].
  intros [= <- <-]. destruct (resolveExprs_error _ _ _ _ E) as (y & -> & Hy & Hin).
  right. exists y, cu, op. auto.
Qed.

(** A cause seen from a child view is one seen from its parent. *)
Lemma cause_child (h : Heap) (u x : XrefId) (cu : CompilationUnit) (j : nat) (o : Op)
    (s : option nat) (tg : option string) (ns : Namespace) (e : NamingError) :
  h_views h !! u = Some cu -> ops cu !! j = Some o -> kind o = Template x s tg ns ->
  cause h x e -> cause h u e.
Proof.
  intros Hu Hj Hk. destruct e; simpl; try done.
  intros [Hx|H]; [|by right]. right. exists u, cu, j, o, x, s, tg, ns. auto.
Qed.

Lemma nameOp_throws (depth : nat) (u : XrefId) (baseName : string)
    (vn : gmap XrefId string) (j : nat) (h h' : Heap) (e : NamingError) :
  (forall x b h0 h1 e0,
     addNamesToView depth x b compatibility h0 = (Throw e0, h1) -> cause h0 x e0) ->
  nameOp (addNamesToView depth) u baseName compatibility vn j h = (Throw e, h') ->
  cause h u e.
Proof.
  intros IH. unfold Naming.nameOp, bind at 1, getUnit.
  destruct (h_views h !! u) as [cu|] eqn:Hu; [|intros [= <- <-]; by left].
  destruct (ops cu !! j) as [op|] eqn:Hj; [|done].
  destruct (kind op) as [n t|n t|n hf s tg a ph|x v|x s tg ns|n|n|] eqn:Hk.
  - by destruct t.
  - by destruct t.
  - fold (legacyHostBinding cu). destruct (legacyHostBinding cu) eqn:Hl; [done|].
    destruct hf; [done|]. destruct s as [s|].
    + by destruct (listenerNames _ _ _ _ _ _ _).
    + intros [= <- <-]. simpl. exists u, cu, j, op, n, tg, a, ph. auto.
  - unfold bind, getVariableName.
    destruct (h_variables h !! v) as [sv|] eqn:Hv.
    + by destruct (variable_name sv).
    + intros [= <- <-]. simpl. exists u, cu, j, op, x, v. auto.
  - destruct (unitKind cu) eqn:Hkind.
    + destruct s as [s|].
      * unfold bind.
        destruct (addNamesToView depth x _ compatibility h) as [[[]|e0|] h1] eqn:E;
          try done.
        intros [= <- <-]. eapply cause_child; [done..|]. by eapply IH.
      * intros [= <- <-]. simpl. exists u, cu, j, op, x, tg, ns. auto.
    + intros [= <- <-]. simpl. exists u, cu, j, op, x, s, tg, ns. auto.
  - done.
  - by destruct compatibility.
  - done.
Qed.

Lemma addNamesToView_throws (depth : nat) :
  forall (u : XrefId) (baseName : string) (h h' : Heap) (e : NamingError),
    addNamesToView depth u baseName compatibility h = (Throw e, h') -> cause h u e.
Proof.
  induction depth as [|d IH]; intros u baseName h h' e Hrun; [done|].
  simpl in Hrun. unfold bind at 1, getUnit in Hrun.
  destruct (h_views h !! u) as [cu|] eqn:Hu; [|injection Hrun as <- <-; by left].
  unfold bind in Hrun. unfold Naming.nameUnit, bind in Hrun.
  pose proof (assignFnName_changes u baseName cu h Hu) as Hc0.
  destruct (assignFnName sanitizeIdentifier jobFnSuffix u baseName cu h)
    as [[[]|e0|] h0] eqn:E0; simpl in Hc0;
    [|unfold assignFnName in E0; by destruct (fnName cu)..].
  assert (forall b a hx,
            changes hx (nameOp (addNamesToView d) u baseName compatibility b a hx).2)
    as Hstep by (intros; apply nameOp_changes; intros; apply addNamesToView_changes).
  unfold Naming.nameOps in Hrun.
  destruct (foldM (nameOp (addNamesToView d) u baseName compatibility)
              (seq 0 (List.length (ops cu))) ∅ h0) as [[vn|e1|] h1] eqn:E1;
    try done.
  - pose proof (foldM_changes sanitizeIdentifier hyphenate jobFnSuffix jobCompatibility
                  compatibility _ (seq 0 (List.length (ops cu))) ∅ h0 Hstep) as Hc1.
    rewrite E1 in Hc1. simpl in Hc1.
    destruct (foldM_throws (resolveOp u vn) _ (resolveOp_changes u vn) tt h1 h' e Hrun)
      as ([] & j & hx & Hcx & Hthrow).
    assert (changes h h1) as Hh1 by (by eapply changes_trans).
    apply (evolves_cause h hx).
    { apply changes_evolves. by eapply changes_trans. }
    destruct (resolveOp_throws _ _ _ _ _ _ _ Hthrow)
      as [[Hnone ->]|(y & cx & op & -> & Hy & Hux & Hjx & Hin)]; [by left|].
    simpl. exists u, cx, j, op. repeat (split; [done|]).
    intros i o' v Hi Hk.
    destruct (backward _ _ _ _ _ _ (changes_evolves _ _ Hcx) Hux Hi)
      as (c1 & o1 & Hu1 & Hi1 & Hkk).
    rewrite Hk in Hkk. apply kindKeeps_VariableOp_r in Hkk.
    destruct (changes_unit _ _ _ _ Hh1 Hu) as (c1' & Hu1' & _ & Hlen1 & _).
    assert (c1' = c1) by congruence. subst c1'.
    assert (tableCovers u (List.length (ops cu)) vn h1) as Hcov.
    { eapply (nameOps_table sanitizeIdentifier hyphenate prefixWithNamespace
                jobCompatibility compatibility (addNamesToView d) u baseName);
        [|exact E1].
      intros. apply changes_evolves, addNamesToView_changes. }
    destruct (Hcov c1 i o1 y v) as [n Hn]; [|done..|congruence].
    rewrite <- Hlen1. by eapply lookup_lt_Some.
  - injection Hrun as <- <-.
    destruct (foldM_throws _ _ Hstep ∅ h0 h1 e1 E1) as (b0 & j & hx & Hcx & Hthrow).
    apply (evolves_cause h hx).
    + apply changes_evolves. by eapply changes_trans.
    + eapply nameOp_throws; [|exact Hthrow]. intros. by eapply IH.
Qed.

End errors.

Section theorems.
Variable sanitizeIdentifier : string -> string.
Variable hyphenate : string -> string.
Variable prefixWithNamespace : option string -> Namespace -> string.

Local Abbreviation phaseNaming :=
  (phaseNaming sanitizeIdentifier hyphenate prefixWithNamespace).

(** X12.  No exception of [phaseNaming] is spurious.  [Expected a slot to
    be assigned] is thrown only for a job with a listener that has neither
    handler name nor slot, outside the legacy host-binding case;
    [AssertionError: must be compiling a component] only when a host binding
    has a [Template] operation; [Expected slot to be assigned] only when a
    [Template] operation has no slot; [Variable <xref> not yet named] only
    when a read of that xref has no name, in a unit none of whose [Variable]
    operations has that xref; and the phase fails on an
    undefined unit or variable only when the root, the unit a [Template]
    operation points at, or the variable of a [Variable] operation is not in
    the job. *)
Theorem phaseNaming_throws_for_a_cause (depth : nat) (cpl : CompilationJob)
    (e : NamingError) :
  (phaseNaming depth cpl).1 = Throw e ->
  errorCause (compatibility cpl) (views cpl) (variables cpl) (root cpl) e.
Proof.
  intros Hthrow.
  destruct (NamingGuarantees.phaseNaming_run sanitizeIdentifier hyphenate
              prefixWithNamespace depth cpl) as (h' & Hrun & _ & _).
  rewrite Hthrow in Hrun.
  apply (addNamesToView_throws sanitizeIdentifier hyphenate prefixWithNamespace
           (fnSuffix cpl) (compatibility cpl)
           (isTemplateDefinitionBuilder (compatibility cpl)) depth (root cpl)
           (componentName cpl) (mkHeap (views cpl) (variables cpl) 0) h' e Hrun).
Qed.

End theorems.

Lemma phaseNaming_throws_for_a_cause_witness :
  errorCause Normal (views danglingReadJob) (variables danglingReadJob) 0
    (VariableNotYetNamed 11).
Proof.
  apply (phaseNaming_throws_for_a_cause Helpers.sanitizeIdentifier Helpers.hyphenate
           Helpers.prefixWithNamespace 2 danglingReadJob).
  vm_compute. reflexivity.
Defined.

End NamingErrorFacts.

(** ** The humanizer only appends *)

Module HumanizerFacts.
Import Text Humanizer.

Section facts.
Variable Ast : Type.
Variable BindingType : Type.
Variable unparse : Ast -> string.

Local Abbreviation Node := (Node Ast BindingType).
Local Abbreviation Row := (Row BindingType).
Local Abbreviation visit := (visit Ast BindingType unparse).
Local Abbreviation visitNodes := (visitNodes Ast BindingType unparse).
Local Abbreviation humanize := (humanize Ast BindingType unparse).
Local Abbreviation visitEach := (foldl (fun (r : list Row) (n : Node) => visit n r)).

(** A visit that only appends. *)
Local Abbreviation appends n := (forall r : list Row, visit n r = r ++ visit n []).

Lemma visitEach_appends (l : list Node) :
  Forall (fun n => appends n) l ->
  forall r, visitEach r l = r ++ visitEach [] l.
Proof.
  induction 1 as [|n l Hn _ IH]; intros r; simpl.
  - by rewrite app_nil_r.
  - rewrite IH, (IH (visit n [])), Hn. by rewrite app_assoc.
Qed.

Lemma foldl_push {A B} (g : A -> B) (l : list A) (r : list B) :
  foldl (fun r v => r ++ [g v]) r l = r ++ (g <$> l).
Proof.
  revert r. induction l as [|a l IH]; intros r; simpl.
  - by rewrite app_nil_r.
  - by rewrite IH, <- app_assoc.
Qed.

Local Ltac children IH l :=
  let H := fresh "H" in
  let X := fresh "X" in
  assert (H : forall r, visitEach r l = r ++ visitEach [] l)
    by (apply visitEach_appends; induction l; constructor; [apply IH|assumption]);
  set (X := visitEach [] l) in *; clearbody X; rewrite ?H; clear H.

Local Ltac child IH n :=
  let H := fresh "H" in
  let X := fresh "X" in
  pose proof (IH n) as H;
  set (X := visit n []) in *; clearbody X; rewrite ?H; clear H.

Lemma visit_appends : forall n : Node, appends n.
Proof.
  fix IH 1.
  intros [name attributes inputs outputs references children
         |attributes inputs outputs templateAttrs references variables children
         |selector attributes|name value|name value|name value|type name value
         |name target handler|value|value| |visited|expression cases
         |expression children|expression trackBy item contextVariables children empty
         |children|branches|expression expressionAlias children|trigger
         |minimumTime children|afterTime minimumTime children|children] r;
    simpl.
  - children IH attributes. children IH inputs. children IH outputs.
    children IH references. children IH children.
    by rewrite <- !app_assoc.
  - children IH attributes. children IH inputs. children IH outputs.
    children IH templateAttrs. children IH references. children IH variables.
    children IH children.
    by rewrite <- !app_assoc.
  - children IH attributes. by rewrite <- !app_assoc.
  - done.
  - done.
  - done.
  - done.
  - done.
  - done.
  - done.
  - by rewrite app_nil_r.
  - children IH visited. by rewrite <- !app_assoc.
  - children IH cases. by rewrite <- !app_assoc.
  - children IH children. by rewrite <- !app_assoc.
  - rewrite !foldl_push. child IH item. children IH children.
    destruct empty as [block|].
    + child IH block. by rewrite <- !app_assoc.
    + by rewrite <- !app_assoc.
  - children IH children. by rewrite <- !app_assoc.
  - children IH branches. by rewrite <- !app_assoc.
  - children IH children. destruct expressionAlias as [alias|].
    + child IH alias. by rewrite <- !app_assoc.
    + by rewrite <- !app_assoc.
  - done.
  - children IH children. by rewrite <- !app_assoc.
  - children IH children. by rewrite <- !app_assoc.
  - children IH children. by rewrite <- !app_assoc.
Qed.

(** The rows of the context variables of a loop are those of visiting them
    as [Variable] nodes. *)
Lemma loop_variables_rows (contextVariables : list (string * string)) (r : list Row) :
  foldl (fun r v => r ++ [[Str "Variable"; Str v.1; Str v.2]]) r
    (filter (fun v => v.1 <> v.2) contextVariables)
  = visitNodes (explicitVariables Ast BindingType contextVariables) r.
Proof.
  unfold Humanizer.visitNodes, explicitVariables.
  revert r. induction (filter _ contextVariables) as [|v l IH]; intros r; [done|].
  simpl. apply IH.
Qed.

Lemma visitNodes_appends (nodes : list Node) (r : list Row) :
  visitNodes nodes r = r ++ humanize nodes.
Proof.
  apply visitEach_appends, Forall_forall. intros n _. apply visit_appends.
Qed.

(** X11.  The humanizer only ever appends to its result: visiting a node
    leaves the rows that are there and adds the rows of the node, the same
    ones whatever was there.  So the rows of a list of nodes are the rows of
    each node, one node after the other, and a template cut in two gives the
    rows of the first part followed by the rows of the second. *)
Theorem humanizer_rows_compose :
  (forall (node : Node) (result : list Row),
     visit node result = result ++ humanize [node]) /\
  (forall (nodes : list Node) (result : list Row),
     visitNodes nodes result = result ++ humanize nodes) /\
  (forall a b : list Node, humanize (a ++ b) = humanize a ++ humanize b) /\
  (forall nodes : list Node, humanize nodes = nodes ≫= (fun n => humanize [n])).
Proof.
  split; [|split; [|split]].
  - intros node result. apply visit_appends.
  - apply visitNodes_appends.
  - intros a b. unfold Humanizer.humanize, Humanizer.visitNodes.
    rewrite foldl_app. apply visitNodes_appends.
  - induction nodes as [|n nodes IH]; [done|].
    change (humanize (n :: nodes)) with (visitNodes nodes (visit n [])).
    rewrite visitNodes_appends, IH. reflexivity.
Qed.

End facts.

(** The loop [{#for item of items.foo.bar; track item.id; let idx = $index}
    {{ item }} {:empty} none {/for}] of the test suite, with the text of an
    expression for its AST: the implicit [$index] of the context is left
    out, the alias [idx] is not. *)
Lemma humanize_for_loop :
  humanize string unit (fun e => e)
    [ ForLoopBlock "items.foo.bar" "item.id" (VariableNode "item" "$implicit")
        [("$index", "$index"); ("idx", "$index"); ("$first", "$first")]
        [BoundText " {{ item }} "]
        (Some (ForLoopBlockEmpty [TextNode " none "])) ]
  = [ [Str "ForLoopBlock"; Str "items.foo.bar"; Str "item.id"];
      [Str "Variable"; Str "item"; Str "$implicit"];
      [Str "Variable"; Str "idx"; Str "$index"];
      [Str "BoundText"; Str " {{ item }} "];
      [Str "ForLoopBlockEmpty"];
      [Str "Text"; Str " none "] ].
Proof. vm_compute. reflexivity. Qed.

End HumanizerFacts.

(** ** Animation triggers are marked, host-binding handlers are named *)

Module NamingMarkFacts.
Import Text TextFacts Naming NamingSpec NamingWrites NamingConditions NamingMarks
  NamingFacts NamingCoverage ReadResolution NamingWriteFacts NamingOutcome Examples.
Local Open Scope naming_scope.

Section marks.
Variable sanitizeIdentifier : string -> string.
Variable hyphenate : string -> string.
Variable prefixWithNamespace : option string -> Namespace -> string.
Variable jobFnSuffix : string.
Variable jobCompatibility : CompatibilityMode.
Variable compatibility : bool.

Local Abbreviation kindWritten :=
  (kindWritten sanitizeIdentifier hyphenate jobCompatibility compatibility).
Local Abbreviation write :=
  (write sanitizeIdentifier hyphenate jobFnSuffix jobCompatibility compatibility).
Local Abbreviation changes :=
  (changes sanitizeIdentifier hyphenate jobFnSuffix jobCompatibility compatibility).
Local Abbreviation nameOp :=
  (nameOp sanitizeIdentifier hyphenate prefixWithNamespace jobCompatibility).
Local Abbreviation addNamesToView :=
  (addNamesToView sanitizeIdentifier hyphenate prefixWithNamespace jobFnSuffix
     jobCompatibility).
Local Abbreviation changes_evolves :=
  (changes_evolves sanitizeIdentifier hyphenate jobFnSuffix jobCompatibility
     compatibility).
Local Abbreviation changes_trans :=
  (changes_trans sanitizeIdentifier hyphenate jobFnSuffix jobCompatibility compatibility).
Local Abbreviation nameOp_changes :=
  (nameOp_changes sanitizeIdentifier hyphenate prefixWithNamespace jobFnSuffix
     jobCompatibility compatibility).
Local Abbreviation addNamesToView_changes :=
  (addNamesToView_changes sanitizeIdentifier hyphenate prefixWithNamespace jobFnSuffix
     jobCompatibility compatibility).
Local Abbreviation addNamesToView_done :=
  (addNamesToView_done sanitizeIdentifier hyphenate prefixWithNamespace jobFnSuffix
     jobCompatibility compatibility).
Local Abbreviation addNamesToView_everywhere :=
  (addNamesToView_everywhere sanitizeIdentifier hyphenate prefixWithNamespace jobFnSuffix
     jobCompatibility compatibility).
Local Abbreviation changes_unit :=
  (changes_unit sanitizeIdentifier hyphenate jobFnSuffix jobCompatibility compatibility).
Local Abbreviation write_op :=
  (write_op sanitizeIdentifier hyphenate jobFnSuffix jobCompatibility compatibility).
Local Abbreviation changes_opAt :=
  (changes_opAt sanitizeIdentifier hyphenate jobFnSuffix jobCompatibility compatibility).
Local Abbreviation backward :=
  (evolves_op_backward hyphenate jobCompatibility compatibility).

Local Abbreviation opAt h u j P :=
  (exists cu o, h_views h !! u = Some cu /\ ops cu !! j = Some o /\ P o).

(** A property of operations that no write undoes, and that a step of the
    first loop gives to the operation it is at, holds of every operation of
    every unit below the unit of a call of [addNamesToView] that returns. *)
Lemma addNamesToView_all_ops (P : Op -> Prop) :
  (forall h h' u j, write h h' -> opAt h u j P -> opAt h' u j P) ->
  (forall depth u baseName vn vn' j h h' cu o,
     h_views h !! u = Some cu -> ops cu !! j = Some o ->
     nameOp (addNamesToView depth) u baseName compatibility vn j h = (Done vn', h') ->
     opAt h' u j P) ->
  forall depth u baseName h h',
    addNamesToView depth u baseName compatibility h = (Done tt, h') ->
    forall u' cu j o,
      reachable (h_views h) u u' ->
      h_views h' !! u' = Some cu -> ops cu !! j = Some o -> P o.
Proof.
  intros Hwrite Hstep.
  assert (forall h h' u,
            changes h h' ->
            (forall cu j o, h_views h !! u = Some cu -> ops cu !! j = Some o -> P o) ->
            forall cu j o, h_views h' !! u = Some cu -> ops cu !! j = Some o -> P o)
    as Hmono.
  { intros h h' u Hc Hall cu' j o' Hu' Hj'.
    destruct (backward _ _ _ _ _ _ (changes_evolves _ _ Hc) Hu' Hj')
      as (cu & o & Hu & Hj & _).
    destruct (changes_opAt P u j (fun h1 h2 => Hwrite h1 h2 u j) h h' Hc)
      as (c & o2 & Hc2 & Ho2 & H); [exists cu, o; eauto|].
    congruence. }
  assert (forall depth u baseName h h',
            addNamesToView (S depth) u baseName compatibility h = (Done tt, h') ->
            forall cu j o, h_views h' !! u = Some cu -> ops cu !! j = Some o -> P o)
    as Hlocal.
  { intros depth u baseName h h' Hrun cu' j o' Hu' Hj'.
    destruct (addNamesToView_done _ _ _ _ _ Hrun)
      as (cu & h0 & vn & h1 & Hu & E0 & E1 & E2 & Hc0 & Hc1 & Hc2 & Hat).
    assert (changes h h') as Hc
      by (eapply changes_trans; [exact Hc0|]; eapply changes_trans; eauto).
    destruct (changes_unit _ _ _ _ Hc Hu) as (c2 & Hu2 & _ & Hlen & _).
    assert (c2 = cu') by congruence. subst c2.
    assert (j < List.length (ops cu)) as Hlt
      by (rewrite <- Hlen; by eapply lookup_lt_Some).
    destruct (Hat j Hlt) as (bj & hj & bj' & hj' & Ha & Hb & Hc').
    destruct (changes_unit _ _ _ _ Ha Hu) as (cj & Huj & _ & Hlenj & _).
    destruct (lookup_lt_is_Some_2 (ops cj) j) as [oj Hoj]; [by rewrite Hlenj|].
    pose proof (Hstep _ _ _ _ _ _ _ _ _ _ Huj Hoj Hb) as Hl.
    destruct (changes_opAt P u j (fun h1 h2 => Hwrite h1 h2 u j) hj' h')
      as (c & o2 & Hc2' & Ho2 & H); [by eapply changes_trans|done|].
    congruence. }
  intros depth u baseName h h' Hrun u' cu j o Hreach.
  apply (addNamesToView_everywhere
           (fun h u => forall cu j o,
              h_views h !! u = Some cu -> ops cu !! j = Some o -> P o)
           Hmono Hlocal depth u baseName h h' Hrun u' Hreach).
Qed.

Lemma write_triggerMarked (h h' : Heap) (u : XrefId) (j : nat) :
  write h h' -> opAt h u j triggerMarked -> opAt h' u j triggerMarked.
Proof.
  intros Hw (cu & o & Hu & Hj & Ho).
  destruct (write_op _ _ _ _ _ _ Hw Hu Hj)
    as (cu' & o' & Hu' & Hj' & _ & _ & [->|[(k & Hk & ->)|[vn ->]]]);
    (eexists cu', _; split; [done|]; split; [done|]); try done.
  unfold triggerMarked, startsWith.
  destruct Hk; try done; apply (prefix_append "@").
Qed.

Lemma nameOp_triggerMarked (depth : nat) (u : XrefId) (baseName : string)
    (vn vn' : gmap XrefId string) (j : nat) (h h' : Heap) (cu : CompilationUnit)
    (o : Op) :
  h_views h !! u = Some cu -> ops cu !! j = Some o ->
  nameOp (addNamesToView depth) u baseName compatibility vn j h = (Done vn', h') ->
  opAt h' u j triggerMarked.
Proof.
  intros Hu Hj Hrun.
  pose proof (nameOp_changes (addNamesToView depth) u baseName vn j h
                (fun x b h0 => addNamesToView_changes depth x b h0)) as Hc.
  rewrite Hrun in Hc. simpl in Hc.
  assert (triggerMarked o -> opAt h' u j triggerMarked) as Hkeep.
  { intros Ho.
    apply (changes_opAt _ u j (fun h1 h2 => write_triggerMarked h1 h2 u j) h h' Hc).
    by exists cu, o. }
  destruct (kind o) as [n [|]|n [|]| | | | | |] eqn:Hk;
    try (apply Hkeep; unfold triggerMarked; by rewrite Hk).
  - unfold Naming.nameOp, bind at 1, getUnit in Hrun. rewrite Hu, Hj, Hk in Hrun.
    rewrite setKind_then_ret_eq in Hrun. injection Hrun as <- <-.
    eexists _, _. split; [by apply replaceOp_lookup|]. simpl.
    split; [apply list_lookup_insert_eq; by eapply lookup_lt_Some|].
    apply (prefix_append "@").
  - unfold Naming.nameOp, bind at 1, getUnit in Hrun. rewrite Hu, Hj, Hk in Hrun.
    rewrite setKind_then_ret_eq in Hrun. injection Hrun as <- <-.
    eexists _, _. split; [by apply replaceOp_lookup|]. simpl.
    split; [apply list_lookup_insert_eq; by eapply lookup_lt_Some|].
    apply (prefix_append "@").
Qed.

End marks.

Section theorems.
Variable sanitizeIdentifier : string -> string.
Variable hyphenate : string -> string.
Variable prefixWithNamespace : option string -> Namespace -> string.

Local Abbreviation phaseNaming :=
  (phaseNaming sanitizeIdentifier hyphenate prefixWithNamespace).

(** X14.  When [phaseNaming] returns, the name of every [Property] and
    [HostProperty] operation that is an animation trigger, in every unit
    reachable from the root, starts with [@]. *)
Theorem phaseNaming_marks_animation_triggers (depth : nat) (cpl : CompilationJob) :
  (phaseNaming depth cpl).1 = Done tt ->
  forall u cu j o,
    reachable (views cpl) (root cpl) u ->
    views (phaseNaming depth cpl).2 !! u = Some cu -> ops cu !! j = Some o ->
    triggerMarked o.
Proof.
  intros Hdone u cu j o Hreach.
  destruct (NamingGuarantees.phaseNaming_run sanitizeIdentifier hyphenate
              prefixWithNamespace depth cpl) as (h' & Hrun & -> & _).
  rewrite Hdone in Hrun.
  apply (addNamesToView_all_ops sanitizeIdentifier hyphenate prefixWithNamespace
           (fnSuffix cpl) (compatibility cpl)
           (isTemplateDefinitionBuilder (compatibility cpl)) triggerMarked
           (write_triggerMarked _ _ _ _ _)
           (nameOp_triggerMarked _ _ _ _ _ _)
           depth (root cpl) (componentName cpl) _ h' Hrun u cu j o Hreach).
Qed.

End theorems.

Lemma phaseNaming_marks_animation_triggers_witness :
  triggerMarked (mkOp (Property "@fade" true) [ReadVariableExpr 10 (Some "ctx_r0")]).
Proof.
  apply (phaseNaming_marks_animation_triggers Helpers.sanitizeIdentifier
           Helpers.hyphenate Helpers.prefixWithNamespace 2 animatedJob eq_refl 0
           (mkUnit ViewCompilationUnit (Some "App_Template")
              [ mkOp (VariableOp 10 0) [];
                mkOp (Property "@fade" true) [ReadVariableExpr 10 (Some "ctx_r0")] ])
           1 _ (rtc_refl _ _)).
  - vm_compute. reflexivity.
  - reflexivity.
Defined.

End NamingMarkFacts.

(** ** Listeners of a host binding in compatibility mode *)

Module HostBindingListeners.
Import Text TextFacts Naming NamingSpec NamingWrites NamingConditions NamingMarks
  NamingFacts NamingCoverage ReadResolution NamingWriteFacts NamingOutcome
  NamingErrorFacts FunctionNames Examples.
Local Open Scope naming_scope.

Section hostBinding.
Variable sanitizeIdentifier : string -> string.
Variable hyphenate : string -> string.
Variable prefixWithNamespace : option string -> Namespace -> string.
Variable jobFnSuffix : string.
Variable compatibility : bool.

Local Abbreviation changes :=
  (changes sanitizeIdentifier hyphenate jobFnSuffix TemplateDefinitionBuilder
     compatibility).
Local Abbreviation nameOp :=
  (nameOp sanitizeIdentifier hyphenate prefixWithNamespace TemplateDefinitionBuilder).
Local Abbreviation addNamesToView :=
  (addNamesToView sanitizeIdentifier hyphenate prefixWithNamespace jobFnSuffix
     TemplateDefinitionBuilder).
Local Abbreviation changes_trans :=
  (changes_trans sanitizeIdentifier hyphenate jobFnSuffix TemplateDefinitionBuilder
     compatibility).
Local Abbreviation nameOp_changes :=
  (nameOp_changes sanitizeIdentifier hyphenate prefixWithNamespace jobFnSuffix
     TemplateDefinitionBuilder compatibility).
Local Abbreviation resolveOp_changes :=
  (resolveOp_changes sanitizeIdentifier hyphenate jobFnSuffix TemplateDefinitionBuilder
     compatibility).
Local Abbreviation addNamesToView_changes :=
  (addNamesToView_changes sanitizeIdentifier hyphenate prefixWithNamespace jobFnSuffix
     TemplateDefinitionBuilder compatibility).
Local Abbreviation addNamesToView_done :=
  (addNamesToView_done sanitizeIdentifier hyphenate prefixWithNamespace jobFnSuffix
     TemplateDefinitionBuilder compatibility).
Local Abbreviation changes_unit :=
  (changes_unit sanitizeIdentifier hyphenate jobFnSuffix TemplateDefinitionBuilder
     compatibility).
Local Abbreviation foldM_throws :=
  (foldM_throws sanitizeIdentifier hyphenate jobFnSuffix TemplateDefinitionBuilder
     compatibility).
Local Abbreviation handled baseName := (hostBindingHandler sanitizeIdentifier baseName).

(** The first [i] operations of the host binding [u] have their handler
    names. *)
Local Abbreviation handledUpTo baseName u i h :=
  (exists cu,
     h_views h !! u = Some cu /\ unitKind cu = HostBindingCompilationUnit /\
     forall j o, j < i -> ops cu !! j = Some o -> handled baseName o).

Lemma replaceOp_handled (baseName : string) (u : XrefId) (i : nat) (o' : Op)
    (h : Heap) (cu : CompilationUnit) (o : Op) :
  h_views h !! u = Some cu -> unitKind cu = HostBindingCompilationUnit ->
  ops cu !! i = Some o -> handled baseName o' ->
  handledUpTo baseName u i h -> handledUpTo baseName u (S i) (replaceOp u i o' h).
Proof.
  intros Hu Hkind Hi Ho' (c & Hc & _ & Hall).
  assert (c = cu) by congruence. subst c.
  eexists. split; [by apply replaceOp_lookup|]. simpl. split; [done|].
  intros j o0 Hj. destruct (decide (j = i)) as [->|Hne].
  - rewrite list_lookup_insert_eq by (by eapply lookup_lt_Some). by intros [= <-].
  - rewrite list_lookup_insert_ne by done. apply Hall. lia.
Qed.

Lemma same_handled (baseName : string) (u : XrefId) (i : nat) (h : Heap)
    (cu : CompilationUnit) (o : Op) :
  h_views h !! u = Some cu -> ops cu !! i = Some o -> handled baseName o ->
  handledUpTo baseName u i h -> handledUpTo baseName u (S i) h.
Proof.
  intros Hu Hi Ho (c & Hc & Hkind & Hall).
  assert (c = cu) by congruence. subst c.
  exists cu. split; [done|]. split; [done|].
  intros j o0 Hj Hj0. destruct (decide (j = i)) as [->|Hne].
  - congruence.
  - apply (Hall j); [lia|done].
Qed.

(** A step of the first loop on a host binding, in compatibility mode. *)
Lemma nameOp_handles (recur : XrefId -> string -> bool -> M unit) (u : XrefId)
    (baseName : string) (vn vn' : gmap XrefId string) (i : nat) (h h' : Heap) :
  handledUpTo baseName u i h ->
  nameOp recur u baseName compatibility vn i h = (Done vn', h') ->
  handledUpTo baseName u (S i) h'.
Proof.
  intros Hall. pose proof Hall as (cu & Hu & Hkind & _).
  unfold Naming.nameOp, bind at 1, getUnit. rewrite Hu.
  destruct (ops cu !! i) as [op|] eqn:Hi.
  - destruct (kind op) as [n t|n t|n hf s tg a ph|x v|x s tg ns|n|n|] eqn:Hk.
    + destruct t.
      * rewrite setKind_then_ret_eq. intros [= <- <-].
        by eapply replaceOp_handled.
      * intros [= <- <-]. eapply same_handled; [done..| |done].
        unfold hostBindingHandler. by rewrite Hk.
    + destruct t.
      * rewrite setKind_then_ret_eq. intros [= <- <-].
        by eapply replaceOp_handled.
      * intros [= <- <-]. eapply same_handled; [done..| |done].
        unfold hostBindingHandler. by rewrite Hk.
    + rewrite Hkind. simpl. rewrite setKind_then_ret_eq. intros [= <- <-].
      by eapply replaceOp_handled.
    + unfold bind, getVariableName.
      destruct (h_variables h !! v) as [sv|]; [|done].
      destruct (variable_name sv); intros [= <- <-];
        (eapply same_handled; [done..| |done]; unfold hostBindingHandler; by rewrite Hk).
    + by rewrite Hkind.
    + rewrite setKind_then_ret_eq. intros [= <- <-].
      by eapply replaceOp_handled.
    + destruct compatibility.
      * rewrite setKind_then_ret_eq. intros [= <- <-].
        by eapply replaceOp_handled.
      * intros [= <- <-]. eapply same_handled; [done..| |done].
        unfold hostBindingHandler. by rewrite Hk.
    + intros [= <- <-]. eapply same_handled; [done..| |done].
      unfold hostBindingHandler. by rewrite Hk.
  - intros [= <- <-]. destruct Hall as (c & Hc & Hkc & Hall).
    exists c. split; [done|]. split; [done|]. intros j o0 Hj Hj0.
    apply (Hall j); [|done].
    assert (j <> i) by (intros ->; congruence). lia.
Qed.

Lemma resolveOp_handles (baseName : string) (u : XrefId) (vn : gmap XrefId string)
    (x : unit) (j n : nat) (h : Heap) :
  handledUpTo baseName u n h -> handledUpTo baseName u n (resolveOp u vn x j h).2.
Proof.
  intros Hall. pose proof Hall as (cu & Hu & Hkind & Hops).
  unfold resolveOp, bind at 1, getUnit. rewrite Hu.
  destruct (ops cu !! j) as [op|] eqn:Hj; [|done].
  assert (handledUpTo baseName u n
            (replaceOp u j (mkOp (kind op) (resolveExprs vn (exprs op)).1) h)) as H.
  { eexists. split; [by apply replaceOp_lookup|]. simpl. split; [done|].
    intros i o Hi. destruct (decide (i = j)) as [->|Hne].
    - rewrite list_lookup_insert_eq by (by eapply lookup_lt_Some). intros [= <-].
      by apply (Hops j op).
    - rewrite list_lookup_insert_ne by done. by apply Hops. }
  by destruct (resolveExprs vn (exprs op)) as [es [e|]].
Qed.

(** In a host binding in compatibility mode, no step of the first loop
    throws for a missing slot. *)
Lemma nameOp_needs_no_slot (recur : XrefId -> string -> bool -> M unit) (u : XrefId)
    (baseName : string) (vn : gmap XrefId string) (i : nat) (h h' : Heap)
    (cu : CompilationUnit) (e : NamingError) :
  h_views h !! u = Some cu -> unitKind cu = HostBindingCompilationUnit ->
  nameOp recur u baseName compatibility vn i h = (Throw e, h') ->
  e = MustBeCompilingComponent \/ e = UndefinedVariable.
Proof.
  intros Hu Hkind. unfold Naming.nameOp, bind at 1, getUnit. rewrite Hu.
  destruct (ops cu !! i) as [op|]; [|done].
  destruct (kind op) as [n t|n t|n hf s tg a ph|x v|x s tg ns|n|n|]; try done.
  - by destruct t.
  - by destruct t.
  - by rewrite Hkind.
  - unfold bind, getVariableName.
    destruct (h_variables h !! v) as [sv|]; [by destruct (variable_name sv)|].
    intros [= <- <-]. by right.
  - rewrite Hkind. intros [= <- <-]. by left.
  - by destruct compatibility.
Qed.

Lemma addNamesToView_hostBinding (depth : nat) (u : XrefId) (baseName : string)
    (h : Heap) (cu : CompilationUnit) :
  h_views h !! u = Some cu -> unitKind cu = HostBindingCompilationUnit ->
  (forall h', addNamesToView depth u baseName compatibility h = (Done tt, h') ->
     exists cu',
       h_views h' !! u = Some cu' /\
       forall j o, ops cu' !! j = Some o -> handled baseName o) /\
  (forall e h', addNamesToView depth u baseName compatibility h = (Throw e, h') ->
     e <> ExpectedSlotListener /\ e <> ExpectedSlotTemplate).
Proof.
  intros Hu Hkind. destruct depth as [|d]; [done|]. split.
  - intros h' Hrun.
    destruct (addNamesToView_done _ _ _ _ _ Hrun)
      as (c & h0 & vn & h1 & Hc & E0 & E1 & E2 & Hc0 & Hc1 & Hc2 & _).
    assert (c = cu) by congruence. subst c.
    destruct (changes_unit _ _ _ _ Hc0 Hu) as (cu0 & Hu0 & Hk0 & Hlen0 & _).
    assert (handledUpTo baseName u (0 + List.length (ops cu)) h1) as H1.
    { apply (foldM_seq_invariant
               (fun i (_ : gmap XrefId string) hx => handledUpTo baseName u i hx)
               (nameOp (addNamesToView d) u baseName compatibility)
               (List.length (ops cu)) 0 ∅ h0 vn h1).
      - exists cu0. split; [done|]. split; [congruence|]. intros j o Hj. lia.
      - intros i b0 hx b1 hx' _ Hi Hstep. by eapply nameOp_handles.
      - exact E1. }
    pose proof (foldM_preserves (fun hx => handledUpTo baseName u (List.length (ops cu)) hx)
                  (resolveOp u vn) (seq 0 (List.length (ops cu)))
                  (fun b j hx Hx => resolveOp_handles baseName u vn b j _ hx Hx)
                  tt h1 H1) as H2.
    unfold resolveOps in E2. rewrite E2 in H2. simpl in H2.
    destruct H2 as (cu' & Hu' & _ & Hall). exists cu'. split; [done|].
    intros j o Hj. apply (Hall j o); [|done].
    assert (changes h h') as Hhh
      by (eapply changes_trans; [exact Hc0|]; eapply changes_trans; eauto).
    destruct (changes_unit _ _ _ _ Hhh Hu) as (c2 & Hc2' & _ & Hlen & _).
    assert (c2 = cu') by congruence. subst c2.
    rewrite <- Hlen. by eapply lookup_lt_Some.
  - intros e h' Hrun. simpl in Hrun. unfold bind at 1, getUnit in Hrun.
    rewrite Hu in Hrun. unfold bind in Hrun. unfold Naming.nameUnit, bind in Hrun.
    pose proof (assignFnName_changes sanitizeIdentifier hyphenate jobFnSuffix
                  TemplateDefinitionBuilder compatibility u baseName cu h Hu) as Hc0.
    destruct (assignFnName sanitizeIdentifier jobFnSuffix u baseName cu h)
      as [[[]|e0|] h0] eqn:E0; simpl in Hc0;
      [|unfold assignFnName in E0; by destruct (fnName cu)..].
    assert (forall b a hx,
              changes hx (nameOp (addNamesToView d) u baseName compatibility b a hx).2)
      as Hstep by (intros; apply nameOp_changes; intros; apply addNamesToView_changes).
    unfold Naming.nameOps in Hrun.
    destruct (foldM (nameOp (addNamesToView d) u baseName compatibility)
                (seq 0 (List.length (ops cu))) ∅ h0) as [[vn|e1|] h1] eqn:E1;
      try done.
    + destruct (foldM_throws (resolveOp u vn) _ (resolveOp_changes u vn) tt h1 h' e Hrun)
        as ([] & j & hx & Hcx & Hthrow).
      revert Hthrow. unfold resolveOp, bind at 1, getUnit.
      destruct (h_views hx !! u) as [cx|]; [|by intros [= <- <-]].
      destruct (ops cx !! j) as [op|]; [|done].
      destruct (resolveExprs vn (exprs op)) as [es [e0|]] eqn:E; [|done].
      intros [= <- <-]. by destruct (resolveExprs_error _ _ _ _ E) as (y & -> & _).
    + injection Hrun as <- <-.
      destruct (foldM_throws _ _ Hstep ∅ h0 h1 e1 E1) as (b0 & j & hx & Hcx & Hthrow).
      destruct (changes_unit _ _ _ _ (changes_trans _ _ _ Hc0 Hcx) Hu)
        as (cx & Hux & Hkx & _).
      destruct (nameOp_needs_no_slot _ _ _ _ _ _ _ _ _ Hux (eq_trans Hkx Hkind) Hthrow)
        as [->| ->]; done.
Qed.

End hostBinding.

Section theorems.
Variable sanitizeIdentifier : string -> string.
Variable hyphenate : string -> string.
Variable prefixWithNamespace : option string -> Namespace -> string.

Local Abbreviation phaseNaming :=
  (phaseNaming sanitizeIdentifier hyphenate prefixWithNamespace).

(** X15.  For a job in compatibility mode whose root is a host binding:
    when [phaseNaming] returns, every listener of the root has the sanitized
    [<componentName>_<name>_HostBindingHandler] for its handler name,
    whatever handler name it had, with or without a slot; and the phase
    never throws for a missing slot. *)
Theorem phaseNaming_names_host_binding_handlers (depth : nat) (cpl : CompilationJob)
    (cu : CompilationUnit) :
  compatibility cpl = TemplateDefinitionBuilder ->
  views cpl !! root cpl = Some cu -> unitKind cu = HostBindingCompilationUnit ->
  ((phaseNaming depth cpl).1 = Done tt ->
   exists cu',
     views (phaseNaming depth cpl).2 !! root cpl = Some cu' /\
     forall j o, ops cu' !! j = Some o ->
       hostBindingHandler sanitizeIdentifier (componentName cpl) o) /\
  (phaseNaming depth cpl).1 <> Throw ExpectedSlotListener /\
  (phaseNaming depth cpl).1 <> Throw ExpectedSlotTemplate.
Proof.
  intros Hcompat Hroot Hkind.
  destruct (NamingGuarantees.phaseNaming_run sanitizeIdentifier hyphenate
              prefixWithNamespace depth cpl) as (h' & Hrun & -> & _).
  rewrite Hcompat in Hrun. simpl in Hrun.
  destruct (addNamesToView_hostBinding sanitizeIdentifier hyphenate prefixWithNamespace
              (fnSuffix cpl) true depth (root cpl) (componentName cpl)
              (mkHeap (views cpl) (variables cpl) 0) cu Hroot Hkind) as [Hdone Hthrow].
  split; [|split].
  - intros Hd. rewrite Hd in Hrun. by apply Hdone.
  - intros He. rewrite He in Hrun. by destruct (Hthrow _ _ Hrun).
  - intros He. rewrite He in Hrun. by destruct (Hthrow _ _ Hrun).
Qed.

End theorems.

Lemma phaseNaming_names_host_binding_handlers_witness :
  exists cu',
    views (Helpers.phaseNaming 2 legacyHostJob).2 !! 0 = Some cu' /\
    forall j o, ops cu' !! j = Some o ->
      hostBindingHandler Helpers.sanitizeIdentifier "App" o.
Proof.
  apply (phaseNaming_names_host_binding_handlers Helpers.sanitizeIdentifier
           Helpers.hyphenate Helpers.prefixWithNamespace 2 legacyHostJob
           (mkUnit HostBindingCompilationUnit (Some "App_HostBindings")
              [ mkOp (Listener "click" (Some "onClick") None None false None) [] ])
           eq_refl eq_refl eq_refl).
  vm_compute. reflexivity.
Defined.

End HostBindingListeners.

(** ** Nothing outside the views under the root is touched *)

Module NamingReachFacts.
Import Text TextFacts Naming NamingSpec NamingWrites NamingConditions NamingReach
  NamingFacts NamingCoverage NamingTermination ReadResolution NamingWriteFacts
  NamingOutcome FunctionNames Examples.
Local Open Scope naming_scope.

Section reach.
Variable sanitizeIdentifier : string -> string.
Variable hyphenate : string -> string.
Variable prefixWithNamespace : option string -> Namespace -> string.
Variable jobFnSuffix : string.
Variable jobCompatibility : CompatibilityMode.
Variable compatibility : bool.

Local Abbreviation evolves := (evolves hyphenate jobCompatibility compatibility).
Local Abbreviation changes :=
  (changes sanitizeIdentifier hyphenate jobFnSuffix jobCompatibility compatibility).
Local Abbreviation nameOp :=
  (nameOp sanitizeIdentifier hyphenate prefixWithNamespace jobCompatibility).
Local Abbreviation nameUnit :=
  (nameUnit sanitizeIdentifier hyphenate prefixWithNamespace jobFnSuffix jobCompatibility).
Local Abbreviation addNamesToView :=
  (addNamesToView sanitizeIdentifier hyphenate prefixWithNamespace jobFnSuffix
     jobCompatibility).
Local Abbreviation changes_evolves :=
  (changes_evolves sanitizeIdentifier hyphenate jobFnSuffix jobCompatibility
     compatibility).
Local Abbreviation changes_trans :=
  (changes_trans sanitizeIdentifier hyphenate jobFnSuffix jobCompatibility compatibility).
Local Abbreviation nameOp_changes :=
  (nameOp_changes sanitizeIdentifier hyphenate prefixWithNamespace jobFnSuffix
     jobCompatibility compatibility).
Local Abbreviation resolveOp_changes :=
  (resolveOp_changes sanitizeIdentifier hyphenate jobFnSuffix jobCompatibility
     compatibility).
Local Abbreviation assignFnName_changes :=
  (assignFnName_changes sanitizeIdentifier hyphenate jobFnSuffix jobCompatibility
     compatibility).
Local Abbreviation addNamesToView_changes :=
  (addNamesToView_changes sanitizeIdentifier hyphenate prefixWithNamespace jobFnSuffix
     jobCompatibility compatibility).
Local Abbreviation backward :=
  (evolves_op_backward hyphenate jobCompatibility compatibility).
Local Abbreviation childView_back :=
  (evolves_childView_back hyphenate jobCompatibility compatibility).

(** From [h] to [h'] nothing is written outside the units under [u] and the
    variables they declare. *)
Local Abbreviation within h u h' :=
  ((forall u', ~ reachable (h_views h) u u' -> h_views h' !! u' = h_views h !! u') /\
   (forall v, (forall u', reachable (h_views h) u u' -> ~ declares (h_views h) u' v) ->
              h_variables h' !! v = h_variables h !! v)).

(** What a step of the first loop does to the heap: nothing, a write to
    its operation, the naming of the variable of its operation, or a call of
    [addNamesToView] on the view of its operation. *)
Lemma nameOp_cases (recur : XrefId -> string -> bool -> M unit) (u : XrefId)
    (baseName : string) (vn : gmap XrefId string) (j : nat) (h : Heap) :
  (nameOp recur u baseName compatibility vn j h).2 = h \/
  (exists o', (nameOp recur u baseName compatibility vn j h).2 = replaceOp u j o' h) \/
  (exists cu o x v,
     h_views h !! u = Some cu /\ ops cu !! j = Some o /\ kind o = VariableOp x v /\
     (nameOp recur u baseName compatibility vn j h).2 = (getVariableName v h).2) \/
  (exists cu o x s tg ns baseName',
     h_views h !! u = Some cu /\ ops cu !! j = Some o /\
     kind o = Template x (Some s) tg ns /\
     (nameOp recur u baseName compatibility vn j h).2
     = (recur x baseName' compatibility h).2).
Proof.
  set (hr := (nameOp recur u baseName compatibility vn j h).2).
  assert (hr = (nameOp recur u baseName compatibility vn j h).2) as Hr by reflexivity.
  clearbody hr. unfold Naming.nameOp, bind at 1, getUnit in Hr.
  destruct (h_views h !! u) as [cu|] eqn:Hu; [|by left].
  destruct (ops cu !! j) as [op|] eqn:Hj; [|by left].
  destruct (kind op) as [n t|n t|n hf s tg a ph|x v|x s tg ns|n|n|] eqn:Hk.
  - destruct t; [|by left]. rewrite setKind_then_ret_eq in Hr. right; left. eauto.
  - destruct t; [|by left]. rewrite setKind_then_ret_eq in Hr. right; left. eauto.
  - destruct (_ && _).
    + rewrite setKind_then_ret_eq in Hr. right; left. eauto.
    + destruct hf; [by left|]. destruct s; [|by left].
      destruct (listenerNames _ _ _ _ _ _ _).
      rewrite setKind_then_ret_eq in Hr. right; left. eauto.
  - right; right; left. exists cu, op, x, v. repeat (split; [done|]).
    rewrite Hr. unfold bind. by destruct (getVariableName v h) as [[n|e|] h1].
  - destruct (unitKind cu); [|by left]. destruct s as [s|]; [|by left].
    right; right; right. eexists cu, op, x, s, tg, ns, _. repeat (split; [done|]).
    rewrite Hr. apply bind_ret_heap.
  - rewrite setKind_then_ret_eq in Hr. right; left. eauto.
  - destruct compatibility; [|by left].
    rewrite setKind_then_ret_eq in Hr. right; left. eauto.
  - by left.
Qed.

Lemma resolveOp_cases (u : XrefId) (vn : gmap XrefId string) (x : unit) (j : nat)
    (h : Heap) :
  (resolveOp u vn x j h).2 = h \/
  exists o', (resolveOp u vn x j h).2 = replaceOp u j o' h.
Proof.
  set (hr := (resolveOp u vn x j h).2).
  assert (hr = (resolveOp u vn x j h).2) as Hr by reflexivity.
  clearbody hr. unfold resolveOp, bind at 1, getUnit in Hr.
  destruct (h_views h !! u) as [cu|]; [|by left].
  destruct (ops cu !! j) as [op|]; [|by left].
  destruct (resolveExprs vn (exprs op)) as [es [e|]]; right; eexists; exact Hr.
Qed.

Lemma evolves_reachable_back (h h' : Heap) (a b : XrefId) :
  evolves h h' -> reachable (h_views h') a b -> reachable (h_views h) a b.
Proof.
  intros Hev. apply rtc_subrel. intros x y. by apply childView_back.
Qed.

Lemma evolves_declares_back (h h' : Heap) (u : XrefId) (v : VarRef) :
  evolves h h' -> declares (h_views h') u v -> declares (h_views h) u v.
Proof.
  intros Hev (cu' & j & o' & x & Hu' & Hj' & Hk').
  destruct (backward _ _ _ _ _ _ Hev Hu' Hj') as (cu & o & Hu & Hj & Hkk).
  rewrite Hk' in Hkk. apply kindKeeps_VariableOp_r in Hkk.
  by exists cu, j, o, x.
Qed.

Lemma getVariableName_heap (v : VarRef) (h : Heap) :
  h_views (getVariableName v h).2 = h_views h /\
  forall v', v' <> v ->
    h_variables (getVariableName v h).2 !! v' = h_variables h !! v'.
Proof.
  unfold getVariableName. destruct (h_variables h !! v) as [sv|]; [|done].
  destruct (variable_name sv); [done|]. simpl. split; [done|].
  intros v' Hne. by rewrite lookup_insert_ne.
Qed.

Lemma within_replaceOp (h hx : Heap) (u : XrefId) (j : nat) (o' : Op) :
  within h u hx -> within h u (replaceOp u j o' hx).
Proof.
  intros [Hv Hs]. split; [|done]. intros u' Hnr. simpl.
  rewrite lookup_alter_ne; [by apply Hv|]. intros <-. apply Hnr, rtc_refl.
Qed.

Lemma addNamesToView_within (depth : nat) :
  forall (u : XrefId) (baseName : string) (h : Heap),
    within h u (addNamesToView depth u baseName compatibility h).2.
Proof.
  induction depth as [|d IH]; intros u baseName h; [done|].
  set (hr := (addNamesToView (S d) u baseName compatibility h).2).
  assert (hr = (addNamesToView (S d) u baseName compatibility h).2) as Hr by reflexivity.
  clearbody hr. simpl in Hr. unfold bind at 1, getUnit in Hr.
  destruct (h_views h !! u) as [cu|] eqn:Hu; [|by rewrite Hr].
  set (I := fun hx : Heap => evolves h hx /\ within h u hx).
  assert (forall b j hx,
            I hx -> I (nameOp (addNamesToView d) u baseName compatibility b j hx).2)
    as Hstep1.
  { intros b j hx [Hev Hw]. split.
    - eapply evolves_trans; [exact Hev|]. apply changes_evolves, nameOp_changes.
      intros. apply addNamesToView_changes.
    - destruct (nameOp_cases (addNamesToView d) u baseName b j hx)
        as [->|[[o' ->]|[(cx & ox & x & v & Hux & Hjx & Hkx & ->)
                        |(cx & ox & x & s & tg & ns & b' & Hux & Hjx & Hkx & ->)]]].
      + done.
      + by apply within_replaceOp.
      + destruct Hw as [Hv Hs]. destruct (getVariableName_heap v hx) as [Hviews Hvars].
        split; [by rewrite Hviews|].
        intros v' Hv'. rewrite Hvars; [by apply Hs|].
        intros ->. apply (Hv' u (rtc_refl _ _)).
        apply (evolves_declares_back h hx u v Hev). by exists cx, j, ox, x.
      + destruct Hw as [Hv Hs]. destruct (IH x b' hx) as [Hv' Hs'].
        assert (childView (h_views h) u x) as Hchild.
        { apply (childView_back h hx u x Hev). exists cx, j, ox, (Some s), tg, ns. auto. }
        assert (forall u', reachable (h_views hx) x u' -> reachable (h_views h) u u')
          as Hreach.
        { intros u' Hxu. eapply rtc_l; [exact Hchild|].
          by apply (evolves_reachable_back h hx). }
        split.
        * intros u' Hnr. rewrite Hv'; [by apply Hv|]. intros Hxu. by apply Hnr, Hreach.
        * intros v' Hnd. rewrite Hs'; [by apply Hs|].
          intros u' Hxu Hd. apply (Hnd u' (Hreach u' Hxu)).
          by apply (evolves_declares_back h hx). }
  assert (forall vn b j hx, I hx -> I (resolveOp u vn b j hx).2) as Hstep2.
  { intros vn b j hx [Hev Hw]. split.
    - eapply evolves_trans; [exact Hev|]. apply changes_evolves, resolveOp_changes.
    - destruct (resolveOp_cases u vn b j hx) as [->|[o' ->]]; [done|].
      by apply within_replaceOp. }
  assert (I (assignFnName sanitizeIdentifier jobFnSuffix u baseName cu h).2) as H0.
  { split; [by apply changes_evolves, assignFnName_changes|].
    unfold assignFnName. destruct (fnName cu); [done|]. simpl. split; [|done].
    intros u' Hnr. rewrite lookup_alter_ne; [done|]. intros <-. apply Hnr, rtc_refl. }
  cut (I hr); [by intros [_ ?]|]. rewrite Hr.
  apply (bind_post I); [unfold Naming.nameUnit; apply (bind_post I)|].
  - exact H0.
  - intros _ hx Hx. unfold Naming.nameOps.
    apply (foldM_preserves I); [exact Hstep1|exact Hx].
  - intros vn hx Hx. unfold resolveOps.
    apply (foldM_preserves I); [exact (Hstep2 vn)|exact Hx].
Qed.

End reach.

Section theorems.
Variable sanitizeIdentifier : string -> string.
Variable hyphenate : string -> string.
Variable prefixWithNamespace : option string -> Namespace -> string.

Local Abbreviation phaseNaming :=
  (phaseNaming sanitizeIdentifier hyphenate prefixWithNamespace).

(** X16.  Whatever its outcome, [phaseNaming] leaves every unit that is not
    reachable from the root through [Template] operations exactly as it is,
    and every variable that no [Variable] operation of a reachable unit
    has. *)
Theorem phaseNaming_stays_under_the_root (depth : nat) (cpl : CompilationJob) :
  (forall u, ~ reachable (views cpl) (root cpl) u ->
     views (phaseNaming depth cpl).2 !! u = views cpl !! u) /\
  (forall v,
     (forall u, reachable (views cpl) (root cpl) u -> ~ declares (views cpl) u v) ->
     variables (phaseNaming depth cpl).2 !! v = variables cpl !! v).
Proof.
  destruct (NamingGuarantees.phaseNaming_run sanitizeIdentifier hyphenate
              prefixWithNamespace depth cpl) as (h' & Hrun & -> & ->).
  pose proof (addNamesToView_within sanitizeIdentifier hyphenate prefixWithNamespace
                (fnSuffix cpl) (compatibility cpl)
                (isTemplateDefinitionBuilder (compatibility cpl)) depth (root cpl)
                (componentName cpl) (mkHeap (views cpl) (variables cpl) 0)) as H.
  by rewrite Hrun in H.
Qed.

End theorems.

(** A job with a view that no [Template] operation points at, and a
    variable that only that view declares. *)
Lemma phaseNaming_stays_under_the_root_witness :
  let cpl :=
    mkJob "App" "Template" Normal 0
      (<[ 0 := mkUnit ViewCompilationUnit None [ mkOp (VariableOp 10 0) [] ] ]>
       {[ 5 := mkUnit ViewCompilationUnit None
                 [ mkOp (VariableOp 50 1) []; mkOp (StyleProp "fontSize") [] ] ]})
      (<[ 0 := mkSemanticVariable Context None ]>
       {[ 1 := mkSemanticVariable Context None ]}) in
  views (Helpers.phaseNaming 2 cpl).2 !! 5 = views cpl !! 5 /\
  (Helpers.phaseNaming 2 cpl).1 = Done tt.
Proof.
  intros cpl. split; [|vm_compute; reflexivity].
  apply (proj1 (phaseNaming_stays_under_the_root Helpers.sanitizeIdentifier
                  Helpers.hyphenate Helpers.prefixWithNamespace 2 cpl)).
  intros Hr. apply rtc_inv in Hr as [H|(b & (cu & j & o & s & tg & ns & Hcu & Hj & Hk) & _)].
  - discriminate.
  - vm_compute in Hcu. injection Hcu as <-.
    destruct j as [|[|j]]; simpl in Hj; [|discriminate..].
    injection Hj as <-. discriminate.
Defined.

End NamingReachFacts.


(** ** A job without defects is named *)

Module NamingCorrectness.
Import Text TextFacts Naming NamingSpec NamingErrors NamingTermination NamingOutcome
  NamingErrorFacts Examples.
Local Open Scope naming_scope.

Section theorems.
Variable sanitizeIdentifier : string -> string.
Variable hyphenate : string -> string.
Variable prefixWithNamespace : option string -> Namespace -> string.

Local Abbreviation phaseNaming :=
  (phaseNaming sanitizeIdentifier hyphenate prefixWithNamespace).

(** X17. The phase returns when it is given a job whose views are nested
    less deep than the bound and which has none of the defects an exception
    stands for: every listener outside a host binding in compatibility mode
    has a handler name or a slot, no host binding has a [Template]
    operation, every [Template] operation has a slot and points at a unit
    of the job, every read without a name is in a unit with a [Variable]
    operation for its xref, every [Variable] operation has its variable in
    the job, and the root is a unit of the job. *)
Theorem phaseNaming_returns_on_sound_jobs (depth : nat) (cpl : CompilationJob) :
  nestingWithin (views cpl) depth (root cpl) ->
  (forall e, ~ errorCause (compatibility cpl) (views cpl) (variables cpl) (root cpl) e) ->
  (phaseNaming depth cpl).1 = Done tt.
Proof.
  intros Hnest Hsound.
  destruct (NamingGuarantees.phaseNaming_run sanitizeIdentifier hyphenate
              prefixWithNamespace depth cpl) as (h' & Hrun & _ & _).
  destruct (phaseNaming depth cpl).1 as [[]|e|] eqn:E; [done| |].
  - destruct (Hsound e).
    apply (addNamesToView_throws sanitizeIdentifier hyphenate prefixWithNamespace
             (fnSuffix cpl) (compatibility cpl)
             (isTemplateDefinitionBuilder (compatibility cpl)) depth (root cpl)
             (componentName cpl) (mkHeap (views cpl) (variables cpl) 0) h' e Hrun).
  - pose proof (addNamesToView_returns sanitizeIdentifier hyphenate prefixWithNamespace
                  (fnSuffix cpl) (compatibility cpl)
                  (isTemplateDefinitionBuilder (compatibility cpl)) depth (root cpl)
                  (componentName cpl) (mkHeap (views cpl) (variables cpl) 0) Hnest) as H.
    by rewrite Hrun in H.
Qed.

End theorems.

(** The units of [nestedJob]. *)
Lemma nestedJob_units (u : XrefId) (cu : CompilationUnit) :
  views nestedJob !! u = Some cu ->
  u = 0 /\ views nestedJob !! 0 = Some cu \/
  u = 1 /\ views nestedJob !! 1 = Some cu \/
  u = 2 /\ views nestedJob !! 2 = Some cu.
Proof.
  intros Hu.
  destruct (decide (u = 0)) as [->|H0]; [auto|].
  destruct (decide (u = 1)) as [->|H1]; [auto|].
  destruct (decide (u = 2)) as [->|H2]; [auto|].
  exfalso. revert Hu. unfold nestedJob. simpl.
  rewrite !lookup_insert_ne by done. by rewrite lookup_singleton_ne.
Qed.

Local Ltac unit_of Hu :=
  apply nestedJob_units in Hu as [[-> Hu]|[[-> Hu]|[-> Hu]]];
  vm_compute in Hu; injection Hu as <-.

Local Ltac op_of Hj :=
  match type of Hj with
  | _ !! ?j = Some _ =>
      destruct j as [|[|[|[|j]]]]; simpl in Hj; try done; injection Hj as <-
  end.

(** In [nestedJob] only the root has views nested in it. *)
Lemma nestedJob_children (a b : XrefId) :
  childView (views nestedJob) a b -> a = 0 /\ (b = 1 \/ b = 2).
Proof.
  intros (cu & j & o & s & tg & ns & Hu & Hj & Hk).
  unit_of Hu; op_of Hj; simpl in Hk; try done; injection Hk as <-; auto.
Qed.

Lemma nestedJob_nesting : nestingWithin (views nestedJob) 3 0.
Proof.
  intros b Hb c Hc. apply nestedJob_children in Hb as [_ Hb].
  apply nestedJob_children in Hc as [-> _]. by destruct Hb.
Qed.

(** [nestedJob] has none of the defects. *)
Lemma nestedJob_sound (e : NamingError) :
  ~ errorCause (compatibility nestedJob) (views nestedJob) (variables nestedJob)
      (root nestedJob) e.
Proof.
  intros He. destruct e; simpl in He.
  - destruct He as (u & cu & j & o & n & tg & a & ph & Hu & _ & Hj & Hk).
    unit_of Hu; op_of Hj; done.
  - destruct He as (u & cu & j & o & x & s & tg & ns & Hu & Hh & _).
    unit_of Hu; done.
  - destruct He as (u & cu & j & o & x & tg & ns & Hu & Hj & Hk).
    unit_of Hu; op_of Hj; done.
  - destruct He as (u & cu & j & o & Hu & Hj & Hin & Hnone).
    unit_of Hu; op_of Hj;
      repeat (apply elem_of_cons in Hin as [Hin|Hin]);
      try (by apply elem_of_nil in Hin); try done; injection Hin as ->.
    + exact (Hnone 2 _ 2 eq_refl eq_refl).
    + exact (Hnone 0 _ 0 eq_refl eq_refl).
    + exact (Hnone 0 _ 1 eq_refl eq_refl).
  - destruct He as [He|(u & cu & j & o & x & s & tg & ns & Hu & Hj & Hk & Hx)];
      [done|].
    unit_of Hu; op_of Hj; simpl in Hk; try done; by injection Hk as <-.
  - destruct He as (u & cu & j & o & x & v & Hu & Hj & Hk & Hv).
    unit_of Hu; op_of Hj; simpl in Hk; try done; by injection Hk as <- <-.
Qed.

Lemma phaseNaming_returns_on_sound_jobs_witness :
  (Helpers.phaseNaming 3 nestedJob).1 = Done tt.
Proof.
  apply (phaseNaming_returns_on_sound_jobs Helpers.sanitizeIdentifier Helpers.hyphenate
           Helpers.prefixWithNamespace 3 nestedJob).
  - exact nestedJob_nesting.
  - exact nestedJob_sound.
Defined.

End NamingCorrectness.
